(** * AlleleCodes: the assignment engine of [assignAlleleCodes_py3.6.py]

    A shallow embedding of the parts of the script that its specification
    talks about: the distance function, the nomenclature tree and its name
    index, the allele-call store with its text format, the placement
    procedure [CalcName] with its merge, and the run controller with its lock
    file.

    Conventions of the embedding.
    - A Python [int] is a [Z]; a Python [float] is a binary64 [float] of the
      kernel ([PrimFloat]), so every arithmetic operation rounds as the
      interpreter's does.
    - A Python [dict] is an association list in insertion order with unique
      keys ([dict K V]); CPython 3.6 iterates a dict in that order and the
      script depends on it.
    - Code that can raise returns a [Res]; code that mutates runs in the
      state-and-exception monad [Py S]. *)

From Stdlib Require Import ZArith List Bool Arith Lia String Ascii.
From Stdlib Require Import Floats.PrimFloat Floats.FloatOps Floats.SpecFloat.
From Stdlib Require Import Numbers.Cyclic.Int63.Uint63.
Import ListNotations.

Set Implicit Arguments.
Set Warnings "-register-all".
Local Open Scope Z_scope.

(** ** Python values and control *)

Inductive exn : Type :=
| IndexError | KeyError | TypeError | ValueError | AttributeError
| AssertionError | ZeroDivisionError | JSONDecodeError | RuntimeError
| StopIteration | OSError | UnboundLocalError
| NotModelled.   (* the input leaves the modelled fragment of Python *)

Inductive Res (A : Type) : Type :=
| Ok (a : A)
| Raise (e : exn).
Arguments Ok {A} a.
Arguments Raise {A} e.

Definition Py (S A : Type) : Type := S -> Res A * S.

Definition ret {S A} (a : A) : Py S A := fun s => (Ok a, s).

Definition bind {S A B} (m : Py S A) (k : A -> Py S B) : Py S B :=
  fun s => match m s with
           | (Ok a, s') => k a s'
           | (Raise e, s') => (Raise e, s')
           end.

Definition raise {S A} (e : exn) : Py S A := fun s => (Raise e, s).
Definition get {S} : Py S S := fun s => (Ok s, s).
Definition put {S} (s : S) : Py S unit := fun _ => (Ok tt, s).
Definition modify {S} (f : S -> S) : Py S unit := fun s => (Ok tt, f s).

Declare Scope py_scope.
Delimit Scope py_scope with py.
Notation "x <- m ;; k" := (bind m (fun x => k))
  (at level 61, m at next level, right associativity) : py_scope.
Notation "m ;;; k" := (bind m (fun _ => k))
  (at level 61, right associativity) : py_scope.
Local Open Scope py_scope.

(** [[e(x) for x in xs]]: the elements are evaluated left to right and the
    first exception stops the comprehension. *)
Fixpoint comprehension {S A B} (e : A -> Py S B) (xs : list A) : Py S (list B) :=
  match xs with
  | [] => ret []
  | x :: xs' => b <- e x ;; bs <- comprehension e xs' ;; ret (b :: bs)
  end.

(** [[e(x) for x in xs if c(x)]]. *)
Fixpoint comprehension_if {S A B} (e : A -> Py S B) (c : A -> Py S bool)
         (xs : list A) : Py S (list B) :=
  match xs with
  | [] => ret []
  | x :: xs' =>
      t <- c x ;;
      if t then b <- e x ;; bs <- comprehension_if e c xs' ;; ret (b :: bs)
      else comprehension_if e c xs'
  end.

(** [range(n)] *)
Definition range (n : nat) : list nat := seq 0 n.

(** [sum] of a list of [bool]: [True] counts 1. *)
Definition sum_bool (bs : list bool) : Z :=
  fold_left (fun acc (b : bool) => acc + (if b then 1 else 0)) bs 0.

(** [float(n)] for a Python int. The conversion goes through a 63-bit
    machine integer: it is the interpreter's for every [0 <= n < 2^63],
    far above any count of loci. *)
Definition float_of_int (n : Z) : float := PrimFloat.of_uint63 (Uint63.of_Z n).

Definition f100 : float := float_of_int 100.

(** ** The distance function *)

(** Instrumentation: which profile an index expression reads, and where. *)
Inductive operand : Type := P1 | P2.

#[projections(primitive)]
Record World : Type := mkWorld {
  cntDistancesCalculated : Z;       (* the script's global counter *)
  reads : list (operand * nat)      (* every [p[i]] evaluated, oldest first *)
}.

(** [p[i]] for [i] drawn from a [range]: raises [IndexError] out of range. *)
Definition getitem (o : operand) (p : list Z) (i : nat) : Py World Z :=
  fun w =>
    let w' := mkWorld (cntDistancesCalculated w) (reads w ++ [(o, i)]) in
    match nth_error p i with
    | Some a => (Ok a, w')
    | None => (Raise IndexError, w')
    end.

(** [p1[i]>0 and p2[i]>0]: [and] does not evaluate its right operand when
    the left one is false. *)
Definition both_called (p1 p2 : list Z) (i : nat) : Py World bool :=
  a <- getitem P1 p1 i ;;
  if 0 <? a then b <- getitem P2 p2 i ;; ret (0 <? b) else ret false.

(** [p1[i] and p2[i]] as a condition: an int is true when it is not 0. *)
Definition both_truthy (p1 p2 : list Z) (i : nat) : Py World bool :=
  a <- getitem P1 p1 i ;;
  if a =? 0 then ret false else b <- getitem P2 p2 i ;; ret (negb (b =? 0)).

(** [p1[i] != p2[i]] *)
Definition differ (p1 p2 : list Z) (i : nat) : Py World bool :=
  a <- getitem P1 p1 i ;; b <- getitem P2 p2 i ;; ret (negb (a =? b)).

Definition GetDistance (p1 p2 : list Z) : Py World float :=
  modify (fun w => mkWorld (cntDistancesCalculated w + 1) (reads w)) ;;;
  cs <- comprehension (both_called p1 p2) (range (List.length p1)) ;;
  let nCommon := sum_bool cs in
  ds <- comprehension_if (differ p1 p2) (both_truthy p1 p2) (range (List.length p1)) ;;
  let nDiff := sum_bool ds in
  if negb (nCommon =? 0)
  then ret (f100 * float_of_int nDiff / float_of_int nCommon)%float
  else ret f100.

(** The value [GetDistance] returns, as a function of the two profiles. *)
Definition world0 : World := mkWorld 0 [].
Definition distance (p1 p2 : list Z) : Res float := fst (GetDistance p1 p2 world0).

(** *** The specification's reading of the distance *)

(** A profile of the data model: allele numbers are not negative. *)
Definition is_profile (p : list Z) : Prop := Forall (fun a => 0 <= a) p.

Definition at_ (p : list Z) (i : nat) : Z := nth i p 0.

(** [common = |{ i : p1[i] > 0 /\ p2[i] > 0 }|] *)
Definition common (p1 p2 : list Z) : Z :=
  Z.of_nat (List.length (filter (fun i => (0 <? at_ p1 i) && (0 <? at_ p2 i))
                                (range (List.length p1)))).

(** [diff = |{ i : p1[i] > 0 /\ p2[i] > 0 /\ p1[i] <> p2[i] }|] *)
Definition diff (p1 p2 : list Z) : Z :=
  Z.of_nat (List.length (filter (fun i => (0 <? at_ p1 i) && (0 <? at_ p2 i)
                                            && negb (at_ p1 i =? at_ p2 i))
                                (range (List.length p1)))).

Definition dist_spec (p1 p2 : list Z) : float :=
  if common p1 p2 =? 0 then f100
  else (f100 * float_of_int (diff p1 p2) / float_of_int (common p1 p2))%float.

(** An index read is in bounds when it is below the length of the profile
    it reads. *)
Definition in_bounds (p1 p2 : list Z) (r : operand * nat) : Prop :=
  match r with
  | (P1, i) => (i < List.length p1)%nat
  | (P2, i) => (i < List.length p2)%nat
  end.

(** ** Python dicts

    Insertion order is kept: assigning to a key that is present keeps its
    place, a new key goes to the end, a deleted key leaves no trace. *)

Section Dict.
Variables (K V : Type) (eqb : K -> K -> bool).

Definition dict : Type := list (K * V).

Fixpoint dict_get (k : K) (d : dict) : option V :=
  match d with
  | [] => None
  | (k', v) :: d' => if eqb k k' then Some v else dict_get k d'
  end.

(** [k in d] *)
Definition dict_in (k : K) (d : dict) : bool :=
  match dict_get k d with Some _ => true | None => false end.

(** [d[k] = v] *)
Fixpoint dict_set (k : K) (v : V) (d : dict) : dict :=
  match d with
  | [] => [(k, v)]
  | (k', v') :: d' =>
      if eqb k k' then (k', v) :: d' else (k', v') :: dict_set k v d'
  end.

(** [del d[k]]: [KeyError] when [k] is absent. *)
Definition dict_del (k : K) (d : dict) : Res dict :=
  if dict_in k d then Ok (filter (fun kv => negb (eqb k (fst kv))) d)
  else Raise KeyError.

Definition dict_keys (d : dict) : list K := map fst d.
Definition dict_values (d : dict) : list V := map snd d.

(** [d.setdefault(k, v)]: the stored value, after storing [v] when [k]
    is absent. *)
Definition dict_setdefault (k : K) (v : V) (d : dict) : V * dict :=
  match dict_get k d with
  | Some v' => (v', d)
  | None => (v, dict_set k v d)
  end.

End Dict.

Arguments dict_get {K V} eqb k d.
Arguments dict_in {K V} eqb k d.
Arguments dict_set {K V} eqb k v d.
Arguments dict_del {K V} eqb k d.
Arguments dict_keys {K V} d.
Arguments dict_values {K V} d.
Arguments dict_setdefault {K V} eqb k v d.

(** An isolate identifier. *)
Definition Key : Type := string.
Definition key_eqb : Key -> Key -> bool := String.eqb.

(** [x in xs] for a list or a set of keys. *)
Definition key_in (k : Key) (ks : list Key) : bool := existsb (key_eqb k) ks.

(** [lift] runs a computation that cannot touch the state. *)
Definition lift {S A} (r : Res A) : Py S A := fun s => (r, s).

Definition from_option {A} (e : exn) (o : option A) : Res A :=
  match o with Some a => Ok a | None => Raise e end.

(** [max(a, b)] on floats: the first argument unless the second is greater. *)
Definition fmax (a b : float) : float := if PrimFloat.ltb a b then b else a.

(** [max] of a non-empty iterable, [ValueError] on an empty one; the first
    of several greatest items is returned. *)
Definition max_Z (xs : list Z) : Res Z :=
  match xs with
  | [] => Raise ValueError
  | x :: xs' => Ok (fold_left (fun m y => if m <? y then y else m) xs' x)
  end.

Definition max_float (xs : list float) : Res float :=
  match xs with
  | [] => Raise ValueError
  | x :: xs' => Ok (fold_left fmax xs' x)
  end.

(** [xs[-1]] *)
Definition last_item {A} (xs : list A) : Res A :=
  match rev xs with
  | [] => Raise IndexError
  | x :: _ => Ok x
  end.

(** ** The nomenclature tree *)

(** What a [NamedNode] adds to a [Node]. Every value of the script's
    [_namedChildren] dict is the node's one [_wgst] list, so the dict is
    kept as its keys. *)
Record NamedPart : Type := mkNamed {
  _wgst : list Z;
  _namedChildren : list Key
}.

(** A [Node] object; [namedPart] is present exactly for instances of the
    subclass [NamedNode]. The object graph is kept as a tree: a child is
    owned by the [_children] dict that holds it, and [_parent] is the node
    above. A reference to a node is its address, the list of dict keys
    that leads to it from the head node. *)
Inductive Node : Type := mkNode {
  _ID : Z;
  _level : Z;
  _children : list (Z * Node);
  _diameter : float;
  _preferred : option Key;
  _entryKeys : option (list Key);
  namedPart : option NamedPart
}.

Definition Address : Type := list Z.

Definition isNamedNode (n : Node) : bool :=
  match namedPart n with Some _ => true | None => false end.

Definition with_children (n : Node) (cs : list (Z * Node)) : Node :=
  mkNode (_ID n) (_level n) cs (_diameter n) (_preferred n) (_entryKeys n) (namedPart n).
Definition with_ID (n : Node) (i : Z) : Node :=
  mkNode i (_level n) (_children n) (_diameter n) (_preferred n) (_entryKeys n) (namedPart n).
Definition with_diameter (n : Node) (d : float) : Node :=
  mkNode (_ID n) (_level n) (_children n) d (_preferred n) (_entryKeys n) (namedPart n).
Definition with_preferred (n : Node) (p : option Key) : Node :=
  mkNode (_ID n) (_level n) (_children n) (_diameter n) p (_entryKeys n) (namedPart n).
Definition with_entryKeys (n : Node) (ks : option (list Key)) : Node :=
  mkNode (_ID n) (_level n) (_children n) (_diameter n) (_preferred n) ks (namedPart n).
Definition with_named (n : Node) (np : option NamedPart) : Node :=
  mkNode (_ID n) (_level n) (_children n) (_diameter n) (_preferred n) (_entryKeys n) np.

(** [Node(ID, level, parent)] *)
Definition new_Node (ID level : Z) : Node :=
  mkNode ID level [] (float_of_int 0) None None None.

(** [NamedNode(ID, level, parent)]: [path] is [RTraverse()[-1::-1]] at
    creation, the ids from below the head node down to the new node. *)
Definition new_NamedNode (ID level : Z) (path : list Z) : Node :=
  mkNode ID level [] (float_of_int 0) None None (Some (mkNamed path [])).

(** The node reached from [n] by following the dict keys of [a]. *)
Fixpoint node_at (n : Node) (a : Address) : option Node :=
  match a with
  | [] => Some n
  | k :: a' =>
      match dict_get Z.eqb k (_children n) with
      | Some c => node_at c a'
      | None => None
      end
  end.

(** Mutation of the node at an address. *)
Fixpoint update_at (n : Node) (a : Address) (f : Node -> Node) : Node :=
  match a with
  | [] => f n
  | k :: a' =>
      match dict_get Z.eqb k (_children n) with
      | Some c => with_children n (dict_set Z.eqb k (update_at c a' f) (_children n))
      | None => n
      end
  end.

(** [RTraverse()[-1::-1]] of the node at address [a]: the [_ID]s of the
    nodes on the way down, the head node left out. *)
Fixpoint RTraverse_rev (n : Node) (a : Address) : list Z :=
  match a with
  | [] => []
  | k :: a' =>
      match dict_get Z.eqb k (_children n) with
      | Some c => _ID c :: RTraverse_rev c a'
      | None => []
      end
  end.

(** [Node.DFSNamed]: the named nodes at or below [n], each with its address
    relative to [n]. The script pops a stack that starts as the list of
    children: the last child comes first, and a popped inner node pushes
    its children, so its whole subtree is yielded before the next
    sibling's. This is the closed form of that loop; the loop itself is
    [DFSNamed_stack] below, and the two agree on every node. *)
Fixpoint DFSNamed (n : Node) : list (Address * Node) :=
  match n with
  | mkNode _ _ cs _ _ _ (Some _) => [([], n)]
  | mkNode _ _ cs _ _ _ None =>
      (fix stack (cs : list (Z * Node)) : list (Address * Node) :=
         match cs with
         | [] => []
         | (k, c) :: cs' =>
             stack cs' ++ map (fun an => (k :: fst an, snd an)) (DFSNamed c)
         end) cs
  end.

(** The loop of [DFSNamed] as the script writes it. [toCheck.pop()] takes
    the last item of the stack; a named node is yielded, any other pushes
    the nodes of its [_children] dict, in dict order. Every turn consumes
    one node, so the number of nodes below is fuel enough. *)
Fixpoint node_size (n : Node) : nat :=
  match n with
  | mkNode _ _ cs _ _ _ _ =>
      S ((fix sizes (cs : list (Z * Node)) : nat :=
            match cs with
            | [] => O
            | (_, c) :: cs' => (node_size c + sizes cs')%nat
            end) cs)
  end.

Fixpoint DFSNamed_loop (fuel : nat) (toCheck : list (Address * Node))
  : list (Address * Node) :=
  match fuel with
  | O => []
  | S fuel' =>
      match rev toCheck with
      | [] => []
      | (a, ob) :: rest =>
          if isNamedNode ob then (a, ob) :: DFSNamed_loop fuel' (rev rest)
          else DFSNamed_loop fuel'
                 (rev rest ++ map (fun kc => (a ++ [fst kc], snd kc)) (_children ob))
      end
  end.

Definition DFSNamed_stack (n : Node) : list (Address * Node) :=
  if isNamedNode n then [([], n)]
  else DFSNamed_loop (node_size n) (map (fun kc => ([fst kc], snd kc)) (_children n)).

Definition GetNamedChildren (n : Node) : Res (list Key) :=
  match namedPart n with
  | Some np => Ok (_namedChildren np)
  | None => Raise AttributeError
  end.

(** [NamedChildCount] and [TotalChildCount] *)
Definition NamedChildCount (n : Node) : Z :=
  match namedPart n with
  | Some np => Z.of_nat (List.length (_namedChildren np))
  | None => 0
  end.
Definition TotalChildCount (n : Node) : Z :=
  Z.of_nat (List.length (_children n)) + NamedChildCount n.

(** [iter_entrykeys] *)
Definition iter_entrykeys (n : Node) : list Key :=
  flat_map (fun an => match namedPart (snd an) with
                      | Some np => _namedChildren np
                      | None => []
                      end) (DFSNamed n).

(** [GetChild] *)
Definition GetChild (n : Node) (ID : Z) : option Node :=
  dict_get Z.eqb ID (_children n).

(** [Node.Traverse]: the address that the ids lead to, when every step
    finds a child. [ids[0]] of an empty list raises. *)
Fixpoint Traverse (n : Node) (ids : list Z) : Res (option Node) :=
  match ids with
  | [] => Raise IndexError
  | [i] => Ok (GetChild n i)
  | i :: ids' =>
      match GetChild n i with
      | Some c => Traverse c ids'
      | None => Ok None
      end
  end.

(** The [Tree] object: the head node, the name index and the class
    variable [DEPTH]. *)
#[projections(primitive)]
Record Tree : Type := mkTree {
  _tree : Node;
  _names : dict Key (list Z);
  DEPTH : Z
}.

Module TreeOps.

(** [Tree(depth)] *)
Definition init (depth : Z) : Tree := mkTree (new_Node 1 0) [] depth.

(** [Tree.GetName]: [self._names.setdefault(key, [])] *)
Definition GetName (key : Key) : Py Tree (list Z) :=
  fun t =>
    let (v, names') := dict_setdefault key_eqb key [] (_names t) in
    (Ok v, mkTree (_tree t) names' (DEPTH t)).

(** [Tree.HasName]: [key in self._names] *)
Definition HasName (key : Key) : Py Tree bool :=
  fun t => (Ok (dict_in key_eqb key (_names t)), t).

(** [Tree.GetNames] *)
Definition GetNames : Py Tree (dict Key (list Z)) :=
  fun t => (Ok (_names t), t).

(** [Tree.GetPart]: [self.GetName(key)[:level]] for a level that is not
    negative. *)
Definition GetPart (key : Key) (level : nat) : Py Tree (list Z) :=
  name <- GetName key ;; ret (firstn level name).

(** [Tree.FinalizeName] *)
Definition FinalizeName (key : Key) (name : list Z) : Py Tree unit :=
  fun t =>
    match Traverse (_tree t) name with
    | Raise e => (Raise e, t)
    | Ok None => (Raise AttributeError, t)
    | Ok (Some node) =>
        match namedPart node with
        | None => (Raise AttributeError, t)
        | Some np =>
            if key_in key (_namedChildren np)
            then (Ok tt, mkTree (_tree t) (dict_set key_eqb key name (_names t)) (DEPTH t))
            else (Raise AssertionError, t)
        end
    end.

End TreeOps.

(** ** Python values, their [repr] and the JSON reader

    Text is a string of bytes. The files of the store are written as the
    [str()] of a dict with every single quote replaced by a double quote,
    and read back with [json.load]. *)

Inductive pyval : Type :=
| VNone
| VBool (b : bool)
| VInt (z : Z)
| VFloatLit (text : string)       (* a JSON number with a fraction or an exponent *)
| VStr (s : string)
| VList (items : list pyval)
| VTuple (items : list pyval)
| VDict (items : list (string * pyval)).

Definition digit_char (d : Z) : ascii := ascii_of_nat (48 + Z.to_nat d).

(** Decimal digits of a positive number, most significant first. *)
Fixpoint digits_of (fuel : nat) (n : Z) (acc : string) : string :=
  match fuel with
  | O => acc
  | S f =>
      let acc' := String (digit_char (n mod 10)) acc in
      if n / 10 =? 0 then acc' else digits_of f (n / 10) acc'
  end.

(** [repr(n)] for an int *)
Definition repr_int (n : Z) : string :=
  if n <? 0 then String "-"%char (digits_of (Z.to_nat (Z.log2 (- n)) + 1) (- n) EmptyString)
  else digits_of (Z.to_nat (Z.log2 n) + 1) n EmptyString.

Definition hex_char (d : nat) : ascii :=
  if (d <? 10)%nat then ascii_of_nat (48 + d) else ascii_of_nat (87 + d).

Fixpoint contains_char (c : ascii) (s : string) : bool :=
  match s with
  | EmptyString => false
  | String c' s' => Ascii.eqb c c' || contains_char c s'
  end.

(** The body of [repr(s)] between its quotes. Bytes from 0x80 up are kept:
    they are the UTF-8 form of characters that [repr] leaves alone when
    they are printable. *)
Fixpoint repr_chars (quote : ascii) (s : string) : string :=
  match s with
  | EmptyString => EmptyString
  | String c s' =>
      let rest := repr_chars quote s' in
      let n := nat_of_ascii c in
      if Ascii.eqb c quote || Ascii.eqb c "\"%char then String "\"%char (String c rest)
      else if (n =? 9)%nat then String "\"%char (String "t"%char rest)
      else if (n =? 10)%nat then String "\"%char (String "n"%char rest)
      else if (n =? 13)%nat then String "\"%char (String "r"%char rest)
      else if (n <? 32)%nat || (n =? 127)%nat
           then String "\"%char (String "x"%char
                  (String (hex_char (n / 16)) (String (hex_char (n mod 16)) rest)))
      else String c rest
  end.

Definition squote : ascii := "'"%char.
Definition dquote : ascii := ascii_of_nat 34.

(** [repr(s)] for a str: double quotes are chosen when the string has a
    single quote and no double quote. *)
Definition repr_str (s : string) : string :=
  let q := if contains_char squote s && negb (contains_char dquote s)
           then dquote else squote in
  String q (repr_chars q s ++ String q EmptyString).

Fixpoint join (sep : string) (parts : list string) : string :=
  match parts with
  | [] => EmptyString
  | [p] => p
  | p :: ps => p ++ sep ++ join sep ps
  end.

(** [repr(v)]; a float literal is written back as it was read. *)
Fixpoint repr (v : pyval) : string :=
  match v with
  | VNone => "None"
  | VBool true => "True"
  | VBool false => "False"
  | VInt z => repr_int z
  | VFloatLit t => t
  | VStr s => repr_str s
  | VList items => "[" ++ join ", " (map repr items) ++ "]"
  | VTuple [x] => "(" ++ repr x ++ ",)"
  | VTuple items => "(" ++ join ", " (map repr items) ++ ")"
  | VDict items =>
      "{" ++ join ", " (map (fun kv => repr_str (fst kv) ++ ": " ++ repr (snd kv)) items) ++ "}"
  end%string.

(** [str.replace]: every single quote becomes a double quote. *)
Fixpoint replace_quotes (s : string) : string :=
  match s with
  | EmptyString => EmptyString
  | String c s' =>
      String (if Ascii.eqb c squote then dquote else c) (replace_quotes s')
  end.

(** *** [json.loads]

    The reader follows the decoder of the standard library: white space is
    blank, tab, line feed and carriage return; a string ends at the next
    unescaped double quote and may not hold a control character; an object
    keeps the place of the first and the value of the last of equal keys.
    A number with a fraction or an exponent is kept as its text. Escapes
    [\u] are outside the modelled fragment. *)

Definition is_ws (c : ascii) : bool :=
  let n := nat_of_ascii c in
  (n =? 32)%nat || (n =? 9)%nat || (n =? 10)%nat || (n =? 13)%nat.

Definition is_digit (c : ascii) : bool :=
  let n := nat_of_ascii c in (48 <=? n)%nat && (n <=? 57)%nat.

Fixpoint skip_ws (s : list ascii) : list ascii :=
  match s with
  | c :: s' => if is_ws c then skip_ws s' else s
  | [] => []
  end.

(** The characters of a string after its opening quote. *)
Fixpoint scanstring (s : list ascii) (acc : list ascii) : Res (string * list ascii) :=
  match s with
  | [] => Raise JSONDecodeError
  | c :: s' =>
      if Ascii.eqb c dquote then Ok (string_of_list_ascii (rev acc), s')
      else if Ascii.eqb c "\"%char then
        match s' with
        | [] => Raise JSONDecodeError
        | e :: s'' =>
            let n := nat_of_ascii e in
            if Ascii.eqb e dquote then scanstring s'' (dquote :: acc)
            else if Ascii.eqb e "\"%char then scanstring s'' ("\"%char :: acc)
            else if Ascii.eqb e "/"%char then scanstring s'' ("/"%char :: acc)
            else if Ascii.eqb e "b"%char then scanstring s'' (ascii_of_nat 8 :: acc)
            else if Ascii.eqb e "f"%char then scanstring s'' (ascii_of_nat 12 :: acc)
            else if Ascii.eqb e "n"%char then scanstring s'' (ascii_of_nat 10 :: acc)
            else if Ascii.eqb e "r"%char then scanstring s'' (ascii_of_nat 13 :: acc)
            else if Ascii.eqb e "t"%char then scanstring s'' (ascii_of_nat 9 :: acc)
            else if Ascii.eqb e "u"%char then Raise NotModelled
            else Raise JSONDecodeError
        end
      else if (nat_of_ascii c <? 32)%nat then Raise JSONDecodeError
      else scanstring s' (c :: acc)
  end.

Fixpoint take_digits (s : list ascii) (acc : list ascii) : list ascii * list ascii :=
  match s with
  | c :: s' => if is_digit c then take_digits s' (c :: acc) else (rev acc, s)
  | [] => (rev acc, [])
  end.

Definition digits_value (ds : list ascii) : Z :=
  fold_left (fun v c => 10 * v + Z.of_nat (nat_of_ascii c - 48)) ds 0.

(** A number at the head of [s]: an optional minus sign, then 0 or a
    digit from 1 to 9 followed by digits, then an optional fraction (a dot
    and digits) and an optional exponent (e or E, an optional sign,
    digits); [None] when no number starts there. *)
Definition scan_number (s : list ascii) : option (pyval * list ascii) :=
  let (neg, s1) := match s with
                   | c :: r => if Ascii.eqb c "-"%char then (true, r) else (false, s)
                   | [] => (false, s)
                   end in
  match s1 with
  | c :: r =>
      if is_digit c then
        let (int_part, s2) :=
          if Ascii.eqb c "0"%char then ([c], r) else take_digits s1 [] in
        let (frac, s3) :=
          match s2 with
          | d :: f :: r' =>
              if Ascii.eqb d "."%char && is_digit f
              then let (fd, r'') := take_digits (f :: r') [] in (d :: fd, r'')
              else ([], s2)
          | _ => ([], s2)
          end in
        let (ex, s4) :=
          match s3 with
          | e :: r' =>
              if Ascii.eqb e "e"%char || Ascii.eqb e "E"%char then
                match r' with
                | g :: r'' =>
                    if Ascii.eqb g "+"%char || Ascii.eqb g "-"%char then
                      match r'' with
                      | h :: _ =>
                          if is_digit h
                          then let (ed, r3) := take_digits r'' [] in (e :: g :: ed, r3)
                          else ([], s3)
                      | [] => ([], s3)
                      end
                    else if is_digit g
                    then let (ed, r3) := take_digits r' [] in (e :: ed, r3)
                    else ([], s3)
                | [] => ([], s3)
                end
              else ([], s3)
          | [] => ([], s3)
          end in
        match frac, ex with
        | [], [] =>
            let v := digits_value int_part in
            Some (VInt (if neg then - v else v), s4)
        | _, _ =>
            Some (VFloatLit (string_of_list_ascii
                     ((if neg then ["-"%char] else []) ++ int_part ++ frac ++ ex)), s4)
        end
      else None
  | [] => None
  end.

Fixpoint starts_with (p s : list ascii) : option (list ascii) :=
  match p, s with
  | [], _ => Some s
  | c :: p', d :: s' => if Ascii.eqb c d then starts_with p' s' else None
  | _ :: _, [] => None
  end.

Definition scan_literal (s : list ascii) : option (pyval * list ascii) :=
  match starts_with (list_ascii_of_string "null") s with
  | Some r => Some (VNone, r)
  | None =>
  match starts_with (list_ascii_of_string "true") s with
  | Some r => Some (VBool true, r)
  | None =>
  match starts_with (list_ascii_of_string "false") s with
  | Some r => Some (VBool false, r)
  | None =>
  match starts_with (list_ascii_of_string "NaN") s with
  | Some r => Some (VFloatLit "NaN", r)
  | None =>
  match starts_with (list_ascii_of_string "Infinity") s with
  | Some r => Some (VFloatLit "Infinity", r)
  | None =>
  match starts_with (list_ascii_of_string "-Infinity") s with
  | Some r => Some (VFloatLit "-Infinity", r)
  | None => None
  end end end end end end.

(** [scan_once]: one JSON value at the head of [s]. [fuel] bounds the
    nesting and the number of items; the length of the text is enough. *)
Fixpoint scan_once (fuel : nat) (s : list ascii) : Res (pyval * list ascii) :=
  match fuel with
  | O => Raise NotModelled
  | S f =>
      match s with
      | [] => Raise JSONDecodeError
      | c :: r =>
          if Ascii.eqb c dquote then
            match scanstring r [] with
            | Ok (str, r') => Ok (VStr str, r')
            | Raise e => Raise e
            end
          else if Ascii.eqb c "{"%char then
            match skip_ws r with
            | c1 :: r1 =>
                if Ascii.eqb c1 "}"%char then Ok (VDict [], r1)
                else
                  (fix members (g : nat) (s : list ascii) (acc : list (string * pyval))
                     : Res (pyval * list ascii) :=
                     match g with
                     | O => Raise NotModelled
                     | S g' =>
                         match s with
                         | q :: s1 =>
                             if Ascii.eqb q dquote then
                               match scanstring s1 [] with
                               | Raise e => Raise e
                               | Ok (k, s2) =>
                                   match skip_ws s2 with
                                   | colon :: s3 =>
                                       if Ascii.eqb colon ":"%char then
                                         match scan_once f (skip_ws s3) with
                                         | Raise e => Raise e
                                         | Ok (v, s4) =>
                                             let acc' := dict_set String.eqb k v acc in
                                             match skip_ws s4 with
                                             | d :: s5 =>
                                                 if Ascii.eqb d "}"%char then Ok (VDict acc', s5)
                                                 else if Ascii.eqb d ","%char
                                                 then members g' (skip_ws s5) acc'
                                                 else Raise JSONDecodeError
                                             | [] => Raise JSONDecodeError
                                             end
                                         end
                                       else Raise JSONDecodeError
                                   | [] => Raise JSONDecodeError
                                   end
                               end
                             else Raise JSONDecodeError
                         | [] => Raise JSONDecodeError
                         end
                     end) f (c1 :: r1) []
            | [] => Raise JSONDecodeError
            end
          else if Ascii.eqb c "["%char then
            match skip_ws r with
            | c1 :: r1 =>
                if Ascii.eqb c1 "]"%char then Ok (VList [], r1)
                else
                  (fix elements (g : nat) (s : list ascii) (acc : list pyval)
                     : Res (pyval * list ascii) :=
                     match g with
                     | O => Raise NotModelled
                     | S g' =>
                         match scan_once f s with
                         | Raise e => Raise e
                         | Ok (v, s1) =>
                             match skip_ws s1 with
                             | d :: s2 =>
                                 if Ascii.eqb d "]"%char then Ok (VList (rev (v :: acc)), s2)
                                 else if Ascii.eqb d ","%char
                                 then elements g' (skip_ws s2) (v :: acc)
                                 else Raise JSONDecodeError
                             | [] => Raise JSONDecodeError
                             end
                         end
                     end) f (c1 :: r1) []
            | [] => Raise JSONDecodeError
            end
          else
            match scan_literal s with
            | Some vr => Ok vr
            | None =>
                match scan_number s with
                | Some vr => Ok vr
                | None => Raise JSONDecodeError
                end
            end
      end
  end.

(** [json.loads(text)]: one value, white space around it, nothing after. *)
Definition json_loads (text : string) : Res pyval :=
  let s := list_ascii_of_string text in
  match scan_once (S (List.length s)) (skip_ws s) with
  | Raise e => Raise e
  | Ok (v, r) =>
      match skip_ws r with
      | [] => Ok v
      | _ :: _ => Raise JSONDecodeError
      end
  end.

(** ** The allele-call store *)

(** The files of the data directory: path to content. [gzip] is kept as the
    identity on content: what is written compressed is read back as
    written. *)
Definition Disk : Type := dict string string.

(** [os.path.join(dir, name)] for a relative [name] *)
Definition path_join (dir name : string) : string := (dir ++ "/" ++ name)%string.

(** The [AlleleCalls] object together with the disk it reads and writes.
    [_index] is what [json.load] returned or what [_Convert] built: a dict
    from key to a pair, a tuple when built and a list when read. *)
#[projections(primitive)]
Record Store : Type := mkStore {
  _alleleCalls : dict Key (list Z);
  _index : pyval;
  _matrices : list (option pyval);
  _path : string;
  disk : Disk
}.

Definition BLOCKSIZE : nat := 1000.

Definition profile_val (p : list Z) : pyval := VList (map VInt p).
Definition calls_val (hot : dict Key (list Z)) : pyval :=
  VDict (map (fun kp => (fst kp, profile_val (snd kp))) hot).

(** [f.write(str(v).replace(...).encode())] into a file opened for
    writing: the file is created or replaced. *)
Definition write_repr (path : string) (v : pyval) (d : Disk) : Disk :=
  dict_set String.eqb path (replace_quotes (repr v)) d.

(** [json.load] of an existing file *)
Definition read_json (path : string) (d : Disk) : Res pyval :=
  match dict_get String.eqb path d with
  | Some text => json_loads text
  | None => Raise OSError
  end.

(** [v[k] = x] and [k in v] for a value that is a dict with str keys; other
    containers are outside the modelled fragment. *)
Definition val_setitem (v : pyval) (k : Key) (x : pyval) : Res pyval :=
  match v with
  | VDict items => Ok (VDict (dict_set String.eqb k x items))
  | VList _ | VTuple _ | VStr _ => Raise NotModelled
  | _ => Raise TypeError
  end.

Definition val_contains (v : pyval) (k : Key) : Res bool :=
  match v with
  | VDict items => Ok (dict_in String.eqb k items)
  | VList _ | VTuple _ | VStr _ => Raise NotModelled
  | _ => Raise TypeError
  end.

(** [v.get(k, None)] *)
Definition val_get (v : pyval) (k : Key) : Res (option pyval) :=
  match v with
  | VDict items => Ok (dict_get String.eqb k items)
  | _ => Raise AttributeError
  end.

(** [len(v)] *)
Definition val_len (v : pyval) : Res nat :=
  match v with
  | VDict items => Ok (List.length items)
  | VList items | VTuple items => Ok (List.length items)
  | VStr s => Raise NotModelled
  | _ => Raise TypeError
  end.

(** Truth value of an object. *)
Definition truthy (v : pyval) : bool :=
  match v with
  | VNone => false
  | VBool b => b
  | VInt z => negb (z =? 0)
  | VFloatLit _ => true
  | VStr s => negb (String.eqb s EmptyString)
  | VList items | VTuple items => match items with [] => false | _ => true end
  | VDict items => match items with [] => false | _ => true end
  end.

(** [int(v)] *)
Definition val_int (v : pyval) : Res Z :=
  match v with
  | VInt z => Ok z
  | VBool b => Ok (if b then 1 else 0)
  | VStr _ | VFloatLit _ => Raise NotModelled
  | _ => Raise TypeError
  end.

Fixpoint all_ok {A B} (f : A -> Res B) (xs : list A) : Res (list B) :=
  match xs with
  | [] => Ok []
  | x :: xs' =>
      match f x with
      | Raise e => Raise e
      | Ok b => match all_ok f xs' with
                | Raise e => Raise e
                | Ok bs => Ok (b :: bs)
                end
      end
  end.

(** [list(map(int, v))] *)
Definition val_int_list (v : pyval) : Res (list Z) :=
  match v with
  | VList items | VTuple items => all_ok val_int items
  | VStr _ | VDict _ => Raise NotModelled
  | _ => Raise TypeError
  end.

Module AlleleCalls.

(** [AlleleCalls()] on a given disk *)
Definition init (d : Disk) : Store := mkStore [] (VDict []) [] EmptyString d.

Definition set_path (path : string) : Py Store unit :=
  modify (fun s => mkStore (_alleleCalls s) (_index s) (_matrices s) path (disk s)).

(** The body of the [for] loop of [_Convert] for one key at position [i]
    of the block, [shard] being [len(self._matrices)]. *)
Definition promote_key (shard : nat) (ik : nat * Key)
  (acc : dict Key (list Z) * Store) : Res (dict Key (list Z) * Store) :=
  let (matrix, s) := acc in
  let (i, key) := ik in
  match dict_get key_eqb key (_alleleCalls s) with
  | None => Raise KeyError
  | Some profile =>
      match val_setitem (_index s) key (VTuple [VInt (Z.of_nat shard); VInt (Z.of_nat i)]) with
      | Raise e => Raise e
      | Ok index' =>
          match dict_del key_eqb key (_alleleCalls s) with
          | Raise e => Raise e
          | Ok hot' =>
              Ok (dict_set key_eqb key profile matrix,
                  mkStore hot' index' (_matrices s) (_path s) (disk s))
          end
      end
  end.

Fixpoint promote_keys (shard : nat) (iks : list (nat * Key))
  (acc : dict Key (list Z) * Store) : Res (dict Key (list Z) * Store) :=
  match iks with
  | [] => Ok acc
  | ik :: iks' =>
      match promote_key shard ik acc with
      | Raise e => Raise e
      | Ok acc' => promote_keys shard iks' acc'
      end
  end.

(** [enumerate(xs)] *)
Definition enumerate {A} (xs : list A) : list (nat * A) :=
  combine (seq 0 (List.length xs)) xs.

(** One turn of the [while] loop of [_Convert]. *)
Definition promote_block (s : Store) : Res Store :=
  let keys := dict_keys (_alleleCalls s) in
  let shard := List.length (_matrices s) in
  match promote_keys shard (enumerate (firstn BLOCKSIZE keys)) ([], s) with
  | Raise e => Raise e
  | Ok (matrix, s1) =>
      let matrices' := _matrices s1 ++ [Some (calls_val matrix)] in
      let file := path_join (_path s1)
                    ("matrix." ++ repr_int (Z.of_nat (List.length matrices') - 1) ++ ".gzip") in
      Ok (mkStore (_alleleCalls s1) (_index s1) matrices' (_path s1)
                  (write_repr file (calls_val matrix) (disk s1)))
  end.

(** [_Convert]: the loop runs while more than [BLOCKSIZE] profiles are in
    [_alleleCalls]; every turn takes [BLOCKSIZE] of them out, so the number
    of profiles bounds the number of turns. *)
Fixpoint _Convert_loop (turns : nat) (s : Store) : Res Store :=
  match turns with
  | O => Ok s
  | S n =>
      if (BLOCKSIZE <? List.length (_alleleCalls s))%nat
      then match promote_block s with
           | Raise e => Raise e
           | Ok s' => _Convert_loop n s'
           end
      else Ok s
  end.

Definition _Convert : Py Store unit :=
  fun s => match _Convert_loop (List.length (_alleleCalls s)) s with
           | Ok s' => (Ok tt, s')
           | Raise e => (Raise e, s)
           end.

(** [Save] *)
Definition Save (path : string) : Py Store unit :=
  set_path path ;;;
  _Convert ;;;
  modify (fun s =>
    let d1 := write_repr (path_join path "calls.gzip") (calls_val (_alleleCalls s)) (disk s) in
    let d2 := write_repr (path_join path "index.gzip") (_index s) d1 in
    mkStore (_alleleCalls s) (_index s) (_matrices s) (_path s) d2).

(** The loop of [Load] over [content.items()] *)
Fixpoint load_calls (items : list (string * pyval)) (hot : dict Key (list Z))
  : Res (dict Key (list Z)) :=
  match items with
  | [] => Ok hot
  | (key, profile) :: items' =>
      match val_int_list profile with
      | Raise e => Raise e
      | Ok p => load_calls items' (dict_set key_eqb key p hot)
      end
  end.

(** [Load] *)
Definition Load (path : string) : Py Store unit :=
  set_path path ;;;
  (fun s =>
     let flName := path_join path "calls.gzip" in
     if dict_in String.eqb flName (disk s) then
       match read_json flName (disk s) with
       | Raise e => (Raise e, s)
       | Ok (VDict items) =>
           match load_calls items (_alleleCalls s) with
           | Raise e => (Raise e, s)
           | Ok hot => (Ok tt, mkStore hot (_index s) (_matrices s) (_path s) (disk s))
           end
       | Ok _ => (Raise AttributeError, s)
       end
     else (Ok tt, s)) ;;;
  (fun s =>
     let flName := path_join path "index.gzip" in
     if dict_in String.eqb flName (disk s) then
       match read_json flName (disk s) with
       | Raise e => (Raise e, s)
       | Ok v => (Ok tt, mkStore (_alleleCalls s) v (_matrices s) (_path s) (disk s))
       end
     else (Ok tt, s)) ;;;
  modify (fun s => mkStore (_alleleCalls s) (_index s) [] (_path s) (disk s)).

(** [_LoadMatrix(i)] *)
Definition _LoadMatrix (i : nat) : Py Store unit :=
  fun s =>
    let padded := _matrices s ++ repeat None (S i - List.length (_matrices s)) in
    let s1 := mkStore (_alleleCalls s) (_index s) padded (_path s) (disk s) in
    let file := path_join (_path s) ("matrix." ++ repr_int (Z.of_nat i) ++ ".gzip") in
    match read_json file (disk s) with
    | Raise e => (Raise e, s1)
    | Ok v =>
        (Ok tt, mkStore (_alleleCalls s) (_index s)
                        (firstn i padded ++ Some v :: skipn (S i) padded)
                        (_path s) (disk s))
    end.

(** [Add] *)
Definition Add (key : Key) (calls : list Z) : Py Store unit :=
  fun s =>
    if dict_in key_eqb key (_alleleCalls s) then (Raise AssertionError, s)
    else match val_contains (_index s) key with
         | Raise e => (Raise e, s)
         | Ok true => (Raise AssertionError, s)
         | Ok false =>
             (Ok tt, mkStore (dict_set key_eqb key calls (_alleleCalls s))
                             (_index s) (_matrices s) (_path s) (disk s))
         end.

(** [m[slot]] for a loaded matrix: a dict is indexed by key, and its keys
    are strings, so an int slot is not found. *)
Definition matrix_item (m : pyval) (slot : pyval) : Res pyval :=
  match m, slot with
  | VDict items, VStr k => from_option KeyError (dict_get String.eqb k items)
  | VDict items, _ => Raise KeyError
  | VList items, VInt j =>
      if j <? 0 then Raise NotModelled
      else from_option IndexError (nth_error items (Z.to_nat j))
  | _, _ => Raise TypeError
  end.

(** [idx[j]] for [j] in 0, 1 *)
Definition idx_item (idx : pyval) (j : nat) : Res pyval :=
  match idx with
  | VList items | VTuple items => from_option IndexError (nth_error items j)
  | VStr _ | VDict _ => Raise NotModelled
  | _ => Raise TypeError
  end.

(** A stored value used as a profile: a list of ints. *)
Definition as_profile (v : pyval) : Res (list Z) :=
  match v with
  | VList items =>
      all_ok (fun x => match x with VInt z => Ok z | _ => Raise NotModelled end) items
  | _ => Raise NotModelled
  end.

(** [GetCalls]: the profile of [key], [None] when the store has none. *)
Definition GetCalls (key : Key) : Py Store (option (list Z)) :=
  idx <- (fun s => (val_get (_index s) key, s)) ;;
  match idx with
  | Some iv =>
      if truthy iv then
        i0 <- lift (idx_item iv 0) ;;
        shard <- lift (match i0 with
                       | VInt z => if z <? 0 then Raise NotModelled else Ok (Z.to_nat z)
                       | _ => Raise TypeError
                       end) ;;
        s <- get ;;
        (match nth_error (_matrices s) shard with
         | Some (Some _) => ret tt
         | _ => _LoadMatrix shard
         end) ;;;
        s' <- get ;;
        i1 <- lift (idx_item iv 1) ;;
        match nth_error (_matrices s') shard with
        | Some (Some m) =>
            v <- lift (matrix_item m i1) ;;
            p <- lift (as_profile v) ;;
            ret (Some p)
        | _ => raise TypeError
        end
      else (fun s => (Ok (dict_get key_eqb key (_alleleCalls s)), s))
  | None => fun s => (Ok (dict_get key_eqb key (_alleleCalls s)), s)
  end.

(** [HasKey] *)
Definition HasKey (key : Key) : Py Store bool :=
  fun s =>
    match val_contains (_index s) key with
    | Raise e => (Raise e, s)
    | Ok true => (Ok true, s)
    | Ok false => (Ok (dict_in key_eqb key (_alleleCalls s)), s)
    end.

(** [__len__] *)
Definition len : Py Store nat :=
  fun s => match val_len (_index s) with
           | Raise e => (Raise e, s)
           | Ok n => (Ok (List.length (_alleleCalls s) + n)%nat, s)
           end.

End AlleleCalls.

(** ** Placement: [CalcName] *)

(** What [CalcName] works on: the tree, the store, the instrumented world
    of the distance function, and its local dict [distances]. *)
#[projections(primitive)]
Record CalcState : Type := mkCalc {
  tree : Tree;
  alleles : Store;
  world : World;
  distances : dict Key (list float)
}.

Definition in_tree {A} (m : Py Tree A) : Py CalcState A :=
  fun s => let (r, t') := m (tree s) in
           (r, mkCalc t' (alleles s) (world s) (distances s)).

Definition in_store {A} (m : Py Store A) : Py CalcState A :=
  fun s => let (r, a') := m (alleles s) in
           (r, mkCalc (tree s) a' (world s) (distances s)).

Definition in_world {A} (m : Py World A) : Py CalcState A :=
  fun s => let (r, w') := m (world s) in
           (r, mkCalc (tree s) (alleles s) w' (distances s)).

Definition set_distances (d : dict Key (list float)) : Py CalcState unit :=
  modify (fun s => mkCalc (tree s) (alleles s) (world s) d).

(** The node behind a reference. A reference to a node that left the tree
    cannot be followed in this embedding. *)
Definition the_node (a : Address) : Py CalcState Node :=
  fun s => (from_option NotModelled (node_at (_tree (tree s)) a), s).

Definition mutate_node (a : Address) (f : Node -> Node) : Py CalcState unit :=
  in_tree (modify (fun t => mkTree (update_at (_tree t) a f) (_names t) (DEPTH t))).

(** The property [Node.EntryKeys]: the cached list, computed and cached on
    first use. *)
Definition EntryKeys (a : Address) : Py CalcState (list Key) :=
  n <- the_node a ;;
  match _entryKeys n with
  | Some ks => ret ks
  | None =>
      let ks := iter_entrykeys n in
      mutate_node a (fun n => with_entryKeys n (Some ks)) ;;; ret ks
  end.

Definition fminus1 : float := PrimFloat.opp (float_of_int 1).
Definition f0 : float := float_of_int 0.
Definition f2 : float := float_of_int 2.

(** [GetDistance(v1, v2)] on what [GetCalls] returned. [len(None)] and
    [None[i]] raise [TypeError]; the second operand is indexed where an empty
    list would be. *)
Definition GetDistance_calls (v1 v2 : option (list Z)) : Py World float :=
  match v1, v2 with
  | Some p1, Some p2 => GetDistance p1 p2
  | Some p1, None =>
      fun w => match GetDistance p1 [] w with
               | (Raise IndexError, w') => (Raise TypeError, w')
               | r => r
               end
  | None, _ =>
      modify (fun w => mkWorld (cntDistancesCalculated w + 1) (reads w)) ;;;
      raise TypeError
  end.

(** [xs[i] = v] for [i] in range *)
Fixpoint list_set {A} (xs : list A) (i : nat) (v : A) : list A :=
  match xs, i with
  | [], _ => []
  | _ :: xs', O => v :: xs'
  | x :: xs', S i' => x :: list_set xs' i' v
  end.

(** [{ key: i for i, key in enumerate(namedEntries) }] *)
Definition make_index (namedEntries : list Key) : dict Key nat :=
  fold_left (fun ix ik => dict_set key_eqb (snd ik) (fst ik) ix)
            (AlleleCalls.enumerate namedEntries) [].

Section Placement.

Variable namedEntries : list Key.
Variable index : dict Key nat.

(** The closure [GetDistanceToNamedEntry] *)
Definition GetDistanceToNamedEntry (unNamedEntryKey namedEntryKey : Key)
  : Py CalcState float :=
  s <- get ;;
  (if dict_in key_eqb unNamedEntryKey (distances s) then ret tt
   else set_distances (dict_set key_eqb unNamedEntryKey
                         (repeat fminus1 (List.length namedEntries)) (distances s))) ;;;
  s <- get ;;
  myDistances <- lift (from_option KeyError (dict_get key_eqb unNamedEntryKey (distances s))) ;;
  i <- lift (from_option KeyError (dict_get key_eqb namedEntryKey index)) ;;
  m <- lift (from_option IndexError (nth_error myDistances i)) ;;
  if PrimFloat.leb f0 m then ret m
  else
    v1 <- in_store (AlleleCalls.GetCalls namedEntryKey) ;;
    v2 <- in_store (AlleleCalls.GetCalls unNamedEntryKey) ;;
    d <- in_world (GetDistance_calls v1 v2) ;;
    s <- get ;;
    set_distances (dict_set key_eqb unNamedEntryKey (list_set myDistances i d) (distances s)) ;;;
    ret d.

(** The loop of [IsInCluster] over the members: true at the first member
    within the threshold. *)
Fixpoint any_member_within (unNamedEntryKey : Key) (threshold : float)
         (members : list Key) : Py CalcState bool :=
  match members with
  | [] => ret false
  | sample2 :: rest =>
      d <- GetDistanceToNamedEntry unNamedEntryKey sample2 ;;
      if PrimFloat.leb d threshold then ret true
      else any_member_within unNamedEntryKey threshold rest
  end.

(** The closure [IsInCluster] *)
Definition IsInCluster (unNamedEntryKey : Key) (node : Address)
           (threshold corePercent : float) : Py CalcState bool :=
  n <- the_node node ;;
  preferred <- lift (from_option KeyError (_preferred n)) ;;
  d <- GetDistanceToNamedEntry unNamedEntryKey preferred ;;
  if PrimFloat.leb d threshold then ret true
  else
    n <- the_node node ;;
    if PrimFloat.ltb threshold
         (d - _diameter n - f2 * (f100 - f100 * corePercent))%float
    then ret false
    else
      members <- EntryKeys node ;;
      any_member_within unNamedEntryKey threshold members.

(** The closure [GetMaxDistanceToNode] *)
Definition GetMaxDistanceToNode (entryKey : Key) (node : Address) : Py CalcState float :=
  members <- EntryKeys node ;;
  ds <- comprehension (GetDistanceToNamedEntry entryKey) members ;;
  lift (max_float ds).

End Placement.

(** *** Nodes under mutation *)

Module NodeOps.

(** [NewChildNode] of the node at [self]; the new child's address. *)
Definition NewChildNode (self : Address) : Py CalcState Address :=
  n <- the_node self ;;
  s <- get ;;
  nextCluster <- lift (match _children n with
                       | [] => Ok 1
                       | _ => match max_Z (dict_keys (_children n)) with
                              | Ok m => Ok (m + 1)
                              | Raise e => Raise e
                              end
                       end) ;;
  let child :=
    if _level n =? DEPTH (tree s) - 1
    then new_NamedNode nextCluster (_level n + 1)
           (RTraverse_rev (_tree (tree s)) self ++ [nextCluster])
    else new_Node nextCluster (_level n + 1) in
  mutate_node self (fun n => with_children n (dict_set Z.eqb nextCluster child (_children n))) ;;;
  ret (self ++ [nextCluster]).

(** [sum(n.TotalChildCount() for n in node.DFSNamed())] *)
Definition named_size (node : Node) : Z :=
  fold_left Z.add (map (fun an => TotalChildCount (snd an)) (DFSNamed node)) 0.

(** The first loop of [MergeNodes]: [minObjs], keyed here by the dict key
    under which [self] holds each node. *)
Fixpoint collect_sizes (self : Node) (nodes : list Z) (minObjs : dict Z Z)
  : Res (dict Z Z) :=
  match nodes with
  | [] => Ok minObjs
  | i :: nodes' =>
      match GetChild self i with
      | None => Raise AttributeError
      | Some node => collect_sizes self nodes' (dict_set Z.eqb i (named_size node) minObjs)
      end
  end.

(** [max(minObjs, key=lambda x: minObjs[x])]: the first key of the
    greatest size. *)
Definition max_by_size (minObjs : dict Z Z) : Res Z :=
  match minObjs with
  | [] => Raise ValueError
  | (k, v) :: rest =>
      Ok (fst (fold_left (fun best kv => if snd best <? snd kv then kv else best)
                         rest (k, v)))
  end.

(** [AddNamedChild] *)
Definition AddNamedChild (n : Node) (key : Key) : Res Node :=
  match namedPart n with
  | None => Raise AttributeError
  | Some np =>
      Ok (with_named n (Some (mkNamed (_wgst np)
            (if key_in key (_namedChildren np) then _namedChildren np
             else _namedChildren np ++ [key]))))
  end.

Fixpoint add_named_children (maxObj : Node) (keys : list Key) : Res Node :=
  match keys with
  | [] => Ok maxObj
  | key :: keys' =>
      match AddNamedChild maxObj key with
      | Raise e => Raise e
      | Ok m => add_named_children m keys'
      end
  end.

(** Merge at the last level: every absorbed node hands its keys to
    [maxObj] and is deleted from [self] under its [_ID]. The state is the
    children dict of [self] and [maxObj]. *)
Fixpoint absorb_named (absorbed : list Node) (st : list (Z * Node) * Node)
  : Res (list (Z * Node) * Node) :=
  match absorbed with
  | [] => Ok st
  | node :: rest =>
      let (children, maxObj) := st in
      match GetNamedChildren node with
      | Raise e => Raise e
      | Ok keys =>
          match add_named_children maxObj keys with
          | Raise e => Raise e
          | Ok maxObj' =>
              match dict_del Z.eqb (_ID node) children with
              | Raise e => Raise e
              | Ok children' => absorb_named rest (children', maxObj')
              end
          end
      end
  end.

(** [AddChild(ID, node)] on [maxObj] *)
Definition AddChild (maxObj : Node) (ID : Z) (node : Node) : Res Node :=
  match dict_get Z.eqb ID (_children maxObj) with
  | Some _ => Raise AssertionError
  | None => Ok (with_children maxObj (dict_set Z.eqb ID node (_children maxObj)))
  end.

(** The inner loop of the merge above the last level: the children of one
    absorbed node get the ids [i], [i+1], ... and move under [maxObj].
    The last id used is returned with it. *)
Fixpoint adopt_children (children : list Node) (i : Z) (last : option Z) (maxObj : Node)
  : Res (option Z * Node) :=
  match children with
  | [] => Ok (last, maxObj)
  | child :: rest =>
      match AddChild maxObj i (with_ID child i) with
      | Raise e => Raise e
      | Ok maxObj' => adopt_children rest (i + 1) (Some i) maxObj'
      end
  end.

(** Merge above the last level. The loop variable [i] outlives the inner
    loop: [toStart = i + 1] reads the last id handed out so far, and no
    value at all when no child has been adopted yet. *)
Fixpoint absorb_inner (absorbed : list Node) (toStart : Z) (i : option Z)
         (st : list (Z * Node) * Node) : Res (list (Z * Node) * Node) :=
  match absorbed with
  | [] => Ok st
  | node :: rest =>
      let (children, maxObj) := st in
      match adopt_children (dict_values (_children node)) toStart i maxObj with
      | Raise e => Raise e
      | Ok (None, _) => Raise UnboundLocalError
      | Ok (Some i', maxObj') =>
          match dict_del Z.eqb (_ID node) children with
          | Raise e => Raise e
          | Ok children' => absorb_inner rest (i' + 1) (Some i') (children', maxObj')
          end
      end
  end.

(** [ValidateNames]: the ids on the way to the node overwrite [_wgst]
    position by position; [IndexError] past its end. *)
Fixpoint overwrite (wgst path : list Z) : Res (list Z) :=
  match path, wgst with
  | [], _ => Ok wgst
  | _ :: _, [] => Raise IndexError
  | v :: path', _ :: wgst' =>
      match overwrite wgst' path' with
      | Ok w => Ok (v :: w)
      | Raise e => Raise e
      end
  end.

Definition ValidateNames (node : Address) : Py CalcState (list Z) :=
  n <- the_node node ;;
  s <- get ;;
  match namedPart n with
  | None => raise AttributeError
  | Some np =>
      wgst <- lift (overwrite (_wgst np) (RTraverse_rev (_tree (tree s)) node)) ;;
      mutate_node node (fun n => with_named n (Some (mkNamed wgst (_namedChildren np)))) ;;;
      ret wgst
  end.

Fixpoint finalize_keys (keys : list Key) (wgst : list Z) : Py CalcState unit :=
  match keys with
  | [] => ret tt
  | key :: rest =>
      in_tree (TreeOps.FinalizeName key wgst) ;;; finalize_keys rest wgst
  end.

(** The last loop of [MergeNodes], over the named nodes of [maxObj]. *)
Fixpoint finalize_nodes (maxObj : Address) (below : list Address) : Py CalcState unit :=
  match below with
  | [] => ret tt
  | rel :: rest =>
      wgst <- ValidateNames (maxObj ++ rel) ;;
      n <- the_node (maxObj ++ rel) ;;
      keys <- lift (GetNamedChildren n) ;;
      finalize_keys keys wgst ;;;
      finalize_nodes maxObj rest
  end.

(** [MergeNodes(nodes)] on the node at [self]; the address of [maxObj]. *)
Definition MergeNodes (self : Address) (nodes : list Z) : Py CalcState Address :=
  n <- the_node self ;;
  s <- get ;;
  minObjs <- lift (collect_sizes n nodes []) ;;
  maxKey <- lift (max_by_size minObjs) ;;
  maxObj <- lift (from_option AttributeError (GetChild n maxKey)) ;;
  minObjs' <- lift (dict_del Z.eqb maxKey minObjs) ;;
  absorbed <- lift (all_ok (fun i => from_option AttributeError (GetChild n i))
                           (dict_keys minObjs')) ;;
  merged <- lift (if _level n =? DEPTH (tree s) - 1
                  then absorb_named absorbed (_children n, maxObj)
                  else match max_Z (dict_keys (_children maxObj)) with
                       | Raise e => Raise e
                       | Ok m => absorb_inner absorbed (m + 1) None (_children n, maxObj)
                       end) ;;
  let (children, maxObj') := merged in
  (if dict_in Z.eqb maxKey children
   then mutate_node self (fun n => with_children n (dict_set Z.eqb maxKey maxObj' children))
   else raise NotModelled) ;;;
  finalize_nodes (self ++ [maxKey]) (map fst (DFSNamed maxObj')) ;;;
  ret (self ++ [maxKey]).

End NodeOps.

Section Naming.

(** The order in which CPython iterates a set of tuples is that of their
    hash slots. It is no part of the script and is taken as given. *)
Variable iter_set : list (list Z) -> list (list Z).

Variable namedEntries : list Key.
Variable index : dict Key nat.
Variable unNamedEntry : Key.
Variable corePercent : float.

Definition tuple_eqb (a b : list Z) : bool :=
  (List.length a =? List.length b)%nat
  && forallb (fun xy => fst xy =? snd xy) (combine a b).

(** [closestClusters.add(partial)] *)
Definition set_add (x : list Z) (s : list (list Z)) : list (list Z) :=
  if existsb (tuple_eqb x) s then s else s ++ [x].

(** [patternName.append(x)]: [patternName] is the list that [GetName]
    stored in the names map under the new key, so the map sees the
    change. *)
Definition append_pattern (x : Z) : Py CalcState unit :=
  in_tree (fun t =>
    match dict_get key_eqb unNamedEntry (_names t) with
    | None => (Raise NotModelled, t)
    | Some name =>
        (Ok tt, mkTree (_tree t) (dict_set key_eqb unNamedEntry (name ++ [x]) (_names t))
                       (DEPTH t))
    end).

(** The loop over [currentNode.GetChildrenNodes()] at one level. *)
Fixpoint scan_children (currentNode : Address) (level : nat) (threshold : float)
         (keys : list Z) (closestClusters : list (list Z)) (matchingNodes : list Address)
  : Py CalcState (list (list Z) * list Address) :=
  match keys with
  | [] => ret (closestClusters, matchingNodes)
  | k :: keys' =>
      let node := currentNode ++ [k] in
      b <- IsInCluster namedEntries index unNamedEntry node threshold corePercent ;;
      if b then
        n <- the_node node ;;
        keyToGet <- lift (from_option NotModelled (_preferred n)) ;;
        partial <- in_tree (TreeOps.GetPart keyToGet level) ;;
        scan_children currentNode level threshold keys'
                      (set_add partial closestClusters) (matchingNodes ++ [node])
      else scan_children currentNode level threshold keys' closestClusters matchingNodes
  end.

(** One matching cluster *)
Definition join_branch (closestClusters : list (list Z)) (matchingNodes : list Address)
  : Py CalcState Address :=
  pattern <- lift (from_option NotModelled (hd_error closestClusters)) ;;
  digit <- lift (last_item pattern) ;;
  append_pattern digit ;;;
  currentNode <- lift (from_option IndexError (hd_error matchingNodes)) ;;
  n <- the_node currentNode ;;
  preferred <- lift (from_option KeyError (_preferred n)) ;;
  d <- GetDistanceToNamedEntry namedEntries index unNamedEntry preferred ;;
  mutate_node currentNode (fun n => with_diameter n (fmax (_diameter n) d)) ;;;
  members <- EntryKeys currentNode ;;
  mutate_node currentNode (fun n => with_entryKeys n (Some (members ++ [unNamedEntry]))) ;;;
  ret currentNode.

(** No matching cluster *)
Definition new_branch (currentNode : Address) : Py CalcState Address :=
  child <- NodeOps.NewChildNode currentNode ;;
  n <- the_node child ;;
  append_pattern (_ID n) ;;;
  mutate_node child (fun n =>
    with_entryKeys (with_preferred (with_diameter n f0) (Some unNamedEntry))
                   (Some [unNamedEntry])) ;;;
  ret child.

(** [next(i for i, node in enumerate(matchingNodes) if ... == maxSize)] *)
Fixpoint first_index_of (maxSize : Z) (sizes : list Z) (i : nat) : Res nat :=
  match sizes with
  | [] => Raise StopIteration
  | sz :: rest => if sz =? maxSize then Ok i else first_index_of maxSize rest (S i)
  end.

Definition member_count (node : Address) : Py CalcState Z :=
  members <- EntryKeys node ;; ret (Z.of_nat (List.length members)).

(** The loop that widens the diameter over the nodes that are not picked. *)
Fixpoint widen_diameter (newPreferred : Key) (nodePickIdx : nat)
         (nodes : list (nat * Address)) (diameter : float) : Py CalcState float :=
  match nodes with
  | [] => ret diameter
  | (i, node) :: rest =>
      if (i =? nodePickIdx)%nat
      then widen_diameter newPreferred nodePickIdx rest diameter
      else
        d <- GetMaxDistanceToNode namedEntries index newPreferred node ;;
        widen_diameter newPreferred nodePickIdx rest (fmax diameter d)
  end.

(** Several matching clusters: they are merged. The new key is assumed
    not to be a named child of the merged nodes already, so that
    [patternName] stays the list stored under it in the names map. *)
Definition merge_branch (currentNode : Address) (closestClusters : list (list Z))
           (matchingNodes : list Address) : Py CalcState Address :=
  sizes <- comprehension member_count matchingNodes ;;
  maxSize <- lift (max_Z sizes) ;;
  sizes' <- comprehension member_count matchingNodes ;;
  nodePickIdx <- lift (first_index_of maxSize sizes' 0) ;;
  picked <- lift (from_option IndexError (nth_error matchingNodes nodePickIdx)) ;;
  n <- the_node picked ;;
  let newPreferred := _preferred n in
  let diameter := _diameter n in
  preferred <- lift (from_option KeyError newPreferred) ;;
  d <- GetDistanceToNamedEntry namedEntries index unNamedEntry preferred ;;
  diameter <- widen_diameter preferred nodePickIdx
                (AlleleCalls.enumerate matchingNodes) (fmax diameter d) ;;
  memberLists <- comprehension EntryKeys matchingNodes ;;
  let entryKeys := unNamedEntry :: List.concat memberLists in
  toMerge <- lift (all_ok last_item (iter_set closestClusters)) ;;
  merged <- NodeOps.MergeNodes currentNode toMerge ;;
  m <- the_node merged ;;
  (if key_in unNamedEntry (iter_entrykeys m) then raise NotModelled else ret tt) ;;;
  append_pattern (_ID m) ;;;
  mutate_node merged (fun n =>
    with_entryKeys (with_diameter (with_preferred n newPreferred) diameter)
                   (Some entryKeys)) ;;;
  ret merged.

(** The body of the loop over the levels. *)
Definition place_at_level (currentNode : Address) (level : nat) (threshold : float)
  : Py CalcState Address :=
  n <- the_node currentNode ;;
  found <- scan_children currentNode level threshold (dict_keys (_children n)) [] [] ;;
  let (closestClusters, matchingNodes) := found in
  match closestClusters with
  | [_] => join_branch closestClusters matchingNodes
  | [] => new_branch currentNode
  | _ => merge_branch currentNode closestClusters matchingNodes
  end.

Fixpoint place_levels (currentNode : Address) (levels : list (nat * float))
  : Py CalcState Address :=
  match levels with
  | [] => ret currentNode
  | (level, threshold) :: rest =>
      next <- place_at_level currentNode level threshold ;;
      place_levels next rest
  end.

End Naming.

(** [thresholds.sort(key=lambda x: -x)]: a stable sort, greatest first. *)
Fixpoint insert_desc (x : float) (sorted : list float) : list float :=
  match sorted with
  | [] => [x]
  | y :: rest =>
      if PrimFloat.ltb (- x) (- y) then x :: y :: rest else y :: insert_desc x rest
  end.

Definition sort_desc (thresholds : list float) : list float :=
  fold_left (fun sorted x => insert_desc x sorted) thresholds [].

(** [enumerate(xs, 1)] *)
Definition enumerate1 {A} (xs : list A) : list (nat * A) :=
  combine (seq 1 (List.length xs)) xs.

(** [CalcName(named, tree, alleles, unNamedEntry, thresholds, corePercent)];
    the sorted thresholds are returned, the list being sorted in place. *)
Definition CalcName (iter_set : list (list Z) -> list (list Z))
           (named : list Key) (unNamedEntry : Key) (thresholds : list float)
           (corePercent : float) : Py CalcState (list float) :=
  let namedEntries := named in
  set_distances [] ;;;
  let index := make_index namedEntries in
  let thresholds := sort_desc thresholds in
  patternName <- in_tree (TreeOps.GetName unNamedEntry) ;;
  match patternName with
  | _ :: _ => raise AssertionError
  | [] =>
      currentNode <- place_levels iter_set namedEntries index unNamedEntry corePercent
                                  [] (enumerate1 thresholds) ;;
      n <- the_node currentNode ;;
      match namedPart n with
      | None => raise AssertionError
      | Some np =>
          n' <- lift (NodeOps.AddNamedChild n unNamedEntry) ;;
          mutate_node currentNode (fun _ => n') ;;;
          s <- get ;;
          match dict_get key_eqb unNamedEntry (_names (tree s)) with
          | None => raise NotModelled
          | Some name =>
              if tuple_eqb (_wgst np) name then ret thresholds
              else raise AssertionError
          end
      end
  end.

(** *** The iteration order of a small set of tuples in CPython 3.6

    [tuplehash] is the hash of a tuple of small ints that are not negative
    (an int is its own hash), on 64 bits. A set starts with a table of 8
    slots and keeps it up to 4 items; an item goes to the slot [hash & 7]
    when that slot is free, and the set is iterated slot by slot. When two
    items claim one slot, or the set has more than 4 items, the order
    depends on probing and resizing, which are not modelled: the items are
    then left in insertion order. *)

Definition tuplehash (t : list Z) : Z :=
  let step (acc : Z * Z * Z) (y : Z) :=
    let '(x, mult, len) := acc in
    ((Z.lxor x y * mult) mod 2 ^ 64, (mult + 82520 + (len - 1) + (len - 1)) mod 2 ^ 64, len - 1) in
  let '(x, _, _) := fold_left step t (3430008, 1000003, Z.of_nat (List.length t)) in
  (x + 97531) mod 2 ^ 64.

Definition slot_of (t : list Z) : Z := Z.land (tuplehash t) 7.

Fixpoint distinct_slots (slots : list Z) : bool :=
  match slots with
  | [] => true
  | s :: rest => negb (existsb (Z.eqb s) rest) && distinct_slots rest
  end.

Definition cpython36_iter_set (items : list (list Z)) : list (list Z) :=
  if (List.length items <=? 4)%nat && distinct_slots (map slot_of items)
  then flat_map (fun slot => filter (fun t => slot_of t =? slot) items)
                [0; 1; 2; 3; 4; 5; 6; 7]
  else items.

(** ** The run controller: [Calculator] *)

(** [round(x, 2)] on a float: the decimal with two places that is nearest
    to the exact value of [x], the even one of two nearest, then the float
    nearest to that decimal. Exact for [|x| < 2^45]. *)
Definition round_half_even (num den : Z) : Z :=
  let q := num / den in
  let r := num mod den in
  if 2 * r <? den then q
  else if den <? 2 * r then q + 1
  else if Z.even q then q else q + 1.

Definition round2 (x : float) : float :=
  match Prim2SF x with
  | S754_finite s m e =>
      if 0 <=? e then x
      else
        let k := round_half_even (Z.pos m * 100) (2 ^ (- e)) in
        let r := (float_of_int k / f100)%float in
        if s then (- r)%float else r
  | _ => x
  end.

(** [calls.count(0)] *)
Definition count0 (calls : list Z) : Z :=
  Z.of_nat (List.length (filter (fun a => a =? 0) calls)).

(** The fraction of called loci as [CheckCore] computes it. *)
Definition core_ratio (calls : list Z) : float :=
  (float_of_int (Z.of_nat (List.length calls) - count0 calls)
   / float_of_int (Z.of_nat (List.length calls)))%float.

(** The closure [CheckCore]: [None] when too few loci are called. A float
    division by zero raises. *)
Definition CheckCore (minPres : float) (calls : list Z) : Res (option (list Z)) :=
  match calls with
  | [] => Raise ZeroDivisionError
  | _ :: _ =>
      if PrimFloat.ltb (round2 (core_ratio calls)) minPres then Ok None
      else Ok (Some calls)
  end.

(** The default of the script *)
Definition minpres : float := (float_of_int 95 / float_of_int 100)%float.

#[projections(primitive)]
Record Calculator : Type := mkCalculator {
  state : CalcState;                   (* [_tree], [_alleleCalls] and the disk *)
  _minPres : float;
  _thresholds : list float;
  _newKeys : list Key;
  _belowQC : dict Key (list string);
  namedEntries_ : list Key;            (* the local [namedEntries] of [DoCalc] *)
  error_log : list (nat * string)      (* what [log_error] wrote: depth, text *)
}.

Definition in_state {A} (m : Py CalcState A) : Py Calculator A :=
  fun c => let (r, s') := m (state c) in
           (r, mkCalculator s' (_minPres c) (_thresholds c) (_newKeys c) (_belowQC c)
                            (namedEntries_ c) (error_log c)).

Definition log_error (message : string) (depth : nat) : Py Calculator unit :=
  modify (fun c => mkCalculator (state c) (_minPres c) (_thresholds c) (_newKeys c)
                                (_belowQC c) (namedEntries_ c)
                                (error_log c ++ [(depth, message)])).

Fixpoint log_keys (keys : list Key) : Py Calculator unit :=
  match keys with
  | [] => ret tt
  | key :: rest => log_error key 2 ;;; log_keys rest
  end.

Module CalculatorOps.

(** The integrity check of [DoCalc]: the keys of the names map against the
    keys of [self._alleleCalls._alleleCalls]. *)
Definition check_integrity : Py Calculator unit :=
  c <- get ;;
  let names := dict_keys (_names (tree (state c))) in
  let calls := dict_keys (_alleleCalls (alleles (state c))) in
  if forallb (fun alleleKey => key_in alleleKey names) calls
     && forallb (fun treeKey => key_in treeKey calls) names
  then ret tt
  else
    let keysInTreeNotCalls := filter (fun alleleKey => negb (key_in alleleKey names)) calls in
    let keysInCallsNotTree := filter (fun treeKey => negb (key_in treeKey calls)) names in
    (match keysInTreeNotCalls with
     | [] => ret tt
     | _ => log_error "Keys in tree file missing from calls:" 1 ;;;
            log_keys keysInTreeNotCalls
     end) ;;;
    (match keysInCallsNotTree with
     | [] => ret tt
     | _ => log_error "Keys in calls file(s) missing from tree file:" 1 ;;;
            log_keys keysInCallsNotTree
     end) ;;;
    raise AssertionError.

Section Run.

Variable iter_set : list (list Z) -> list (list Z).

(** The body of the naming loop of [DoCalc] for one new profile. The
    informational log lines are left out. *)
Definition name_profile (key : Key) (calls : list Z) : Py Calculator unit :=
  hasName <- in_state (in_tree (TreeOps.HasName key)) ;;
  if hasName then
    hasKey <- in_state (in_store (AlleleCalls.HasKey key)) ;;
    if hasKey then ret tt
    else
      c <- get ;;
      checked <- lift (CheckCore (_minPres c) calls) ;;
      match checked with
      | Some (_ :: _) => in_state (in_store (AlleleCalls.Add key calls))
      | _ => ret tt
      end
  else
    modify (fun c => mkCalculator (state c) (_minPres c) (_thresholds c)
                       (if key_in key (_newKeys c) then _newKeys c else _newKeys c ++ [key])
                       (_belowQC c) (namedEntries_ c) (error_log c)) ;;;
    c <- get ;;
    eCalls <- lift (CheckCore (_minPres c) calls) ;;
    match eCalls with
    | None =>
        modify (fun c =>
          let reasons := match dict_get key_eqb key (_belowQC c) with
                         | Some rs => rs
                         | None => []
                         end in
          mkCalculator (state c) (_minPres c) (_thresholds c) (_newKeys c)
                       (dict_set key_eqb key (reasons ++ ["CORE"%string]) (_belowQC c))
                       (namedEntries_ c) (error_log c))
    | Some eCalls =>
        in_state (in_store (AlleleCalls.Add key eCalls)) ;;;
        c <- get ;;
        sorted <- in_state (CalcName iter_set (namedEntries_ c) key (_thresholds c) (_minPres c)) ;;
        modify (fun c => mkCalculator (state c) (_minPres c) sorted (_newKeys c)
                                      (_belowQC c) (namedEntries_ c) (error_log c)) ;;;
        named <- in_state (in_tree (TreeOps.HasName key)) ;;
        if named
        then modify (fun c => mkCalculator (state c) (_minPres c) (_thresholds c) (_newKeys c)
                                (_belowQC c) (namedEntries_ c ++ [key]) (error_log c))
        else ret tt
    end.

Fixpoint name_profiles (newProfiles : dict Key (list Z)) : Py Calculator unit :=
  match newProfiles with
  | [] => ret tt
  | (key, calls) :: rest => name_profile key calls ;;; name_profiles rest
  end.

(** What [DoCalc] does before the integrity check (loading the tree, the
    allele calls and the excluded codes), how it reads the batch, and what
    it does after the naming loop (saving and reporting) are taken as
    given. *)
Variable load_state : Py Calculator unit.
Variable LoadProfilesFromFile : Py Calculator (dict Key (list Z)).
Variable save_and_report : Py Calculator unit.

Definition DoCalc : Py Calculator unit :=
  load_state ;;;
  check_integrity ;;;
  names <- in_state (in_tree TreeOps.GetNames) ;;
  modify (fun c => mkCalculator (state c) (_minPres c) (_thresholds c) (_newKeys c)
                                (_belowQC c) (dict_keys names) (error_log c)) ;;;
  loaded <- LoadProfilesFromFile ;;
  c <- get ;;
  let newProfiles := filter (fun kc => negb (key_in (fst kc) (namedEntries_ c))) loaded in
  name_profiles newProfiles ;;;
  save_and_report.

(** The lock file on the disk of the store. *)
Variable lockfile_path : string.

Definition lock_present (c : Calculator) : bool :=
  dict_in String.eqb lockfile_path (disk (alleles (state c))).

Definition with_disk (c : Calculator) (d : Disk) : Calculator :=
  let s := state c in
  let a := alleles s in
  mkCalculator
    (mkCalc (tree s) (mkStore (_alleleCalls a) (_index a) (_matrices a) (_path a) d)
            (world s) (distances s))
    (_minPres c) (_thresholds c) (_newKeys c) (_belowQC c) (namedEntries_ c) (error_log c).

(** [os.remove(lockfile_path)] *)
Definition remove_lock : Py Calculator unit :=
  fun c => match dict_del String.eqb lockfile_path (disk (alleles (state c))) with
           | Ok d => (Ok tt, with_disk c d)
           | Raise _ => (Raise OSError, c)
           end.

(** [RunCalc]: [try: DoCalc, except: log, else: remove the lock]. *)
Definition RunCalc : Py Calculator unit :=
  fun c => match DoCalc c with
           | (Raise _, c') => (Ok tt, c')
           | (Ok _, c') => remove_lock c'
           end.

(** [DoRefresh]: [try: remove the lock, except: pass]. *)
Definition DoRefresh : Py Calculator unit :=
  fun c => match remove_lock c with
           | (Raise _, c') => (Ok tt, c')
           | r => r
           end.

(** [Run] *)
Definition Run : Py Calculator unit := RunCalc ;;; DoRefresh.

(** [Main]: the lock is taken, [Setup] runs, then [Run]; any exception is
    logged and swallowed. *)
Variable Setup : Py Calculator unit.

Definition Main : Py Calculator unit :=
  fun c =>
    let attempt : Py Calculator unit :=
      (fun c => if lock_present c then (Raise RuntimeError, c)
                else (Ok tt, with_disk c (dict_set String.eqb lockfile_path EmptyString
                                                   (disk (alleles (state c)))))) ;;;
      Setup ;;; Run in
    match attempt c with
    | (Raise _, c') => (Ok tt, c')
    | r => r
    end.

End Run.

End CalculatorOps.

(** * Further parts of the script

    Code the properties above do not reach: the text form of a code, the
    report of the codes, and the reader of the batch file. *)

(** ** Text: [str.split] and [int] *)

(** [s.split(sep)] for a separator of one character: the pieces between
    the separators, one piece more than there are separators. *)
Fixpoint split_on (sep : ascii) (s : string) : list string :=
  match s with
  | EmptyString => [EmptyString]
  | String c s' =>
      if Ascii.eqb c sep then EmptyString :: split_on sep s'
      else match split_on sep s' with
           | w :: ws => String c w :: ws
           | [] => [String c EmptyString]
           end
  end.

(** Characters that [int] treats in ways the embedding leaves out: white
    space, which it strips, the underscore, which it accepts between
    digits, and bytes from 0x80 up, which may spell a digit or a space of
    another script. *)
Definition int_unmodelled (c : ascii) : bool :=
  let n := nat_of_ascii c in
  ((9 <=? n) && (n <=? 13) || (28 <=? n) && (n <=? 32) || (n =? 95) || (128 <=? n))%nat.

(** [int(s)] for a str: an optional sign and decimal digits, at least
    one; anything else is a [ValueError]. *)
Definition int_of_str (s : string) : Res Z :=
  let cs := list_ascii_of_string s in
  if existsb int_unmodelled cs then Raise NotModelled
  else
    let (neg, ds) :=
      match cs with
      | c :: r =>
          if Ascii.eqb c "-"%char then (true, r)
          else if Ascii.eqb c "+"%char then (false, r)
          else (false, cs)
      | [] => (false, [])
      end in
    match ds with
    | [] => Raise ValueError
    | _ :: _ =>
        if forallb is_digit ds
        then Ok (if neg then - digits_value ds else digits_value ds)
        else Raise ValueError
    end.

(** [s[:n]] and [s[n:]] for [n] that is not negative *)
Fixpoint str_take (n : nat) (s : string) : string :=
  match n, s with
  | S n', String c s' => String c (str_take n' s')
  | _, _ => EmptyString
  end.

Fixpoint str_drop (n : nat) (s : string) : string :=
  match n, s with
  | S n', String c s' => str_drop n' s'
  | _, _ => s
  end.

(** ** The text form of a code *)

(** The global [version] *)
Definition version : string := "2.1".

Module TreeNames.

(** [Tree.NameToStr]: ['.'.join(list(map(str, parts)))] *)
Definition NameToStr (parts : list Z) : string := join "." (map repr_int parts).

(** [Tree.NameFromStr]: [list(map(int, name.split('.')))] *)
Definition NameFromStr (name : string) : Res (list Z) :=
  all_ok int_of_str (split_on "."%char name).

Section Prefix.

(** The global [prefix], set from the command line. *)
Variable prefix : string.

(** [Tree.CDCName] *)
Definition CDCName (part : list Z) : string :=
  (prefix ++ version ++ " - " ++ NameToStr part)%string.

(** [Tree.CDCNameFromStr]: the empty list when the text does not start
    with the prefix and the version. *)
Definition CDCNameFromStr (name : string) : Res (list Z) :=
  let codePrefix := (prefix ++ version ++ " - ")%string in
  if negb (String.eqb (str_take (String.length codePrefix) name) codePrefix)
  then Ok []
  else NameFromStr (str_drop (String.length codePrefix) name).

End Prefix.

(** [Tree.GetStrName] *)
Definition GetStrName (key : Key) : Py Tree string :=
  name <- TreeOps.GetName key ;; ret (NameToStr name).

End TreeNames.

(** ** The batch file: [LoadProfilesFromFile] *)

(** White space as [str.strip] sees it, among the characters of ASCII. *)
Definition is_space (c : ascii) : bool :=
  let n := nat_of_ascii c in
  ((9 <=? n) && (n <=? 13) || (28 <=? n) && (n <=? 32))%nat.

Fixpoint lstrip (cs : list ascii) : list ascii :=
  match cs with
  | c :: r => if is_space c then lstrip r else cs
  | [] => []
  end.

(** [line.strip()]. A line with a byte from 0x80 up is outside the
    embedding: it may end in white space of another script. *)
Definition strip (line : string) : Res string :=
  let cs := list_ascii_of_string line in
  if existsb (fun c => (128 <=? nat_of_ascii c)%nat) cs then Raise NotModelled
  else Ok (string_of_list_ascii (rev (lstrip (rev (lstrip cs))))).

Section Batch.

(** The globals [delim], a comma or a tab, and [coreLoci]. *)
Variable delim : ascii.
Variable coreLoci : list string.

(** [{fields[f]: int(row[f+1]) for f in range(len(fields))}] *)
Fixpoint locus_calls (fields row : list string) (fs : list nat) (acc : dict string Z)
  : Res (dict string Z) :=
  match fs with
  | [] => Ok acc
  | f :: fs' =>
      match nth_error row (S f) with
      | None => Raise IndexError
      | Some cell =>
          match int_of_str cell with
          | Raise e => Raise e
          | Ok v =>
              match nth_error fields f with
              | None => Raise IndexError
              | Some name => locus_calls fields row fs' (dict_set String.eqb name v acc)
              end
          end
      end
  end.

(** The dict comprehension over the rows after the header: a key that
    comes again keeps its place and takes the later row. *)
Fixpoint read_rows (fields : list string) (rows : list (list string))
         (acc : dict Key (dict string Z)) : Res (dict Key (dict string Z)) :=
  match rows with
  | [] => Ok acc
  | row :: rest =>
      match locus_calls fields row (range (List.length fields)) [] with
      | Raise e => Raise e
      | Ok values =>
          match hd_error row with
          | None => Raise IndexError
          | Some key => read_rows fields rest (dict_set key_eqb key values acc)
          end
      end
  end.

(** [[values.get(locus, 0) for locus in coreLoci]] *)
Definition in_core_order (values : dict string Z) : list Z :=
  map (fun locus => match dict_get String.eqb locus values with
                    | Some v => v
                    | None => 0
                    end) coreLoci.

(** [LoadProfilesFromFile], on the lines that the open file yields. *)
Definition LoadProfilesFromFile (lines : list string) : Res (dict Key (list Z)) :=
  match all_ok strip (filter (fun line => negb (String.eqb line EmptyString)) lines) with
  | Raise e => Raise e
  | Ok stripped =>
      match map (split_on delim) stripped with
      | [] => Raise IndexError
      | header :: rows =>
          match read_rows (tl header) rows [] with
          | Raise e => Raise e
          | Ok profiles => Ok (map (fun kv => (fst kv, in_core_order (snd kv))) profiles)
          end
      end
  end.

End Batch.

(** ** The report of the codes: [NTraverse] and [FinalizeCDCNames] *)

(** What [NTraverse] lists for one node: -1 when [TotalChildCount] is 1,
    the id of the node otherwise. *)
Definition NTraverse_mark (n : Node) : Z :=
  if TotalChildCount n =? 1 then -1 else _ID n.

(** [NTraverse] of the node that [up] leads to: [up] is the address of the
    node read from its end, so its tail is the address of the parent. The
    list goes from the node up to the head node, which has no parent. *)
Fixpoint NTraverse (root : Node) (up : list Z) : Res (list Z) :=
  match up with
  | [] => Ok [NTraverse_mark root]
  | _ :: parent =>
      match node_at root (rev up) with
      | None => Raise NotModelled
      | Some n =>
          match NTraverse root parent with
          | Ok marks => Ok (NTraverse_mark n :: marks)
          | Raise e => Raise e
          end
      end
  end.

(** The loop of [FinalizeCDCNames] over [enumerate(cdcname, 1)]: at the
    first value greater than 0, [part = len(cdcname) - i]; [part] stays
    0 when there is none. *)
Fixpoint code_part (len i : nat) (cdcname : list Z) : nat :=
  match cdcname with
  | [] => 0%nat
  | val :: rest => if 0 <? val then (len - i)%nat else code_part len (S i) rest
  end.

Section Report.

Variable prefix : string.

(** The inner loop over the keys of one [NamedNode]. *)
Fixpoint report_keys (part : nat) (complete : bool) (keys : list Key)
  : Py Tree (list (Key * string * bool)) :=
  match keys with
  | [] => ret []
  | key :: rest =>
      name <- TreeOps.GetPart key part ;;
      more <- report_keys part complete rest ;;
      ret ((key, TreeNames.CDCName prefix name, complete) :: more)
  end.

(** The body of the loop over the named nodes, for the one at [a]. *)
Definition report_node (a : Address) (namedNode : Node)
  : Py Tree (list (Key * string * bool)) :=
  t <- get ;;
  cdcname <- lift (NTraverse (_tree t) (rev a)) ;;
  let part := code_part (List.length cdcname) 1 cdcname in
  keys <- lift (GetNamedChildren namedNode) ;;
  report_keys part (Z.of_nat part =? DEPTH t) keys.

(** [Tree.FinalizeCDCNames]: what the generator yields, in order. *)
Definition FinalizeCDCNames : Py Tree (list (Key * string * bool)) :=
  t <- get ;;
  found <- comprehension (fun an => report_node (fst an) (snd an))
             (flat_map (fun kc => map (fun an => (fst kc :: fst an, snd an))
                                      (DFSNamed (snd kc)))
                       (_children (_tree t))) ;;
  ret (List.concat found).

End Report.

(** ** The excluded codes: [CheckXcodeList] *)

Section Xcodes.

(** The globals [prefix] and [xCodeList]. *)
Variable prefix : string.
Variable xCodeList : list string.

(** The loop over [xCodeList]. *)
Fixpoint first_xcode (name : string) (nameAsList : list string) (xCodes : list string)
  : string :=
  match xCodes with
  | [] => name
  | xCode :: rest =>
      let n := List.length (split_on "."%char xCode) in
      if (List.length nameAsList <? n)%nat then first_xcode name nameAsList rest
      else if String.eqb (join "." (firstn n nameAsList)) xCode
           then (prefix ++ version ++ " - " ++ xCode ++ "x")%string
           else first_xcode name nameAsList rest
  end.

(** [CheckXcodeList(name)] *)
Definition CheckXcodeList (name : string) : string :=
  let l := (String.length prefix + String.length version + 3)%nat in
  first_xcode name (split_on "."%char (str_drop l name)) xCodeList.

End Xcodes.

(** ** The output file: [WriteResults] *)

Definition newline : string := String (ascii_of_nat 10) EmptyString.

(** What the [f.write] calls leave in the file, one call for each line:
    the cells joined with the delimiter, then a newline. *)
Fixpoint file_text (outDelim : string) (lines : list (list string)) : string :=
  match lines with
  | [] => EmptyString
  | cells :: rest => (join outDelim cells ++ newline ++ file_text outDelim rest)%string
  end.

Section Output.

Variable prefix : string.

(** [self._output] and [self._changedKeys], which the [Calculator]
    record above does not carry. *)
Variable output : string.
Variable changedKeys_ : list Key.

(** The body of the loop, for one entry of the report: the lines it
    writes. *)
Definition result_lines (c : Calculator) (entry : Key * string * bool)
  : list (list string) :=
  let '(key, value, _) := entry in
  (if key_in key (_newKeys c) || key_in key changedKeys_
   then [[key; value]] else [])
  ++ match dict_get key_eqb key (_belowQC c) with
     | Some reasons => [[key; ("FAILED QC: " ++ join ", " reasons)%string]]
     | None => []
     end.

(** [Calculator.WriteResults]. The file is opened for writing before the
    report is made, so a report that raises leaves a part of the file
    behind; that case is not modelled. *)
Definition WriteResults (outDelim : string) : Py Calculator unit :=
  fun c =>
    match in_state (in_tree (FinalizeCDCNames prefix)) c with
    | (Raise _, c') => (Raise NotModelled, c')
    | (Ok entries, c') =>
        let lines := ["Key"; "Allele_code"]%string :: flat_map (result_lines c') entries in
        (Ok tt, CalculatorOps.with_disk c'
                  (dict_set String.eqb output (file_text outDelim lines)
                            (disk (alleles (state c')))))
    end.

End Output.

(** ** The tree file: [Node.Save] and [Node.Load] *)

(** A key of the ['children'] dict of an [info] dict: an int, as
    [Node.Save] writes it, or a str, as it is read from a tree file. *)
Inductive IdKey : Type :=
| KInt (i : Z)
| KStr (s : string).

(** [int(childId)] *)
Definition int_of_key (k : IdKey) : Res Z :=
  match k with
  | KInt i => Ok i
  | KStr s => int_of_str s
  end.

(** The [info] dict of a node, with the keys ['ID'], ['level'],
    ['diameter'], ['preferred'] and ['children'] that [Node.Load] reads;
    [info_details] is [info['details']['namedChildren']], when the dict
    has ['details']. *)
Inductive Info : Type := mkInfo {
  info_ID : Z;
  info_level : Z;
  info_diameter : float;
  info_preferred : option Key;
  info_children : list (IdKey * Info);
  info_details : option (list Key)
}.

(** [Node.Save], with [_Save] of the node's class: a [NamedNode] adds its
    keys as ['details'], a [Node] adds nothing. *)
Fixpoint Save (n : Node) : Info :=
  match n with
  | mkNode ID level children diameter preferred _ np =>
      mkInfo ID level diameter preferred
             (map (fun kc => match kc with (childId, child) => (KInt childId, Save child) end)
                  children)
             (match np with
              | Some named => Some (_namedChildren named)
              | None => None
              end)
  end.

(** [{key: self._wgst for key in info['namedChildren']}], as its keys. *)
Definition keys_dict (keys : list Key) : list Key :=
  fold_left (fun acc key => if key_in key acc then acc else acc ++ [key]) keys [].

Section LoadChildren.

Variable load : Info -> Res Node.

(** The dict comprehension over [info['children'].items()]; Python 3.6
    evaluates the value of an item before its key. *)
Fixpoint load_items (items : list (IdKey * Info)) (acc : list (Z * Node))
  : Res (list (Z * Node)) :=
  match items with
  | [] => Ok acc
  | (childId, childInfo) :: rest =>
      match load childInfo with
      | Raise e => Raise e
      | Ok child =>
          match int_of_key childId with
          | Raise e => Raise e
          | Ok k => load_items rest (dict_set Z.eqb k child acc)
          end
      end
  end.

End LoadChildren.

(** [Node.Load(parent, info, depth)]. Of the parent the new node reads
    only [RTraverse()]: [parent] is [None] when there is no parent, and
    the ids from below the head node down to the parent otherwise.
    [GetNode] makes a [NamedNode] exactly at [level == depth], and only a
    [NamedNode] reads the ['details']. *)
Fixpoint Load (parent : option (list Z)) (info : Info) (depth : Z) {struct info}
  : Res Node :=
  match info with
  | mkInfo ID level diameter preferred children details =>
      let here := match parent with
                  | None => []
                  | Some above => above ++ [ID]
                  end in
      let np := if level =? depth
                then Some (mkNamed here (match details with
                                         | Some keys => keys_dict keys
                                         | None => []
                                         end))
                else None in
      match load_items (fun childInfo => Load (Some here) childInfo depth) children [] with
      | Raise e => Raise e
      | Ok cs => Ok (mkNode ID level cs diameter preferred None np)
      end
  end.

(** ** The change log: how [DoCalc] tells a changed code *)

(** [s.endswith(suffix)] *)
Definition ends_with (suffix s : string) : bool :=
  (String.length suffix <=? String.length s)%nat
  && String.eqb (str_drop (String.length s - String.length suffix) s) suffix.

(** [min(xs)] for a list of indices *)
Definition min_nat (xs : list nat) : Res nat :=
  match xs with
  | [] => Raise ValueError
  | x :: rest => Ok (fold_left Nat.min rest x)
  end.

(** The test of [DoCalc] for a change:
    ['.'.join(currName.split('.')[:len(newName.split('.'))]) != newName] *)
Definition is_changed (currName newName : string) : bool :=
  negb (String.eqb
          (join "." (firstn (List.length (split_on "."%char newName))
                            (split_on "."%char currName)))
          newName).

(** [[i for i, c in enumerate(cName) if c != nName[i]]] *)
Fixpoint differing_enum (i : nat) (cName nName : list string) : Res (list nat) :=
  match cName with
  | [] => Ok []
  | c :: rest =>
      match nth_error nName i with
      | None => Raise IndexError
      | Some n =>
          match differing_enum (S i) rest nName with
          | Raise e => Raise e
          | Ok more => Ok (if String.eqb c n then more else i :: more)
          end
      end
  end.

(** [[cName[i] != nName[i] for i in range(...)]] *)
Fixpoint differ_flags (cName nName : list string) (idx : list nat) : Res (list bool) :=
  match idx with
  | [] => Ok []
  | i :: rest =>
      match nth_error cName i, nth_error nName i with
      | Some c, Some n =>
          match differ_flags cName nName rest with
          | Raise e => Raise e
          | Ok more => Ok (negb (String.eqb c n) :: more)
          end
      | _, _ => Raise IndexError
      end
  end.

(** [[i for i in range(...) if cName[i] != nName[i]]] *)
Fixpoint differing_range (cName nName : list string) (idx : list nat) : Res (list nat) :=
  match idx with
  | [] => Ok []
  | i :: rest =>
      match nth_error cName i, nth_error nName i with
      | Some c, Some n =>
          match differing_range cName nName rest with
          | Raise e => Raise e
          | Ok more => Ok (if String.eqb c n then more else i :: more)
          end
      | _, _ => Raise IndexError
      end
  end.

Definition merged_at (found : Res (list nat)) : Res string :=
  match found with
  | Raise e => Raise e
  | Ok l =>
      match min_nat l with
      | Raise e => Raise e
      | Ok i => Ok ("Merged@" ++ repr_int (Z.of_nat i))%string
      end
  end.

(** The ['ChangeType'] that [DoCalc] writes to the change log for a code
    that it has found changed. *)
Definition ChangeType (currName newName : string) : Res string :=
  if ends_with "x" currName || ends_with "x" newName then Ok "X"%string
  else
    let cName := split_on "."%char currName in
    let nName := split_on "."%char newName in
    if (List.length cName <? List.length nName)%nat then
      if String.eqb currName (join "." (firstn (List.length cName) nName))
      then Ok "Extended"%string
      else merged_at (differing_enum 0 cName nName)
    else
      let common := Nat.min (List.length cName) (List.length nName) in
      match differ_flags cName nName (seq 0 common) with
      | Raise e => Raise e
      | Ok flags =>
          if existsb (fun b => b) flags
          then merged_at (differing_range cName nName (seq 0 common))
          else Ok "Other"%string
      end.

(** ** Renaming a key: [UpdateNamed] *)

(** [NamedNode.UpdateNamed], on the keys of [_namedChildren]:
    [d[newKey] = d[key]] keeps the place of a key that is there and puts
    a new key at the end; [del d[key]] follows. *)
Definition rename_named (key newKey : Key) (np : NamedPart) : Res NamedPart :=
  if key_in key (_namedChildren np)
  then Ok (mkNamed (_wgst np)
             (filter (fun k => negb (key_eqb key k))
                     (if key_in newKey (_namedChildren np) then _namedChildren np
                      else _namedChildren np ++ [newKey])))
  else Raise KeyError.

(** The loop of [Tree.UpdateNamed] down the location: [above] leads to
    [parent]. What the loop has changed stays changed when it raises. *)
Fixpoint replace_preferred (key newKey : Key) (root : Node) (above : Address)
         (location : list Z) : Res unit * Node :=
  match location with
  | [] => (Ok tt, root)
  | ID :: rest =>
      match node_at root (above ++ [ID]) with
      | None => (Raise RuntimeError, root)
      | Some child =>
          let root' :=
            match _preferred child with
            | Some p =>
                if key_eqb p key
                then update_at root (above ++ [ID]) (fun n => with_preferred n (Some newKey))
                else root
            | None => root
            end in
          replace_preferred key newKey root' (above ++ [ID]) rest
      end
  end.

Section Renaming.

(** [self._treeHasBeenBuilt], which the [Tree] record above does not
    carry; [Tree.Load] sets it and nothing clears it. *)
Variable treeHasBeenBuilt : bool.

(** [Tree.UpdateNamed] *)
Definition UpdateNamed (key newKey : Key) : Py Tree unit :=
  fun t =>
    match dict_get key_eqb key (_names t) with
    | None => (Ok tt, t)
    | Some location =>
        let built : Res unit * Node :=
          if treeHasBeenBuilt then
            match Traverse (_tree t) location with
            | Raise e => (Raise e, _tree t)
            | Ok None => (Raise RuntimeError, _tree t)
            | Ok (Some named_node) =>
                match namedPart named_node with
                | None => (Raise RuntimeError, _tree t)
                | Some np =>
                    match rename_named key newKey np with
                    | Raise e => (Raise e, _tree t)
                    | Ok np' =>
                        replace_preferred key newKey
                          (update_at (_tree t) location (fun n => with_named n (Some np')))
                          [] location
                    end
                end
            end
          else (Ok tt, _tree t) in
        match built with
        | (Raise e, root) => (Raise e, mkTree root (_names t) (DEPTH t))
        | (Ok _, root) =>
            let names1 := dict_set key_eqb newKey location (_names t) in
            match dict_del key_eqb key names1 with
            | Ok names2 => (Ok tt, mkTree root names2 (DEPTH t))
            | Raise e => (Raise e, mkTree root names1 (DEPTH t))
            end
        end
    end.

End Renaming.



(** * The vocabulary of the properties

    What the statements below are written with: the counts and the value
    of the distance, the outcome of the quality filter, key sets, the
    members and the decision of [IsInCluster], triples for computations
    that return, and the concrete states of the examples. *)

(** What the two comprehensions of [GetDistance] count. *)
Definition called_at (p1 p2 : list Z) (i : nat) : bool :=
  (0 <? at_ p1 i) && (0 <? at_ p2 i).

Definition truthy_at (p1 p2 : list Z) (i : nat) : bool :=
  negb (at_ p1 i =? 0) && negb (at_ p2 i =? 0).

Definition differ_at (p1 p2 : list Z) (i : nat) : bool :=
  negb (at_ p1 i =? at_ p2 i).

(** The world [w'] is [w] after the reads [rs]. *)
Definition extends (w w' : World) (rs : list (operand * nat)) : Prop :=
  w' = mkWorld (cntDistancesCalculated w) (reads w ++ rs).

(** A computation on two profiles that succeeds with a given value and
    reads in bounds only. *)
Definition runs_to (p1 p2 : list Z) {A} (m : Py World A) (a : A) : Prop :=
  forall w, exists w' rs,
    m w = (Ok a, w') /\ extends w w' rs /\ Forall (in_bounds p1 p2) rs.

(** The counts of the code. *)
Definition nCommon (p1 p2 : list Z) : Z :=
  Z.of_nat (List.length (filter (called_at p1 p2) (range (List.length p1)))).

Definition nDiff (p1 p2 : list Z) : Z :=
  Z.of_nat (List.length
              (filter (fun i => truthy_at p1 p2 i && differ_at p1 p2 i)
                      (range (List.length p1)))).

Definition percent (p1 p2 : list Z) : float :=
  if negb (nCommon p1 p2 =? 0)
  then (f100 * float_of_int (nDiff p1 p2) / float_of_int (nCommon p1 p2))%float
  else f100.

(** The state after a rejection: the key is a new key, its list of
    reasons in [_belowQC] has gained [CORE], nothing else has changed. *)
Definition rejected (key : Key) (c : Calculator) : Calculator :=
  mkCalculator (state c) (_minPres c) (_thresholds c)
    (if key_in key (_newKeys c) then _newKeys c else _newKeys c ++ [key])
    (dict_set key_eqb key
       (match dict_get key_eqb key (_belowQC c) with Some rs => rs | None => [] end
        ++ ["CORE"%string]) (_belowQC c))
    (namedEntries_ c) (error_log c).

(** The rest of the loop body for a profile that passed the filter. *)
Definition place (iter_set : list (list Z) -> list (list Z)) (key : Key)
           (calls : list Z) : Py Calculator unit :=
  in_state (in_store (AlleleCalls.Add key calls)) ;;;
  c <- get ;;
  sorted <- in_state (CalcName iter_set (namedEntries_ c) key (_thresholds c) (_minPres c)) ;;
  modify (fun c => mkCalculator (state c) (_minPres c) sorted (_newKeys c)
                                (_belowQC c) (namedEntries_ c) (error_log c)) ;;;
  named <- in_state (in_tree (TreeOps.HasName key)) ;;
  if named
  then modify (fun c => mkCalculator (state c) (_minPres c) (_thresholds c) (_newKeys c)
                          (_belowQC c) (namedEntries_ c ++ [key]) (error_log c))
  else ret tt.

(** Scenario 5 of the specification: five loci, [min_present = 0.6]. *)
Definition calc_scenario : Calculator :=
  mkCalculator (mkCalc (TreeOps.init 2) (AlleleCalls.init []) world0 [])
               (float_of_int 6 / float_of_int 10)%float
               [float_of_int 50; float_of_int 10] [] [] [] [].

(** A profile of 19 loci with one missing, and a calculator with the
    default [min_present] of 0.95. *)
Definition calls_18_of_19 : list Z := repeat 1 18 ++ [0].

Definition calc_default : Calculator :=
  mkCalculator (mkCalc (TreeOps.init 2) (AlleleCalls.init []) world0 [])
               minpres [float_of_int 50; float_of_int 10] [] [] [] [].

(** Two lists of keys with the same elements. *)
Definition same_keys (xs ys : list Key) : Prop := forall k, In k xs <-> In k ys.

(** The keys of the store, both tiers. *)
Definition store_keys (s : Store) : list Key :=
  dict_keys (_alleleCalls s)
  ++ match _index s with VDict items => dict_keys items | _ => [] end.

Definition keys_agree (names calls : list Key) : bool :=
  forallb (fun alleleKey => key_in alleleKey names) calls
  && forallb (fun treeKey => key_in treeKey calls) names.

(** What the failed check writes to the log. *)
Definition integrity_report (names calls : list Key) : list (nat * string) :=
  let extra_calls := filter (fun k => negb (key_in k names)) calls in
  let extra_names := filter (fun k => negb (key_in k calls)) names in
  (match extra_calls with
   | [] => []
   | _ => (1%nat, "Keys in tree file missing from calls:"%string)
          :: map (fun k => (2%nat, k)) extra_calls
   end)
  ++ (match extra_names with
      | [] => []
      | _ => (1%nat, "Keys in calls file(s) missing from tree file:"%string)
             :: map (fun k => (2%nat, k)) extra_names
      end).

Definition with_log (c : Calculator) (l : list (nat * string)) : Calculator :=
  mkCalculator (state c) (_minPres c) (_thresholds c) (_newKeys c) (_belowQC c)
               (namedEntries_ c) l.

Definition names_of (c : Calculator) : list Key := dict_keys (_names (tree (state c))).

Definition hot_of (c : Calculator) : list Key :=
  dict_keys (_alleleCalls (alleles (state c))).

(** A state in which the names map and the store agree on the one key
    [K1], which lives in the cold tier; the lock file is on the disk. *)
Definition calc_cold : Calculator :=
  mkCalculator
    (mkCalc (mkTree (new_Node 1 0) [("K1"%string, [1; 1])] 2)
            (mkStore [] (VDict [("K1"%string, VList [VInt 0; VInt 0])]) [] "data"%string
                     [("data/nomenclature.lock"%string, EmptyString)])
            world0 [])
    minpres [float_of_int 50; float_of_int 10] [] [] [] [].

(** A store of 1001 profiles added in this run, none promoted yet. *)
Definition store_1001 : Store :=
  mkStore (map (fun i => (("k" ++ repr_int (Z.of_nat i))%string, [1; Z.of_nat i]))
               (seq 0 1001))
          (VDict []) [] EmptyString [].

(** The next run: a new [AlleleCalls] object on the disk that [Save] left. *)
Definition reload (path : string) (saved : Store) : Res unit * Store :=
  AlleleCalls.Load path (AlleleCalls.init (disk saved)).

(** A key the new key can be compared with: it has a profile of the same
    length as the new profile in the hot tier, and a place in [index]. *)
Definition comparable (index : dict Key nat) (A : Store) (cold : list (string * pyval))
           (new_profile : list Z) (k : Key) : bool :=
  match dict_get key_eqb k (_alleleCalls A), dict_get String.eqb k cold,
        dict_get key_eqb k index with
  | Some p, None, Some _ => (List.length p =? List.length new_profile)%nat
  | _, _, _ => false
  end.

(** The distance the code computes for a key: [GetDistance] of the key's
    profile and the new profile, in this order. *)
Definition stored_distance (A : Store) (new_profile : list Z) (k : Key) : float :=
  match dict_get key_eqb k (_alleleCalls A) with
  | Some p => percent p new_profile
  | None => f100
  end.

(** The memo of the new key holds, where it holds a distance at all, the
    distance of the key at that place. *)
Definition memo_ok (namedEntries : list Key) (index : dict Key nat) (unNamedEntry : Key)
           (A : Store) (cold : list (string * pyval)) (new_profile : list Z)
           (ds : dict Key (list float)) : Prop :=
  forall row, dict_get key_eqb unNamedEntry ds = Some row ->
    List.length row = List.length namedEntries
    /\ forall k i m,
         comparable index A cold new_profile k = true ->
         dict_get key_eqb k index = Some i ->
         nth_error row i = Some m -> PrimFloat.leb f0 m = true ->
         m = stored_distance A new_profile k.

Definition placing (namedEntries : list Key) (index : dict Key nat) (unNamedEntry : Key)
           (A : Store) (cold : list (string * pyval)) (new_profile : list Z)
           (s : CalcState) : Prop :=
  alleles s = A
  /\ memo_ok namedEntries index unNamedEntry A cold new_profile (distances s).

(** The members of a node as [EntryKeys] returns them. *)
Definition members_of (n : Node) : list Key :=
  match _entryKeys n with Some ks => ks | None => iter_entrykeys n end.

(** What [IsInCluster] decides, in terms of the distances to the founder
    and to the members. *)
Definition in_cluster (dist : Key -> float) (founder : Key) (diameter : float)
           (members : list Key) (threshold corePercent : float) : bool :=
  if PrimFloat.leb (dist founder) threshold then true
  else if PrimFloat.ltb threshold
            (dist founder - diameter - f2 * (f100 - f100 * corePercent))%float
       then false
       else existsb (fun k => PrimFloat.leb (dist k) threshold) members.

(** [dist(key, k)]: the distance function on the profiles that the store
    holds for the two keys. *)
Definition profile_distance (A : Store) (key k : Key) : float :=
  match dict_get key_eqb key (_alleleCalls A), dict_get key_eqb k (_alleleCalls A) with
  | Some p, Some q => match distance p q with Ok d => d | Raise _ => f100 end
  | _, _ => f100
  end.

(** Scenario 2 of the specification, then a third profile in the store:
    it is 60% from the founder [K1] of cluster 1 and 40% from the member
    [K2], so with the threshold 50 it is in the cluster through [K2]. *)
Definition placed_two : Calculator :=
  Eval vm_compute in
  snd (CalculatorOps.name_profiles cpython36_iter_set
         [("K1"%string, [1;1;1;1;1]); ("K2"%string, [1;1;1;1;2])] calc_scenario).

Definition third_added : CalcState :=
  Eval vm_compute in
  snd (in_store (AlleleCalls.Add "K5"%string [2;2;1;1;2]) (state placed_two)).

Definition cluster_one : Node :=
  Eval vm_compute in
  match node_at (_tree (tree third_added)) [1] with
  | Some n => n
  | None => new_Node 0 0
  end.

(** [triple P m Q]: from a state in [P], when [m] returns a value, the
    value and the new state are in [Q]. *)
Definition triple {S A} (P : S -> Prop) (m : Py S A) (Q : A -> S -> Prop) : Prop :=
  forall s a s', P s -> m s = (Ok a, s') -> Q a s'.

(** A computation that leaves the tree as it is, whatever it returns. *)
Definition tree_const {A} (m : Py CalcState A) : Prop :=
  forall s, tree (snd (m s)) = tree s.

(** The [_ID] of the node at an address. *)
Definition ID_at (a : Address) (i : Z) (s : CalcState) : Prop :=
  option_map _ID (node_at (_tree (tree s)) a) = Some i.

(** The member count of a node: [len(node.EntryKeys)]. *)
Definition member_total (n : Node) : Z := Z.of_nat (List.length (members_of n)).

(** Filling the cache of member lists changes nothing else in a node. *)
Definition same_core (n n' : Node) : Prop :=
  _ID n' = _ID n /\ _children n' = _children n /\ _preferred n' = _preferred n
  /\ _diameter n' = _diameter n /\ namedPart n' = namedPart n
  /\ members_of n' = members_of n.

(** The matching children are where they were, up to their caches. *)
Definition kept (cur : Address) (matching : list (Z * Node)) (s : CalcState) : Prop :=
  forall k n, In (k, n) matching ->
    exists n', node_at (_tree (tree s)) (cur ++ [k]) = Some n' /\ same_core n n'.

(** One level, threshold 50, four loci. [A] and [B] are 75% apart and
    found two clusters; [B2] equals [B]; [C] is 25% from [A] and 50% from
    [B], so it matches both clusters. *)
Definition calc_one_level : Calculator :=
  mkCalculator (mkCalc (TreeOps.init 1) (AlleleCalls.init []) world0 [])
               (float_of_int 6 / float_of_int 10)%float
               [float_of_int 50] [] [] [] [].

Definition before_merge : CalcState :=
  Eval vm_compute in
  let placed := snd (CalculatorOps.name_profiles cpython36_iter_set
                       [("A"%string, [1;1;1;1]); ("B"%string, [2;2;2;1]);
                        ("B2"%string, [2;2;2;1])] calc_one_level) in
  let added := snd (in_store (AlleleCalls.Add "C"%string [1;1;2;1]) (state placed)) in
  snd (in_tree (TreeOps.GetName "C"%string) added).

Definition child_of (s : CalcState) (k : Z) : Node :=
  match node_at (_tree (tree s)) [k] with Some n => n | None => new_Node 0 0 end.

Definition smaller_child : Node := Eval vm_compute in child_of before_merge 1.

Definition larger_child : Node := Eval vm_compute in child_of before_merge 2.

(** The nodes found below a node, seen from the node at [a] above it. *)
Definition prefixed (a : Address) (found : list (Address * Node))
  : list (Address * Node) :=
  map (fun bm => (a ++ fst bm, snd bm)) found.

(** The number of nodes a stack or a [_children] dict still holds. *)
Definition stack_size (st : list (Address * Node)) : nat :=
  fold_right (fun an acc => (node_size (snd an) + acc)%nat) O st.

Definition children_size (cs : list (Z * Node)) : nat :=
  fold_right (fun kc acc => (node_size (snd kc) + acc)%nat) O cs.

(** * The vocabulary of the further properties *)

(** ** The distance function, out of its domain *)

(** A computation on the world that raises nothing but [IndexError]. *)
Definition only_IndexError {A} (m : Py World A) : Prop :=
  forall w e w', m w = (Raise e, w') -> e = IndexError.

(** Where the first profile has an entry that is not 0, the two second
    profiles have the same entry or both have none. *)
Definition agree_where_called (p1 p2 p2' : list Z) : Prop :=
  forall i, (i < List.length p1)%nat -> at_ p1 i <> 0 -> nth_error p2 i = nth_error p2' i.

(** An entry of the first profile that is not 0, at a place the second
    profile does not have. *)
Definition called_past_end (p1 p2 : list Z) (i : nat) : Prop :=
  (List.length p2 <= i < List.length p1)%nat /\ at_ p1 i <> 0.

(** ** The store *)

(** A key of the cold tier as [_Convert] records it: the index holds a
    tuple of a shard number and a position, and the shard is loaded as
    the dict [_Convert] built. *)
Definition cold_entry (s : Store) (k : Key) : Prop :=
  exists idx m i items,
    _index s = VDict idx
    /\ dict_get String.eqb k idx = Some (VTuple [VInt (Z.of_nat m); VInt i])
    /\ nth_error (_matrices s) m = Some (Some (VDict items)).

(** The keys of a block are no longer in the hot tier. *)
Definition without_keys (ks : list Key) (hot : dict Key (list Z)) : dict Key (list Z) :=
  filter (fun kv => negb (key_in (fst kv) ks)) hot.

(** What [_Convert] has done to a key between two states of the store:
    nothing, or moved it from the hot tier to the cold one. *)
Definition untouched (s0 s : Store) (k : Key) : Prop :=
  dict_in key_eqb k (_alleleCalls s) = dict_in key_eqb k (_alleleCalls s0)
  /\ exists idx0 idx, _index s0 = VDict idx0 /\ _index s = VDict idx
       /\ dict_get String.eqb k idx = dict_get String.eqb k idx0.

Definition promoted (s0 s : Store) (k : Key) : Prop :=
  dict_in key_eqb k (_alleleCalls s0) = true
  /\ dict_in key_eqb k (_alleleCalls s) = false
  /\ cold_entry s k.

(** The invariant of the loop of [_Convert], from the store [s0] it
    started with: the index is a dict, the hot tier has no key twice, and
    every key is where it was or has been moved to the cold tier. *)
Definition converting (s0 s : Store) : Prop :=
  (exists idx, _index s = VDict idx)
  /\ NoDup (dict_keys (_alleleCalls s))
  /\ forall k, untouched s0 s k \/ promoted s0 s k.

(** A list of keys without repetition, decided. *)
Fixpoint distinct_keys (ks : list Key) : bool :=
  match ks with
  | [] => true
  | k :: rest => negb (key_in k rest) && distinct_keys rest
  end.

(** The store of 1001 profiles after [Save]. *)
Definition saved_1001 : Store :=
  Eval vm_compute in snd (AlleleCalls.Save "current"%string store_1001).

(** ** The run controller *)

(** What the naming loop may not touch for a key that has a name. *)
Definition same_names_and_tallies (c c' : Calculator) : Prop :=
  tree (state c') = tree (state c)
  /\ _newKeys c' = _newKeys c
  /\ _belowQC c' = _belowQC c
  /\ namedEntries_ c' = namedEntries_ c.

(** A calculator whose names map knows [K1], with an empty store. *)
Definition calc_named : Calculator :=
  mkCalculator
    (mkCalc (mkTree (new_Node 1 0) [("K1"%string, [1; 1])] 2) (AlleleCalls.init []) world0 [])
    minpres [float_of_int 50; float_of_int 10] [] [] [] [].

(** ** Nodes *)

(** What [NewChildNode] leaves at the address [self ++ [k]]: a node with
    the id [k] one level down, without children, founder or members. *)
Definition fresh_child (n child : Node) (k depth : Z) : Prop :=
  _ID child = k /\ _level child = _level n + 1 /\ _children child = []
  /\ _preferred child = None /\ _entryKeys child = None
  /\ isNamedNode child = (_level n =? depth - 1).

(** The id [NewChildNode] picks: 1 under a node without children, one
    more than the greatest id otherwise. *)
Definition next_id (n : Node) (k : Z) : Prop :=
  (forall j, In j (dict_keys (_children n)) -> j < k)
  /\ (_children n = [] -> k = 1)
  /\ (_children n <> [] -> In (k - 1) (dict_keys (_children n))).

(** The node that [NewChildNode] puts under the node [n] at [self], with
    the id [k]. *)
Definition new_child (t : Tree) (self : Address) (n : Node) (k : Z) : Node :=
  if _level n =? DEPTH t - 1
  then new_NamedNode k (_level n + 1) (RTraverse_rev (_tree t) self ++ [k])
  else new_Node k (_level n + 1).

(** A state whose tree is a head node with the two children 1 and 3. *)
Definition two_children : CalcState :=
  mkCalc (mkTree (with_children (new_Node 1 0) [(1, new_Node 1 1); (3, new_Node 3 1)]) [] 2)
         (AlleleCalls.init []) world0 [].

(** ** Placement in an empty tree *)

(** The branch that the first profile opens, after [j] levels: the node
    at the address 1.1...1 has no children yet, it is a [NamedNode]
    exactly at the last level, its founder is the new key, and the names
    map holds the path so far for the key. *)
Definition chain_end (key : Key) (depth j : nat) (s : CalcState) : Prop :=
  exists n,
    node_at (_tree (tree s)) (repeat 1 j) = Some n
    /\ _children n = []
    /\ _level n = Z.of_nat j
    /\ namedPart n = (if (j =? depth)%nat then Some (mkNamed (repeat 1 j) []) else None)
    /\ ((0 < j)%nat -> _preferred n = Some key)
    /\ RTraverse_rev (_tree (tree s)) (repeat 1 j) = repeat 1 j
    /\ dict_get key_eqb key (_names (tree s)) = Some (repeat 1 j)
    /\ DEPTH (tree s) = Z.of_nat depth.

(** What the placement of the first profile leaves alone: the store, the
    world of the distance function, and the names of the other keys. *)
Definition placed_apart (key : Key) (s s' : CalcState) : Prop :=
  alleles s' = alleles s /\ world s' = world s
  /\ forall k, k <> key ->
       dict_get key_eqb k (_names (tree s')) = dict_get key_eqb k (_names (tree s)).

(** ** The batch file *)

(** The table that [LoadProfilesFromFile] reads: the cells of every line,
    the header first, when no line leaves the embedding. *)
Definition batch_table (delim : ascii) (lines : list string) : list (list string) :=
  match all_ok strip (filter (fun line => negb (String.eqb line EmptyString)) lines) with
  | Ok stripped => map (split_on delim) stripped
  | Raise _ => []
  end.

(** A batch of two profiles over the loci [L1] and [L2]. *)
Definition batch_lines : list string :=
  [String "K" (String "e" (String "y" (String "," (String "L" (String "1"
     (String "," (String "L" (String "2" (String (ascii_of_nat 10) EmptyString)))))))));
   String "k" (String "1" (String "," (String "1" (String "," (String "2"
     (String (ascii_of_nat 10) EmptyString))))));
   String "k" (String "2" (String "," (String "3" (String "," (String "4"
     (String (ascii_of_nat 10) EmptyString))))))].

(** ** The report of the codes *)

(** The children dicts of a tree are dicts: no id is there twice. *)
Fixpoint distinct_ids (ids : list Z) : bool :=
  match ids with
  | [] => true
  | i :: rest => negb (existsb (Z.eqb i) rest) && distinct_ids rest
  end.

Fixpoint dict_ok (n : Node) : bool :=
  match n with
  | mkNode _ _ cs _ _ _ _ =>
      distinct_ids (map fst cs)
      && (fix all (cs : list (Z * Node)) : bool :=
            match cs with
            | [] => true
            | (_, c) :: cs' => dict_ok c && all cs'
            end) cs
  end.

(** The name of a key in the names map, the empty name when it has none. *)
Definition name_of (t : Tree) (key : Key) : list Z :=
  match dict_get key_eqb key (_names t) with Some name => name | None => [] end.

(** The mark of the node [d] levels down the address [a]. *)
Definition mark_at (root : Node) (a : Address) (d : nat) : Z :=
  match node_at root (firstn d a) with
  | Some n => NTraverse_mark n
  | None => 0
  end.

(** [part] is the depth of the deepest node on the way to [a], the head
    node left out, whose mark is an id greater than 0, and 0 when there
    is no such node. *)
Definition cut_depth (root : Node) (a : Address) (part : nat) : Prop :=
  (part <= List.length a)%nat
  /\ ((0 < part)%nat -> 0 < mark_at root a part)
  /\ (forall d, (part < d <= List.length a)%nat -> mark_at root a d <= 0).

(** An entry of the report: a key of a [NamedNode] of the tree, with its
    name cut at [cut_depth] and the flag that tells whether the cut is at
    the full depth. *)
Definition reported (prefix : string) (t : Tree) (entry : Key * string * bool) : Prop :=
  let '(key, code, complete) := entry in
  exists a nn np part,
    node_at (_tree t) a = Some nn
    /\ namedPart nn = Some np
    /\ In key (_namedChildren np)
    /\ cut_depth (_tree t) a part
    /\ code = TreeNames.CDCName prefix (firstn part (name_of t key))
    /\ complete = (Z.of_nat part =? DEPTH t).

(** A tree of depth 2 after three placements: [K1] and [K2] share the
    node 1.1, [K3] is alone in 2.1. *)
Definition reported_tree : Tree :=
  Eval vm_compute in
  tree (state (snd (CalculatorOps.name_profiles cpython36_iter_set
         [("K1"%string, [1;1;1;1;1]); ("K2"%string, [1;1;1;1;1]);
          ("K3"%string, [2;2;2;2;2])] calc_scenario))).

(** The view of a tree that the report depends on: the nodes, the depth,
    and the name of every key, the empty name for a key without one. *)
Definition same_view (t0 t : Tree) : Prop :=
  _tree t = _tree t0 /\ DEPTH t = DEPTH t0 /\ forall k, name_of t k = name_of t0 k.

(** The keys a [NamedNode] holds. *)
Definition keys_of (n : Node) : list Key :=
  match namedPart n with Some np => _namedChildren np | None => [] end.

(** ** The excluded codes *)

(** The code is the excluded code, or goes on after it with a dot. *)
Definition under_xcode (xCode code : string) : Prop :=
  code = xCode \/ exists rest, code = (xCode ++ String "."%char rest)%string.

(** ** Recording a name *)

(** The name leads to a [NamedNode] that holds the key. *)
Definition names_node_of (t : Tree) (key : Key) (name : list Z) : Prop :=
  name <> []
  /\ exists n np, node_at (_tree t) name = Some n
                  /\ namedPart n = Some np
                  /\ In key (_namedChildren np).

(** ** The output file *)

(** The keys of the named nodes below the head node. *)
Definition tree_keys (t : Tree) : list Key :=
  flat_map (fun kc => iter_entrykeys (snd kc)) (_children (_tree t)).

(** A line of the output file for a key of the tree: its code, when the
    key is new or changed, or the reasons it failed for. *)
Definition result_line (prefix : string) (changedKeys_ : list Key) (c : Calculator)
    (line : list string) : Prop :=
  exists key text,
    line = [key; text]
    /\ In key (tree_keys (tree (state c)))
    /\ ((key_in key (_newKeys c) || key_in key changedKeys_ = true
         /\ exists complete, reported prefix (tree (state c)) (key, text, complete))
        \/ exists reasons, dict_get key_eqb key (_belowQC c) = Some reasons
                           /\ text = ("FAILED QC: " ++ join ", " reasons)%string).

(** Four profiles named in turn; the last one has too few loci called
    and fails the check of the core. *)
Definition reported_calc : Calculator :=
  Eval vm_compute in
  snd (CalculatorOps.name_profiles cpython36_iter_set
         [("K1"%string, [1;1;1;1;1]); ("K2"%string, [1;1;1;1;1]);
          ("K3"%string, [2;2;2;2;2]); ("K4"%string, [0;0;0;0;1])] calc_scenario).

(** ** The tree file *)

(** The node without the cached entry keys, which are not saved. *)
Fixpoint uncached (n : Node) : Node :=
  match n with
  | mkNode ID level children diameter preferred _ np =>
      mkNode ID level
             (map (fun kc => match kc with (k, c) => (k, uncached c) end) children)
             diameter preferred None np
  end.

(** The [info] dict as it comes back from a tree file: the ids of the
    children are strs. *)
Fixpoint text_ids (info : Info) : Info :=
  match info with
  | mkInfo ID level diameter preferred children details =>
      mkInfo ID level diameter preferred
             (map (fun ki => match ki with
                             | (KInt i, c) => (KStr (repr_int i), text_ids c)
                             | (KStr s, c) => (KStr s, text_ids c)
                             end) children)
             details
  end.

(** A subtree as the script builds it below a parent with the path
    [parent]: the named nodes are the nodes at the level [depth], each
    with its path as [_wgst] and with no key twice, and no children dict
    holds an id twice. *)
Fixpoint tree_shape (parent : option (list Z)) (depth : Z) (n : Node) : bool :=
  match n with
  | mkNode ID level children _ _ _ np =>
      let here := match parent with
                  | None => []
                  | Some above => above ++ [ID]
                  end in
      match np with
      | Some named =>
          (level =? depth) && tuple_eqb (_wgst named) here
          && distinct_keys (_namedChildren named)
      | None => negb (level =? depth)
      end
      && distinct_ids (map fst children)
      && forallb (fun kc => match kc with (_, c) => tree_shape (Some here) depth c end)
                 children
  end.

(** The tree of two named nodes and three keys, with its entry keys
    cached at the head node. *)
Definition cached_tree : Node :=
  with_entryKeys (_tree reported_tree) (Some ["K1"; "K2"; "K3"]%string).

(** ** Merging at the last level *)

(** The child [i] of [n] is a [NamedNode] that is held under its own id
    and has a code of [len] digits. *)
Definition named_child_at (n : Node) (len : nat) (i : Z) : bool :=
  match GetChild n i with
  | Some c =>
      (_ID c =? i)
      && match namedPart c with
         | Some np => (List.length (_wgst np) =? len)%nat
         | None => false
         end
  | None => false
  end.

(** The cluster 1 of the tree after two placements, with the named nodes
    1.1 and 1.2 below it. *)
Definition cluster_of_two : Node :=
  Eval vm_compute in
  match node_at (_tree (tree (state placed_two))) [1] with
  | Some n => n
  | None => new_Node 0 0
  end.

(** ** Merging above the last level *)

(** The nodes with the ids [i], [i+1], ... in turn, each under its new
    id. *)
Fixpoint renumbered (i : Z) (nodes : list Node) : list (Z * Node) :=
  match nodes with
  | [] => []
  | c :: rest => (i, with_ID c i) :: renumbered (i + 1) rest
  end.

(** The children of the absorbed nodes, in the order of the merge. *)
Definition adopted (absorbed : list Node) : list Node :=
  flat_map (fun a => dict_values (_children a)) absorbed.

(** Two clusters above the last level, with two and one children, and a
    survivor with the children 1 and 4. *)
Definition survivor_example : Node :=
  with_children (new_Node 3 1) [(1, new_NamedNode 1 2 [3; 1]); (4, new_NamedNode 4 2 [3; 4])].

Definition absorbed_first : Node :=
  with_children (new_Node 5 1) [(1, new_NamedNode 1 2 [5; 1]); (2, new_NamedNode 2 2 [5; 2])].

Definition absorbed_second : Node :=
  with_children (new_Node 7 1) [(1, new_NamedNode 1 2 [7; 1])].

Definition children_example : list (Z * Node) :=
  [(3, survivor_example); (5, absorbed_first); (7, absorbed_second)].

(** ** The change log *)

(** The first piece in which the two lists differ is the piece [i]. *)
Definition first_difference (cName nName : list string) (i : nat) : Prop :=
  (exists c n, nth_error cName i = Some c /\ nth_error nName i = Some n /\ c <> n)
  /\ forall j, (j < i)%nat -> nth_error cName j = nth_error nName j.


(** * Properties *)

(** ** The monad *)

Lemma bind_Ok {S A B} (m : Py S A) (k : A -> Py S B) s a s' :
  m s = (Ok a, s') -> bind m k s = k a s'.
Proof. unfold bind; intros ->; reflexivity. Qed.

Lemma bind_Raise {S A B} (m : Py S A) (k : A -> Py S B) s e s' :
  m s = (Raise e, s') -> bind m k s = (Raise e, s').
Proof. unfold bind; intros ->; reflexivity. Qed.

Lemma sum_bool_from (bs : list bool) (z : Z) :
  fold_left (fun acc (b : bool) => acc + (if b then 1 else 0)) bs z
  = z + sum_bool bs.
Proof.
  unfold sum_bool; revert z.
  induction bs as [|b bs IH]; intro z; simpl.
  - lia.
  - rewrite IH, (IH (if b then 1 else 0)). lia.
Qed.

Lemma sum_bool_cons b bs : sum_bool (b :: bs) = (if b then 1 else 0) + sum_bool bs.
Proof. unfold sum_bool at 1; simpl. apply sum_bool_from. Qed.

Lemma sum_bool_map_filter {A} (f : A -> bool) (xs : list A) :
  sum_bool (map f xs) = Z.of_nat (List.length (filter f xs)).
Proof.
  induction xs as [|x xs IH]; [reflexivity|].
  simpl map; rewrite sum_bool_cons, IH; simpl filter.
  destruct (f x); simpl List.length; lia.
Qed.

Lemma sum_bool_all_true {A} (g : A -> bool) (xs : list A) :
  (forall x, In x xs -> g x = true) ->
  sum_bool (map g xs) = Z.of_nat (List.length xs).
Proof.
  intros H; rewrite sum_bool_map_filter.
  induction xs as [|x xs IH]; [reflexivity|].
  simpl; rewrite H by (left; reflexivity); simpl.
  f_equal. f_equal. apply Nat2Z.inj. apply IH. intros; apply H; right; assumption.
Qed.

(** ** The distance function *)

Section Distance.

Variables p1 p2 : list Z.
Hypothesis same_length : List.length p1 = List.length p2.

Lemma extends_refl w : extends w w [].
Proof. unfold extends; rewrite app_nil_r; destruct w; reflexivity. Qed.

Lemma extends_trans w w' w'' rs rs' :
  extends w w' rs -> extends w' w'' rs' -> extends w w'' (rs ++ rs').
Proof. unfold extends; intros -> ->; simpl; rewrite app_assoc; reflexivity. Qed.

Lemma getitem_P1 i w : (i < List.length p1)%nat ->
  getitem P1 p1 i w = (Ok (at_ p1 i), mkWorld (cntDistancesCalculated w) (reads w ++ [(P1, i)])).
Proof.
  intros Hi; unfold getitem, at_.
  destruct (nth_error p1 i) as [a|] eqn:E.
  - rewrite (nth_error_nth _ _ 0 E); reflexivity.
  - apply nth_error_None in E; lia.
Qed.

Lemma getitem_P2 i w : (i < List.length p1)%nat ->
  getitem P2 p2 i w = (Ok (at_ p2 i), mkWorld (cntDistancesCalculated w) (reads w ++ [(P2, i)])).
Proof.
  intros Hi; unfold getitem, at_.
  destruct (nth_error p2 i) as [a|] eqn:E.
  - rewrite (nth_error_nth _ _ 0 E); reflexivity.
  - apply nth_error_None in E; lia.
Qed.

Lemma runs_to_ret {A} (a : A) : runs_to p1 p2 (ret a) a.
Proof. intros w; exists w, []; split; [reflexivity|split; [apply extends_refl|constructor]]. Qed.

Lemma runs_to_bind {A B} (m : Py World A) (k : A -> Py World B) a b :
  runs_to p1 p2 m a -> runs_to p1 p2 (k a) b -> runs_to p1 p2 (bind m k) b.
Proof.
  intros Hm Hk w.
  destruct (Hm w) as (w1 & rs1 & E1 & X1 & F1).
  destruct (Hk w1) as (w2 & rs2 & E2 & X2 & F2).
  exists w2, (rs1 ++ rs2); split; [|split].
  - rewrite (bind_Ok _ _ _ E1); exact E2.
  - eapply extends_trans; eassumption.
  - apply Forall_app; split; assumption.
Qed.

Lemma runs_to_getitem_P1 i : (i < List.length p1)%nat ->
  runs_to p1 p2 (getitem P1 p1 i) (at_ p1 i).
Proof.
  intros Hi w; eexists; exists [(P1, i)]; split; [apply getitem_P1; exact Hi|].
  split; [reflexivity|]. constructor; [exact Hi|constructor].
Qed.

Lemma runs_to_getitem_P2 i : (i < List.length p1)%nat ->
  runs_to p1 p2 (getitem P2 p2 i) (at_ p2 i).
Proof.
  intros Hi w; eexists; exists [(P2, i)]; split; [apply getitem_P2; exact Hi|].
  split; [reflexivity|]. constructor; [simpl; lia|constructor].
Qed.

Lemma both_called_runs i : (i < List.length p1)%nat ->
  runs_to p1 p2 (both_called p1 p2 i) (called_at p1 p2 i).
Proof.
  intros Hi; unfold both_called, called_at.
  eapply runs_to_bind; [apply runs_to_getitem_P1; exact Hi|].
  destruct (0 <? at_ p1 i); simpl.
  - eapply runs_to_bind; [apply runs_to_getitem_P2; exact Hi|apply runs_to_ret].
  - apply runs_to_ret.
Qed.

Lemma both_truthy_runs i : (i < List.length p1)%nat ->
  runs_to p1 p2 (both_truthy p1 p2 i) (truthy_at p1 p2 i).
Proof.
  intros Hi; unfold both_truthy, truthy_at.
  eapply runs_to_bind; [apply runs_to_getitem_P1; exact Hi|].
  destruct (at_ p1 i =? 0); simpl.
  - apply runs_to_ret.
  - eapply runs_to_bind; [apply runs_to_getitem_P2; exact Hi|apply runs_to_ret].
Qed.

Lemma differ_runs i : (i < List.length p1)%nat ->
  runs_to p1 p2 (differ p1 p2 i) (differ_at p1 p2 i).
Proof.
  intros Hi; unfold differ, differ_at.
  eapply runs_to_bind; [apply runs_to_getitem_P1; exact Hi|].
  eapply runs_to_bind; [apply runs_to_getitem_P2; exact Hi|apply runs_to_ret].
Qed.

Lemma comprehension_runs {A} (e : nat -> Py World A) (f : nat -> A) idx :
  (forall i, In i idx -> runs_to p1 p2 (e i) (f i)) ->
  runs_to p1 p2 (comprehension e idx) (map f idx).
Proof.
  induction idx as [|i idx IH]; intros H; simpl.
  - apply runs_to_ret.
  - eapply runs_to_bind; [apply H; left; reflexivity|].
    eapply runs_to_bind; [apply IH; intros; apply H; right; assumption|].
    apply runs_to_ret.
Qed.

Lemma comprehension_if_runs {A} (e : nat -> Py World A) c (f : nat -> A) g idx :
  (forall i, In i idx -> runs_to p1 p2 (e i) (f i)) ->
  (forall i, In i idx -> runs_to p1 p2 (c i) (g i)) ->
  runs_to p1 p2 (comprehension_if e c idx) (map f (filter g idx)).
Proof.
  induction idx as [|i idx IH]; intros He Hc; simpl.
  - apply runs_to_ret.
  - eapply runs_to_bind; [apply Hc; left; reflexivity|].
    assert (IH' : runs_to p1 p2 (comprehension_if e c idx) (map f (filter g idx))).
    { apply IH; intros; [apply He|apply Hc]; right; assumption. }
    destruct (g i); simpl.
    + eapply runs_to_bind; [apply He; left; reflexivity|].
      eapply runs_to_bind; [exact IH'|apply runs_to_ret].
    + exact IH'.
Qed.

Lemma in_range i n : In i (range n) -> (i < n)%nat.
Proof. unfold range; rewrite in_seq; lia. Qed.

Lemma sum_differ_filter idx :
  sum_bool (map (differ_at p1 p2) (filter (truthy_at p1 p2) idx))
  = Z.of_nat (List.length (filter (fun i => truthy_at p1 p2 i && differ_at p1 p2 i) idx)).
Proof.
  rewrite sum_bool_map_filter. f_equal. f_equal.
  induction idx as [|i idx IH]; [reflexivity|].
  simpl. destruct (truthy_at p1 p2 i); simpl; [destruct (differ_at p1 p2 i); simpl|];
    rewrite ?IH; reflexivity.
Qed.

Lemma GetDistance_runs :
  forall w, exists w' rs,
    GetDistance p1 p2 w = (Ok (percent p1 p2), w')
    /\ w' = mkWorld (cntDistancesCalculated w + 1) (reads w ++ rs)
    /\ Forall (in_bounds p1 p2) rs.
Proof.
  intros w.
  assert (R : runs_to p1 p2
    (cs <- comprehension (both_called p1 p2) (range (List.length p1)) ;;
     ds <- comprehension_if (differ p1 p2) (both_truthy p1 p2) (range (List.length p1)) ;;
     if negb (sum_bool cs =? 0)
     then ret (f100 * float_of_int (sum_bool ds) / float_of_int (sum_bool cs))%float
     else ret f100) (percent p1 p2)).
  { eapply runs_to_bind.
    { apply comprehension_runs with (f := (called_at p1 p2)).
      intros i Hi; apply both_called_runs, in_range, Hi. }
    eapply runs_to_bind.
    { apply comprehension_if_runs with (f := (differ_at p1 p2)) (g := (truthy_at p1 p2));
        intros i Hi; [apply differ_runs|apply both_truthy_runs]; apply in_range, Hi. }
    rewrite sum_bool_map_filter, sum_differ_filter.
    unfold percent, nCommon, nDiff.
    destruct (negb _); apply runs_to_ret. }
  destruct (R (mkWorld (cntDistancesCalculated w + 1) (reads w))) as (w' & rs & E & X & F).
  exists w', rs; split; [|split; [exact X|exact F]].
  unfold GetDistance, modify. unfold bind at 1. exact E.
Qed.

Lemma distance_percent : distance p1 p2 = Ok (percent p1 p2).
Proof.
  unfold distance. destruct (GetDistance_runs world0) as (w' & rs & E & _).
  rewrite E; reflexivity.
Qed.

End Distance.

Lemma at_nonneg p i : is_profile p -> 0 <= at_ p i.
Proof.
  intros H; unfold at_.
  destruct (nth_in_or_default i p 0) as [Hin| ->]; [|lia].
  unfold is_profile in H; rewrite Forall_forall in H; apply H, Hin.
Qed.

Lemma filter_length_ext {A} (f g : A -> bool) xs :
  (forall x, In x xs -> f x = g x) ->
  List.length (filter f xs) = List.length (filter g xs).
Proof.
  intros H; induction xs as [|x xs IH]; [reflexivity|].
  simpl; rewrite (H x) by (left; reflexivity).
  destruct (g x); simpl; rewrite IH; auto; intros; apply H; right; assumption.
Qed.

Lemma nCommon_common p1 p2 : nCommon p1 p2 = common p1 p2.
Proof. reflexivity. Qed.

Lemma nDiff_diff p1 p2 : is_profile p1 -> is_profile p2 -> nDiff p1 p2 = diff p1 p2.
Proof.
  intros H1 H2; unfold nDiff, diff; f_equal.
  apply filter_length_ext; intros i _.
  unfold truthy_at, differ_at.
  pose proof (at_nonneg i H1); pose proof (at_nonneg i H2).
  replace (negb (at_ p1 i =? 0)) with (0 <? at_ p1 i)
    by (destruct (Z.eqb_spec (at_ p1 i) 0), (Z.ltb_spec 0 (at_ p1 i)); simpl; lia || reflexivity).
  replace (negb (at_ p2 i =? 0)) with (0 <? at_ p2 i)
    by (destruct (Z.eqb_spec (at_ p2 i) 0), (Z.ltb_spec 0 (at_ p2 i)); simpl; lia || reflexivity).
  reflexivity.
Qed.

Lemma nCommon_sym p q : List.length p = List.length q -> nCommon p q = nCommon q p.
Proof.
  intros E; unfold nCommon; rewrite E; f_equal.
  apply filter_length_ext; intros i _; unfold called_at; apply andb_comm.
Qed.

Lemma nDiff_sym p q : List.length p = List.length q -> nDiff p q = nDiff q p.
Proof.
  intros E; unfold nDiff; rewrite E; f_equal.
  apply filter_length_ext; intros i _; unfold truthy_at, differ_at.
  rewrite (Z.eqb_sym (at_ p i) (at_ q i)).
  f_equal; apply andb_comm.
Qed.

(** C1. For two profiles of equal length, [GetDistance] returns 100.0 when
    no position is called (positive) in both, and otherwise 100.0 times the
    number of positions called in both and unequal, divided by the number
    of positions called in both. *)
Theorem GetDistance_formula (p1 p2 : list Z) (w : World) :
  List.length p1 = List.length p2 -> is_profile p1 -> is_profile p2 ->
  fst (GetDistance p1 p2 w)
  = Ok (if common p1 p2 =? 0 then f100
        else (f100 * float_of_int (diff p1 p2) / float_of_int (common p1 p2))%float).
Proof.
  intros E H1 H2.
  destruct (@GetDistance_runs p1 p2 E w) as (w' & rs & R & _).
  rewrite R; simpl; f_equal.
  unfold percent; rewrite nCommon_common, (nDiff_diff H1 H2).
  destruct (common p1 p2 =? 0); reflexivity.
Qed.

Lemma GetDistance_formula_witness :
  fst (GetDistance [1;1;1;1;1] [1;1;1;1;2] world0) = Ok (float_of_int 20).
Proof.
  rewrite (@GetDistance_formula [1;1;1;1;1] [1;1;1;1;2] world0).
  - vm_compute; reflexivity.
  - reflexivity.
  - repeat constructor; lia.
  - repeat constructor; lia.
Defined.

(** Negative allele numbers are outside the data model: the code counts
    them as differing although they are not called. *)
Example GetDistance_negative_entries :
  distance [1; -1] [1; -2] = Ok f100 /\ dist_spec [1; -1] [1; -2] = float_of_int 0.
Proof. split; vm_compute; reflexivity. Qed.

(** C8. The distance is symmetric on profiles of equal length. *)
Theorem GetDistance_symmetric (p q : list Z) (w w' : World) :
  List.length p = List.length q ->
  fst (GetDistance p q w) = fst (GetDistance q p w').
Proof.
  intros E.
  destruct (@GetDistance_runs p q E w) as (w1 & rs1 & R1 & _).
  destruct (@GetDistance_runs q p (eq_sym E) w') as (w2 & rs2 & R2 & _).
  rewrite R1, R2; simpl; f_equal.
  unfold percent; rewrite (@nCommon_sym p q E), (@nDiff_sym p q E); reflexivity.
Qed.

Lemma GetDistance_symmetric_witness :
  fst (GetDistance [1;0;3;4] [1;2;0;5] world0)
  = fst (GetDistance [1;2;0;5] [1;0;3;4] world0).
Proof. apply (@GetDistance_symmetric [1;0;3;4] [1;2;0;5] world0 world0); reflexivity. Defined.

(** C10. When both profiles have the same length, [GetDistance] returns a
    value and every index expression it evaluates, on either profile, is
    in bounds. *)
Theorem GetDistance_total_in_bounds (p1 p2 : list Z) (w : World) :
  List.length p1 = List.length p2 ->
  exists d w' rs,
    GetDistance p1 p2 w = (Ok d, w')
    /\ reads w' = reads w ++ rs
    /\ Forall (in_bounds p1 p2) rs.
Proof.
  intros E.
  destruct (@GetDistance_runs p1 p2 E w) as (w' & rs & R & X & F).
  exists (percent p1 p2), w', rs; split; [exact R|split; [|exact F]].
  rewrite X; reflexivity.
Qed.

Lemma GetDistance_total_in_bounds_witness :
  exists d w' rs,
    GetDistance [1;0;3] [1;2;4] world0 = (Ok d, w')
    /\ reads w' = reads world0 ++ rs
    /\ Forall (in_bounds [1;0;3] [1;2;4]) rs.
Proof. apply (@GetDistance_total_in_bounds [1;0;3] [1;2;4] world0); reflexivity. Defined.

(** The index range comes from the first profile only: a shorter second
    profile is read out of range, a longer one is not read to its end. *)
Example GetDistance_shorter_second :
  fst (GetDistance [1;1] [1] world0) = Raise IndexError.
Proof. vm_compute; reflexivity. Qed.

Example GetDistance_longer_second :
  distance [1;1] [1;1;7] = distance [1;1] [1;1].
Proof. vm_compute; reflexivity. Qed.

(** ** Dicts *)

Section DictFacts.
Variables (K V : Type) (eqb : K -> K -> bool).
Hypothesis eqb_spec : forall a b, eqb a b = true <-> a = b.

Lemma eqb_refl_ a : eqb a a = true.
Proof. apply eqb_spec; reflexivity. Qed.

Lemma eqb_neq a b : a <> b -> eqb a b = false.
Proof.
  intros H; destruct (eqb a b) eqn:E; [|reflexivity].
  apply eqb_spec in E; contradiction.
Qed.

Lemma dict_get_set_same k (v : V) d : dict_get eqb k (dict_set eqb k v d) = Some v.
Proof.
  induction d as [|[k' v'] d IH]; simpl.
  - rewrite eqb_refl_; reflexivity.
  - destruct (eqb k k') eqn:E; simpl; rewrite E; [reflexivity|exact IH].
Qed.

Lemma dict_get_set_other k k' (v : V) d :
  k' <> k -> dict_get eqb k' (dict_set eqb k v d) = dict_get eqb k' d.
Proof.
  intros N; induction d as [|[k0 v0] d IH]; simpl.
  - rewrite (eqb_neq N); reflexivity.
  - destruct (eqb k k0) eqn:E; simpl.
    + apply eqb_spec in E; subst k0. rewrite (eqb_neq N); reflexivity.
    + destruct (eqb k' k0); [reflexivity|exact IH].
Qed.

Lemma dict_in_get k (d : dict K V) :
  dict_in eqb k d = true <-> exists v, dict_get eqb k d = Some v.
Proof.
  unfold dict_in; destruct (dict_get eqb k d) as [v|]; split; intros H.
  - exists v; reflexivity.
  - reflexivity.
  - discriminate.
  - destruct H as [v H]; discriminate.
Qed.

Lemma dict_get_In k (v : V) d : dict_get eqb k d = Some v -> In (k, v) d.
Proof.
  induction d as [|[k' v'] d IH]; simpl; [discriminate|].
  destruct (eqb k k') eqn:E.
  - intros [= ->]; apply eqb_spec in E; subst; left; reflexivity.
  - intros H; right; apply IH, H.
Qed.

Lemma dict_get_keys k (v : V) d : dict_get eqb k d = Some v -> In k (dict_keys d).
Proof. intros H; apply dict_get_In in H; apply (in_map fst) in H; exact H. Qed.

Lemma dict_get_None_keys k (d : dict K V) :
  dict_get eqb k d = None <-> ~ In k (dict_keys d).
Proof.
  induction d as [|[k' v'] d IH]; simpl.
  - split; [intros _ []|reflexivity].
  - destruct (eqb k k') eqn:E.
    + apply eqb_spec in E; subst; split; [discriminate|intros H; exfalso; apply H; left; reflexivity].
    + rewrite IH; split.
      * intros H [H'|H']; [subst; rewrite eqb_refl_ in E; discriminate|contradiction].
      * intros H H'; apply H; right; exact H'.
Qed.

End DictFacts.

Arguments dict_get_set_same {K V eqb} eqb_spec k v d.
Arguments dict_get_set_other {K V eqb} eqb_spec k k' v d _.
Arguments dict_in_get {K V} eqb k d.
Arguments dict_get_In {K V eqb} eqb_spec k v d _.
Arguments dict_get_keys {K V eqb} eqb_spec k v d _.
Arguments dict_get_None_keys {K V eqb} eqb_spec k d.

Lemma key_eqb_spec (a b : Key) : key_eqb a b = true <-> a = b.
Proof. apply String.eqb_eq. Qed.

Lemma Z_eqb_spec (a b : Z) : Z.eqb a b = true <-> a = b.
Proof. apply Z.eqb_eq. Qed.

(** ** The walk over the named nodes *)

Lemma node_size_children n : node_size n = S (children_size (_children n)).
Proof.
  destruct n as [i l cs d p e np]; simpl. f_equal.
  induction cs as [|[k c] cs IH]; simpl; [reflexivity|now rewrite IH].
Qed.

Lemma node_size_pos n : (0 < node_size n)%nat.
Proof. rewrite node_size_children; lia. Qed.

Lemma stack_size_app s t : stack_size (s ++ t) = (stack_size s + stack_size t)%nat.
Proof. induction s as [|x s IH]; simpl; [reflexivity|rewrite IH; lia]. Qed.

Lemma stack_size_rev s : stack_size (rev s) = stack_size s.
Proof.
  induction s as [|x s IH]; simpl; [reflexivity|].
  rewrite stack_size_app, IH; simpl; lia.
Qed.

Lemma stack_size_children (a : Address) cs :
  stack_size (map (fun kc : Z * Node => (a ++ [fst kc], snd kc)) cs) = children_size cs.
Proof. induction cs as [|[k c] cs IH]; simpl; [reflexivity|now rewrite IH]. Qed.

Lemma DFSNamed_named n : isNamedNode n = true -> DFSNamed n = [([], n)].
Proof.
  destruct n as [i l cs d p e [np|]]; simpl; [reflexivity|discriminate].
Qed.

(** Below a node that is not named, the last child's named nodes come
    first. *)
Lemma DFSNamed_inner n :
  isNamedNode n = false ->
  DFSNamed n
  = flat_map (fun kc => prefixed [fst kc] (DFSNamed (snd kc))) (rev (_children n)).
Proof.
  destruct n as [i l cs d p e [np|]]; simpl; [discriminate|intros _].
  induction cs as [|[k c] cs IH]; simpl; [reflexivity|].
  rewrite flat_map_app, IH; simpl. rewrite app_nil_r. reflexivity.
Qed.

Lemma prefixed_prefixed a b found :
  prefixed a (prefixed b found) = prefixed (a ++ b) found.
Proof.
  unfold prefixed; rewrite map_map; apply map_ext; intros [x m]; simpl.
  now rewrite app_assoc.
Qed.

Lemma prefixed_flat_map {A} a (f : A -> list (Address * Node)) xs :
  prefixed a (flat_map f xs) = flat_map (fun x => prefixed a (f x)) xs.
Proof.
  induction xs as [|x xs IH]; cbn [flat_map]; [reflexivity|].
  rewrite <- IH; unfold prefixed; apply map_app.
Qed.

(** With fuel for every node on the stack, the loop yields what is below
    the top of the stack, then what is below the item under it, and so
    on. *)
Lemma DFSNamed_loop_spec fuel : forall toCheck,
  (stack_size toCheck <= fuel)%nat ->
  DFSNamed_loop fuel toCheck
  = flat_map (fun an => prefixed (fst an) (DFSNamed (snd an))) (rev toCheck).
Proof.
  induction fuel as [|fuel IH]; intros st Hs.
  - destruct st as [|[a ob] st]; [reflexivity|].
    simpl in Hs. pose proof (node_size_pos ob). lia.
  - simpl. rewrite <- (stack_size_rev st) in Hs.
    destruct (rev st) as [|[a ob] rest]; [reflexivity|].
    change (node_size ob + stack_size rest <= S fuel)%nat in Hs.
    pose proof (node_size_pos ob) as Hpos.
    cbn [flat_map fst snd].
    destruct (isNamedNode ob) eqn:N.
    + rewrite (DFSNamed_named _ N); simpl. rewrite app_nil_r. f_equal.
      rewrite IH, rev_involutive; [reflexivity|].
      rewrite stack_size_rev; lia.
    + rewrite IH.
      * rewrite rev_app_distr, rev_involutive, flat_map_app. f_equal.
        rewrite (DFSNamed_inner _ N), prefixed_flat_map, <- map_rev,
          flat_map_concat_map, map_map, <- flat_map_concat_map.
        apply flat_map_ext; intros [k c]; simpl.
        now rewrite prefixed_prefixed.
      * rewrite stack_size_app, stack_size_rev, stack_size_children.
        rewrite node_size_children in Hs. lia.
Qed.

(** The stack loop of the script and the recursive walk of the embedding
    yield the same nodes in the same order. *)
Lemma DFSNamed_stack_closed_form n : DFSNamed_stack n = DFSNamed n.
Proof.
  unfold DFSNamed_stack.
  destruct (isNamedNode n) eqn:N; [now rewrite DFSNamed_named|].
  rewrite DFSNamed_loop_spec.
  - rewrite (DFSNamed_inner _ N), <- map_rev, flat_map_concat_map, map_map,
      <- flat_map_concat_map.
    apply flat_map_ext; intros [k c]; reflexivity.
  - rewrite (stack_size_children []), node_size_children; lia.
Qed.

(** ** The name index *)

(** C9. For a key that is not in the names map, [Tree.GetName] returns the
    empty list and stores the key with that empty name, so [Tree.HasName]
    is true afterwards, although the tree of nodes is untouched: the key
    was not placed. *)
Theorem GetName_inserts_empty_name (t : Tree) (key : Key) :
  fst (TreeOps.HasName key t) = Ok false ->
  exists t',
    TreeOps.GetName key t = (Ok [], t')
    /\ dict_get key_eqb key (_names t') = Some []
    /\ fst (TreeOps.HasName key t') = Ok true
    /\ _tree t' = _tree t.
Proof.
  unfold TreeOps.HasName, TreeOps.GetName, dict_setdefault, dict_in; simpl.
  destruct (dict_get key_eqb key (_names t)) eqn:E; [discriminate|]; intros _.
  eexists; split; [reflexivity|]; simpl.
  rewrite (dict_get_set_same key_eqb_spec).
  repeat split; reflexivity.
Qed.

Lemma GetName_inserts_empty_name_witness :
  exists t',
    TreeOps.GetName "K1"%string (TreeOps.init 2) = (Ok [], t')
    /\ dict_get key_eqb "K1"%string (_names t') = Some []
    /\ fst (TreeOps.HasName "K1"%string t') = Ok true
    /\ _tree t' = _tree (TreeOps.init 2).
Proof. apply (@GetName_inserts_empty_name (TreeOps.init 2) "K1"%string); reflexivity. Defined.

(** ** The quality filter *)

Lemma in_state_belowQC {A} (m : Py CalcState A) c :
  _belowQC (snd (in_state m c)) = _belowQC c.
Proof. unfold in_state; destruct (m (state c)); reflexivity. Qed.

Lemma CheckCore_reject_iff (minPres : float) (calls : list Z) :
  calls <> [] ->
  (CheckCore minPres calls = Ok None
   <-> PrimFloat.ltb (round2 (core_ratio calls)) minPres = true).
Proof.
  intros H; destruct calls as [|a calls]; [contradiction|].
  unfold CheckCore.
  destruct (PrimFloat.ltb (round2 (core_ratio (a :: calls))) minPres);
    split; intros E; try reflexivity; discriminate.
Qed.

Lemma CheckCore_accept (minPres : float) (calls : list Z) :
  calls <> [] ->
  PrimFloat.ltb (round2 (core_ratio calls)) minPres = false ->
  CheckCore minPres calls = Ok (Some calls).
Proof.
  intros H E; destruct calls as [|a calls]; [contradiction|].
  unfold CheckCore; rewrite E; reflexivity.
Qed.

Lemma place_belowQC iter_set key calls c :
  _belowQC (snd (place iter_set key calls c)) = _belowQC c.
Proof.
  unfold place, bind, get, modify.
  pose proof (in_state_belowQC (in_store (AlleleCalls.Add key calls)) c) as H1.
  destruct (in_state (in_store (AlleleCalls.Add key calls)) c) as [[u|e] c1]; simpl in H1;
    [|exact H1].
  pose proof (in_state_belowQC
    (CalcName iter_set (namedEntries_ c1) key (_thresholds c1) (_minPres c1)) c1) as H2.
  destruct (in_state (CalcName iter_set (namedEntries_ c1) key (_thresholds c1) (_minPres c1)) c1)
    as [[sorted|e] c2]; simpl in H2; [|simpl; congruence].
  match goal with
  | |- context [in_state ?m ?x] =>
      pose proof (in_state_belowQC m x) as H3; destruct (in_state m x) as [[b|e] c3]
  end; simpl in H3; [|simpl; congruence].
  destruct b; simpl; congruence.
Qed.

(** C4 (amended). A profile of length [L > 0] whose key has no name is
    rejected exactly when the fraction of its non-zero entries, rounded
    to two decimals, is below [min_present]. A rejected profile is
    recorded in [_belowQC] and nothing else changes: the tree, the names
    map and the store are as before, so the key has no name. A profile
    that is not rejected goes on to the store and to placement, and
    [_belowQC] is left as it was. *)
Theorem quality_filter_rounds (iter_set : list (list Z) -> list (list Z))
        (key : Key) (calls : list Z) (c : Calculator) :
  calls <> [] ->
  dict_in key_eqb key (_names (tree (state c))) = false ->
  (PrimFloat.ltb (round2 (core_ratio calls)) (_minPres c) = true ->
     CalculatorOps.name_profile iter_set key calls c = (Ok tt, rejected key c)
     /\ dict_get key_eqb key (_belowQC (rejected key c))
        = Some (match dict_get key_eqb key (_belowQC c) with Some rs => rs | None => [] end
                ++ ["CORE"%string])
     /\ state (rejected key c) = state c
     /\ dict_in key_eqb key (_names (tree (state (rejected key c)))) = false)
  /\ (PrimFloat.ltb (round2 (core_ratio calls)) (_minPres c) = false ->
     CalculatorOps.name_profile iter_set key calls c
     = place iter_set key calls
         (mkCalculator (state c) (_minPres c) (_thresholds c)
            (if key_in key (_newKeys c) then _newKeys c else _newKeys c ++ [key])
            (_belowQC c) (namedEntries_ c) (error_log c))
     /\ _belowQC (snd (CalculatorOps.name_profile iter_set key calls c)) = _belowQC c).
Proof.
  intros Hne Hnew.
  assert (Hhas : in_state (in_tree (TreeOps.HasName key)) c = (Ok false, c)).
  { unfold in_state, in_tree, TreeOps.HasName; simpl; rewrite Hnew.
    destruct c as [[t a w d] mp th nk bq ne el]; destruct t; reflexivity. }
  split; intros E.
  - split; [|split; [|split]].
    + unfold CalculatorOps.name_profile.
      rewrite (bind_Ok _ _ _ Hhas); cbv beta iota.
      unfold bind at 1, modify at 1. unfold bind at 1, get at 1.
      unfold bind at 1, lift at 1; cbn [_minPres].
      rewrite (proj2 (@CheckCore_reject_iff (_minPres c) calls Hne) E).
      reflexivity.
    + unfold rejected; cbn [_belowQC].
      apply (dict_get_set_same key_eqb_spec).
    + reflexivity.
    + exact Hnew.
  - assert (R : CalculatorOps.name_profile iter_set key calls c
                = place iter_set key calls
                    (mkCalculator (state c) (_minPres c) (_thresholds c)
                       (if key_in key (_newKeys c) then _newKeys c else _newKeys c ++ [key])
                       (_belowQC c) (namedEntries_ c) (error_log c))).
    { unfold CalculatorOps.name_profile.
      rewrite (bind_Ok _ _ _ Hhas); cbv beta iota.
      unfold bind at 1, modify at 1. unfold bind at 1, get at 1.
      unfold bind at 1, lift at 1; cbn [_minPres].
      rewrite (@CheckCore_accept (_minPres c) calls Hne E).
      reflexivity. }
    split; [exact R|].
    rewrite R, place_belowQC; reflexivity.
Qed.

Lemma quality_filter_rounds_witness :
  CalculatorOps.name_profile cpython36_iter_set "K7"%string [0;0;0;1;1] calc_scenario
  = (Ok tt, rejected "K7"%string calc_scenario).
Proof.
  apply (proj1 (@quality_filter_rounds cpython36_iter_set "K7"%string [0;0;0;1;1]
                  calc_scenario ltac:(discriminate) eq_refl)).
  vm_compute; reflexivity.
Defined.

(** C4 as stated fails: with the default [min_present] of 0.95, a profile
    of 19 loci with one missing has 18/19 = 0.947... of its loci called,
    which is below 0.95, and yet it is not rejected: it is placed and gets
    a name, and [_belowQC] stays empty. *)
Lemma quality_filter_not_exact :
  PrimFloat.ltb (core_ratio calls_18_of_19) minpres = true
  /\ exists c',
       CalculatorOps.name_profile cpython36_iter_set "K19"%string calls_18_of_19 calc_default
       = (Ok tt, c')
       /\ _belowQC c' = []
       /\ dict_get key_eqb "K19"%string (_names (tree (state c'))) = Some [1; 1].
Proof.
  split; [vm_compute; reflexivity|].
  eexists; split; [vm_compute; reflexivity|].
  split; reflexivity.
Qed.

(** ** The integrity check *)

Lemma key_in_In k ks : key_in k ks = true <-> In k ks.
Proof.
  unfold key_in; rewrite existsb_exists; split.
  - intros (x & Hx & E); apply key_eqb_spec in E; subst; exact Hx.
  - intros H; exists k; split; [exact H|apply key_eqb_spec; reflexivity].
Qed.

Lemma keys_agree_same names calls :
  keys_agree names calls = true <-> same_keys names calls.
Proof.
  unfold keys_agree, same_keys; rewrite andb_true_iff, !forallb_forall; split.
  - intros [H1 H2] k; split; intros H.
    + apply key_in_In, H2, H.
    + apply key_in_In, H1, H.
  - intros H; split; intros k Hk; apply key_in_In, H, Hk.
Qed.

Lemma log_keys_run keys c :
  log_keys keys c = (Ok tt, with_log c (error_log c ++ map (fun k => (2%nat, k)) keys)).
Proof.
  revert c; induction keys as [|k keys IH]; intros c; simpl.
  - unfold ret, with_log; rewrite app_nil_r; destruct c; reflexivity.
  - unfold bind, log_error, modify; rewrite IH; unfold with_log; simpl.
    rewrite <- app_assoc; reflexivity.
Qed.

(** The check passes exactly when the names map and the hot tier
    [_alleleCalls] have the same keys; otherwise it logs the keys that
    each side has alone and raises. The index of the cold tier is not
    read. *)
Lemma check_integrity_hot_tier (c : Calculator) :
  (same_keys (names_of c) (hot_of c) -> CalculatorOps.check_integrity c = (Ok tt, c))
  /\ (~ same_keys (names_of c) (hot_of c) ->
      CalculatorOps.check_integrity c
      = (Raise AssertionError,
         with_log c (error_log c ++ integrity_report (names_of c) (hot_of c)))).
Proof.
  destruct (keys_agree (names_of c) (hot_of c)) eqn:E.
  - split; intros H; [|apply keys_agree_same in E; contradiction].
    unfold keys_agree, names_of, hot_of in E.
    unfold CalculatorOps.check_integrity; unfold bind at 1, get at 1.
    rewrite E; reflexivity.
  - split; intros H; [apply keys_agree_same in H; congruence|].
    unfold integrity_report.
    unfold keys_agree, names_of, hot_of in *.
    unfold CalculatorOps.check_integrity; unfold bind at 1, get at 1.
    rewrite E.
    destruct (filter (fun k => negb (key_in k (dict_keys (_names (tree (state c))))))
                (dict_keys (_alleleCalls (alleles (state c))))) as [|k1 l1];
      destruct (filter (fun k => negb (key_in k (dict_keys (_alleleCalls (alleles (state c))))))
                  (dict_keys (_names (tree (state c))))) as [|k2 l2];
      unfold bind, ret, raise, log_error, modify; rewrite ?log_keys_run;
      unfold with_log; simpl; rewrite ?app_nil_r, <- ?app_assoc; simpl;
      reflexivity.
Qed.

(** C6, the failing state: the names map and the store, both tiers, have
    the same keys, and the check raises all the same, after logging the
    key of the cold tier as missing. *)
Theorem integrity_check_ignores_cold_tier :
  same_keys (dict_keys (_names (tree (state calc_cold))))
            (store_keys (alleles (state calc_cold)))
  /\ CalculatorOps.check_integrity calc_cold
     = (Raise AssertionError,
        with_log calc_cold
          [(1%nat, "Keys in calls file(s) missing from tree file:"%string);
           (2%nat, "K1"%string)]).
Proof.
  split; [intros k; simpl; tauto|].
  vm_compute; reflexivity.
Qed.

(** ** The lock file *)

Section Lock.

Variable iter_set : list (list Z) -> list (list Z).
Variable load_state : Py Calculator unit.
Variable LoadProfilesFromFile : Py Calculator (dict Key (list Z)).
Variable save_and_report : Py Calculator unit.
Variable lockfile_path : string.

Let DoCalc := CalculatorOps.DoCalc iter_set load_state LoadProfilesFromFile save_and_report.
Let Run := CalculatorOps.Run iter_set load_state LoadProfilesFromFile save_and_report
                             lockfile_path.
Let locked := CalculatorOps.lock_present lockfile_path.

Lemma dict_in_after_del (k : string) (d : Disk) :
  dict_in String.eqb k (filter (fun kv => negb (String.eqb k (fst kv))) d) = false.
Proof.
  unfold dict_in.
  induction d as [|[k' v] d IH]; simpl; [reflexivity|].
  destruct (String.eqb k k') eqn:E; simpl; [exact IH|].
  rewrite E; exact IH.
Qed.

Lemma DoRefresh_unlocks c :
  exists c', CalculatorOps.DoRefresh lockfile_path c = (Ok tt, c')
             /\ locked c' = false.
Proof.
  unfold CalculatorOps.DoRefresh, CalculatorOps.remove_lock, dict_del, locked,
    CalculatorOps.lock_present.
  destruct (dict_in String.eqb lockfile_path (disk (alleles (state c)))) eqn:E.
  - eexists; split; [reflexivity|]. simpl. apply dict_in_after_del.
  - exists c; split; [reflexivity|exact E].
Qed.

(** [RunCalc] catches whatever [DoCalc] raises and returns normally, in the
    state the failure left: the lock is not touched on this path. *)
Lemma RunCalc_catches (c c' : Calculator) (e : exn) :
  DoCalc c = (Raise e, c') ->
  CalculatorOps.RunCalc iter_set load_state LoadProfilesFromFile
    save_and_report lockfile_path c = (Ok tt, c').
Proof.
  intros H.
  unfold CalculatorOps.RunCalc; unfold DoCalc in H; rewrite H; reflexivity.
Qed.

(** C7, what the code does: when [DoCalc] raises, whatever the exception
    and whatever state it leaves, [Run] returns normally and the lock file
    is gone. *)
Theorem Run_removes_lock_after_failure (c c' : Calculator) (e : exn) :
  DoCalc c = (Raise e, c') ->
  exists c'', Run c = (Ok tt, c'') /\ locked c'' = false.
Proof.
  intros H.
  destruct (DoRefresh_unlocks c') as (c'' & R & L).
  exists c''; split; [|exact L].
  unfold Run, CalculatorOps.Run.
  rewrite (bind_Ok _ _ _ (RunCalc_catches c H)); exact R.
Qed.

(** The same from [Main]: the lock is taken, [Setup] succeeds, [DoCalc]
    raises, and [Main] ends with no lock file. *)
Lemma Main_removes_lock_after_failure (Setup : Py Calculator unit)
      (c c1 c2 : Calculator) (e : exn) :
  locked c = false ->
  Setup (CalculatorOps.with_disk c
           (dict_set String.eqb lockfile_path EmptyString (disk (alleles (state c)))))
  = (Ok tt, c1) ->
  DoCalc c1 = (Raise e, c2) ->
  exists c3,
    CalculatorOps.Main iter_set load_state LoadProfilesFromFile save_and_report
                       lockfile_path Setup c = (Ok tt, c3)
    /\ locked c3 = false.
Proof.
  intros Hfree HS HD.
  destruct (DoRefresh_unlocks c2) as (c3 & R & L).
  exists c3; split; [|exact L].
  unfold CalculatorOps.Main.
  unfold locked in Hfree.
  unfold bind at 1; rewrite Hfree.
  unfold bind at 1; rewrite HS.
  unfold CalculatorOps.Run.
  rewrite (bind_Ok _ _ _ (RunCalc_catches c1 HD)), R; reflexivity.
Qed.

(** A failure before the run proper does leave the lock: when [Setup]
    raises, [Main] ends in the state [Setup] left, lock file included. *)
Lemma Main_keeps_lock_when_Setup_fails (Setup : Py Calculator unit)
      (c c1 : Calculator) (e : exn) :
  locked c = false ->
  Setup (CalculatorOps.with_disk c
           (dict_set String.eqb lockfile_path EmptyString (disk (alleles (state c)))))
  = (Raise e, c1) ->
  CalculatorOps.Main iter_set load_state LoadProfilesFromFile save_and_report
                     lockfile_path Setup c = (Ok tt, c1).
Proof.
  intros Hfree HS.
  unfold CalculatorOps.Main.
  unfold locked in Hfree.
  unfold bind at 1; rewrite Hfree.
  unfold bind at 1; rewrite HS; reflexivity.
Qed.

(** A clean run removes the lock once, in [RunCalc]; [DoRefresh] then
    finds none. *)
Lemma Run_removes_lock_after_success (c c' : Calculator) :
  DoCalc c = (Ok tt, c') -> locked c' = true ->
  exists c'', Run c = (Ok tt, c'') /\ locked c'' = false.
Proof.
  intros H L.
  unfold Run, CalculatorOps.Run, CalculatorOps.RunCalc, bind.
  unfold DoCalc in H; rewrite H.
  unfold locked, CalculatorOps.lock_present in L.
  unfold CalculatorOps.remove_lock at 1, dict_del; rewrite L.
  unfold CalculatorOps.DoRefresh, CalculatorOps.remove_lock, dict_del; simpl.
  rewrite dict_in_after_del.
  eexists; split; [reflexivity|].
  unfold locked, CalculatorOps.lock_present; simpl; apply dict_in_after_del.
Qed.

End Lock.

(** The run on the state of C6: the integrity check raises while the lock
    file is on the disk, and the run ends with the lock file removed. *)
Lemma Run_removes_lock_after_failure_witness :
  CalculatorOps.lock_present "data/nomenclature.lock" calc_cold = true
  /\ exists c'',
       CalculatorOps.Run cpython36_iter_set (ret tt) (ret []) (ret tt)
                         "data/nomenclature.lock" calc_cold = (Ok tt, c'')
       /\ CalculatorOps.lock_present "data/nomenclature.lock" c'' = false.
Proof.
  split; [reflexivity|].
  eapply (@Run_removes_lock_after_failure cpython36_iter_set (ret tt) (ret []) (ret tt)
            "data/nomenclature.lock" calc_cold _ AssertionError).
  vm_compute; reflexivity.
Defined.

(** ** The store on disk *)

(** C5, the failing state. [Save] promotes the first 1000 profiles to a
    shard and records each in the index as a tuple; the index file then
    holds the tuples in round brackets, which is not JSON, and [Load] from
    the same directory raises: the cold tier is lost to the next run. *)
Theorem Save_then_Load_fails_after_promotion :
  let saved := AlleleCalls.Save "current"%string store_1001 in
  fst saved = Ok tt
  /\ dict_keys (_alleleCalls (snd saved)) = ["k1000"%string]
  /\ val_get (_index (snd saved)) "k7"%string = Ok (Some (VTuple [VInt 0; VInt 7]))
  /\ option_map (substring 0 33) (dict_get String.eqb "current/index.gzip"%string (disk (snd saved)))
     = Some (replace_quotes "{'k0': (0, 0), 'k1': (0, 1), 'k2'"%string)
  /\ fst (reload "current"%string (snd saved)) = Raise JSONDecodeError.
Proof. vm_compute; repeat split; reflexivity. Qed.

(** A key with a single quote in it breaks the file of the hot tier in the
    same way: its [repr] is in double quotes, and the replacement of the
    single quote ends the string early. *)
Example Save_then_Load_fails_on_quote :
  let saved := AlleleCalls.Save "current"%string
                 (mkStore [("O'Brien"%string, [1; 2])] (VDict []) [] EmptyString []) in
  fst saved = Ok tt /\ fst (reload "current"%string (snd saved)) = Raise JSONDecodeError.
Proof. vm_compute; split; reflexivity. Qed.

(** A store whose index was read from a file, with plain keys and no
    promotion pending, does come back as it was. *)
Example Save_then_Load_small :
  let st := mkStore [("K1"%string, [1; 2]); ("K2"%string, [0; 3])]
                    (VDict [("K0"%string, VList [VInt 0; VInt 0])]) [] EmptyString [] in
  let saved := AlleleCalls.Save "current"%string st in
  let loaded := reload "current"%string (snd saved) in
  fst loaded = Ok tt
  /\ _alleleCalls (snd loaded) = _alleleCalls st
  /\ _index (snd loaded) = _index st.
Proof. vm_compute; repeat split; reflexivity. Qed.

(** ** Membership in a cluster *)

Lemma nth_error_list_set_same {A} (xs : list A) i v :
  (i < List.length xs)%nat -> nth_error (list_set xs i v) i = Some v.
Proof.
  revert i; induction xs as [|x xs IH]; intros [|i] H; simpl in *; try lia.
  - reflexivity.
  - apply IH; lia.
Qed.

Lemma nth_error_list_set_other {A} (xs : list A) i j v :
  i <> j -> nth_error (list_set xs i v) j = nth_error xs j.
Proof.
  revert i j; induction xs as [|x xs IH]; intros [|i] [|j] H; simpl; try reflexivity.
  - contradiction.
  - apply IH; congruence.
Qed.

Lemma length_list_set {A} (xs : list A) i v :
  List.length (list_set xs i v) = List.length xs.
Proof.
  revert i; induction xs as [|x xs IH]; intros [|i]; simpl; try reflexivity.
  rewrite IH; reflexivity.
Qed.

Lemma percent_sym p q : List.length p = List.length q -> percent p q = percent q p.
Proof.
  intros E; unfold percent; rewrite (@nCommon_sym p q E), (@nDiff_sym p q E); reflexivity.
Qed.

Section InCluster.

Variable namedEntries : list Key.
Variable index : dict Key nat.
Variable unNamedEntry : Key.

(** The store during the placement: the new key and the keys it is
    compared with are in the hot tier. *)
Variable A : Store.
Variable cold : list (string * pyval).
Variable new_profile : list Z.
Hypothesis A_index : _index A = VDict cold.
Hypothesis new_calls : dict_get key_eqb unNamedEntry (_alleleCalls A) = Some new_profile.
Hypothesis new_hot : dict_get String.eqb unNamedEntry cold = None.
Hypothesis index_sound :
  forall k i, dict_get key_eqb k index = Some i -> nth_error namedEntries i = Some k.

Local Abbreviation comparable_here := (comparable index A cold new_profile).
Local Abbreviation distance_here := (stored_distance A new_profile).
Local Abbreviation sound_memo := (memo_ok namedEntries index unNamedEntry A cold new_profile).
Local Abbreviation placing_here := (placing namedEntries index unNamedEntry A cold new_profile).

Lemma GetCalls_hot k s :
  alleles s = A -> dict_get String.eqb k cold = None ->
  in_store (AlleleCalls.GetCalls k) s = (Ok (dict_get key_eqb k (_alleleCalls A)), s).
Proof.
  intros HA Hk.
  unfold in_store, AlleleCalls.GetCalls, bind.
  rewrite HA, A_index; simpl. rewrite Hk. rewrite <- HA; reflexivity.
Qed.

Lemma GetDistance_in_world p s :
  List.length p = List.length new_profile ->
  exists w', in_world (GetDistance_calls (Some p) (Some new_profile)) s
             = (Ok (percent p new_profile), mkCalc (tree s) (alleles s) w' (distances s)).
Proof.
  intros E.
  destruct (@GetDistance_runs p new_profile E (world s)) as (w' & rs & R & _).
  exists w'; unfold in_world, GetDistance_calls; rewrite R; reflexivity.
Qed.

Lemma comparable_inv k :
  comparable_here k = true ->
  exists p i, dict_get key_eqb k (_alleleCalls A) = Some p
              /\ dict_get String.eqb k cold = None
              /\ dict_get key_eqb k index = Some i
              /\ List.length p = List.length new_profile
              /\ (i < List.length namedEntries)%nat.
Proof.
  unfold comparable.
  destruct (dict_get key_eqb k (_alleleCalls A)) as [p|]; [|discriminate].
  destruct (dict_get String.eqb k cold); [discriminate|].
  destruct (dict_get key_eqb k index) as [i|] eqn:Ei; [|discriminate].
  intros E; apply Nat.eqb_eq in E.
  exists p, i; repeat split; try assumption.
  apply nth_error_Some; rewrite (index_sound _ Ei); discriminate.
Qed.

Lemma memo_ok_update ds row k i d :
  sound_memo ds ->
  dict_get key_eqb unNamedEntry ds = Some row ->
  comparable_here k = true -> dict_get key_eqb k index = Some i ->
  d = distance_here k ->
  sound_memo (dict_set key_eqb unNamedEntry (list_set row i d) ds).
Proof.
  intros M Hrow Hk Hi Hd row' Hrow'.
  rewrite (dict_get_set_same key_eqb_spec) in Hrow'; injection Hrow' as <-.
  destruct (M row Hrow) as [L P].
  split; [rewrite length_list_set; exact L|].
  intros k' i' m Hk' Hi' Hm Hpos.
  destruct (Nat.eq_dec i i') as [<-|N].
  - assert (k' = k).
    { pose proof (index_sound _ Hi) as E1; pose proof (index_sound _ Hi') as E2; congruence. }
    subst k'.
    rewrite nth_error_list_set_same in Hm; [congruence|].
    rewrite L; apply nth_error_Some; rewrite (index_sound _ Hi); discriminate.
  - rewrite (nth_error_list_set_other _ _ N) in Hm.
    eapply P; eassumption.
Qed.

Lemma memo_ok_fresh ds :
  sound_memo ds ->
  dict_get key_eqb unNamedEntry ds = None ->
  sound_memo (dict_set key_eqb unNamedEntry (repeat fminus1 (List.length namedEntries)) ds).
Proof.
  intros M Hn row Hrow.
  rewrite (dict_get_set_same key_eqb_spec) in Hrow; injection Hrow as <-.
  split; [apply repeat_length|].
  intros k i m _ _ Hm Hpos.
  apply nth_error_In, repeat_spec in Hm; subst m.
  vm_compute in Hpos; discriminate.
Qed.

(** [GetDistanceToNamedEntry] returns the distance of the key, from the
    memo or from the profiles, and leaves the tree and the store alone. *)
Lemma GetDistanceToNamedEntry_runs k s :
  placing_here s -> comparable_here k = true ->
  exists s',
    GetDistanceToNamedEntry namedEntries index unNamedEntry k s
    = (Ok (distance_here k), s')
    /\ placing_here s' /\ tree s' = tree s.
Proof.
  intros [HA M] Hk.
  destruct (comparable_inv k Hk) as (p & i & Hp & Hc & Hi & HL & Hlt).
  unfold GetDistanceToNamedEntry.
  unfold bind at 1, get at 1.
  (* the row of the new key, created when absent *)
  set (ds1 := if dict_in key_eqb unNamedEntry (distances s) then distances s
              else dict_set key_eqb unNamedEntry
                     (repeat fminus1 (List.length namedEntries)) (distances s)).
  set (s1 := mkCalc (tree s) (alleles s) (world s) ds1).
  assert (E1 : (if dict_in key_eqb unNamedEntry (distances s) then ret tt
                else set_distances (dict_set key_eqb unNamedEntry
                       (repeat fminus1 (List.length namedEntries)) (distances s))) s
               = (Ok tt, s1)).
  { unfold s1, ds1; destruct (dict_in key_eqb unNamedEntry (distances s)); reflexivity. }
  rewrite (bind_Ok _ _ _ E1).
  assert (M1 : sound_memo ds1 /\ exists row, dict_get key_eqb unNamedEntry ds1 = Some row).
  { unfold ds1, dict_in.
    destruct (dict_get key_eqb unNamedEntry (distances s)) as [row|] eqn:Er.
    - split; [exact M|exists row; exact Er].
    - split; [apply memo_ok_fresh; assumption|].
      eexists; apply (dict_get_set_same key_eqb_spec). }
  destruct M1 as [M1 [row Hrow]].
  destruct (M1 row Hrow) as [Lrow Prow].
  unfold bind at 1, get at 1.
  unfold bind at 1, lift at 1. cbn [distances s1]. rewrite Hrow; cbn [from_option].
  unfold bind at 1, lift at 1. rewrite Hi; cbn [from_option].
  destruct (nth_error row i) as [m|] eqn:Em;
    [|apply nth_error_None in Em; lia].
  unfold bind at 1, lift at 1; cbn [from_option].
  destruct (PrimFloat.leb f0 m) eqn:Epos.
  - exists s1; split; [|split; [split; [exact HA|exact M1]|reflexivity]].
    rewrite (Prow k i m Hk Hi Em Epos); reflexivity.
  - assert (HA1 : alleles s1 = A) by exact HA.
    rewrite (bind_Ok _ _ _ (GetCalls_hot k s1 HA1 Hc)).
    rewrite (bind_Ok _ _ _ (GetCalls_hot unNamedEntry s1 HA1 new_hot)).
    rewrite Hp, new_calls.
    destruct (GetDistance_in_world p s1 HL) as (w' & R).
    rewrite (bind_Ok _ _ _ R).
    unfold bind at 1, get at 1. cbn [distances].
    unfold bind, set_distances, modify, ret.
    eexists; split; [|split; [split|]].
    + unfold stored_distance; rewrite Hp; reflexivity.
    + exact HA.
    + cbn [distances]. eapply memo_ok_update; try eassumption.
      unfold stored_distance; rewrite Hp; reflexivity.
    + reflexivity.
Qed.

Lemma any_member_within_runs threshold members s :
  placing_here s ->
  forallb comparable_here members = true ->
  exists s',
    any_member_within namedEntries index unNamedEntry threshold members s
    = (Ok (existsb (fun k => PrimFloat.leb (distance_here k) threshold) members), s')
    /\ placing_here s' /\ tree s' = tree s.
Proof.
  revert s; induction members as [|k members IH]; intros s P H; simpl.
  - exists s; split; [reflexivity|split; [exact P|reflexivity]].
  - apply andb_true_iff in H; destruct H as [Hk Hrest].
    destruct (@GetDistanceToNamedEntry_runs k s P Hk) as (s1 & R & P1 & T1).
    rewrite (bind_Ok _ _ _ R).
    destruct (PrimFloat.leb (distance_here k) threshold).
    + exists s1; split; [reflexivity|split; [exact P1|exact T1]].
    + destruct (IH s1 P1 Hrest) as (s2 & R2 & P2 & T2).
      exists s2; split; [exact R2|split; [exact P2|congruence]].
Qed.

Lemma EntryKeys_runs node n s :
  node_at (_tree (tree s)) node = Some n ->
  exists s', EntryKeys node s = (Ok (members_of n), s')
             /\ alleles s' = alleles s /\ distances s' = distances s.
Proof.
  intros Hn; unfold EntryKeys, members_of.
  unfold bind at 1, the_node at 1; rewrite Hn; cbn [from_option].
  destruct (_entryKeys n) as [ks|].
  - exists s; repeat split; reflexivity.
  - unfold bind, mutate_node, in_tree, modify, ret; simpl.
    eexists; repeat split; reflexivity.
Qed.

Lemma IsInCluster_runs node n founder threshold corePercent s :
  placing_here s ->
  node_at (_tree (tree s)) node = Some n ->
  _preferred n = Some founder ->
  comparable_here founder = true ->
  forallb comparable_here (members_of n) = true ->
  exists s',
    IsInCluster namedEntries index unNamedEntry node threshold corePercent s
    = (Ok (in_cluster distance_here founder (_diameter n) (members_of n)
                      threshold corePercent), s')
    /\ placing_here s'.
Proof.
  intros P Hn Hf Hc Hm.
  unfold IsInCluster, in_cluster.
  unfold bind at 1, the_node at 1; rewrite Hn; cbn [from_option].
  unfold bind at 1, lift at 1; rewrite Hf; cbn [from_option].
  destruct (@GetDistanceToNamedEntry_runs founder s P Hc) as (s1 & R & P1 & T1).
  rewrite (bind_Ok _ _ _ R).
  destruct (PrimFloat.leb (distance_here founder) threshold).
  - exists s1; split; [reflexivity|exact P1].
  - unfold bind at 1, the_node at 1; rewrite T1, Hn; cbn [from_option].
    destruct (PrimFloat.ltb threshold _).
    + exists s1; split; [reflexivity|exact P1].
    + assert (Hn1 : node_at (_tree (tree s1)) node = Some n) by (rewrite T1; exact Hn).
      destruct (@EntryKeys_runs node n s1 Hn1) as (s2 & R2 & A2 & D2).
      rewrite (bind_Ok _ _ _ R2).
      assert (P2 : placing_here s2).
      { destruct P1 as [PA PM]; split; [rewrite A2; exact PA|rewrite D2; exact PM]. }
      destruct (@any_member_within_runs threshold (members_of n) s2 P2 Hm)
        as (s3 & R3 & P3 & _).
      exists s3; split; [exact R3|exact P3].
Qed.

End InCluster.

Lemma fold_index_sound (pre l : list Key) (ix : dict Key nat) :
  (forall k i, dict_get key_eqb k ix = Some i -> nth_error (pre ++ l) i = Some k) ->
  forall k i,
    dict_get key_eqb k
      (fold_left (fun ix ik => dict_set key_eqb (snd ik) (fst ik) ix)
                 (combine (seq (List.length pre) (List.length l)) l) ix) = Some i ->
    nth_error (pre ++ l) i = Some k.
Proof.
  revert pre ix; induction l as [|x l IH]; intros pre ix H k i; simpl.
  - apply H.
  - intros G.
    replace (pre ++ x :: l) with ((pre ++ [x]) ++ l) in * by (rewrite <- app_assoc; reflexivity).
    apply (IH (pre ++ [x]) (dict_set key_eqb x (List.length pre) ix)).
    + intros k' i' G'.
      destruct (String.eqb_spec k' x) as [->|N].
      * rewrite (dict_get_set_same key_eqb_spec) in G'; injection G' as <-.
        rewrite <- app_assoc; simpl.
        rewrite nth_error_app2 by lia. rewrite Nat.sub_diag; reflexivity.
      * rewrite (dict_get_set_other key_eqb_spec) in G' by exact N.
        apply H, G'.
    + rewrite length_app; simpl. rewrite Nat.add_1_r. exact G.
Qed.

Lemma make_index_sound (namedEntries : list Key) k i :
  dict_get key_eqb k (make_index namedEntries) = Some i ->
  nth_error namedEntries i = Some k.
Proof.
  intros H. apply (@fold_index_sound [] namedEntries []); [intros ? ? G; discriminate|].
  exact H.
Qed.

Lemma stored_distance_profile index key A cold new_profile k :
  dict_get key_eqb key (_alleleCalls A) = Some new_profile ->
  comparable index A cold new_profile k = true ->
  stored_distance A new_profile k = profile_distance A key k.
Proof.
  intros Hn; unfold comparable, stored_distance, profile_distance; rewrite Hn.
  destruct (dict_get key_eqb k (_alleleCalls A)) as [p|]; [|discriminate].
  destruct (dict_get String.eqb k cold); [discriminate|].
  destruct (dict_get key_eqb k index); [|discriminate].
  intros E; apply Nat.eqb_eq in E.
  rewrite (@distance_percent new_profile p (eq_sym E)).
  apply percent_sym, E.
Qed.

Lemma in_cluster_ext (d d' : Key -> float) founder diameter members threshold cp :
  d founder = d' founder -> (forall k, In k members -> d k = d' k) ->
  in_cluster d founder diameter members threshold cp
  = in_cluster d' founder diameter members threshold cp.
Proof.
  intros Hf Hm; unfold in_cluster; rewrite Hf.
  destruct (PrimFloat.leb (d' founder) threshold); [reflexivity|].
  destruct (PrimFloat.ltb threshold _); [reflexivity|].
  induction members as [|k members IH]; [reflexivity|].
  simpl; rewrite (Hm k) by (left; reflexivity).
  rewrite IH; [reflexivity|]. intros; apply Hm; right; assumption.
Qed.

(** C2. [IsInCluster] returns true when the distance from the key to the
    founder of the node is at most the threshold; otherwise false when
    that distance, less the diameter of the node and less
    [2 * (100 - 100 * min_present)], is above the threshold; otherwise
    true exactly when some member of the node is within the threshold of
    the key. The key, the founder and the members have their profiles, of
    one length, in the hot tier of the store, and the memo of distances
    is sound, as it is throughout a placement. *)
Theorem IsInCluster_decides (namedEntries : list Key) (key : Key) (s : CalcState)
        (cold : list (string * pyval)) (new_profile : list Z)
        (node : Address) (n : Node) (founder : Key) (threshold min_present : float) :
  let index := make_index namedEntries in
  let dist := profile_distance (alleles s) key in
  _index (alleles s) = VDict cold ->
  dict_get key_eqb key (_alleleCalls (alleles s)) = Some new_profile ->
  dict_get String.eqb key cold = None ->
  memo_ok namedEntries index key (alleles s) cold new_profile (distances s) ->
  node_at (_tree (tree s)) node = Some n ->
  _preferred n = Some founder ->
  comparable index (alleles s) cold new_profile founder = true ->
  forallb (comparable index (alleles s) cold new_profile) (members_of n) = true ->
  exists s',
    IsInCluster namedEntries index key node threshold min_present s
    = (Ok (if PrimFloat.leb (dist founder) threshold then true
           else if PrimFloat.ltb threshold
                     (dist founder - _diameter n - f2 * (f100 - f100 * min_present))%float
                then false
                else existsb (fun k => PrimFloat.leb (dist k) threshold) (members_of n)),
       s').
Proof.
  intros index dist HI Hnew Hhot Hmemo Hn Hf Hc Hm.
  destruct (@IsInCluster_runs namedEntries index key (alleles s) cold new_profile
              HI Hnew Hhot (@make_index_sound namedEntries)
              node n founder threshold min_present s (conj eq_refl Hmemo) Hn Hf Hc Hm)
    as (s' & R & _).
  exists s'; rewrite R; f_equal; f_equal.
  change (in_cluster (stored_distance (alleles s) new_profile) founder (_diameter n)
            (members_of n) threshold min_present
          = in_cluster dist founder (_diameter n) (members_of n) threshold min_present).
  apply in_cluster_ext.
  - apply (@stored_distance_profile index key (alleles s) cold new_profile founder Hnew Hc).
  - intros k Hk; rewrite forallb_forall in Hm.
    apply (@stored_distance_profile index key (alleles s) cold new_profile k Hnew (Hm k Hk)).
Qed.

Lemma IsInCluster_decides_witness :
  exists s',
    IsInCluster ["K1"%string; "K2"%string] (make_index ["K1"%string; "K2"%string])
                "K5"%string [1] (float_of_int 50) (_minPres calc_scenario) third_added
    = (Ok true, s').
Proof.
  edestruct (@IsInCluster_decides ["K1"%string; "K2"%string] "K5"%string third_added
               [] [2;2;1;1;2] [1] cluster_one "K1"%string (float_of_int 50)
               (_minPres calc_scenario))
    as (s' & R).
  - reflexivity.
  - reflexivity.
  - reflexivity.
  - intros row H; vm_compute in H; discriminate.
  - vm_compute; reflexivity.
  - reflexivity.
  - vm_compute; reflexivity.
  - vm_compute; reflexivity.
  - exists s'; rewrite R; vm_compute; reflexivity.
Defined.

(** ** Merging clusters *)

(** *** Addresses *)

Lemma node_at_app root a b :
  node_at root (a ++ b)
  = match node_at root a with Some n => node_at n b | None => None end.
Proof.
  revert root; induction a as [|k a IH]; intros root; simpl; [reflexivity|].
  destruct (dict_get Z.eqb k (_children root)); [apply IH|reflexivity].
Qed.

Lemma node_at_child root cur k :
  node_at root (cur ++ [k])
  = match node_at root cur with Some n => GetChild n k | None => None end.
Proof.
  rewrite node_at_app; destruct (node_at root cur) as [n|]; [|reflexivity].
  simpl; unfold GetChild; destruct (dict_get Z.eqb k (_children n)); reflexivity.
Qed.

Lemma node_at_update_same root a f :
  node_at (update_at root a f) a = option_map f (node_at root a).
Proof.
  revert root; induction a as [|k a IH]; intros root; simpl; [reflexivity|].
  destruct (dict_get Z.eqb k (_children root)) as [c|] eqn:E; simpl.
  - rewrite (dict_get_set_same Z_eqb_spec); apply IH.
  - rewrite E; reflexivity.
Qed.

Lemma node_at_update_sibling root cur k k' f :
  k <> k' ->
  node_at (update_at root (cur ++ [k]) f) (cur ++ [k']) = node_at root (cur ++ [k']).
Proof.
  intros N; revert root; induction cur as [|j cur IH]; intros root; simpl.
  - destruct (dict_get Z.eqb k (_children root)) as [c|] eqn:E; simpl; [|reflexivity].
    rewrite (dict_get_set_other Z_eqb_spec) by congruence; reflexivity.
  - destruct (dict_get Z.eqb j (_children root)) as [c|] eqn:E; simpl.
    + rewrite (dict_get_set_same Z_eqb_spec); apply IH.
    + rewrite E; reflexivity.
Qed.

Lemma update_at_root_ID root a f :
  (forall n, _ID (f n) = _ID n) -> _ID (update_at root a f) = _ID root.
Proof.
  intros Hf; destruct a as [|k a]; simpl; [apply Hf|].
  destruct (dict_get Z.eqb k (_children root)); reflexivity.
Qed.

(** A mutation at or below a node that keeps [_ID]s keeps the [_ID] of
    the node. *)
Lemma update_below_ID root a rel f :
  (forall n, _ID (f n) = _ID n) ->
  option_map _ID (node_at (update_at root (a ++ rel) f) a)
  = option_map _ID (node_at root a).
Proof.
  intros Hf; revert root; induction a as [|k a IH]; intros root; simpl.
  - rewrite (update_at_root_ID root rel f Hf); reflexivity.
  - destruct (dict_get Z.eqb k (_children root)) as [c|] eqn:E; simpl.
    + rewrite (dict_get_set_same Z_eqb_spec); apply IH.
    + rewrite E; reflexivity.
Qed.

(** *** Triples: what a computation guarantees when it returns *)

Lemma bind_inv {S A B} (m : Py S A) (k : A -> Py S B) s b s' :
  bind m k s = (Ok b, s') -> exists a s1, m s = (Ok a, s1) /\ k a s1 = (Ok b, s').
Proof.
  unfold bind; destruct (m s) as [[a|e] s1]; [|discriminate].
  intros H; exists a, s1; split; [reflexivity|exact H].
Qed.

Lemma triple_bind {S A B} (P : S -> Prop) (m : Py S A) (Q : A -> S -> Prop)
      (k : A -> Py S B) (R : B -> S -> Prop) :
  triple P m Q -> (forall a, triple (Q a) (k a) R) -> triple P (bind m k) R.
Proof.
  intros Hm Hk s b s' HP H.
  apply bind_inv in H; destruct H as (a & s1 & E1 & E2).
  eapply Hk; [eapply Hm; eassumption|exact E2].
Qed.

Lemma triple_ret {S A} (P : S -> Prop) (a : A) (Q : A -> S -> Prop) :
  (forall s, P s -> Q a s) -> triple P (ret a) Q.
Proof. intros H s b s' HP E; injection E as <- <-; apply H, HP. Qed.

Lemma triple_lift {S A} (P : S -> Prop) (r : Res A) (Q : A -> S -> Prop) :
  (forall s a, P s -> r = Ok a -> Q a s) -> triple P (lift r) Q.
Proof.
  intros H s b s' HP E; unfold lift in E; injection E as E1 <-.
  apply H; assumption.
Qed.

Lemma triple_raise {S A} (P : S -> Prop) (e : exn) (Q : A -> S -> Prop) :
  triple P (raise e) Q.
Proof. intros s a s' _ E; discriminate. Qed.

Lemma triple_weaken {S A} (P P' : S -> Prop) (m : Py S A) (Q Q' : A -> S -> Prop) :
  triple P m Q -> (forall s, P' s -> P s) -> (forall a s, Q a s -> Q' a s) ->
  triple P' m Q'.
Proof. intros H HP HQ s a s' HP' E; apply HQ; eapply H; [apply HP, HP'|exact E]. Qed.

Lemma triple_comprehension {S A B} (I : S -> Prop) (e : A -> Py S B) (f : A -> B) xs :
  (forall x, In x xs -> triple I (e x) (fun b s => b = f x /\ I s)) ->
  triple I (comprehension e xs) (fun bs s => bs = map f xs /\ I s).
Proof.
  induction xs as [|x xs IH]; intros H; simpl.
  - apply triple_ret; intros s HI; split; [reflexivity|exact HI].
  - eapply triple_bind; [apply H; left; reflexivity|].
    intros b; simpl.
    intros s bs s' [-> HI] E.
    apply bind_inv in E; destruct E as (bs' & s1 & E1 & E2).
    assert (T : triple I (comprehension e xs) (fun bs s => bs = map f xs /\ I s)).
    { apply IH; intros; apply H; right; assumption. }
    destruct (T s bs' s1 HI E1) as [-> HI1].
    injection E2 as <- <-; split; [reflexivity|exact HI1].
Qed.

(** *** Computations that leave the tree alone *)

Lemma tree_const_ret {A} (a : A) : tree_const (ret a).
Proof. intros s; reflexivity. Qed.

Lemma tree_const_raise {A} (e : exn) : tree_const (@raise CalcState A e).
Proof. intros s; reflexivity. Qed.

Lemma tree_const_lift {A} (r : Res A) : tree_const (lift r).
Proof. intros s; reflexivity. Qed.

Lemma tree_const_get : tree_const get.
Proof. intros s; reflexivity. Qed.

Lemma tree_const_set_distances d : tree_const (set_distances d).
Proof. intros s; reflexivity. Qed.

Lemma tree_const_in_store {A} (m : Py Store A) : tree_const (in_store m).
Proof. intros s; unfold in_store; destruct (m (alleles s)); reflexivity. Qed.

Lemma tree_const_in_world {A} (m : Py World A) : tree_const (in_world m).
Proof. intros s; unfold in_world; destruct (m (world s)); reflexivity. Qed.

Lemma tree_const_bind {A B} (m : Py CalcState A) (k : A -> Py CalcState B) :
  tree_const m -> (forall a, tree_const (k a)) -> tree_const (bind m k).
Proof.
  intros Hm Hk s; unfold bind.
  specialize (Hm s); destruct (m s) as [[a|e] s1]; simpl in Hm.
  - rewrite (Hk a s1); exact Hm.
  - exact Hm.
Qed.

Lemma tree_const_GetDistanceToNamedEntry namedEntries index u k :
  tree_const (GetDistanceToNamedEntry namedEntries index u k).
Proof.
  unfold GetDistanceToNamedEntry.
  apply tree_const_bind; [apply tree_const_get|intros s0].
  apply tree_const_bind.
  { destruct (dict_in key_eqb u (distances s0));
      [apply tree_const_ret|apply tree_const_set_distances]. }
  intros _.
  apply tree_const_bind; [apply tree_const_get|intros s1].
  apply tree_const_bind; [apply tree_const_lift|intros row].
  apply tree_const_bind; [apply tree_const_lift|intros i].
  apply tree_const_bind; [apply tree_const_lift|intros m].
  destruct (PrimFloat.leb f0 m); [apply tree_const_ret|].
  apply tree_const_bind; [apply tree_const_in_store|intros v1].
  apply tree_const_bind; [apply tree_const_in_store|intros v2].
  apply tree_const_bind; [apply tree_const_in_world|intros d].
  apply tree_const_bind; [apply tree_const_get|intros s2].
  apply tree_const_bind; [apply tree_const_set_distances|intros _].
  apply tree_const_ret.
Qed.

Lemma tree_const_triple {A} (I : CalcState -> Prop) (m : Py CalcState A) :
  tree_const m -> (forall s s', tree s' = tree s -> I s -> I s') ->
  triple I m (fun _ s => I s).
Proof.
  intros Hm HI s a s' Hs E.
  apply (HI s); [|exact Hs].
  specialize (Hm s); rewrite E in Hm; exact Hm.
Qed.

Lemma triple_comprehension_map {S A B C} (I : S -> Prop) (e : A -> Py S B)
      (g : C -> A) (f : C -> B) xs :
  (forall x, In x xs -> triple I (e (g x)) (fun b s => b = f x /\ I s)) ->
  triple I (comprehension e (map g xs)) (fun bs s => bs = map f xs /\ I s).
Proof.
  induction xs as [|x xs IH]; intros H; simpl.
  - apply triple_ret; intros s HI; split; [reflexivity|exact HI].
  - eapply triple_bind; [apply H; left; reflexivity|].
    intros b; simpl.
    intros s bs s' [-> HI] E.
    apply bind_inv in E; destruct E as (bs' & s1 & E1 & E2).
    assert (T : triple I (comprehension e (map g xs)) (fun bs s => bs = map f xs /\ I s)).
    { apply IH; intros; apply H; right; assumption. }
    destruct (T s bs' s1 HI E1) as [-> HI1].
    injection E2 as <- <-; split; [reflexivity|exact HI1].
Qed.

(** *** Greatest items *)

Lemma fold_max_Z xs x :
  let m := fold_left (fun m y => if m <? y then y else m) xs x in
  x <= m /\ (forall y, In y xs -> y <= m) /\ (m = x \/ In m xs).
Proof.
  revert x; induction xs as [|y xs IH]; intros x; simpl.
  - split; [lia|split; [intros ? []|left; reflexivity]].
  - destruct (Z.ltb_spec x y) as [L|L].
    + destruct (IH y) as (H1 & H2 & H3); split; [lia|split].
      * intros z [<-|Hz]; [exact H1|apply H2, Hz].
      * destruct H3 as [->|H3]; right; [left; reflexivity|right; exact H3].
    + destruct (IH x) as (H1 & H2 & H3); split; [exact H1|split].
      * intros z [<-|Hz]; [lia|apply H2, Hz].
      * destruct H3 as [->|H3]; [left; reflexivity|right; right; exact H3].
Qed.

Lemma max_Z_spec xs m :
  max_Z xs = Ok m -> In m xs /\ forall y, In y xs -> y <= m.
Proof.
  destruct xs as [|x xs]; [discriminate|]; simpl; intros [= <-].
  destruct (fold_max_Z xs x) as (H1 & H2 & H3); split.
  - destruct H3 as [->|H3]; [left; reflexivity|right; exact H3].
  - intros y [<-|Hy]; [exact H1|apply H2, Hy].
Qed.

Lemma first_index_of_spec m xs i0 idx :
  first_index_of m xs i0 = Ok idx ->
  exists j, idx = (i0 + j)%nat /\ nth_error xs j = Some m.
Proof.
  revert i0; induction xs as [|x xs IH]; intros i0; simpl; [discriminate|].
  destruct (Z.eqb_spec x m) as [->|N].
  - intros [= <-]; exists 0%nat; split; [lia|reflexivity].
  - intros H; destruct (IH _ H) as (j & -> & Hj).
    exists (S j); split; [lia|exact Hj].
Qed.

(** The first key of the greatest size in [minObjs]. *)
Lemma fold_max_by_size (rest : list (Z * Z)) (best : Z * Z) :
  let r := fold_left (fun best kv => if snd best <? snd kv then kv else best) rest best in
  (r = best \/ In r rest) /\ snd best <= snd r /\ forall kv, In kv rest -> snd kv <= snd r.
Proof.
  revert best; induction rest as [|kv rest IH]; intros best; simpl.
  - split; [left; reflexivity|split; [lia|intros ? []]].
  - destruct (Z.ltb_spec (snd best) (snd kv)) as [L|L].
    + destruct (IH kv) as (H1 & H2 & H3); split; [|split].
      * destruct H1 as [->|H1]; right; [left; reflexivity|right; exact H1].
      * lia.
      * intros z [<-|Hz]; [exact H2|apply H3, Hz].
    + destruct (IH best) as (H1 & H2 & H3); split; [|split].
      * destruct H1 as [->|H1]; [left; reflexivity|right; right; exact H1].
      * exact H2.
      * intros z [<-|Hz]; [lia|apply H3, Hz].
Qed.

Lemma max_by_size_spec (minObjs : dict Z Z) k :
  NodeOps.max_by_size minObjs = Ok k ->
  exists v, In (k, v) minObjs /\ forall kv, In kv minObjs -> snd kv <= v.
Proof.
  destruct minObjs as [|[k0 v0] rest]; [discriminate|]; simpl; intros [= <-].
  destruct (fold_max_by_size rest (k0, v0)) as (H1 & H2 & H3).
  set (r := fold_left _ rest (k0, v0)) in *.
  exists (snd r); split.
  - destruct H1 as [E|H1]; [rewrite E; left; reflexivity|right].
    destruct r; exact H1.
  - intros kv [<-|Hkv]; [exact H2|apply H3, Hkv].
Qed.

Lemma In_dict_set {V} k (v : V) d k' v' :
  In (k', v') (dict_set Z.eqb k v d) -> (k' = k /\ v' = v) \/ In (k', v') d.
Proof.
  induction d as [|[k0 v0] d IH]; simpl.
  - intros [[= -> ->]|[]]; left; split; reflexivity.
  - destruct (Z.eqb_spec k k0) as [->|N]; simpl.
    + intros [[= -> ->]|H]; [left; split; reflexivity|right; right; exact H].
    + intros [H|H]; [right; left; exact H|].
      destruct (IH H) as [H'|H']; [left; exact H'|right; right; exact H'].
Qed.

Lemma collect_sizes_spec self nodes acc minObjs :
  NodeOps.collect_sizes self nodes acc = Ok minObjs ->
  (forall k v, In (k, v) minObjs ->
     In (k, v) acc
     \/ (In k nodes /\ exists c, GetChild self k = Some c /\ v = NodeOps.named_size c))
  /\ (forall k, In k nodes ->
        exists c, GetChild self k = Some c
                  /\ dict_get Z.eqb k minObjs = Some (NodeOps.named_size c))
  /\ (forall k, ~ In k nodes -> dict_get Z.eqb k minObjs = dict_get Z.eqb k acc).
Proof.
  revert acc; induction nodes as [|i nodes IH]; intros acc; simpl.
  - intros [= <-]; split; [|split]; [intros; left; assumption|intros ? []|reflexivity].
  - destruct (GetChild self i) as [c|] eqn:Ec; [|discriminate].
    intros H; destruct (IH _ H) as (H1 & H2 & H3); split; [|split].
    + intros k v Hkv; destruct (H1 k v Hkv) as [Hacc|(Hin & c' & Hc' & Hv)].
      * destruct (In_dict_set _ _ _ _ _ Hacc) as [[-> ->]|Hacc'];
          [right; split; [left; reflexivity|exists c; split; [exact Ec|reflexivity]]
          |left; exact Hacc'].
      * right; split; [right; exact Hin|exists c'; split; assumption].
    + intros k [<-|Hin].
      * exists c; split; [exact Ec|].
        destruct (in_dec Z.eq_dec i nodes) as [Hi|Hi].
        -- destruct (H2 i Hi) as (c' & Hc' & Hg); congruence.
        -- rewrite (H3 i Hi); apply (dict_get_set_same Z_eqb_spec).
      * apply H2, Hin.
    + intros k Hk; rewrite H3 by (intros Hin; apply Hk; right; exact Hin).
      apply (dict_get_set_other Z_eqb_spec); intros ->; apply Hk; left; reflexivity.
Qed.

(** *** What a merge keeps *)

Lemma lift_inv {S A} (r : Res A) (s s' : S) a :
  lift r s = (Ok a, s') -> r = Ok a /\ s' = s.
Proof. unfold lift; intros [= -> ->]; split; reflexivity. Qed.

Lemma the_node_inv a s n s' :
  the_node a s = (Ok n, s') -> node_at (_tree (tree s)) a = Some n /\ s' = s.
Proof.
  unfold the_node; destruct (node_at (_tree (tree s)) a); simpl; [|discriminate].
  intros [= -> ->]; split; reflexivity.
Qed.

Ltac step E a s1 E1 :=
  apply bind_inv in E; destruct E as (a & s1 & E1 & E).

Lemma AddNamedChild_ID n key n' : NodeOps.AddNamedChild n key = Ok n' -> _ID n' = _ID n.
Proof.
  unfold NodeOps.AddNamedChild; destruct (namedPart n); [|discriminate].
  intros [= <-]; reflexivity.
Qed.

Lemma add_named_children_ID keys n n' :
  NodeOps.add_named_children n keys = Ok n' -> _ID n' = _ID n.
Proof.
  revert n; induction keys as [|key keys IH]; intros n; simpl.
  - intros [= <-]; reflexivity.
  - destruct (NodeOps.AddNamedChild n key) as [m|] eqn:E; [|discriminate].
    intros H; rewrite (IH _ H); apply (AddNamedChild_ID _ _ E).
Qed.

Lemma absorb_named_ID absorbed children maxObj children' maxObj' :
  NodeOps.absorb_named absorbed (children, maxObj) = Ok (children', maxObj') ->
  _ID maxObj' = _ID maxObj.
Proof.
  revert children maxObj; induction absorbed as [|node rest IH]; intros children maxObj; simpl.
  - intros [= _ <-]; reflexivity.
  - destruct (GetNamedChildren node); [|discriminate].
    destruct (NodeOps.add_named_children maxObj a) as [m|] eqn:E; [|discriminate].
    destruct (dict_del Z.eqb (_ID node) children); [|discriminate].
    intros H; rewrite (IH _ _ H); apply (add_named_children_ID _ _ E).
Qed.

Lemma AddChild_ID n i c n' : NodeOps.AddChild n i c = Ok n' -> _ID n' = _ID n.
Proof.
  unfold NodeOps.AddChild; destruct (dict_get Z.eqb i (_children n)); [discriminate|].
  intros [= <-]; reflexivity.
Qed.

Lemma adopt_children_ID children i last maxObj last' maxObj' :
  NodeOps.adopt_children children i last maxObj = Ok (last', maxObj') ->
  _ID maxObj' = _ID maxObj.
Proof.
  revert i last maxObj; induction children as [|c rest IH]; intros i last maxObj; simpl.
  - intros [= _ <-]; reflexivity.
  - destruct (NodeOps.AddChild maxObj i (with_ID c i)) as [m|] eqn:E; [|discriminate].
    intros H; rewrite (IH _ _ _ H); apply (AddChild_ID _ _ _ E).
Qed.

Lemma absorb_inner_ID absorbed toStart i children maxObj children' maxObj' :
  NodeOps.absorb_inner absorbed toStart i (children, maxObj) = Ok (children', maxObj') ->
  _ID maxObj' = _ID maxObj.
Proof.
  revert toStart i children maxObj;
    induction absorbed as [|node rest IH]; intros toStart i children maxObj; simpl.
  - intros [= _ <-]; reflexivity.
  - destruct (NodeOps.adopt_children (dict_values (_children node)) toStart i maxObj)
      as [[[i'|] m]|] eqn:E; try discriminate.
    destruct (dict_del Z.eqb (_ID node) children); [|discriminate].
    intros H; rewrite (IH _ _ _ _ H); apply (adopt_children_ID _ _ _ _ E).
Qed.

Lemma mutate_below_ID a rel f i :
  (forall n, _ID (f n) = _ID n) ->
  triple (ID_at a i) (mutate_node (a ++ rel) f) (fun _ s => ID_at a i s).
Proof.
  intros Hf s u s' H E.
  unfold mutate_node, in_tree, modify in E; injection E as _ <-.
  unfold ID_at in *; simpl. rewrite (update_below_ID _ a rel f Hf); exact H.
Qed.

Lemma ValidateNames_ID a rel i :
  triple (ID_at a i) (NodeOps.ValidateNames (a ++ rel)) (fun _ s => ID_at a i s).
Proof.
  intros s w s' H E; unfold NodeOps.ValidateNames in E.
  step E n s1 E1; apply the_node_inv in E1; destruct E1 as [_ ->].
  step E s0 s1 E1; injection E1 as <- <-.
  destruct (namedPart n) as [np|]; [|discriminate].
  step E wgst s1 E1; apply lift_inv in E1; destruct E1 as [_ ->].
  step E u s1 E1.
  injection E as _ <-.
  eapply mutate_below_ID; [|exact H|exact E1]. intros; reflexivity.
Qed.

Lemma FinalizeName_ID a i key wgst :
  triple (ID_at a i) (in_tree (TreeOps.FinalizeName key wgst)) (fun _ s => ID_at a i s).
Proof.
  intros s u s' H E; unfold in_tree, TreeOps.FinalizeName in E.
  destruct (Traverse (_tree (tree s)) wgst) as [[node|]|]; try (injection E as _ <-; exact H).
  destruct (namedPart node) as [np|]; [|injection E as _ <-; exact H].
  destruct (key_in key (_namedChildren np)); injection E as _ <-; exact H.
Qed.

Lemma finalize_keys_ID a i keys wgst :
  triple (ID_at a i) (NodeOps.finalize_keys keys wgst) (fun _ s => ID_at a i s).
Proof.
  induction keys as [|key keys IH]; simpl.
  - apply triple_ret; auto.
  - eapply triple_bind; [apply FinalizeName_ID|intros ?; exact IH].
Qed.

Lemma finalize_nodes_ID a i below :
  triple (ID_at a i) (NodeOps.finalize_nodes a below) (fun _ s => ID_at a i s).
Proof.
  induction below as [|rel rest IH]; simpl.
  - apply triple_ret; auto.
  - eapply triple_bind; [apply ValidateNames_ID|intros wgst].
    eapply triple_bind.
    { intros s n s' H E; apply the_node_inv in E; destruct E as [_ ->]; exact H. }
    intros n.
    eapply triple_bind.
    { apply triple_lift; intros s ks H _; exact H. }
    intros keys.
    eapply triple_bind; [apply finalize_keys_ID|intros ?; exact IH].
Qed.

Section Merge.

Variable iter_set : list (list Z) -> list (list Z).
Variable namedEntries : list Key.
Variable index : dict Key nat.
Variable unNamedEntry : Key.

(** [currentNode], and its matching children as they are before the
    merge, each with the dict key that [currentNode] holds it under. *)
Variable cur : Address.
Variable matching : list (Z * Node).

(** One matching child, under the key [w], has more members than every
    other; and the cached member lists have the size of the named
    children below, as the member cache is meant to. *)
Variable w : Z.
Variable nw : Node.
Hypothesis largest_matches : In (w, nw) matching.
Hypothesis largest_alone :
  forall k n, In (k, n) matching -> k = w \/ member_total n < member_total nw.
Hypothesis caches_agree :
  forall k n, In (k, n) matching -> NodeOps.named_size n = member_total n.

Lemma kept_tree s s' : tree s' = tree s -> kept cur matching s -> kept cur matching s'.
Proof. intros E H k n Hin; rewrite E; apply H, Hin. Qed.

Lemma named_size_core n n' : same_core n n' -> NodeOps.named_size n' = NodeOps.named_size n.
Proof.
  destruct n as [i l cs d p e np], n' as [i' l' cs' d' p' e' np'].
  unfold same_core; simpl; intros (_ & -> & _ & _ & -> & _).
  destruct np; reflexivity.
Qed.

Lemma same_core_fill n n' :
  same_core n n' -> _entryKeys n' = None ->
  same_core n (with_entryKeys n' (Some (iter_entrykeys n'))).
Proof.
  intros (H1 & H2 & H3 & H4 & H5 & H6) Hc.
  unfold same_core; simpl; repeat split; try assumption.
  rewrite <- H6; unfold members_of; simpl; rewrite Hc; reflexivity.
Qed.

Lemma same_core_unique n1 n2 n' : same_core n1 n' -> same_core n2 n' ->
  member_total n1 = member_total n2.
Proof.
  intros (_ & _ & _ & _ & _ & H1) (_ & _ & _ & _ & _ & H2).
  unfold member_total; congruence.
Qed.

Lemma EntryKeys_kept k n :
  In (k, n) matching ->
  triple (kept cur matching) (EntryKeys (cur ++ [k]))
         (fun ks s => ks = members_of n /\ kept cur matching s).
Proof.
  intros Hin s ks s' HP E.
  destruct (HP k n Hin) as (n' & Hn' & C).
  unfold EntryKeys in E.
  step E n0 s1 E1; apply the_node_inv in E1; destruct E1 as [E1 ->].
  rewrite Hn' in E1; injection E1 as <-.
  destruct C as (C1 & C2 & C3 & C4 & C5 & C6).
  destruct (_entryKeys n') as [ks0|] eqn:Ec.
  - injection E as <- <-; split; [|exact HP].
    rewrite <- C6; unfold members_of; rewrite Ec; reflexivity.
  - step E u s1 E1. injection E as <- <-.
    unfold mutate_node, in_tree, modify in E1; injection E1 as _ <-.
    split; [rewrite <- C6; unfold members_of; rewrite Ec; reflexivity|].
    intros k2 n2 Hin2; simpl.
    destruct (HP k2 n2 Hin2) as (n2' & Hn2' & C').
    destruct (Z.eq_dec k k2) as [<-|N].
    + rewrite node_at_update_same, Hn'; simpl.
      eexists; split; [reflexivity|].
      rewrite Hn' in Hn2'; injection Hn2' as <-.
      apply same_core_fill; assumption.
    + rewrite (node_at_update_sibling _ _ _ N).
      exists n2'; split; assumption.
Qed.

Lemma member_count_kept k n :
  In (k, n) matching ->
  triple (kept cur matching) (member_count (cur ++ [k]))
         (fun sz s => sz = member_total n /\ kept cur matching s).
Proof.
  intros Hin; unfold member_count.
  eapply triple_bind; [apply (EntryKeys_kept _ _ Hin)|intros ks].
  intros s sz s' [-> HP] E; injection E as <- <-; split; [reflexivity|exact HP].
Qed.

Lemma GetDistanceToNamedEntry_kept u k :
  triple (kept cur matching) (GetDistanceToNamedEntry namedEntries index u k)
         (fun _ s => kept cur matching s).
Proof.
  apply tree_const_triple; [apply tree_const_GetDistanceToNamedEntry|].
  intros s s' E; apply kept_tree, E.
Qed.

Lemma comprehension_kept {X Y} (e : X -> Py CalcState Y) xs :
  (forall x, In x xs -> triple (kept cur matching) (e x) (fun _ s => kept cur matching s)) ->
  triple (kept cur matching) (comprehension e xs) (fun _ s => kept cur matching s).
Proof.
  induction xs as [|x xs IH]; intros H; simpl.
  - apply triple_ret; auto.
  - eapply triple_bind; [apply H; left; reflexivity|intros b].
    eapply triple_bind; [apply IH; intros; apply H; right; assumption|intros bs].
    apply triple_ret; auto.
Qed.

Lemma GetMaxDistanceToNode_kept u k n :
  In (k, n) matching ->
  triple (kept cur matching) (GetMaxDistanceToNode namedEntries index u (cur ++ [k]))
         (fun _ s => kept cur matching s).
Proof.
  intros Hin; unfold GetMaxDistanceToNode.
  eapply triple_bind; [apply (EntryKeys_kept _ _ Hin)|intros ks].
  eapply triple_bind.
  { eapply triple_weaken; [apply (@comprehension_kept _ _ _ ks)| |].
    - intros; apply GetDistanceToNamedEntry_kept.
    - intros s [_ H]; exact H.
    - intros a s H; exact H. }
  intros ds; apply triple_lift; intros; assumption.
Qed.

Lemma widen_diameter_kept u pick nodes diameter :
  (forall i a, In (i, a) nodes -> exists k n, In (k, n) matching /\ a = cur ++ [k]) ->
  triple (kept cur matching) (widen_diameter namedEntries index u pick nodes diameter)
         (fun _ s => kept cur matching s).
Proof.
  revert diameter; induction nodes as [|[i a] rest IH]; intros diameter H; simpl.
  - apply triple_ret; auto.
  - assert (H' : forall i a, In (i, a) rest ->
                   exists k n, In (k, n) matching /\ a = cur ++ [k])
      by (intros; eapply H; right; eassumption).
    destruct (i =? pick)%nat; [apply IH, H'|].
    destruct (H i a (or_introl eq_refl)) as (k & n & Hin & ->).
    eapply triple_bind; [apply (GetMaxDistanceToNode_kept _ _ _ Hin)|intros d].
    apply IH, H'.
Qed.

(** [MergeNodes] keeps the largest node, with its [_ID]. *)
Lemma MergeNodes_keeps_largest toMerge :
  (forall k, In k toMerge -> exists n, In (k, n) matching) ->
  In w toMerge ->
  triple (kept cur matching) (NodeOps.MergeNodes cur toMerge)
         (fun merged s => merged = cur ++ [w] /\ ID_at merged (_ID nw) s).
Proof.
  intros Hids Hw s merged s' HP E.
  unfold NodeOps.MergeNodes in E.
  step E c s1 E1; apply the_node_inv in E1; destruct E1 as [Hc ->].
  step E s0 s1 E1; injection E1 as <- <-.
  step E minObjs s1 E1; apply lift_inv in E1; destruct E1 as [Hsizes ->].
  step E maxKey s1 E1; apply lift_inv in E1; destruct E1 as [Hmax ->].
  (* a matching child as the node at [cur] holds it *)
  assert (Hchild : forall k n, In (k, n) matching ->
            exists n', GetChild c k = Some n' /\ same_core n n').
  { intros k n Hin; destruct (HP k n Hin) as (n' & Hn' & C).
    rewrite node_at_child, Hc in Hn'; exists n'; split; assumption. }
  destruct (collect_sizes_spec _ _ _ Hsizes) as (S1 & S2 & _).
  destruct (max_by_size_spec _ Hmax) as (v & Hv & Hle).
  assert (maxKey = w) as ->.
  { destruct (S1 _ _ Hv) as [[]|(Hin & cm & Hcm & ->)].
    destruct (Hids _ Hin) as (n & Hn).
    destruct (largest_alone _ _ Hn) as [->|Hlt]; [reflexivity|exfalso].
    destruct (Hchild _ _ Hn) as (n' & Hn' & C).
    rewrite Hcm in Hn'; injection Hn' as <-.
    rewrite (named_size_core C), (caches_agree _ _ Hn) in Hle.
    destruct (S2 w Hw) as (cw & Hcw & Hgw).
    destruct (Hchild _ _ largest_matches) as (nw' & Hnw' & Cw).
    rewrite Hcw in Hnw'; injection Hnw' as <-.
    apply (dict_get_In Z_eqb_spec) in Hgw.
    specialize (Hle _ Hgw); simpl in Hle.
    rewrite (named_size_core Cw), (caches_agree _ _ largest_matches) in Hle.
    lia. }
  destruct (Hchild _ _ largest_matches) as (nw' & Hnw' & Cw).
  step E maxObj s1 E1; apply lift_inv in E1; destruct E1 as [Hmo ->].
  rewrite Hnw' in Hmo; injection Hmo as <-.
  step E minObjs' s1 E1; apply lift_inv in E1; destruct E1 as [_ ->].
  step E absorbed s1 E1; apply lift_inv in E1; destruct E1 as [_ ->].
  step E merged0 s1 E1; apply lift_inv in E1; destruct E1 as [Hmerged ->].
  destruct merged0 as [children maxObj'].
  assert (HID : _ID maxObj' = _ID nw).
  { destruct Cw as (Cw1 & _); rewrite <- Cw1.
    destruct (_level c =? DEPTH (tree s) - 1).
    - apply (absorb_named_ID _ _ _ Hmerged).
    - destruct (max_Z (dict_keys (_children nw'))); [|discriminate].
      apply (absorb_inner_ID _ _ _ _ _ Hmerged). }
  step E u s1 E1.
  assert (H1 : ID_at (cur ++ [w]) (_ID nw) s1).
  { destruct (dict_in Z.eqb w children); [|discriminate].
    unfold mutate_node, in_tree, modify in E1; injection E1 as _ <-.
    unfold ID_at; simpl.
    rewrite node_at_child, node_at_update_same, Hc; simpl.
    unfold GetChild; simpl. rewrite (dict_get_set_same Z_eqb_spec); simpl.
    rewrite HID; reflexivity. }
  step E u2 s2 E2.
  injection E as <- <-; split; [reflexivity|].
  eapply finalize_nodes_ID; [exact H1|exact E2].
Qed.

Lemma kept_initially s :
  (forall k n, In (k, n) matching -> node_at (_tree (tree s)) (cur ++ [k]) = Some n) ->
  kept cur matching s.
Proof.
  intros H k n Hin; exists n; split; [apply H, Hin|].
  unfold same_core; repeat split; reflexivity.
Qed.

Lemma pick_is_largest maxSize idx picked :
  max_Z (map (fun kn => member_total (snd kn)) matching) = Ok maxSize ->
  first_index_of maxSize (map (fun kn => member_total (snd kn)) matching) 0 = Ok idx ->
  nth_error (map (fun kn : Z * Node => cur ++ [fst kn]) matching) idx = Some picked ->
  picked = cur ++ [w].
Proof.
  intros Hmax Hidx Hpick.
  destruct (max_Z_spec _ Hmax) as [_ Hle].
  destruct (first_index_of_spec _ _ _ Hidx) as (j & -> & Hj); simpl in Hpick.
  rewrite nth_error_map in Hj, Hpick.
  destruct (nth_error matching j) as [[k n]|] eqn:Ekn; [|discriminate].
  simpl in *; injection Hj as Hj; injection Hpick as <-.
  apply nth_error_In in Ekn.
  destruct (largest_alone _ _ Ekn) as [->|Hlt]; [reflexivity|exfalso].
  assert (member_total nw <= maxSize).
  { apply Hle; apply (in_map (fun kn => member_total (snd kn)) _ _ largest_matches). }
  lia.
Qed.

(** The merge, when it completes, leaves the new key in the largest
    matching child: that child's address is returned, its [_ID] is
    appended to the name of the new key, and its founder is the founder of
    the merged node. *)
Lemma merge_branch_runs closestClusters toMerge s merged s' :
  all_ok last_item (iter_set closestClusters) = Ok toMerge ->
  (forall k, In k toMerge -> exists n, In (k, n) matching) ->
  In w toMerge ->
  (forall k n, In (k, n) matching -> node_at (_tree (tree s)) (cur ++ [k]) = Some n) ->
  merge_branch iter_set namedEntries index unNamedEntry cur closestClusters
               (map (fun kn : Z * Node => cur ++ [fst kn]) matching) s = (Ok merged, s') ->
  merged = cur ++ [w]
  /\ (exists m, node_at (_tree (tree s')) merged = Some m
                /\ _ID m = _ID nw /\ _preferred m = _preferred nw)
  /\ (exists path, dict_get key_eqb unNamedEntry (_names (tree s'))
                   = Some (path ++ [_ID nw])).
Proof.
  intros HtoMerge Hids Hw Hloc E.
  pose proof (kept_initially s Hloc) as HP.
  assert (Tsizes : triple (kept cur matching)
            (comprehension member_count (map (fun kn : Z * Node => cur ++ [fst kn]) matching))
            (fun bs s => bs = map (fun kn => member_total (snd kn)) matching /\ kept cur matching s)).
  { apply triple_comprehension_map; intros [k n] Hin; apply (member_count_kept _ _ Hin). }
  unfold merge_branch in E.
  step E sizes s1 E1; destruct (Tsizes _ _ _ HP E1) as [-> HP1].
  step E maxSize s2 E2; apply lift_inv in E2; destruct E2 as [Hmax ->].
  step E sizes' s2 E2; destruct (Tsizes _ _ _ HP1 E2) as [-> HP2].
  step E idx s3 E3; apply lift_inv in E3; destruct E3 as [Hidx ->].
  step E picked s3 E3; apply lift_inv in E3; destruct E3 as [Hpick ->].
  assert (picked = cur ++ [w]) as ->.
  { destruct (nth_error _ idx) as [a|] eqn:En; [|discriminate].
    simpl in Hpick; injection Hpick as ->.
    eapply pick_is_largest; eassumption. }
  step E n s3 E3; apply the_node_inv in E3; destruct E3 as [Hn ->].
  destruct (HP2 _ _ largest_matches) as (nw' & Hnw' & Cw).
  rewrite Hnw' in Hn; injection Hn as <-.
  step E preferred s3 E3; apply lift_inv in E3; destruct E3 as [_ ->].
  step E d s3 E3.
  assert (HP3 : kept cur matching s3) by (eapply GetDistanceToNamedEntry_kept; eassumption).
  step E diameter s4 E4.
  assert (HP4 : kept cur matching s4).
  { eapply widen_diameter_kept; [|exact HP3|exact E4].
    intros i a Hin; apply in_combine_r in Hin; apply in_map_iff in Hin.
    destruct Hin as ([k n0] & <- & Hin); exists k, n0; split; [exact Hin|reflexivity]. }
  step E memberLists s5 E5.
  assert (HP5 : kept cur matching s5).
  { eapply comprehension_kept; [|exact HP4|exact E5].
    intros a Hin; apply in_map_iff in Hin; destruct Hin as ([k n0] & <- & Hin).
    eapply triple_weaken; [apply (EntryKeys_kept _ _ Hin)|auto|].
    intros ? ? [_ H]; exact H. }
  step E toMerge' s6 E6; apply lift_inv in E6; destruct E6 as [HtoMerge' ->].
  rewrite HtoMerge in HtoMerge'; injection HtoMerge' as <-.
  step E merged0 s6 E6.
  assert (HM : merged0 = cur ++ [w] /\ ID_at merged0 (_ID nw) s6)
    by (eapply MergeNodes_keeps_largest; eassumption).
  destruct HM as [-> HID].
  step E m s7 E7; apply the_node_inv in E7; destruct E7 as [Hm ->].
  assert (Hmid : _ID m = _ID nw).
  { unfold ID_at in HID; rewrite Hm in HID; injection HID as HID; exact HID. }
  step E u1 s7 E7.
  assert (s7 = s6) as ->.
  { destruct (key_in unNamedEntry (iter_entrykeys m)); [discriminate|].
    injection E7 as _ <-; reflexivity. }
  step E u2 s8 E8.
  unfold append_pattern, in_tree in E8.
  destruct (dict_get key_eqb unNamedEntry (_names (tree s6))) as [name|] eqn:Ename;
    [|discriminate].
  injection E8 as _ <-.
  step E u3 s9 E9.
  unfold mutate_node, in_tree, modify in E9; injection E9 as _ <-.
  injection E as <- <-; simpl.
  split; [reflexivity|split].
  - rewrite node_at_update_same, Hm; simpl.
    eexists; split; [reflexivity|split]; simpl; [exact Hmid|].
    destruct Cw as (_ & _ & Cp & _); exact Cp.
  - exists name; rewrite (dict_get_set_same key_eqb_spec), Hmid; reflexivity.
Qed.

End Merge.

(** C3 (amended). When several sibling nodes match at a level and one of
    them has more members than every other, the merge, when it completes,
    keeps that node: its address is the new current node, its id is
    appended to the path of the new key, and its founder is the founder of
    the merged node. The ids handed to [MergeNodes] are the keys of the
    matching children, whatever the order in which the set yields them,
    and the member lists are as large as the named children below. *)
Theorem merge_keeps_largest
        (iter_set : list (list Z) -> list (list Z)) (namedEntries : list Key)
        (index : dict Key nat) (unNamedEntry : Key) (currentNode : Address)
        (matching : list (Z * Node)) (w : Z) (nw : Node)
        (closestClusters : list (list Z)) (toMerge : list Z)
        (s s' : CalcState) (merged : Address) :
  In (w, nw) matching ->
  (forall k n, In (k, n) matching -> k = w \/ member_total n < member_total nw) ->
  (forall k n, In (k, n) matching -> NodeOps.named_size n = member_total n) ->
  (forall k n, In (k, n) matching ->
     node_at (_tree (tree s)) (currentNode ++ [k]) = Some n) ->
  all_ok last_item (iter_set closestClusters) = Ok toMerge ->
  (forall k, In k toMerge <-> exists n, In (k, n) matching) ->
  merge_branch iter_set namedEntries index unNamedEntry currentNode closestClusters
               (map (fun kn : Z * Node => currentNode ++ [fst kn]) matching) s
  = (Ok merged, s') ->
  merged = currentNode ++ [w]
  /\ (exists m, node_at (_tree (tree s')) merged = Some m
                /\ _ID m = _ID nw /\ _preferred m = _preferred nw)
  /\ (exists path, dict_get key_eqb unNamedEntry (_names (tree s'))
                   = Some (path ++ [_ID nw])).
Proof.
  intros Hin Halone Hcache Hloc HtoMerge Hids E.
  eapply (@merge_branch_runs iter_set namedEntries index unNamedEntry currentNode
            matching w nw Hin Halone Hcache closestClusters toMerge s merged s').
  - exact HtoMerge.
  - intros k Hk; apply Hids, Hk.
  - apply Hids; exists nw; exact Hin.
  - exact Hloc.
  - exact E.
Qed.

Lemma merge_keeps_largest_witness :
  let run := merge_branch cpython36_iter_set ["A"; "B"; "B2"]%string
               (make_index ["A"; "B"; "B2"]%string) "C"%string
               [] [[1]; [2]] [[1]; [2]] before_merge in
  fst run = Ok [2]
  /\ (exists m, node_at (_tree (tree (snd run))) [2] = Some m
                /\ _ID m = _ID larger_child /\ _preferred m = _preferred larger_child)
  /\ (exists path, dict_get key_eqb "C"%string (_names (tree (snd run)))
                   = Some (path ++ [_ID larger_child])).
Proof.
  intros run.
  assert (H1 : In (2, larger_child) [(1, smaller_child); (2, larger_child)])
    by (right; left; reflexivity).
  assert (H2 : forall k n, In (k, n) [(1, smaller_child); (2, larger_child)] ->
                 k = 2 \/ member_total n < member_total larger_child).
  { intros k n [E|[E|[]]]; injection E as <- <-;
      [right; vm_compute; reflexivity|left; reflexivity]. }
  assert (H3 : forall k n, In (k, n) [(1, smaller_child); (2, larger_child)] ->
                 NodeOps.named_size n = member_total n).
  { intros k n [E|[E|[]]]; injection E as <- <-; vm_compute; reflexivity. }
  assert (H4 : forall k n, In (k, n) [(1, smaller_child); (2, larger_child)] ->
                 node_at (_tree (tree before_merge)) ([] ++ [k]) = Some n).
  { intros k n [E|[E|[]]]; injection E as <- <-; vm_compute; reflexivity. }
  assert (H5 : all_ok last_item (cpython36_iter_set [[1]; [2]]) = Ok [2; 1])
    by (vm_compute; reflexivity).
  assert (H6 : forall k, In k [2; 1] <->
                 exists n, In (k, n) [(1, smaller_child); (2, larger_child)]).
  { intros k; split.
    - intros [<-|[<-|[]]]; eexists; [right; left; reflexivity|left; reflexivity].
    - intros (n & [E|[E|[]]]); injection E as <- _; [right; left|left]; reflexivity. }
  assert (H7 : merge_branch cpython36_iter_set ["A"; "B"; "B2"]%string
                 (make_index ["A"; "B"; "B2"]%string) "C"%string [] [[1]; [2]]
                 (map (fun kn : Z * Node => [] ++ [fst kn])
                      [(1, smaller_child); (2, larger_child)]) before_merge
               = (Ok [2], snd run))
    by (vm_compute; reflexivity).
  destruct (@merge_keeps_largest cpython36_iter_set ["A"; "B"; "B2"]%string
              (make_index ["A"; "B"; "B2"]%string) "C"%string []
              [(1, smaller_child); (2, larger_child)] 2 larger_child [[1]; [2]] [2; 1]
              before_merge (snd run) [2] H1 H2 H3 H4 H5 H6 H7) as (_ & G2 & G3).
  split; [vm_compute; reflexivity|split; [exact G2|exact G3]].
Defined.

(** C3 as stated fails on a tie. After [A] and [B] the head node has the
    children 1 and 2 with one member each. [C] matches both. The set of
    their partial names is iterated in hash order, (2,) before (1,), so
    [MergeNodes] keeps the child with id 2, not the smallest id, and 2 is
    appended to the path of [C]; the founder is taken from child 1. *)
Lemma merge_tie_not_smallest_id :
  let before := snd (CalculatorOps.name_profiles cpython36_iter_set
                       [("A"%string, [1;1;1;1]); ("B"%string, [2;2;2;1])] calc_one_level) in
  let run := CalculatorOps.name_profile cpython36_iter_set "C"%string [1;1;2;1] before in
  map (fun kn => (fst kn, member_total (snd kn), _preferred (snd kn)))
      (_children (_tree (tree (state before))))
  = [(1, 1, Some "A"%string); (2, 1, Some "B"%string)]
  /\ cpython36_iter_set [[1]; [2]] = [[2]; [1]]
  /\ fst run = Ok tt
  /\ dict_get key_eqb "C"%string (_names (tree (state (snd run)))) = Some [2]
  /\ map (fun kn => (fst kn, _ID (snd kn), _preferred (snd kn), members_of (snd kn)))
         (_children (_tree (tree (state (snd run)))))
     = [(2, 2, Some "A"%string, ["C"; "A"; "B"]%string)].
Proof. vm_compute; repeat split; reflexivity. Qed.

(** Were the set iterated in insertion order, the same tie would keep
    child 1: the outcome of a tie is that of the set order. *)
Example merge_tie_insertion_order :
  let before := snd (CalculatorOps.name_profiles (fun items => items)
                       [("A"%string, [1;1;1;1]); ("B"%string, [2;2;2;1])] calc_one_level) in
  let run := CalculatorOps.name_profile (fun items => items) "C"%string [1;1;2;1] before in
  fst run = Ok tt
  /\ dict_get key_eqb "C"%string (_names (tree (state (snd run)))) = Some [1].
Proof. vm_compute; split; reflexivity. Qed.

(** * Further properties *)

(** ** The distance function on profiles of different lengths *)

Lemma comprehension_ext {S A B} (e e' : A -> Py S B) xs :
  (forall x, In x xs -> forall s, e x s = e' x s) ->
  forall s, comprehension e xs s = comprehension e' xs s.
Proof.
  induction xs as [|x xs IH]; intros H s; [reflexivity|].
  simpl; unfold bind. rewrite (H x (or_introl eq_refl)).
  destruct (e' x s) as [[b|ex] s1]; [|reflexivity].
  rewrite IH by (intros; apply H; right; assumption). reflexivity.
Qed.

Lemma comprehension_if_ext {S A B} (e e' : A -> Py S B) (c c' : A -> Py S bool) xs :
  (forall x, In x xs -> forall s, c x s = c' x s) ->
  (forall x, In x xs ->
     (forall s, e x s = e' x s) \/ (forall s, exists s', c x s = (Ok false, s'))) ->
  forall s, comprehension_if e c xs s = comprehension_if e' c' xs s.
Proof.
  induction xs as [|x xs IH]; intros Hc He s; [reflexivity|].
  assert (IH' : forall s, comprehension_if e c xs s = comprehension_if e' c' xs s).
  { apply IH; intros; [apply Hc|apply He]; right; assumption. }
  simpl; unfold bind. rewrite <- (Hc x (or_introl eq_refl)).
  destruct (He x (or_introl eq_refl)) as [E|F].
  - destruct (c x s) as [[[|]|ex] s1]; [|apply IH'|reflexivity].
    rewrite E. destruct (e' x s1) as [[b|ex] s2]; [|reflexivity].
    rewrite IH'; reflexivity.
  - destruct (F s) as (s' & ->). apply IH'.
Qed.

Lemma range_lt i n : In i (range n) -> (i < n)%nat.
Proof. unfold range; intros H; apply in_seq in H; lia. Qed.

Lemma getitem_value o p i w a w' : getitem o p i w = (Ok a, w') -> nth_error p i = Some a.
Proof.
  unfold getitem; destruct (nth_error p i); [|discriminate].
  intros E; injection E as <- _; reflexivity.
Qed.

Lemma getitem_P1_at p1 i w : (i < List.length p1)%nat ->
  getitem P1 p1 i w = (Ok (at_ p1 i), mkWorld (cntDistancesCalculated w) (reads w ++ [(P1, i)])).
Proof.
  intros Hi; unfold getitem, at_.
  destruct (nth_error p1 i) as [a|] eqn:E.
  - rewrite (nth_error_nth _ _ 0 E); reflexivity.
  - apply nth_error_None in E; lia.
Qed.

Lemma getitem_agree p2 p2' i : nth_error p2 i = nth_error p2' i ->
  forall w, getitem P2 p2 i w = getitem P2 p2' i w.
Proof. intros E w; unfold getitem; rewrite E; reflexivity. Qed.

Section Agree.
Variables p1 p2 p2' : list Z.
Hypothesis agree : agree_where_called p1 p2 p2'.

Lemma both_called_agree i : (i < List.length p1)%nat ->
  forall w, both_called p1 p2 i w = both_called p1 p2' i w.
Proof.
  intros Hi w; unfold both_called, bind. rewrite (getitem_P1_at _ w Hi).
  destruct (0 <? at_ p1 i) eqn:E; [|reflexivity].
  rewrite (getitem_agree p2 p2' i); [reflexivity|].
  apply agree; [exact Hi|]. apply Z.ltb_lt in E; lia.
Qed.

Lemma both_truthy_agree i : (i < List.length p1)%nat ->
  forall w, both_truthy p1 p2 i w = both_truthy p1 p2' i w.
Proof.
  intros Hi w; unfold both_truthy, bind. rewrite (getitem_P1_at _ w Hi).
  destruct (at_ p1 i =? 0) eqn:E; [reflexivity|].
  rewrite (getitem_agree p2 p2' i); [reflexivity|].
  apply agree; [exact Hi|]. apply Z.eqb_neq in E; exact E.
Qed.

Lemma differ_agree i : (i < List.length p1)%nat ->
  (forall w, differ p1 p2 i w = differ p1 p2' i w)
  \/ (forall w, exists w', both_truthy p1 p2 i w = (Ok false, w')).
Proof.
  intros Hi. destruct (at_ p1 i =? 0) eqn:E.
  - right; intros w. unfold both_truthy, bind. rewrite (getitem_P1_at _ w Hi), E.
    eexists; reflexivity.
  - left; intros w. unfold differ, bind. rewrite (getitem_P1_at _ w Hi).
    rewrite (getitem_agree p2 p2' i); [reflexivity|].
    apply agree; [exact Hi|]. apply Z.eqb_neq in E; exact E.
Qed.

Lemma GetDistance_agree w : GetDistance p1 p2 w = GetDistance p1 p2' w.
Proof.
  unfold GetDistance. unfold bind at 1. unfold bind at 3. unfold modify.
  unfold bind at 1. unfold bind at 2.
  rewrite (comprehension_ext (both_called p1 p2) (both_called p1 p2'))
    by (intros i Hi; apply both_called_agree, range_lt, Hi).
  destruct (comprehension _ _ _) as [[cs|e] w1]; [|reflexivity].
  unfold bind.
  rewrite (comprehension_if_ext (differ p1 p2) (differ p1 p2')
             (both_truthy p1 p2) (both_truthy p1 p2'));
    [reflexivity| |].
  - intros i Hi; apply both_truthy_agree, range_lt, Hi.
  - intros i Hi; apply differ_agree, range_lt, Hi.
Qed.

End Agree.

Lemma nth_error_firstn_lt {A} (l : list A) n i : (i < n)%nat ->
  nth_error (firstn n l) i = nth_error l i.
Proof.
  revert n i; induction l as [|x l IH]; intros [|n] [|i] H; simpl; try reflexivity; try lia.
  apply IH; lia.
Qed.

(** X1. [GetDistance] takes its index range from the first profile: what
    the second profile holds past the length of the first has no effect,
    neither on the result nor on the reads and the counter. *)
Theorem GetDistance_reads_first_length (p1 p2 : list Z) (w : World) :
  GetDistance p1 p2 w = GetDistance p1 (firstn (List.length p1) p2) w.
Proof.
  apply GetDistance_agree. intros i Hi _. symmetry; apply nth_error_firstn_lt, Hi.
Qed.

Lemma only_ret {A} (a : A) : only_IndexError (ret a).
Proof. intros w e w' H; discriminate. Qed.

Lemma only_bind {A B} (m : Py World A) (k : A -> Py World B) :
  only_IndexError m -> (forall a, only_IndexError (k a)) -> only_IndexError (bind m k).
Proof.
  intros Hm Hk w e w'; unfold bind.
  destruct (m w) as [[a|e1] w1] eqn:E.
  - apply Hk.
  - intros H; injection H as <- _. eapply Hm, E.
Qed.

Lemma only_getitem o p i : only_IndexError (getitem o p i).
Proof.
  intros w e w'; unfold getitem. destruct (nth_error p i); [discriminate|].
  intros H; injection H as <- _; reflexivity.
Qed.

Lemma only_comprehension {A B} (e : A -> Py World B) xs :
  (forall x, only_IndexError (e x)) -> only_IndexError (comprehension e xs).
Proof.
  intros H; induction xs as [|x xs IH]; simpl; [apply only_ret|].
  apply only_bind; [apply H|intros b].
  apply only_bind; [exact IH|intros bs; apply only_ret].
Qed.

Lemma only_comprehension_if {A B} (e : A -> Py World B) c xs :
  (forall x, only_IndexError (e x)) -> (forall x, only_IndexError (c x)) ->
  only_IndexError (comprehension_if e c xs).
Proof.
  intros He Hc; induction xs as [|x xs IH]; simpl; [apply only_ret|].
  apply only_bind; [apply Hc|intros [|]]; [|exact IH].
  apply only_bind; [apply He|intros b].
  apply only_bind; [exact IH|intros bs; apply only_ret].
Qed.

Lemma only_GetDistance p1 p2 : only_IndexError (GetDistance p1 p2).
Proof.
  unfold GetDistance.
  apply only_bind; [intros w e w' H; discriminate|intros _].
  apply only_bind.
  { apply only_comprehension; intros i; unfold both_called.
    apply only_bind; [apply only_getitem|intros a].
    destruct (0 <? a); [|apply only_ret].
    apply only_bind; [apply only_getitem|intros b; apply only_ret]. }
  intros cs. apply only_bind.
  { apply only_comprehension_if; intros i.
    - unfold differ. apply only_bind; [apply only_getitem|intros a].
      apply only_bind; [apply only_getitem|intros b; apply only_ret].
    - unfold both_truthy. apply only_bind; [apply only_getitem|intros a].
      destruct (a =? 0); [apply only_ret|].
      apply only_bind; [apply only_getitem|intros b; apply only_ret]. }
  intros ds. destruct (negb _); apply only_ret.
Qed.

Lemma comprehension_if_each {S A B} (e : A -> Py S B) c xs s r s' :
  comprehension_if e c xs s = (Ok r, s') ->
  forall x, In x xs -> exists s1 b s2, c x s1 = (Ok b, s2).
Proof.
  revert s r s'; induction xs as [|x xs IH]; intros s r s' H y Hy; [destruct Hy|].
  simpl in H. apply bind_inv in H. destruct H as (t & s1 & E1 & E2).
  destruct Hy as [<-|Hy]; [exists s, t, s1; exact E1|].
  destruct t.
  - apply bind_inv in E2. destruct E2 as (b & s2 & _ & E3).
    apply bind_inv in E3. destruct E3 as (bs & s3 & E4 & _).
    eapply IH; eassumption.
  - eapply IH; eassumption.
Qed.

Lemma both_truthy_needs_second p1 p2 i w b w' :
  (i < List.length p1)%nat -> at_ p1 i <> 0 ->
  both_truthy p1 p2 i w = (Ok b, w') -> (i < List.length p2)%nat.
Proof.
  intros Hi Ha; unfold both_truthy, bind. rewrite (getitem_P1_at _ w Hi).
  apply Z.eqb_neq in Ha; rewrite Ha.
  destruct (getitem P2 p2 i _) as [[v|e] w1] eqn:G; [|discriminate].
  intros _. apply getitem_value in G. apply nth_error_Some; congruence.
Qed.

Lemma GetDistance_Ok_called_within p1 p2 w d w' :
  GetDistance p1 p2 w = (Ok d, w') -> forall i, ~ called_past_end p1 p2 i.
Proof.
  intros H i [[H1 H2] Ha].
  unfold GetDistance in H.
  apply bind_inv in H; destruct H as (u & w1 & _ & H).
  apply bind_inv in H; destruct H as (cs & w2 & _ & H).
  apply bind_inv in H; destruct H as (ds & w3 & H & _).
  destruct (comprehension_if_each _ _ _ _ H i) as (s1 & b & s2 & E).
  { unfold range; apply in_seq; lia. }
  apply both_truthy_needs_second in E; [lia|exact H2|exact Ha].
Qed.

Lemma nth_error_app_left {A} (l l' : list A) i :
  (i < List.length l)%nat -> nth_error (l ++ l') i = nth_error l i.
Proof. intros H; apply nth_error_app1, H. Qed.

Lemma blank_past_end_runs p1 p2 w :
  (forall i, ~ called_past_end p1 p2 i) ->
  exists d w', GetDistance p1 p2 w = (Ok d, w').
Proof.
  intros H.
  destruct (Nat.le_gt_cases (List.length p1) (List.length p2)) as [L|L].
  - rewrite GetDistance_reads_first_length.
    destruct (@GetDistance_runs p1 (firstn (List.length p1) p2)) with (w := w)
      as (w' & rs & E & _).
    { rewrite length_firstn; lia. }
    eauto.
  - rewrite (@GetDistance_agree p1 p2 (p2 ++ repeat 0 (List.length p1 - List.length p2))).
    + destruct (@GetDistance_runs p1 (p2 ++ repeat 0 (List.length p1 - List.length p2)))
        with (w := w) as (w' & rs & E & _).
      { rewrite length_app, repeat_length; lia. }
      eauto.
    + intros i Hi Ha.
      destruct (Nat.lt_ge_cases i (List.length p2)) as [Li|Li].
      * symmetry; apply nth_error_app1, Li.
      * exfalso; apply (H i); split; [lia|exact Ha].
Qed.

Lemma called_past_end_dec p1 p2 :
  (exists i, called_past_end p1 p2 i) \/ (forall i, ~ called_past_end p1 p2 i).
Proof.
  destruct (existsb (fun i => (List.length p2 <=? i)%nat && negb (at_ p1 i =? 0))
                    (range (List.length p1))) eqn:E.
  - left. apply existsb_exists in E; destruct E as (i & Hi & E).
    apply andb_true_iff in E; destruct E as [E1 E2].
    exists i; split; [split; [apply Nat.leb_le, E1|apply range_lt, Hi]|].
    apply negb_true_iff, Z.eqb_neq in E2; exact E2.
  - right; intros i [[H1 H2] Ha].
    assert (X : existsb (fun i => (List.length p2 <=? i)%nat && negb (at_ p1 i =? 0))
                        (range (List.length p1)) = true).
    { apply existsb_exists; exists i; split; [unfold range; apply in_seq; lia|].
      apply andb_true_iff; split; [apply Nat.leb_le, H1|].
      apply negb_true_iff, Z.eqb_neq, Ha. }
    congruence.
Qed.

(** X2. [GetDistance] raises exactly when the first profile has an entry
    that is not 0 at a place the second profile does not have, and then it
    raises [IndexError]; a first profile that is longer by zeros only is
    compared as it stands. *)
Theorem GetDistance_raises_iff (p1 p2 : list Z) (w : World) :
  (fst (GetDistance p1 p2 w) = Raise IndexError <-> exists i, called_past_end p1 p2 i)
  /\ (forall e, fst (GetDistance p1 p2 w) = Raise e -> e = IndexError).
Proof.
  assert (O : forall e, fst (GetDistance p1 p2 w) = Raise e -> e = IndexError).
  { intros e H. destruct (GetDistance p1 p2 w) as [r w'] eqn:E; simpl in H; subst r.
    eapply only_GetDistance, E. }
  split; [|exact O]. split.
  - intros H. destruct (called_past_end_dec p1 p2) as [X|X]; [exact X|].
    destruct (blank_past_end_runs w X) as (d & w' & E). rewrite E in H; discriminate.
  - intros (i & Hi).
    destruct (GetDistance p1 p2 w) as [[d|e] w'] eqn:E; simpl.
    + exfalso; eapply GetDistance_Ok_called_within; eassumption.
    + f_equal. apply O; reflexivity.
Qed.

(** ** The store: adding and reading *)

Lemma dict_in_set_same k (v : list Z) d : dict_in key_eqb k (dict_set key_eqb k v d) = true.
Proof. unfold dict_in; rewrite (dict_get_set_same key_eqb_spec); reflexivity. Qed.

(** X3. [Add] never overwrites: for a key the store has, in either tier,
    it raises [AssertionError] and leaves the store as it was. *)
Theorem Add_refuses_known_key (key : Key) (calls : list Z) (s : Store) :
  fst (AlleleCalls.HasKey key s) = Ok true ->
  AlleleCalls.Add key calls s = (Raise AssertionError, s).
Proof.
  unfold AlleleCalls.HasKey, AlleleCalls.Add.
  destruct (dict_in key_eqb key (_alleleCalls s)) eqn:H; [reflexivity|].
  destruct (val_contains (_index s) key) as [[|]|e]; simpl; try discriminate.
  reflexivity.
Qed.

Lemma Add_refuses_known_key_witness :
  AlleleCalls.Add "K1"%string [1; 2]
    (mkStore [("K1"%string, [3; 4])] (VDict []) [] EmptyString [])
  = (Raise AssertionError, mkStore [("K1"%string, [3; 4])] (VDict []) [] EmptyString []).
Proof. apply Add_refuses_known_key; reflexivity. Defined.

Ltac store_proj :=
  repeat match goal with
  | |- context [_matrices (mkStore ?a ?b ?c ?d ?e)] =>
      change (_matrices (mkStore a b c d e)) with c
  | |- context [_alleleCalls (mkStore ?a ?b ?c ?d ?e)] =>
      change (_alleleCalls (mkStore a b c d e)) with a
  | |- context [_index (mkStore ?a ?b ?c ?d ?e)] =>
      change (_index (mkStore a b c d e)) with b
  | |- context [_path (mkStore ?a ?b ?c ?d ?e)] =>
      change (_path (mkStore a b c d e)) with d
  | |- context [disk (mkStore ?a ?b ?c ?d ?e)] =>
      change (disk (mkStore a b c d e)) with e
  end.

Lemma GetCalls_other_hot k idx ms p d hot1 hot2 :
  dict_get key_eqb k hot1 = dict_get key_eqb k hot2 ->
  fst (AlleleCalls.GetCalls k (mkStore hot1 idx ms p d))
  = fst (AlleleCalls.GetCalls k (mkStore hot2 idx ms p d)).
Proof.
  intros H.
  unfold AlleleCalls.GetCalls, bind, lift, get, ret, raise, AlleleCalls._LoadMatrix.
  store_proj.
  destruct (val_get idx k) as [[iv|]|e]; [|simpl; f_equal; exact H|reflexivity].
  destruct (truthy iv); [|simpl; f_equal; exact H].
  destruct (AlleleCalls.idx_item iv 0) as [i0|e]; [|reflexivity].
  destruct (match i0 with VInt z => if z <? 0 then Raise NotModelled else Ok (Z.to_nat z)
            | _ => Raise TypeError end) as [shard|e]; [|reflexivity].
  destruct (nth_error ms shard) as [[m|]|] eqn:E.
  - cbv beta iota; store_proj; rewrite E.
    destruct (AlleleCalls.idx_item iv 1) as [i1|e]; [|reflexivity].
    cbv beta iota; store_proj; rewrite E.
    destruct (AlleleCalls.matrix_item m i1) as [v|e]; [|reflexivity].
    destruct (AlleleCalls.as_profile v); reflexivity.
  - cbv beta iota; store_proj; rewrite E; cbv beta iota; store_proj.
    destruct (read_json _ d) as [v|e]; [|reflexivity].
    destruct (AlleleCalls.idx_item iv 1) as [i1|e]; [|reflexivity].
    cbv beta iota; store_proj.
    destruct (nth_error (firstn _ _ ++ _) shard) as [[m|]|]; [|reflexivity|reflexivity].
    destruct (AlleleCalls.matrix_item m i1) as [v'|e]; [|reflexivity].
    destruct (AlleleCalls.as_profile v'); reflexivity.
  - cbv beta iota; store_proj; rewrite E; cbv beta iota; store_proj.
    destruct (read_json _ d) as [v|e]; [|reflexivity].
    destruct (AlleleCalls.idx_item iv 1) as [i1|e]; [|reflexivity].
    cbv beta iota; store_proj.
    destruct (nth_error (firstn _ _ ++ _) shard) as [[m|]|]; [|reflexivity|reflexivity].
    destruct (AlleleCalls.matrix_item m i1) as [v'|e]; [|reflexivity].
    destruct (AlleleCalls.as_profile v'); reflexivity.
Qed.

(** X4. A key the store does not have is added to the hot tier: [Add]
    returns, [GetCalls] then gives back the profile that was added,
    [HasKey] is true, one profile more is counted, and what [GetCalls]
    returns for any other key is what it returned before. *)
Theorem Add_then_GetCalls (key : Key) (calls : list Z) (s : Store) :
  fst (AlleleCalls.HasKey key s) = Ok false ->
  exists s',
    AlleleCalls.Add key calls s = (Ok tt, s')
    /\ AlleleCalls.GetCalls key s' = (Ok (Some calls), s')
    /\ AlleleCalls.HasKey key s' = (Ok true, s')
    /\ (forall n, fst (AlleleCalls.len s) = Ok n -> fst (AlleleCalls.len s') = Ok (S n))
    /\ (forall k, k <> key ->
          fst (AlleleCalls.GetCalls k s') = fst (AlleleCalls.GetCalls k s)).
Proof.
  unfold AlleleCalls.HasKey, AlleleCalls.Add.
  destruct (val_contains (_index s) key) as [[|]|e] eqn:C; simpl; try discriminate.
  destruct (dict_in key_eqb key (_alleleCalls s)) eqn:H; [discriminate|intros _].
  eexists; split; [reflexivity|].
  destruct (_index s) as [| | | | | | |idx] eqn:I; simpl in C; try discriminate.
  injection C as C.
  assert (G : dict_get String.eqb key idx = None).
  { unfold dict_in in C; destruct (dict_get String.eqb key idx); [discriminate|reflexivity]. }
  split; [|split; [|split]].
  - unfold AlleleCalls.GetCalls, bind; simpl. rewrite G. store_proj.
    rewrite (dict_get_set_same key_eqb_spec); reflexivity.
  - simpl. rewrite C, dict_in_set_same; reflexivity.
  - unfold AlleleCalls.len; simpl. intros n E.
    rewrite I in E; simpl in E; injection E as <-.
    f_equal.
    assert (L : forall d : dict Key (list Z), dict_get key_eqb key d = None ->
                List.length (dict_set key_eqb key calls d) = S (List.length d)).
    { induction d as [|[k' v'] d IH]; simpl; [reflexivity|].
      destruct (key_eqb key k'); [discriminate|]. intros N; simpl; rewrite IH by exact N.
      reflexivity. }
    rewrite L; [lia|].
    unfold dict_in in H; destruct (dict_get key_eqb key (_alleleCalls s));
      [discriminate|reflexivity].
  - intros k N. rewrite <- I.
    apply (@GetCalls_other_hot k (_index s) (_matrices s) (_path s) (disk s)
             (dict_set key_eqb key calls (_alleleCalls s)) (_alleleCalls s)).
    apply (dict_get_set_other key_eqb_spec); exact N.
Qed.

Lemma Add_then_GetCalls_witness :
  exists s',
    AlleleCalls.Add "K2"%string [1; 2]
      (mkStore [("K1"%string, [3; 4])] (VDict []) [] EmptyString []) = (Ok tt, s')
    /\ AlleleCalls.GetCalls "K2"%string s' = (Ok (Some [1; 2]), s')
    /\ AlleleCalls.HasKey "K2"%string s' = (Ok true, s')
    /\ (forall n, fst (AlleleCalls.len
                         (mkStore [("K1"%string, [3; 4])] (VDict []) [] EmptyString []))
                  = Ok n -> fst (AlleleCalls.len s') = Ok (S n))
    /\ (forall k, k <> "K2"%string ->
          fst (AlleleCalls.GetCalls k s')
          = fst (AlleleCalls.GetCalls k
                   (mkStore [("K1"%string, [3; 4])] (VDict []) [] EmptyString []))).
Proof. apply Add_then_GetCalls; reflexivity. Defined.

(** ** The store: promotion to the cold tier *)

Lemma distinct_keys_NoDup ks : distinct_keys ks = true -> NoDup ks.
Proof.
  induction ks as [|k ks IH]; simpl; intros H; constructor.
  - apply andb_true_iff in H; destruct H as [H _].
    intros X. apply key_in_In in X. rewrite X in H; discriminate.
  - apply IH. apply andb_true_iff in H; tauto.
Qed.

Lemma GetCalls_cold_entry s k :
  cold_entry s k -> AlleleCalls.GetCalls k s = (Raise KeyError, s).
Proof.
  intros (idx & m & i & items & I & G & M).
  unfold AlleleCalls.GetCalls, bind, lift, get, ret, raise.
  rewrite I; simpl. rewrite G; simpl.
  rewrite Nat2Z.id.
  destruct (Z.of_nat m <? 0) eqn:N; [apply Z.ltb_lt in N; lia|].
  rewrite M; cbv beta iota; rewrite M. reflexivity.
Qed.

Lemma filter_all {A} (f : A -> bool) l : (forall x, In x l -> f x = true) -> filter f l = l.
Proof.
  induction l as [|x l IH]; intros H; simpl; [reflexivity|].
  rewrite (H x (or_introl eq_refl)), IH; [reflexivity|].
  intros; apply H; right; assumption.
Qed.

Lemma filter_both {A} (f g : A -> bool) l :
  filter f (filter g l) = filter (fun x => g x && f x) l.
Proof.
  induction l as [|x l IH]; simpl; [reflexivity|].
  destruct (g x); simpl; [destruct (f x)|]; rewrite IH; reflexivity.
Qed.

Lemma filter_shorter {A} (f : A -> bool) l x :
  In x l -> f x = false -> (List.length (filter f l) < List.length l)%nat.
Proof.
  induction l as [|y l IH]; intros H F; [destruct H|].
  destruct H as [<-|H]; simpl.
  - rewrite F. pose proof (filter_length_le f l). lia.
  - destruct (f y); simpl; [apply IH in H; [lia|exact F]|].
    pose proof (filter_length_le f l). lia.
Qed.

Lemma dict_get_without k ks (hot : dict Key (list Z)) :
  ~ In k ks -> dict_get key_eqb k (without_keys ks hot) = dict_get key_eqb k hot.
Proof.
  intros N; unfold without_keys.
  induction hot as [|[k' v] hot IH]; simpl; [reflexivity|].
  destruct (key_in k' ks) eqn:E; simpl.
  - destruct (key_eqb k k') eqn:E'; [|exact IH].
    apply key_eqb_spec in E'; subst k'. apply key_in_In in E; contradiction.
  - destruct (key_eqb k k'); [reflexivity|exact IH].
Qed.

Lemma dict_get_without_in k ks (hot : dict Key (list Z)) :
  In k ks -> dict_get key_eqb k (without_keys ks hot) = None.
Proof.
  intros H; unfold without_keys.
  induction hot as [|[k' v] hot IH]; simpl; [reflexivity|].
  destruct (key_in k' ks) eqn:E; simpl; [exact IH|].
  destruct (key_eqb k k') eqn:E'; [|exact IH].
  apply key_eqb_spec in E'; subst k'. apply key_in_In in H; congruence.
Qed.

Lemma without_keys_NoDup ks (hot : dict Key (list Z)) :
  NoDup (dict_keys hot) -> NoDup (dict_keys (without_keys ks hot)).
Proof.
  unfold without_keys, dict_keys.
  induction hot as [|[k v] hot IH]; simpl; intros H; [constructor|].
  inversion H as [|? ? N H']; subst.
  destruct (key_in k ks); simpl; [apply IH, H'|].
  constructor; [|apply IH, H'].
  intros X; apply N. apply in_map_iff in X; destruct X as ([k' v'] & E & X).
  apply filter_In in X; destruct X as [X _].
  apply in_map_iff; exists (k', v'); split; assumption.
Qed.

Lemma dict_in_keys k (hot : dict Key (list Z)) :
  dict_in key_eqb k hot = true <-> In k (dict_keys hot).
Proof.
  unfold dict_in.
  destruct (dict_get key_eqb k hot) as [v|] eqn:E.
  - split; [intros _; eapply (dict_get_keys key_eqb_spec), E|reflexivity].
  - split; [discriminate|]. intros H.
    apply (dict_get_None_keys key_eqb_spec) in E; contradiction.
Qed.

Lemma promote_key_spec shard i key matrix s idx profile :
  _index s = VDict idx -> dict_get key_eqb key (_alleleCalls s) = Some profile ->
  AlleleCalls.promote_key shard (i, key) (matrix, s)
  = Ok (dict_set key_eqb key profile matrix,
        mkStore (without_keys [key] (_alleleCalls s))
                (VDict (dict_set String.eqb key
                          (VTuple [VInt (Z.of_nat shard); VInt (Z.of_nat i)]) idx))
                (_matrices s) (_path s) (disk s)).
Proof.
  intros I G; unfold AlleleCalls.promote_key. rewrite G, I; simpl.
  unfold dict_del, dict_in; rewrite G. unfold without_keys.
  do 3 f_equal. apply filter_ext; intros [k v]; simpl.
  rewrite orb_false_r. unfold key_eqb; rewrite String.eqb_sym; reflexivity.
Qed.

Lemma without_keys_cons k0 ks (hot : dict Key (list Z)) :
  without_keys ks (without_keys [k0] hot) = without_keys (k0 :: ks) hot.
Proof.
  unfold without_keys; rewrite filter_both. apply filter_ext; intros [k v]; simpl.
  rewrite orb_false_r.
  destruct (key_eqb k k0); simpl; reflexivity.
Qed.

Lemma promote_keys_spec shard iks : forall matrix s idx,
  _index s = VDict idx ->
  NoDup (map snd iks) ->
  (forall k, In k (map snd iks) -> dict_in key_eqb k (_alleleCalls s) = true) ->
  exists matrix' idx',
    AlleleCalls.promote_keys shard iks (matrix, s)
    = Ok (matrix', mkStore (without_keys (map snd iks) (_alleleCalls s)) (VDict idx')
                           (_matrices s) (_path s) (disk s))
    /\ (forall k, In k (map snd iks) ->
          exists i, dict_get String.eqb k idx'
                    = Some (VTuple [VInt (Z.of_nat shard); VInt i]))
    /\ (forall k, ~ In k (map snd iks) ->
          dict_get String.eqb k idx' = dict_get String.eqb k idx).
Proof.
  induction iks as [|[i k0] iks IH]; intros matrix s idx I ND Hin.
  - exists matrix, idx; split; [|split].
    + simpl. unfold without_keys; rewrite filter_all by reflexivity.
      rewrite <- I; reflexivity.
    + intros k [].
    + reflexivity.
  - simpl in ND; inversion ND as [|? ? N0 ND']; subst.
    destruct (proj1 (dict_in_get key_eqb k0 (_alleleCalls s))
                (Hin k0 (or_introl eq_refl))) as (profile & G).
    cbn [AlleleCalls.promote_keys].
    rewrite (@promote_key_spec shard i k0 matrix s idx profile I G).
    edestruct (IH (dict_set key_eqb k0 profile matrix)
                 (mkStore (without_keys [k0] (_alleleCalls s))
                          (VDict (dict_set String.eqb k0
                                    (VTuple [VInt (Z.of_nat shard); VInt (Z.of_nat i)]) idx))
                          (_matrices s) (_path s) (disk s)))
      as (matrix' & idx' & E & T & U); [reflexivity|exact ND'| |].
    { intros k Hk. simpl. unfold dict_in.
      rewrite dict_get_without.
      - apply (Hin k); right; exact Hk.
      - intros [<-|[]]; contradiction. }
    exists matrix', idx'; split; [|split].
    + rewrite E. simpl. rewrite without_keys_cons. reflexivity.
    + intros k [E0|Hk]; [subst k; simpl snd|apply T, Hk].
      exists (Z.of_nat i). rewrite (U k0 N0).
      apply (dict_get_set_same String.eqb_eq).
    + intros k Hk. rewrite U by (intros X; apply Hk; right; exact X).
      apply (dict_get_set_other String.eqb_eq).
      intros ->; apply Hk; left; reflexivity.
Qed.

Lemma map_snd_enumerate {A} (l : list A) : map snd (AlleleCalls.enumerate l) = l.
Proof.
  unfold AlleleCalls.enumerate. generalize 0%nat.
  induction l as [|x l IH]; intros n; simpl; [reflexivity|]. rewrite IH; reflexivity.
Qed.

Lemma firstn_In {A} n (l : list A) x : In x (firstn n l) -> In x l.
Proof.
  revert n; induction l as [|y l IH]; intros [|n]; simpl; try tauto.
  intros [H|H]; [left; exact H|right; eapply IH, H].
Qed.

Lemma NoDup_firstn {A} n (l : list A) : NoDup l -> NoDup (firstn n l).
Proof.
  revert n; induction l as [|x l IH]; intros [|n] H; simpl; try constructor.
  - inversion H; subst. intros X; apply firstn_In in X; contradiction.
  - inversion H; subst; apply IH; assumption.
Qed.

(** One turn of the loop: the keys of the block are promoted, the others
    are untouched, and the hot tier is shorter. *)
Lemma promote_block_spec s idx :
  _index s = VDict idx -> NoDup (dict_keys (_alleleCalls s)) ->
  exists s',
    AlleleCalls.promote_block s = Ok s'
    /\ (exists idx', _index s' = VDict idx')
    /\ NoDup (dict_keys (_alleleCalls s'))
    /\ (_alleleCalls s <> [] ->
        (List.length (_alleleCalls s') < List.length (_alleleCalls s))%nat)
    /\ (forall k, In k (firstn BLOCKSIZE (dict_keys (_alleleCalls s))) -> promoted s s' k)
    /\ (forall k, ~ In k (firstn BLOCKSIZE (dict_keys (_alleleCalls s))) -> untouched s s' k)
    /\ (exists x, _matrices s' = _matrices s ++ [x])
    /\ _path s' = _path s.
Proof.
  intros I ND.
  destruct (@promote_keys_spec (List.length (_matrices s))
              (AlleleCalls.enumerate (firstn BLOCKSIZE (dict_keys (_alleleCalls s))))
              [] s idx I) as (matrix' & idx' & E & T & U).
  { rewrite map_snd_enumerate. apply NoDup_firstn, ND. }
  { rewrite map_snd_enumerate. intros k Hk. apply dict_in_keys.
    eapply firstn_In, Hk. }
  rewrite map_snd_enumerate in E, T, U.
  unfold dict in E.
  eexists; split; [unfold AlleleCalls.promote_block; cbv zeta; rewrite E; reflexivity|].
  store_proj.
  split; [exists idx'; reflexivity|].
  split; [apply without_keys_NoDup, ND|].
  split; [|split; [|split; [|split]]].
  - intros NE. destruct (_alleleCalls s) as [|[k0 v0] hot] eqn:H; [contradiction|].
    unfold without_keys.
    apply filter_shorter with (x := (k0, v0)); [left; reflexivity|].
    cbn [fst]. apply negb_false_iff, key_in_In.
    change (In k0 (k0 :: firstn 999 (dict_keys hot))).
    left; reflexivity.
  - intros k Hk. split; [|split].
    + apply dict_in_keys. eapply firstn_In, Hk.
    + store_proj. unfold dict_in. rewrite dict_get_without_in by exact Hk. reflexivity.
    + destruct (T k Hk) as (i & G).
      exists idx', (List.length (_matrices s)), i.
      eexists. split; [reflexivity|]. split; [exact G|].
      simpl. rewrite nth_error_app2 by lia. rewrite Nat.sub_diag. reflexivity.
  - intros k Hk. split.
    + store_proj. unfold dict_in. rewrite dict_get_without by exact Hk. reflexivity.
    + exists idx, idx'. split; [exact I|]. split; [reflexivity|]. apply U, Hk.
  - eexists; reflexivity.
  - reflexivity.
Qed.

Lemma cold_entry_kept s s' k idx idx' x :
  cold_entry s k ->
  _index s = VDict idx -> _index s' = VDict idx' ->
  dict_get String.eqb k idx' = dict_get String.eqb k idx ->
  _matrices s' = _matrices s ++ x ->
  cold_entry s' k.
Proof.
  intros (idx0 & m & i & items & I0 & G & M) I I' E Ms.
  rewrite I in I0; injection I0 as <-.
  exists idx', m, i, items. split; [exact I'|]. split; [congruence|].
  rewrite Ms. rewrite nth_error_app1; [exact M|].
  apply nth_error_Some; congruence.
Qed.

Lemma converting_step s0 s s' idx :
  converting s0 s -> _index s = VDict idx ->
  AlleleCalls.promote_block s = Ok s' -> converting s0 s'.
Proof.
  intros (_ & ND & Hk) I E.
  destruct (promote_block_spec s I ND) as (s1 & E1 & I1 & ND1 & _ & P & U & (x & Ms) & _).
  rewrite E in E1; injection E1 as <-.
  split; [exact I1|]. split; [exact ND1|].
  intros k.
  destruct (in_dec string_dec k (firstn BLOCKSIZE (dict_keys (_alleleCalls s)))) as [B|B].
  - destruct (P k B) as (H1 & H2 & C).
    destruct (Hk k) as [[Hin _]|(_ & Hout & _)]; [|congruence].
    right. split; [congruence|]. split; [exact H2|exact C].
  - destruct (U k B) as [Hin (idxa & idxb & Ia & Ib & G)].
    destruct (Hk k) as [[Hin0 (idx0 & idxs & J0 & Js & G0)]|(H0 & Hout & C)].
    + left. split; [congruence|].
      exists idx0, idxb. split; [exact J0|]. split; [exact Ib|].
      rewrite Ia in Js; injection Js as <-. congruence.
    + right. split; [exact H0|]. split; [congruence|].
      eapply cold_entry_kept; eassumption.
Qed.

Lemma Convert_loop_spec turns : forall s0 s,
  converting s0 s ->
  (List.length (_alleleCalls s) <= BLOCKSIZE + turns)%nat ->
  exists s',
    AlleleCalls._Convert_loop turns s = Ok s'
    /\ converting s0 s'
    /\ (List.length (_alleleCalls s') <= BLOCKSIZE)%nat
    /\ _path s' = _path s.
Proof.
  induction turns as [|turns IH]; intros s0 s C L.
  - exists s; split; [reflexivity|]. split; [exact C|]. split; [lia|reflexivity].
  - simpl. destruct (BLOCKSIZE <? List.length (_alleleCalls s))%nat eqn:B.
    + destruct C as (I & ND & Hk). destruct I as (idx & I).
      destruct (promote_block_spec s I ND) as (s1 & E1 & I1 & ND1 & Sh & P & U & _ & Pa).
      rewrite E1.
      assert (C1 : converting s0 s1).
      { eapply converting_step; [|exact I|exact E1].
        split; [exists idx; exact I|]. split; assumption. }
      destruct (IH s0 s1 C1) as (s' & E' & C' & L' & P').
      { apply Nat.ltb_lt in B.
        assert (_alleleCalls s <> []) by (intros X; rewrite X in B; simpl in B; lia).
        specialize (Sh H). lia. }
      exists s'; split; [exact E'|]. split; [exact C'|]. split; [exact L'|].
      congruence.
    + exists s; split; [reflexivity|]. split; [exact C|].
      split; [apply Nat.ltb_ge in B; exact B|reflexivity].
Qed.

Lemma converting_start s idx :
  _index s = VDict idx -> NoDup (dict_keys (_alleleCalls s)) -> converting s s.
Proof.
  intros I ND. split; [exists idx; exact I|]. split; [exact ND|].
  intros k; left. split; [reflexivity|]. exists idx, idx; repeat split; assumption.
Qed.

(** [Save] on a store whose index is a dict: it returns, and the state it
    leaves has been reached by promotions only. *)
Lemma Save_spec path s idx :
  _index s = VDict idx -> NoDup (dict_keys (_alleleCalls s)) ->
  exists s',
    AlleleCalls.Save path s = (Ok tt, s')
    /\ (List.length (_alleleCalls s') <= BLOCKSIZE)%nat
    /\ forall k, untouched s s' k \/ promoted s s' k.
Proof.
  intros I ND.
  set (s1 := mkStore (_alleleCalls s) (_index s) (_matrices s) path (disk s)).
  assert (C1 : converting s1 s1) by (apply (@converting_start s1 idx); assumption).
  destruct (@Convert_loop_spec (List.length (_alleleCalls s1)) s1 s1 C1) as (s2 & E & C & L & P);
    [lia|].
  unfold AlleleCalls.Save, AlleleCalls.set_path, AlleleCalls._Convert, bind, modify.
  fold s1. rewrite E.
  eexists; split; [reflexivity|]. split; [exact L|].
  destruct C as (_ & _ & Hk). intros k.
  destruct (Hk k) as [[H1 H2]|(H1 & H2 & (idx2 & m & i & items & I2 & G & M))].
  - left. split; [exact H1|exact H2].
  - right. split; [exact H1|]. split; [exact H2|].
    exists idx2, m, i, items. split; [exact I2|]. split; [exact G|exact M].
Qed.

(** X5. [Save] on a store whose index is a dict always returns; it leaves
    at most [BLOCKSIZE] profiles in the hot tier, and [HasKey] answers for
    every key as it did before: no key is lost or gained by promotion. *)
Theorem Save_keeps_every_key (path : string) (s : Store) (idx : list (string * pyval)) :
  _index s = VDict idx -> NoDup (dict_keys (_alleleCalls s)) ->
  exists s',
    AlleleCalls.Save path s = (Ok tt, s')
    /\ (List.length (_alleleCalls s') <= BLOCKSIZE)%nat
    /\ forall k, fst (AlleleCalls.HasKey k s') = fst (AlleleCalls.HasKey k s).
Proof.
  intros I ND. destruct (Save_spec path s I ND) as (s' & E & L & Hk).
  exists s'; split; [exact E|]. split; [exact L|].
  intros k. unfold AlleleCalls.HasKey.
  destruct (Hk k) as [[H1 (idx0 & idx1 & I0 & I1 & G)]|(H1 & H2 & C)].
  - rewrite I0, I1; simpl. unfold dict_in at 1 3. rewrite G.
    destruct (dict_get String.eqb k idx0); simpl; [reflexivity|]. rewrite H1; reflexivity.
  - destruct C as (idx1 & m & i & items & I1 & G & _).
    rewrite I1, I; simpl. unfold dict_in at 1; rewrite G; simpl.
    destruct (dict_in String.eqb k idx); simpl; [reflexivity|]. rewrite H1; reflexivity.
Qed.

Lemma Save_keeps_every_key_witness :
  exists s',
    AlleleCalls.Save "current"%string
      (mkStore [("K1"%string, [1; 2])] (VDict []) [] EmptyString []) = (Ok tt, s')
    /\ (List.length (_alleleCalls s') <= BLOCKSIZE)%nat
    /\ forall k, fst (AlleleCalls.HasKey k s')
                 = fst (AlleleCalls.HasKey k
                          (mkStore [("K1"%string, [1; 2])] (VDict []) [] EmptyString [])).
Proof.
  apply (@Save_keeps_every_key "current"%string
           (mkStore [("K1"%string, [1; 2])] (VDict []) [] EmptyString []) []).
  - reflexivity.
  - apply distinct_keys_NoDup; reflexivity.
Defined.

(** X6. A profile that [Save] has moved out of the hot tier cannot be read
    back from the store object: the index holds a shard number and a
    position for it, the shard is a dict keyed by the keys, and [GetCalls]
    looks the position up in it and raises [KeyError]. *)
Theorem GetCalls_after_promotion_raises (path : string) (s s' : Store)
        (idx : list (string * pyval)) (k : Key) :
  _index s = VDict idx -> NoDup (dict_keys (_alleleCalls s)) ->
  AlleleCalls.Save path s = (Ok tt, s') ->
  dict_in key_eqb k (_alleleCalls s) = true ->
  dict_in key_eqb k (_alleleCalls s') = false ->
  AlleleCalls.GetCalls k s' = (Raise KeyError, s').
Proof.
  intros I ND E H1 H2. destruct (Save_spec path s I ND) as (s1 & E1 & _ & Hk).
  rewrite E in E1; injection E1 as <-.
  destruct (Hk k) as [[X _]|(_ & _ & C)]; [congruence|].
  apply GetCalls_cold_entry, C.
Qed.

Lemma GetCalls_after_promotion_raises_witness :
  AlleleCalls.GetCalls "k7"%string saved_1001 = (Raise KeyError, saved_1001).
Proof.
  apply (@GetCalls_after_promotion_raises "current"%string store_1001 saved_1001 []
           "k7"%string).
  - reflexivity.
  - apply distinct_keys_NoDup. vm_compute; reflexivity.
  - vm_compute; reflexivity.
  - vm_compute; reflexivity.
  - vm_compute; reflexivity.
Defined.

(** ** The run controller: the integrity check, named keys, the lock *)

(** X7. The integrity check of [DoCalc] compares the keys of the names map
    with the keys of the hot tier [_alleleCalls]: it returns exactly when
    the two lists hold the same keys, it raises nothing but
    [AssertionError], and it changes nothing but the error log. *)
Theorem check_integrity_compares_hot_tier (c : Calculator) :
  (fst (CalculatorOps.check_integrity c) = Ok tt <-> same_keys (names_of c) (hot_of c))
  /\ (forall e, fst (CalculatorOps.check_integrity c) = Raise e -> e = AssertionError)
  /\ state (snd (CalculatorOps.check_integrity c)) = state c.
Proof.
  destruct (check_integrity_hot_tier c) as [P F].
  destruct (keys_agree (names_of c) (hot_of c)) eqn:E.
  - apply keys_agree_same in E. rewrite (P E); simpl.
    split; [tauto|]. split; [discriminate|reflexivity].
  - assert (N : ~ same_keys (names_of c) (hot_of c)).
    { intros X; apply keys_agree_same in X; congruence. }
    rewrite (F N); simpl.
    split; [split; [discriminate|contradiction]|].
    split; [intros e [= <-]; reflexivity|reflexivity].
Qed.

Section Controller.

Variable iter_set : list (list Z) -> list (list Z).
Variable load_state : Py Calculator unit.
Variable LoadProfilesFromFile : Py Calculator (dict Key (list Z)).
Variable save_and_report : Py Calculator unit.
Variable lockfile_path : string.
Variable Setup : Py Calculator unit.

(** The loop body for a key that has a name, branch by branch. *)
Lemma name_profile_named (key : Key) (calls : list Z) (c : Calculator) :
  dict_in key_eqb key (_names (tree (state c))) = true ->
  CalculatorOps.name_profile iter_set key calls c
  = match val_contains (_index (alleles (state c))) key with
    | Raise e => (Raise e, c)
    | Ok true => (Ok tt, c)
    | Ok false =>
        if dict_in key_eqb key (_alleleCalls (alleles (state c))) then (Ok tt, c)
        else match CheckCore (_minPres c) calls with
             | Raise e => (Raise e, c)
             | Ok (Some (_ :: _)) => in_state (in_store (AlleleCalls.Add key calls)) c
             | Ok _ => (Ok tt, c)
             end
    end.
Proof.
  intros H. unfold CalculatorOps.name_profile.
  unfold bind at 1. unfold in_state at 1, in_tree at 1, TreeOps.HasName.
  simpl. rewrite H.
  unfold bind at 1. unfold in_state at 1, in_store at 1, AlleleCalls.HasKey.
  simpl.
  destruct (val_contains (_index (alleles (state c))) key) as [[|]|e];
    [reflexivity| |reflexivity].
  destruct (dict_in key_eqb key (_alleleCalls (alleles (state c)))); [reflexivity|].
  unfold bind, get, lift. simpl.
  destruct (CheckCore (_minPres c) calls) as [[p|]|e]; try reflexivity.
  destruct p; reflexivity.
Qed.

(** X8. In the naming loop a profile whose key has a name is never placed
    again: whatever its calls, and whether or not the store has the key,
    the tree and the names map stay as they are, and the key is counted
    neither as new nor as rejected. Only the store can change, by the
    profile being added back to it. *)
Theorem name_profile_keeps_named (key : Key) (calls : list Z) (c : Calculator) :
  dict_in key_eqb key (_names (tree (state c))) = true ->
  same_names_and_tallies c (snd (CalculatorOps.name_profile iter_set key calls c)).
Proof.
  intros H. rewrite (name_profile_named key calls c H).
  unfold same_names_and_tallies.
  destruct (val_contains (_index (alleles (state c))) key) as [[|]|e];
    [repeat split| |repeat split].
  destruct (dict_in key_eqb key (_alleleCalls (alleles (state c)))); [repeat split|].
  destruct (CheckCore (_minPres c) calls) as [[p|]|e]; [|repeat split|repeat split].
  destruct p as [|a l]; [repeat split|].
  unfold in_state, in_store.
  destruct (AlleleCalls.Add key calls (alleles (state c))) as [r s']; repeat split.
Qed.

(** X9. With the lock file present [Main] does nothing: [Setup] and [Run]
    are not entered, the state, the lock included, is as it was, and the
    error stays inside [Main]. *)
Theorem Main_refuses_when_locked (c : Calculator) :
  CalculatorOps.lock_present lockfile_path c = true ->
  CalculatorOps.Main iter_set load_state LoadProfilesFromFile save_and_report
                     lockfile_path Setup c = (Ok tt, c).
Proof.
  intros H. unfold CalculatorOps.Main. unfold bind at 1. rewrite H. reflexivity.
Qed.

End Controller.

Lemma name_profile_keeps_named_witness :
  same_names_and_tallies calc_named
    (snd (CalculatorOps.name_profile cpython36_iter_set "K1"%string [1; 1; 1] calc_named)).
Proof. apply name_profile_keeps_named; reflexivity. Defined.

Lemma Main_refuses_when_locked_witness :
  CalculatorOps.Main cpython36_iter_set (ret tt) (ret []) (ret tt)
                     "data/nomenclature.lock"%string (ret tt) calc_cold
  = (Ok tt, calc_cold).
Proof. apply Main_refuses_when_locked; reflexivity. Defined.

(** ** Nodes: new children and the walk over the named nodes *)

Lemma next_id_exists (n : Node) :
  exists k, (match _children n with
             | [] => Ok 1
             | _ => match max_Z (dict_keys (_children n)) with
                    | Ok m => Ok (m + 1)
                    | Raise e => Raise e
                    end
             end) = Ok k /\ next_id n k.
Proof.
  destruct (_children n) as [|[k0 c0] cs] eqn:C.
  - exists 1; split; [reflexivity|]. unfold next_id; rewrite C; simpl.
    split; [intros j []|]. split; [reflexivity|congruence].
  - destruct (max_Z (dict_keys ((k0, c0) :: cs))) as [m|e] eqn:M; [|discriminate].
    destruct (max_Z_spec _ M) as [Hin Hmax].
    exists (m + 1); split; [reflexivity|]. unfold next_id; rewrite C. split; [|split].
    + intros j Hj. specialize (Hmax j Hj). lia.
    + discriminate.
    + intros _. replace (m + 1 - 1) with m by lia. exact Hin.
Qed.

(** [NewChildNode] with the state it leaves. *)
Lemma NewChildNode_runs (self : Address) (s : CalcState) (n : Node) :
  node_at (_tree (tree s)) self = Some n ->
  exists k,
    next_id n k
    /\ NodeOps.NewChildNode self s
       = (Ok (self ++ [k]),
          mkCalc (mkTree (update_at (_tree (tree s)) self
                            (fun n0 => with_children n0
                               (dict_set Z.eqb k (new_child (tree s) self n k)
                                         (_children n0))))
                         (_names (tree s)) (DEPTH (tree s)))
                 (alleles s) (world s) (distances s)).
Proof.
  intros Hn. destruct (next_id_exists n) as (k & Ek & Nk).
  exists k; split; [exact Nk|].
  unfold NodeOps.NewChildNode, bind, the_node, get, lift. rewrite Hn. simpl.
  rewrite Ek. reflexivity.
Qed.

Lemma next_id_fresh n k : next_id n k -> dict_get Z.eqb k (_children n) = None.
Proof.
  intros (Lt & _). apply (dict_get_None_keys Z_eqb_spec). intros X.
  specialize (Lt k X). lia.
Qed.

(** X10. [NewChildNode] on a node of the tree always returns. The child it
    adds has an id greater than that of every child the node had (1 when
    there was none), so no child is replaced; it is a [NamedNode] exactly
    under a node of the level [DEPTH - 1]; the other children and the
    names map are as they were. *)
Theorem NewChildNode_adds_fresh_child (self : Address) (s : CalcState) (n : Node) :
  node_at (_tree (tree s)) self = Some n ->
  exists k child s',
    NodeOps.NewChildNode self s = (Ok (self ++ [k]), s')
    /\ next_id n k
    /\ dict_get Z.eqb k (_children n) = None
    /\ node_at (_tree (tree s')) (self ++ [k]) = Some child
    /\ fresh_child n child k (DEPTH (tree s))
    /\ (forall j, j <> k ->
          node_at (_tree (tree s')) (self ++ [j]) = node_at (_tree (tree s)) (self ++ [j]))
    /\ _names (tree s') = _names (tree s)
    /\ alleles s' = alleles s.
Proof.
  intros Hn. destruct (NewChildNode_runs self s Hn) as (k & Nk & E).
  exists k, (new_child (tree s) self n k).
  eexists. split; [exact E|]. simpl.
  split; [exact Nk|]. split; [apply next_id_fresh, Nk|].
  split; [|split; [|split; [|split]]].
  - rewrite node_at_child, node_at_update_same, Hn. simpl. unfold GetChild. simpl.
    apply (dict_get_set_same Z_eqb_spec).
  - unfold fresh_child, new_child.
    destruct (_level n =? DEPTH (tree s) - 1); repeat split.
  - intros j Nj. rewrite !node_at_child, node_at_update_same, Hn. simpl.
    unfold GetChild. simpl. apply (dict_get_set_other Z_eqb_spec). exact Nj.
  - reflexivity.
  - reflexivity.
Qed.

Lemma NewChildNode_adds_fresh_child_witness :
  exists k child s',
    NodeOps.NewChildNode [] two_children = (Ok ([] ++ [k]), s')
    /\ next_id (_tree (tree two_children)) k
    /\ dict_get Z.eqb k (_children (_tree (tree two_children))) = None
    /\ node_at (_tree (tree s')) ([] ++ [k]) = Some child
    /\ fresh_child (_tree (tree two_children)) child k (DEPTH (tree two_children))
    /\ (forall j, j <> k ->
          node_at (_tree (tree s')) ([] ++ [j])
          = node_at (_tree (tree two_children)) ([] ++ [j]))
    /\ _names (tree s') = _names (tree two_children)
    /\ alleles s' = alleles two_children.
Proof. apply NewChildNode_adds_fresh_child; reflexivity. Defined.

(** X11. The order of [DFSNamed]. A [NamedNode] yields itself and nothing
    else. Any other node yields what its last child yields, then what the
    child before it yields, and so on back to the first child: the stack
    loop walks each subtree to its end before it turns to the next, and
    it terminates on every tree. *)
Theorem DFSNamed_order (n : Node) :
  DFSNamed_stack n
  = if isNamedNode n then [([], n)]
    else flat_map (fun kc => prefixed [fst kc] (DFSNamed_stack (snd kc)))
                  (rev (_children n)).
Proof.
  rewrite DFSNamed_stack_closed_form.
  destruct (isNamedNode n) eqn:N.
  - apply DFSNamed_named, N.
  - rewrite (DFSNamed_inner _ N). apply flat_map_ext; intros [k c]; simpl.
    rewrite DFSNamed_stack_closed_form; reflexivity.
Qed.

(** ** Placement: the first profile *)

Lemma RTraverse_rev_snoc r a k c :
  node_at r (a ++ [k]) = Some c -> RTraverse_rev r (a ++ [k]) = RTraverse_rev r a ++ [_ID c].
Proof.
  revert r; induction a as [|j a IH]; intros r; simpl.
  - destruct (dict_get Z.eqb k (_children r)); [|discriminate].
    intros [= ->]; reflexivity.
  - destruct (dict_get Z.eqb j (_children r)) as [d|]; [|discriminate].
    intros H; simpl; f_equal; apply IH, H.
Qed.

Lemma RTraverse_rev_update_below r a rel f :
  (forall n, _ID (f n) = _ID n) ->
  RTraverse_rev (update_at r (a ++ rel) f) a = RTraverse_rev r a.
Proof.
  intros Hf; revert r; induction a as [|k a IH]; intros r; simpl; [reflexivity|].
  destruct (dict_get Z.eqb k (_children r)) as [c|] eqn:E; simpl.
  - rewrite (dict_get_set_same Z_eqb_spec). rewrite IH.
    rewrite (update_at_root_ID c (a ++ rel) f Hf). reflexivity.
  - rewrite E; reflexivity.
Qed.

Lemma repeat_snoc {A} (x : A) n : repeat x n ++ [x] = repeat x (S n).
Proof. induction n as [|n IH]; simpl; [reflexivity|]. rewrite IH; reflexivity. Qed.

Lemma tuple_eqb_refl a : tuple_eqb a a = true.
Proof.
  unfold tuple_eqb. rewrite Nat.eqb_refl; simpl.
  induction a as [|x a IH]; simpl; [reflexivity|]. rewrite Z.eqb_refl; exact IH.
Qed.

Lemma insert_desc_length x l : List.length (insert_desc x l) = S (List.length l).
Proof.
  induction l as [|y l IH]; simpl; [reflexivity|].
  destruct (PrimFloat.ltb (- x) (- y)); simpl; [reflexivity|]. rewrite IH; reflexivity.
Qed.

Lemma sort_desc_length l : List.length (sort_desc l) = List.length l.
Proof.
  unfold sort_desc.
  assert (G : forall acc, List.length (fold_left (fun sorted x => insert_desc x sorted) l acc)
                          = (List.length l + List.length acc)%nat).
  { induction l as [|x l IH]; intros acc; simpl; [reflexivity|].
    rewrite IH, insert_desc_length; lia. }
  rewrite G; simpl; lia.
Qed.

Section FirstProfile.

Variable iter_set : list (list Z) -> list (list Z).
Variable namedEntries : list Key.
Variable index : dict Key nat.
Variable key : Key.
Variable corePercent : float.
Variable depth : nat.

(** One level under a node without children: a new branch is opened. *)
Lemma place_at_level_opens j level threshold s :
  chain_end key depth j s -> (j < depth)%nat ->
  exists s',
    place_at_level iter_set namedEntries index key corePercent (repeat 1 j) level threshold s
    = (Ok (repeat 1 (S j)), s')
    /\ chain_end key depth (S j) s'
    /\ placed_apart key s s'
    /\ distances s' = distances s.
Proof.
  intros (n & Hn & Hc & Hl & Hp & Hf & Hr & Hk & Hd) Lt.
  destruct (NewChildNode_runs (repeat 1 j) s Hn) as (k & Nk & E).
  assert (k = 1) by (destruct Nk as (_ & K & _); apply K, Hc). subst k.
  set (child := new_child (tree s) (repeat 1 j) n 1) in *.
  set (add := fun n0 : Node => with_children n0 (dict_set Z.eqb 1 child (_children n0))) in *.
  set (fill := fun n0 : Node =>
                 with_entryKeys (with_preferred (with_diameter n0 f0) (Some key))
                                (Some [key])).
  set (root1 := update_at (_tree (tree s)) (repeat 1 j) add) in *.
  assert (C1 : node_at root1 (repeat 1 j ++ [1]) = Some child).
  { unfold root1. rewrite node_at_child, node_at_update_same, Hn. simpl.
    unfold GetChild, add. simpl. apply (dict_get_set_same Z_eqb_spec). }
  assert (Hid : _ID child = 1).
  { unfold child, new_child. destruct (_level n =? DEPTH (tree s) - 1); reflexivity. }
  exists (mkCalc (mkTree (update_at root1 (repeat 1 j ++ [1]) fill)
                         (dict_set key_eqb key (repeat 1 j ++ [1]) (_names (tree s)))
                         (DEPTH (tree s)))
                 (alleles s) (world s) (distances s)).
  split; [|split; [|split]].
  - unfold place_at_level.
    unfold bind at 1. unfold the_node at 1. rewrite Hn. simpl.
    rewrite Hc. simpl. unfold bind at 1, ret at 1.
    unfold new_branch.
    rewrite (bind_Ok _ _ _ E).
    unfold bind at 1. unfold the_node at 1. simpl. fold root1. rewrite C1. simpl.
    unfold bind at 1. unfold append_pattern, in_tree. simpl. rewrite Hk, Hid.
    unfold bind, mutate_node, in_tree, modify, ret. simpl.
    rewrite repeat_snoc. reflexivity.
  - exists (fill child). rewrite <- !repeat_snoc. simpl.
    split; [rewrite node_at_update_same, C1; reflexivity|].
    split; [unfold child, new_child;
            destruct (_level n =? DEPTH (tree s) - 1); reflexivity|].
    split; [unfold child, new_child;
            destruct (_level n =? DEPTH (tree s) - 1); simpl; lia|].
    split.
    { unfold child, new_child. rewrite Hl, Hd, Hr.
      destruct depth as [|d]; [lia|].
      destruct (Nat.eqb_spec j d) as [Y|Y].
      - replace (Z.of_nat j =? Z.of_nat (S d) - 1) with true
          by (symmetry; apply Z.eqb_eq; lia).
        rewrite repeat_snoc; reflexivity.
      - replace (Z.of_nat j =? Z.of_nat (S d) - 1) with false
          by (symmetry; apply Z.eqb_neq; lia).
        reflexivity. }
    split; [intros _; reflexivity|].
    split.
    { rewrite (@RTraverse_rev_snoc _ (repeat 1 j) 1 (fill child))
        by (rewrite node_at_update_same, C1; reflexivity).
      rewrite (RTraverse_rev_update_below root1 (repeat 1 j) [1] fill)
        by (intros; reflexivity).
      unfold root1.
      rewrite <- (app_nil_r (repeat 1 j)) at 1.
      rewrite (RTraverse_rev_update_below (_tree (tree s)) (repeat 1 j) [] add)
        by (intros; reflexivity).
      rewrite Hr. simpl. rewrite Hid. reflexivity. }
    split; [apply (dict_get_set_same key_eqb_spec)|exact Hd].
  - split; [reflexivity|]. split; [reflexivity|].
    intros k' N. simpl. apply (dict_get_set_other key_eqb_spec). exact N.
  - reflexivity.
Qed.

Lemma placed_apart_trans s1 s2 s3 :
  placed_apart key s1 s2 -> placed_apart key s2 s3 -> placed_apart key s1 s3.
Proof.
  intros (A1 & W1 & N1) (A2 & W2 & N2). split; [congruence|]. split; [congruence|].
  intros k N. rewrite (N2 k N). apply N1, N.
Qed.

Lemma place_levels_opens levels : forall j s,
  chain_end key depth j s -> (j + List.length levels = depth)%nat ->
  exists s',
    place_levels iter_set namedEntries index key corePercent (repeat 1 j) levels s
    = (Ok (repeat 1 depth), s')
    /\ chain_end key depth depth s'
    /\ placed_apart key s s'.
Proof.
  induction levels as [|[level threshold] levels IH]; intros j s C L.
  - simpl in L. replace j with depth in * by lia.
    exists s; split; [reflexivity|]. split; [exact C|].
    split; [reflexivity|]. split; reflexivity.
  - simpl in L.
    destruct (@place_at_level_opens j level threshold s C) as (s1 & E1 & C1 & P1 & _); [lia|].
    destruct (IH (S j) s1 C1) as (s2 & E2 & C2 & P2); [lia|].
    exists s2; split; [|split; [exact C2|eapply placed_apart_trans; eassumption]].
    simpl. rewrite (bind_Ok _ _ _ E1). exact E2.
Qed.

End FirstProfile.

(** X12. The first profile. In a tree whose head node has no children,
    [CalcName] with at least one threshold opens one branch: it returns,
    the new key gets the code 1.1...1 with one digit for each threshold,
    the key is the founder and the one named child of the [NamedNode] at
    the end of the branch, and no profile is read and no distance is
    computed. *)
Theorem CalcName_first_profile (iter_set : list (list Z) -> list (list Z))
        (named : list Key) (key : Key) (thresholds : list float) (corePercent : float)
        (s : CalcState) :
  _children (_tree (tree s)) = [] ->
  namedPart (_tree (tree s)) = None ->
  _level (_tree (tree s)) = 0 ->
  thresholds <> [] ->
  DEPTH (tree s) = Z.of_nat (List.length thresholds) ->
  dict_get key_eqb key (_names (tree s)) = None ->
  exists s' n np,
    CalcName iter_set named key thresholds corePercent s = (Ok (sort_desc thresholds), s')
    /\ dict_get key_eqb key (_names (tree s')) = Some (repeat 1 (List.length thresholds))
    /\ node_at (_tree (tree s')) (repeat 1 (List.length thresholds)) = Some n
    /\ namedPart n = Some np
    /\ _namedChildren np = [key]
    /\ _preferred n = Some key
    /\ placed_apart key s s'.
Proof.
  intros Hc Hn Hl Ht Hd Hk.
  set (depth := List.length thresholds) in *.
  assert (Dpos : (0 < depth)%nat).
  { unfold depth; destruct thresholds; [contradiction|simpl; lia]. }
  set (s1 := mkCalc (mkTree (_tree (tree s)) (dict_set key_eqb key [] (_names (tree s)))
                            (DEPTH (tree s)))
                    (alleles s) (world s) []).
  assert (C0 : chain_end key depth 0 s1).
  { exists (_tree (tree s)). simpl.
    split; [reflexivity|]. split; [exact Hc|]. split; [exact Hl|].
    split; [destruct depth; [lia|exact Hn]|].
    split; [lia|]. split; [reflexivity|].
    split; [apply (dict_get_set_same key_eqb_spec)|exact Hd]. }
  destruct (@place_levels_opens iter_set named (make_index named) key corePercent depth
              (enumerate1 (sort_desc thresholds)) 0%nat s1 C0)
    as (s2 & E2 & (n & Nn & Nc & Nl & Np & Nf & Nr & Nk & Nd) & P2).
  { unfold enumerate1. rewrite length_combine, length_seq, sort_desc_length. fold depth. lia. }
  rewrite Nat.eqb_refl in Np.
  set (n' := with_named n (Some (mkNamed (repeat 1 depth) [key]))).
  exists (mkCalc (mkTree (update_at (_tree (tree s2)) (repeat 1 depth) (fun _ => n'))
                         (_names (tree s2)) (DEPTH (tree s2)))
                 (alleles s2) (world s2) (distances s2)),
         n', (mkNamed (repeat 1 depth) [key]).
  split; [|split; [|split; [|split; [|split; [|split]]]]].
  - unfold CalcName.
    unfold bind at 1. unfold set_distances at 1, modify at 1.
    unfold bind at 1. unfold in_tree at 1, TreeOps.GetName, dict_setdefault. simpl.
    rewrite Hk. simpl. fold s1.
    rewrite (bind_Ok _ _ _ E2).
    unfold bind at 1. unfold the_node at 1. rewrite Nn. simpl.
    rewrite Np.
    unfold bind at 1. unfold lift at 1. unfold NodeOps.AddNamedChild. rewrite Np. simpl.
    unfold bind, mutate_node, in_tree, modify, get, ret. simpl.
    rewrite Nk. rewrite tuple_eqb_refl. reflexivity.
  - simpl. exact Nk.
  - simpl. rewrite node_at_update_same, Nn. reflexivity.
  - reflexivity.
  - reflexivity.
  - unfold n'. simpl. apply Nf, Dpos.
  - destruct P2 as (A2 & W2 & N2). split; [exact A2|]. split; [exact W2|].
    intros k N. simpl. rewrite (N2 k N). simpl.
    apply (dict_get_set_other key_eqb_spec). exact N.
Qed.

Lemma CalcName_first_profile_witness :
  exists s' n np,
    CalcName cpython36_iter_set [] "K1"%string [float_of_int 10; float_of_int 50]
             (float_of_int 6 / float_of_int 10)%float (state calc_scenario)
    = (Ok (sort_desc [float_of_int 10; float_of_int 50]), s')
    /\ dict_get key_eqb "K1"%string (_names (tree s'))
       = Some (repeat 1 (List.length [float_of_int 10; float_of_int 50]))
    /\ node_at (_tree (tree s')) (repeat 1 (List.length [float_of_int 10; float_of_int 50]))
       = Some n
    /\ namedPart n = Some np
    /\ _namedChildren np = ["K1"%string]
    /\ _preferred n = Some "K1"%string
    /\ placed_apart "K1"%string (state calc_scenario) s'.
Proof.
  apply CalcName_first_profile; try reflexivity. discriminate.
Defined.

(** ** The text form of a code: there and back *)

Lemma digit_char_is_digit d : 0 <= d < 10 -> is_digit (digit_char d) = true.
Proof.
  intros H. unfold is_digit, digit_char. rewrite nat_ascii_embedding by lia.
  apply andb_true_iff; split; apply Nat.leb_le; lia.
Qed.

Lemma digit_char_value d : 0 <= d < 10 ->
  Z.of_nat (nat_of_ascii (digit_char d) - 48) = d.
Proof.
  intros H. unfold digit_char. rewrite nat_ascii_embedding by lia. lia.
Qed.

Lemma digits_value_app ds c :
  digits_value (ds ++ [c]) = 10 * digits_value ds + Z.of_nat (nat_of_ascii c - 48).
Proof. unfold digits_value. rewrite fold_left_app. reflexivity. Qed.

(** The digits that [digits_of] puts before its accumulator. *)
Lemma digits_of_spec fuel : forall n acc,
  0 <= n < 10 ^ Z.of_nat fuel -> (0 < fuel)%nat ->
  exists ds,
    list_ascii_of_string (digits_of fuel n acc) = ds ++ list_ascii_of_string acc
    /\ ds <> []
    /\ forallb is_digit ds = true
    /\ digits_value ds = n
    /\ forallb (fun c => negb (int_unmodelled c)) ds = true.
Proof.
  induction fuel as [|fuel IH]; intros n acc Hn Hf; [lia|].
  assert (Hd : 0 <= n mod 10 < 10) by (apply Z.mod_pos_bound; lia).
  assert (U : int_unmodelled (digit_char (n mod 10)) = false).
  { unfold int_unmodelled, digit_char. rewrite nat_ascii_embedding by lia.
    repeat (apply orb_false_iff; split);
      try (apply andb_false_iff; left; apply Nat.leb_gt; lia);
      try (apply andb_false_iff; right; apply Nat.leb_gt; lia);
      try (apply Nat.eqb_neq; lia); try (apply Nat.leb_gt; lia). }
  cbn [digits_of].
  destruct (n / 10 =? 0) eqn:Q.
  - apply Z.eqb_eq in Q.
    exists [digit_char (n mod 10)].
    split; [reflexivity|]. split; [discriminate|].
    split; [cbn [forallb]; rewrite digit_char_is_digit by exact Hd; reflexivity|].
    split.
    + change [digit_char (n mod 10)] with ([] ++ [digit_char (n mod 10)]).
      rewrite digits_value_app, digit_char_value by exact Hd.
      change (digits_value []) with 0.
      rewrite (Z.div_mod n 10) at 2 by lia. lia.
    + cbn [forallb]. rewrite U; reflexivity.
  - apply Z.eqb_neq in Q.
    destruct fuel as [|fuel'].
    { exfalso. apply Q. apply Z.div_small. change (10 ^ Z.of_nat 1) with 10 in Hn. lia. }
    destruct (IH (n / 10) (String (digit_char (n mod 10)) acc)) as (ds & E & NE & D & V & W).
    { split; [apply Z.div_pos; lia|].
      apply Z.div_lt_upper_bound; [lia|].
      replace (10 * 10 ^ Z.of_nat (S fuel')) with (10 ^ Z.of_nat (S (S fuel'))); [lia|].
      rewrite (Nat2Z.inj_succ (S fuel')), Z.pow_succ_r by lia. reflexivity. }
    { lia. }
    exists (ds ++ [digit_char (n mod 10)]).
    split; [rewrite E; rewrite <- app_assoc; reflexivity|].
    split; [destruct ds; discriminate|].
    split; [rewrite forallb_app, D; cbn [forallb andb];
            rewrite digit_char_is_digit by exact Hd; reflexivity|].
    split.
    + rewrite digits_value_app, V, digit_char_value by exact Hd.
      rewrite (Z.div_mod n 10) at 3 by lia. lia.
    + rewrite forallb_app, W; cbn [forallb andb]. rewrite U; reflexivity.
Qed.

Lemma pow10_log2 n : 0 < n -> n < 10 ^ Z.of_nat (Z.to_nat (Z.log2 n) + 1).
Proof.
  intros H.
  pose proof (Z.log2_nonneg n) as L.
  destruct (Z.log2_spec n H) as [_ U].
  rewrite Nat2Z.inj_add, Z2Nat.id by exact L. simpl Z.of_nat.
  eapply Z.lt_le_trans; [exact U|].
  rewrite <- Z.add_1_r.
  apply Z.pow_le_mono_l. lia.
Qed.

(** The text of a positive number or of 0. *)
Lemma repr_nonneg_spec n : 0 <= n ->
  exists ds,
    list_ascii_of_string (repr_int n) = ds
    /\ ds <> []
    /\ forallb is_digit ds = true
    /\ digits_value ds = n
    /\ forallb (fun c => negb (int_unmodelled c)) ds = true.
Proof.
  intros H. unfold repr_int. destruct (n <? 0) eqn:N; [apply Z.ltb_lt in N; lia|].
  destruct (@digits_of_spec (Z.to_nat (Z.log2 n) + 1)%nat n EmptyString) as (ds & E & R).
  - destruct (Z.eq_dec n 0) as [->|NZ]; [simpl; lia|].
    split; [lia|apply pow10_log2; lia].
  - lia.
  - exists ds. simpl in E; rewrite app_nil_r in E. split; [exact E|exact R].
Qed.

Lemma list_ascii_inj s t : list_ascii_of_string s = list_ascii_of_string t -> s = t.
Proof.
  intros H. rewrite <- (string_of_list_ascii_of_string s),
              <- (string_of_list_ascii_of_string t), H. reflexivity.
Qed.

(** [int(str(n))] is [n]. *)
Lemma int_of_str_repr_int n : int_of_str (repr_int n) = Ok n.
Proof.
  destruct (Z.ltb_spec n 0) as [N|N].
  - destruct (repr_nonneg_spec (n := - n)) as (ds & E & NE & D & V & W); [lia|].
    unfold int_of_str.
    assert (R : list_ascii_of_string (repr_int n) = "-"%char :: ds).
    { unfold repr_int at 1. destruct (n <? 0) eqn:X; [|apply Z.ltb_ge in X; lia].
      simpl. f_equal. rewrite <- E. unfold repr_int.
      destruct (- n <? 0) eqn:Y; [apply Z.ltb_lt in Y; lia|]. reflexivity. }
    rewrite R. cbn [existsb]. 
    replace (int_unmodelled "-"%char) with false by reflexivity.
    assert (X : existsb int_unmodelled ds = false).
    { clear - W. induction ds as [|c ds IH]; [reflexivity|]. simpl in *.
      apply andb_true_iff in W; destruct W as [W1 W2].
      apply negb_true_iff in W1. rewrite W1, IH by exact W2. reflexivity. }
    rewrite X. simpl.
    destruct ds as [|d ds']; [contradiction|]. rewrite D, V. f_equal; lia.
  - destruct (repr_nonneg_spec N) as (ds & E & NE & D & V & W).
    unfold int_of_str. rewrite E.
    assert (X : existsb int_unmodelled ds = false).
    { clear - W. induction ds as [|c ds IH]; [reflexivity|]. simpl in *.
      apply andb_true_iff in W; destruct W as [W1 W2].
      apply negb_true_iff in W1. rewrite W1, IH by exact W2. reflexivity. }
    rewrite X.
    destruct ds as [|d ds']; [contradiction|].
    simpl in D. apply andb_true_iff in D; destruct D as [D1 D2].
    assert (M : Ascii.eqb d "-"%char = false).
    { destruct (Ascii.eqb_spec d "-"%char) as [->|]; [discriminate|reflexivity]. }
    assert (P : Ascii.eqb d "+"%char = false).
    { destruct (Ascii.eqb_spec d "+"%char) as [->|]; [discriminate|reflexivity]. }
    rewrite M, P. simpl. rewrite D1, D2. simpl. rewrite V. reflexivity.
Qed.

Lemma repr_int_chars n :
  Forall (fun c => c = "-"%char \/ is_digit c = true) (list_ascii_of_string (repr_int n)).
Proof.
  destruct (Z.ltb_spec n 0) as [N|N].
  - destruct (repr_nonneg_spec (n := - n)) as (ds & E & _ & D & _); [lia|].
    unfold repr_int at 1. destruct (n <? 0) eqn:X; [|apply Z.ltb_ge in X; lia].
    simpl. constructor; [left; reflexivity|].
    unfold repr_int in E. destruct (- n <? 0) eqn:Y; [apply Z.ltb_lt in Y; lia|].
    rewrite E. apply Forall_forall; intros c Hc; right.
    rewrite forallb_forall in D; apply D, Hc.
  - destruct (repr_nonneg_spec N) as (ds & E & _ & D & _).
    rewrite E. apply Forall_forall; intros c Hc; right.
    rewrite forallb_forall in D; apply D, Hc.
Qed.

Lemma split_on_whole sep s :
  Forall (fun c => Ascii.eqb c sep = false) (list_ascii_of_string s) ->
  split_on sep s = [s].
Proof.
  induction s as [|c s IH]; simpl; intros H; [reflexivity|].
  inversion H as [|? ? Hc Hs]; subst. rewrite Hc, IH by exact Hs. reflexivity.
Qed.

Lemma split_on_first sep a b :
  Forall (fun c => Ascii.eqb c sep = false) (list_ascii_of_string a) ->
  split_on sep (a ++ String sep b) = a :: split_on sep b.
Proof.
  induction a as [|c a IH]; simpl; intros H.
  - rewrite Ascii.eqb_refl; reflexivity.
  - inversion H as [|? ? Hc Hs]; subst. rewrite Hc, IH by exact Hs. reflexivity.
Qed.

Lemma split_on_join sep parts :
  parts <> [] ->
  Forall (fun p => Forall (fun c => Ascii.eqb c sep = false) (list_ascii_of_string p)) parts ->
  split_on sep (join (String sep EmptyString) parts) = parts.
Proof.
  induction parts as [|p parts IH]; intros NE H; [contradiction|].
  inversion H as [|? ? Hp Hps]; subst.
  destruct parts as [|q parts].
  - simpl. apply split_on_whole, Hp.
  - change (join (String sep EmptyString) (p :: q :: parts))
      with (p ++ String sep (join (String sep EmptyString) (q :: parts)))%string.
    rewrite split_on_first by exact Hp. f_equal. apply IH; [discriminate|exact Hps].
Qed.

Lemma all_ok_map_repr parts : all_ok int_of_str (map repr_int parts) = Ok parts.
Proof.
  induction parts as [|p parts IH]; simpl; [reflexivity|].
  rewrite int_of_str_repr_int, IH. reflexivity.
Qed.

Lemma repr_int_no_dot n :
  Forall (fun c => Ascii.eqb c "."%char = false) (list_ascii_of_string (repr_int n)).
Proof.
  eapply Forall_impl; [|apply repr_int_chars].
  intros c [->|D]; [reflexivity|].
  destruct (Ascii.eqb_spec c "."%char) as [->|]; [discriminate|reflexivity].
Qed.

Lemma NameFromStr_parts (parts : list Z) :
  TreeNames.NameFromStr (TreeNames.NameToStr parts)
  = match parts with [] => Raise ValueError | _ :: _ => Ok parts end.
Proof.
  destruct parts as [|p parts]; [reflexivity|].
  unfold TreeNames.NameFromStr, TreeNames.NameToStr.
  rewrite split_on_join.
  - apply all_ok_map_repr.
  - discriminate.
  - apply Forall_forall; intros t Ht. apply in_map_iff in Ht; destruct Ht as (n & <- & _).
    apply repr_int_no_dot.
Qed.

(** X13. A code that is not empty comes back from its text:
    [NameFromStr(NameToStr(parts))] is [parts], negative digits included.
    The empty code does not: its text is the empty string, and [int] of
    it raises [ValueError]. *)
Theorem NameFromStr_NameToStr (parts : list Z) :
  TreeNames.NameFromStr (TreeNames.NameToStr parts)
  = match parts with [] => Raise ValueError | _ :: _ => Ok parts end.
Proof. apply NameFromStr_parts. Qed.

Lemma str_take_app p rest : str_take (String.length p) (p ++ rest) = p.
Proof. induction p as [|c p IH]; simpl; [destruct rest; reflexivity|]. rewrite IH; reflexivity. Qed.

Lemma str_drop_app p rest : str_drop (String.length p) (p ++ rest) = rest.
Proof. induction p as [|c p IH]; simpl; [destruct rest; reflexivity|exact IH]. Qed.

Lemma string_app_assoc (a b c : string) : ((a ++ b) ++ c = a ++ (b ++ c))%string.
Proof. induction a as [|x a IH]; simpl; [reflexivity|]. rewrite IH; reflexivity. Qed.

(** X14. The code with its prefix and version: [CDCNameFromStr] gives back
    the digits that [CDCName] was given, when there is at least one;
    the text of the empty code, which is the prefix and the version
    alone, makes it raise [ValueError]; and a text that does not start
    with the prefix and the version gives the empty list, not an error. *)
Theorem CDCNameFromStr_CDCName (prefix : string) :
  (forall part, TreeNames.CDCNameFromStr prefix (TreeNames.CDCName prefix part)
                = match part with [] => Raise ValueError | _ :: _ => Ok part end)
  /\ (forall name,
        str_take (String.length (prefix ++ version ++ " - ")) name
        <> (prefix ++ version ++ " - ")%string ->
        TreeNames.CDCNameFromStr prefix name = Ok []).
Proof.
  split.
  - intros part. unfold TreeNames.CDCNameFromStr, TreeNames.CDCName.
    replace (prefix ++ version ++ " - " ++ TreeNames.NameToStr part)%string
      with ((prefix ++ version ++ " - ") ++ TreeNames.NameToStr part)%string
      by (rewrite !string_app_assoc; reflexivity).
    rewrite str_take_app, str_drop_app, String.eqb_refl. simpl negb. cbv iota.
    apply NameFromStr_parts.
  - intros name H. unfold TreeNames.CDCNameFromStr.
    destruct (String.eqb_spec (str_take (String.length (prefix ++ version ++ " - ")) name)
                (prefix ++ version ++ " - ")) as [E|E]; [contradiction|reflexivity].
Qed.

(** ** The batch file: what a batch that loads looks like *)

Lemma dict_set_keys_NoDup {V} (k : Key) (v : V) d :
  NoDup (dict_keys d) -> NoDup (dict_keys (dict_set key_eqb k v d)).
Proof.
  unfold dict_keys. induction d as [|[k' v'] d IH]; simpl; intros H.
  - constructor; [intros []|constructor].
  - inversion H as [|? ? N H']; subst.
    destruct (key_eqb k k') eqn:E; simpl; [constructor; assumption|].
    constructor; [|apply IH, H'].
    intros X. apply N. clear - X E.
    induction d as [|[k0 v0] d IH]; simpl in *.
    + destruct X as [X|[]]. subst. unfold key_eqb in E. rewrite String.eqb_refl in E.
      discriminate.
    + destruct (key_eqb k k0); simpl in X; [exact X|].
      destruct X as [X|X]; [left; exact X|right; apply IH, X].
Qed.

Lemma dict_set_keys_In {V} (k : Key) (v : V) d k' :
  In k' (dict_keys (dict_set key_eqb k v d)) <-> k' = k \/ In k' (dict_keys d).
Proof.
  unfold dict_keys. induction d as [|[k0 v0] d IH]; simpl.
  - split; [intros [H|[]]; left; congruence|intros [H|[]]; left; congruence].
  - destruct (key_eqb k k0) eqn:E; simpl.
    + apply key_eqb_spec in E; subst k0. split; [tauto|]. intros [H|H]; [left; congruence|exact H].
    + rewrite IH. split; tauto.
Qed.

Lemma dict_set_values_In {V} (k : Key) (v : V) d k' v' :
  In (k', v') (dict_set key_eqb k v d) -> (k' = k /\ v' = v) \/ In (k', v') d.
Proof.
  induction d as [|[k0 v0] d IH]; simpl.
  - intros [H|[]]; left; injection H as <- <-; split; reflexivity.
  - destruct (key_eqb k k0) eqn:E; simpl.
    + apply key_eqb_spec in E; subst k0.
      intros [H|H]; [left; injection H as <- <-; split; reflexivity|right; right; exact H].
    + intros [H|H]; [right; left; exact H|].
      destruct (IH H) as [X|X]; [left; exact X|right; right; exact X].
Qed.

(** The loci of a row that loaded are loci of the header, and the row
    has a cell for each of them. *)
Lemma locus_calls_spec fields row fs : forall acc values,
  locus_calls fields row fs acc = Ok values ->
  (forall name, In name (dict_keys values) -> In name (dict_keys acc) \/ In name fields)
  /\ (forall f, In f fs -> (S f < List.length row)%nat).
Proof.
  induction fs as [|f fs IH]; intros acc values H; cbn [locus_calls] in H.
  - injection H as <-. split; [intros; left; assumption|intros f []].
  - destruct (nth_error row (S f)) as [cell|] eqn:C; [|discriminate].
    destruct (int_of_str cell) as [v|e]; [|discriminate].
    destruct (nth_error fields f) as [name|] eqn:F; [|discriminate].
    destruct (IH _ _ H) as [K L]. split.
    + intros nm Hn. destruct (K nm Hn) as [X|X]; [|right; exact X].
      apply (dict_set_keys_In name v acc nm) in X. destruct X as [->|X]; [|left; exact X].
      right. eapply nth_error_In, F.
    + intros g [<-|Hg]; [|apply L, Hg].
      apply nth_error_Some. congruence.
Qed.

Lemma read_rows_spec fields rows : forall acc profiles,
  read_rows fields rows acc = Ok profiles ->
  NoDup (dict_keys acc) ->
  (forall key values, In (key, values) acc ->
     forall name, In name (dict_keys values) -> In name fields) ->
  NoDup (dict_keys profiles)
  /\ (forall key values, In (key, values) profiles ->
        forall name, In name (dict_keys values) -> In name fields)
  /\ (forall key, In key (dict_keys profiles) <->
        In key (dict_keys acc) \/ exists row, In row rows /\ hd_error row = Some key)
  /\ (forall row, In row rows -> (List.length fields < List.length row)%nat).
Proof.
  induction rows as [|row rows IH]; intros acc profiles H ND Hacc; cbn [read_rows] in H.
  - injection H as <-. split; [exact ND|]. split; [exact Hacc|]. split.
    + intros key; split; [intros X; left; exact X|].
      intros [X|(row & [] & _)]; exact X.
    + intros row [].
  - destruct (locus_calls fields row (range (List.length fields)) []) as [values|e] eqn:L;
      [|discriminate].
    destruct (hd_error row) as [key|] eqn:Hd; [|discriminate].
    destruct (locus_calls_spec _ _ _ _ L) as [K Ln].
    destruct (IH _ _ H) as (N' & V' & Ks & Rs).
    + apply dict_set_keys_NoDup, ND.
    + intros k vs Hin nm Hnm. apply dict_set_values_In in Hin.
      destruct Hin as [[-> ->]|Hin]; [|eapply Hacc; eassumption].
      destruct (K nm Hnm) as [[]|X]; exact X.
    + split; [exact N'|]. split; [exact V'|]. split.
      * intros k. rewrite Ks, (dict_set_keys_In key values acc k). split.
        -- intros [[->|X]|(r & Hr & Hk)].
           ++ right; exists row; split; [left; reflexivity|exact Hd].
           ++ left; exact X.
           ++ right; exists r; split; [right; exact Hr|exact Hk].
        -- intros [X|(r & [<-|Hr] & Hk)].
           ++ left; right; exact X.
           ++ left; left. congruence.
           ++ right; exists r; split; assumption.
      * intros r [<-|Hr]; [|apply Rs, Hr].
        destruct fields as [|f0 fields'].
        -- destruct row; [discriminate|simpl; lia].
        -- specialize (Ln (List.length fields')).
           assert (X : In (List.length fields') (range (List.length (f0 :: fields')))).
           { unfold range. apply in_seq. simpl. lia. }
           specialize (Ln X). simpl. lia.
Qed.

(** X15. A batch that loads. When [LoadProfilesFromFile] returns, no key
    is twice in the result; every profile has one entry for each core
    locus, in the order of [coreLoci]; a core locus that the header does
    not name is 0 in every profile; the keys are the first cells of the
    rows after the header; and every such row has at least as many cells
    as the header: a short row is never filled up. *)
Theorem LoadProfilesFromFile_shape (delim : ascii) (coreLoci : list string)
        (lines : list string) (profiles : dict Key (list Z)) :
  LoadProfilesFromFile delim coreLoci lines = Ok profiles ->
  exists header rows,
    batch_table delim lines = header :: rows
    /\ NoDup (dict_keys profiles)
    /\ (forall key p, In (key, p) profiles ->
          List.length p = List.length coreLoci
          /\ forall j locus, nth_error coreLoci j = Some locus ->
               ~ In locus (tl header) -> nth_error p j = Some 0)
    /\ (forall key, In key (dict_keys profiles) <->
          exists row, In row rows /\ hd_error row = Some key)
    /\ (forall row, In row rows -> (List.length header <= List.length row)%nat).
Proof.
  unfold LoadProfilesFromFile, batch_table.
  destruct (all_ok strip _) as [stripped|e]; [|discriminate].
  destruct (map (split_on delim) stripped) as [|header rows]; [discriminate|].
  destruct (read_rows (tl header) rows []) as [raw|e] eqn:R; [|discriminate].
  intros [= <-]. exists header, rows. split; [reflexivity|].
  destruct (read_rows_spec _ _ _ R) as (ND & V & Ks & Rs).
  { constructor. }
  { intros ? ? []. }
  assert (KE : dict_keys (map (fun kv => (fst kv, in_core_order coreLoci (snd kv))) raw)
               = dict_keys raw).
  { unfold dict_keys. rewrite map_map. reflexivity. }
  split; [rewrite KE; exact ND|]. split; [|split].
  - intros key p Hin. apply in_map_iff in Hin. destruct Hin as ([k values] & E & Hin).
    simpl in E. injection E as <- <-. split.
    + unfold in_core_order. apply length_map.
    + intros j locus Hj Hn. unfold in_core_order.
      rewrite nth_error_map, Hj. simpl.
      destruct (dict_get String.eqb locus values) as [v|] eqn:G; [|reflexivity].
      exfalso. apply Hn. apply (V k values Hin).
      apply (dict_get_keys String.eqb_eq) in G. exact G.
  - intros key. rewrite KE, Ks. split.
    + intros [[]|X]; exact X.
    + intros X; right; exact X.
  - intros row Hr. specialize (Rs row Hr).
    destruct header as [|h0 hs]; simpl in *; lia.
Qed.

Lemma LoadProfilesFromFile_shape_witness :
  exists header rows,
    batch_table ","%char batch_lines = header :: rows
    /\ NoDup (dict_keys [("k1"%string, [2; 0]); ("k2"%string, [4; 0])])
    /\ (forall key p, In (key, p) [("k1"%string, [2; 0]); ("k2"%string, [4; 0])] ->
          List.length p = List.length ["L2"%string; "L3"%string]
          /\ forall j locus, nth_error ["L2"%string; "L3"%string] j = Some locus ->
               ~ In locus (tl header) -> nth_error p j = Some 0)
    /\ (forall key, In key (dict_keys [("k1"%string, [2; 0]); ("k2"%string, [4; 0])]) <->
          exists row, In row rows /\ hd_error row = Some key)
    /\ (forall row, In row rows -> (List.length header <= List.length row)%nat).
Proof.
  apply (@LoadProfilesFromFile_shape ","%char ["L2"%string; "L3"%string] batch_lines).
  vm_compute; reflexivity.
Defined.

(** ** The report of the codes: where a code is cut *)

Lemma distinct_ids_NoDup ids : distinct_ids ids = true -> NoDup ids.
Proof.
  induction ids as [|i ids IH]; simpl; intros H; constructor.
  - apply andb_true_iff in H; destruct H as [H _].
    intros X. apply negb_true_iff in H.
    assert (Y : existsb (Z.eqb i) ids = true).
    { apply existsb_exists; exists i; split; [exact X|apply Z.eqb_refl]. }
    congruence.
  - apply IH. apply andb_true_iff in H; tauto.
Qed.

Lemma dict_ok_spec n :
  dict_ok n = true ->
  NoDup (dict_keys (_children n))
  /\ forall k c, In (k, c) (_children n) -> dict_ok c = true.
Proof.
  destruct n as [i l cs d p e np]. cbn [dict_ok _children].
  intros H. apply andb_true_iff in H; destruct H as [H1 H2].
  split; [apply distinct_ids_NoDup, H1|].
  clear H1. induction cs as [|[k0 c0] cs IH]; intros k c Hin; [destruct Hin|].
  apply andb_true_iff in H2; destruct H2 as [H0 H2].
  destruct Hin as [E|Hin]; [injection E as <- <-; exact H0|].
  eapply IH; eassumption.
Qed.

Lemma dict_get_first (k : Z) (c : Node) cs :
  NoDup (dict_keys cs) -> In (k, c) cs -> dict_get Z.eqb k cs = Some c.
Proof.
  unfold dict_keys. induction cs as [|[k0 c0] cs IH]; intros ND Hin; [destruct Hin|].
  cbn [map fst] in ND. inversion ND as [|? ? N ND']; subst.
  cbn [dict_get].
  destruct Hin as [E|Hin].
  - injection E as <- <-. rewrite Z.eqb_refl; reflexivity.
  - destruct (Z.eqb_spec k k0) as [->|_].
    + exfalso; apply N. apply (in_map fst) in Hin. exact Hin.
    + apply IH; assumption.
Qed.

Lemma child_smaller k c n : In (k, c) (_children n) -> (node_size c < node_size n)%nat.
Proof.
  rewrite (node_size_children n). generalize (_children n) as cs.
  induction cs as [|[k0 c0] cs IH]; intros Hin; [destruct Hin|].
  cbn [children_size fold_right snd].
  destruct Hin as [E|Hin]; [injection E as <- <-; lia|].
  specialize (IH Hin). unfold children_size in IH. lia.
Qed.

(** What [DFSNamed] yields is in the tree, at the address it is given
    with, and is a [NamedNode]. *)
Lemma DFSNamed_sound size : forall n,
  (node_size n <= size)%nat -> dict_ok n = true ->
  forall rel nn, In (rel, nn) (DFSNamed n) ->
    node_at n rel = Some nn /\ isNamedNode nn = true.
Proof.
  induction size as [|size IH]; intros n Hs Hok rel nn Hin.
  - pose proof (node_size_pos n). lia.
  - destruct (isNamedNode n) eqn:N.
    + rewrite (DFSNamed_named _ N) in Hin. destruct Hin as [E|[]].
      injection E as <- <-. split; [reflexivity|exact N].
    + rewrite (DFSNamed_inner _ N) in Hin.
      apply in_flat_map in Hin. destruct Hin as ([k c] & Hkc & Hin).
      apply in_rev in Hkc.
      unfold prefixed in Hin. apply in_map_iff in Hin.
      destruct Hin as ([rel' nn'] & E & Hin). cbn [fst snd app] in E.
      injection E as <- <-.
      destruct (dict_ok_spec n Hok) as [ND Hc].
      pose proof (child_smaller _ _ _ Hkc) as Lt.
      destruct (IH c) with (rel := rel') (nn := nn') as [A B];
        [lia|eapply Hc, Hkc|exact Hin|].
      split; [|exact B].
      cbn [node_at]. rewrite (dict_get_first _ _ _ ND Hkc). exact A.
Qed.

Lemma node_at_firstn root a n d :
  node_at root a = Some n -> exists m, node_at root (firstn d a) = Some m.
Proof.
  intros H. rewrite <- (firstn_skipn d a) in H. rewrite node_at_app in H.
  destruct (node_at root (firstn d a)) as [m|]; [exists m; reflexivity|discriminate].
Qed.

Lemma mark_at_snoc root a k d :
  (d <= List.length a)%nat -> mark_at root (a ++ [k]) d = mark_at root a d.
Proof.
  intros H. unfold mark_at. rewrite firstn_app.
  replace (d - List.length a)%nat with 0%nat by lia.
  cbn [firstn]. rewrite app_nil_r. reflexivity.
Qed.

(** [NTraverse] on a node of the tree: one mark for each node from the
    node up to the head node. *)
Lemma NTraverse_spec root up : forall n,
  node_at root (rev up) = Some n ->
  exists marks,
    NTraverse root up = Ok marks
    /\ List.length marks = S (List.length up)
    /\ forall i, (i <= List.length up)%nat ->
         nth_error marks i = Some (mark_at root (rev up) (List.length up - i)).
Proof.
  induction up as [|k parent IH]; intros n Hn.
  - exists [NTraverse_mark root]. split; [reflexivity|]. split; [reflexivity|].
    intros i Hi. cbn [List.length] in Hi. replace i with 0%nat by lia.
    reflexivity.
  - cbn [NTraverse]. rewrite Hn.
    cbn [rev] in Hn. rewrite node_at_app in Hn.
    destruct (node_at root (rev parent)) as [p|] eqn:P; [|discriminate].
    destruct (IH p eq_refl) as (marks & E & L & M).
    rewrite E. exists (NTraverse_mark n :: marks).
    split; [reflexivity|]. split; [cbn [List.length]; rewrite L; reflexivity|].
    intros [|i] Hi; cbn [List.length] in *.
    + cbn [nth_error]. f_equal. unfold mark_at.
      replace (S (List.length parent) - 0)%nat with (List.length (rev (k :: parent)))
        by (rewrite length_rev; reflexivity).
      rewrite firstn_all. cbn [rev]. rewrite node_at_app, P. rewrite Hn. reflexivity.
    + cbn [nth_error rev]. rewrite M by lia.
      rewrite mark_at_snoc by (rewrite length_rev; lia).
      reflexivity.
Qed.

(** The loop that finds [part]: it stops at the first mark greater than
    0, or runs to the end. *)
Lemma code_part_spec len marks : forall i,
  (exists q v, nth_error marks q = Some v /\ 0 < v
               /\ code_part len i marks = (len - (i + q))%nat
               /\ forall q' v', (q' < q)%nat -> nth_error marks q' = Some v' -> v' <= 0)
  \/ (code_part len i marks = 0%nat
      /\ forall q v, nth_error marks q = Some v -> v <= 0).
Proof.
  induction marks as [|val marks IH]; intros i.
  - right. split; [reflexivity|]. intros [|q] v H; discriminate.
  - cbn [code_part]. destruct (Z.ltb_spec 0 val) as [P|P].
    + left. exists 0%nat, val. split; [reflexivity|]. split; [exact P|].
      split; [f_equal; lia|]. intros q' v' H; lia.
    + destruct (IH (S i)) as [(q & v & Hq & Hv & E & Hb)|[E Hb]].
      * left. exists (S q), v. split; [exact Hq|]. split; [exact Hv|].
        split; [rewrite E; f_equal; lia|].
        intros [|q'] v' Lt H; [injection H as <-; exact P|].
        eapply Hb; [|exact H]. lia.
      * right. split; [exact E|].
        intros [|q] v H; [injection H as <-; exact P|]. eapply Hb, H.
Qed.

Lemma cut_depth_of_marks root a n marks :
  node_at root a = Some n ->
  NTraverse root (rev a) = Ok marks ->
  cut_depth root a (code_part (List.length marks) 1 marks).
Proof.
  intros Hn E.
  rewrite <- (rev_involutive a) in Hn.
  destruct (NTraverse_spec root (rev a) Hn) as (marks' & E' & L & M).
  rewrite E in E'; injection E' as <-.
  rewrite length_rev in L, M. rewrite rev_involutive in M.
  rewrite L.
  destruct (code_part_spec (S (List.length a)) marks 1)
    as [(q & v & Hq & Hv & Ep & Hb)|[Ep Hb]].
  - assert (Lq : (q <= List.length a)%nat).
    { assert (q < List.length marks)%nat by (apply nth_error_Some; congruence). lia. }
    rewrite Ep. split; [lia|]. split.
    + intros _. rewrite (M q Lq) in Hq. injection Hq as Hq.
      replace (S (List.length a) - (1 + q))%nat with (List.length a - q)%nat by lia.
      rewrite Hq; exact Hv.
    + intros d Hd.
      assert (Ld : (List.length a - d <= List.length a)%nat) by lia.
      pose proof (M _ Ld) as Md.
      replace (List.length a - (List.length a - d))%nat with d in Md by lia.
      eapply (Hb (List.length a - d)%nat); [lia|exact Md].
  - rewrite Ep. split; [lia|]. split; [lia|].
    intros d Hd.
    assert (Ld : (List.length a - d <= List.length a)%nat) by lia.
    pose proof (M _ Ld) as Md.
    replace (List.length a - (List.length a - d))%nat with d in Md by lia.
    eapply Hb, Md.
Qed.

Lemma same_view_refl t : same_view t t.
Proof. split; [reflexivity|]. split; reflexivity. Qed.

Lemma same_view_trans t0 t1 t2 : same_view t0 t1 -> same_view t1 t2 -> same_view t0 t2.
Proof.
  intros (A1 & B1 & C1) (A2 & B2 & C2).
  split; [congruence|]. split; [congruence|]. intros k; rewrite C2; apply C1.
Qed.

(** [GetPart] gives the name cut to [part], and changes nothing that the
    report depends on. *)
Lemma GetPart_view key part t :
  exists t', TreeOps.GetPart key part t = (Ok (firstn part (name_of t key)), t')
             /\ same_view t t'.
Proof.
  unfold TreeOps.GetPart, TreeOps.GetName, dict_setdefault, bind, name_of.
  destruct (dict_get key_eqb key (_names t)) as [name|] eqn:G.
  - exists t. split; [reflexivity|apply same_view_refl].
  - eexists. split; [reflexivity|].
    split; [reflexivity|]. split; [reflexivity|].
    intros k. unfold name_of. cbn [_names].
    destruct (String.eqb_spec k key) as [->|N].
    + rewrite (dict_get_set_same key_eqb_spec), G. reflexivity.
    + rewrite (dict_get_set_other key_eqb_spec) by exact N. reflexivity.
Qed.

Section ReportFacts.

Variable prefix : string.

Lemma report_keys_spec part complete keys : forall t,
  exists t',
    report_keys prefix part complete keys t
    = (Ok (map (fun key => (key, TreeNames.CDCName prefix (firstn part (name_of t key)),
                            complete)) keys), t')
    /\ same_view t t'.
Proof.
  induction keys as [|key keys IH]; intros t.
  - exists t. split; [reflexivity|apply same_view_refl].
  - destruct (GetPart_view key part t) as (t1 & E1 & V1).
    destruct (IH t1) as (t2 & E2 & V2).
    exists t2. split; [|eapply same_view_trans; eassumption].
    cbn [report_keys]. rewrite (bind_Ok _ _ _ E1), (bind_Ok _ _ _ E2).
    unfold ret. cbn [map]. do 3 f_equal.
    apply map_ext; intros k. destruct V1 as (_ & _ & Nm). rewrite Nm. reflexivity.
Qed.

Lemma reported_view t0 t entry : same_view t0 t -> reported prefix t entry -> reported prefix t0 entry.
Proof.
  intros (A & B & C). destruct entry as [[key code] complete].
  intros (a & nn & np & part & H1 & H2 & H3 & H4 & H5 & H6).
  exists a, nn, np, part. rewrite <- A, <- B, <- C.
  split; [exact H1|]. split; [exact H2|]. split; [exact H3|].
  split; [exact H4|]. split; assumption.
Qed.

Lemma report_node_spec a nn np t :
  node_at (_tree t) a = Some nn -> namedPart nn = Some np ->
  exists out t',
    report_node prefix a nn t = (Ok out, t')
    /\ same_view t t'
    /\ map (fun e => fst (fst e)) out = _namedChildren np
    /\ Forall (reported prefix t) out.
Proof.
  intros Hn Hp.
  assert (Hn' : node_at (_tree t) (rev (rev a)) = Some nn) by (rewrite rev_involutive; exact Hn).
  destruct (NTraverse_spec (_tree t) (rev a) Hn') as (marks & E & _).
  destruct (report_keys_spec (code_part (List.length marks) 1 marks)
              (Z.of_nat (code_part (List.length marks) 1 marks) =? DEPTH t)
              (_namedChildren np) t) as (t' & R & V).
  eexists. exists t'. split.
  { unfold report_node. unfold bind at 1, get at 1.
    unfold bind at 1, lift at 1. rewrite E.
    unfold bind at 1, lift at 1. unfold GetNamedChildren. rewrite Hp.
    exact R. }
  split; [exact V|]. split.
  - rewrite map_map. cbn [fst]. apply map_id.
  - apply Forall_forall. intros [[key code] complete] Hin.
    apply in_map_iff in Hin. destruct Hin as (k & Ek & Hin). injection Ek as <- <- <-.
    exists a, nn, np, (code_part (List.length marks) 1 marks).
    split; [exact Hn|]. split; [exact Hp|]. split; [exact Hin|].
    split; [eapply cut_depth_of_marks; eassumption|]. split; reflexivity.
Qed.

Lemma report_all_spec found : forall t0 t,
  same_view t0 t ->
  (forall a nn, In (a, nn) found ->
     node_at (_tree t0) a = Some nn /\ isNamedNode nn = true) ->
  exists outs t',
    comprehension (fun an => report_node prefix (fst an) (snd an)) found t = (Ok outs, t')
    /\ same_view t0 t'
    /\ map (fun e => fst (fst e)) (List.concat outs) = flat_map (fun an => keys_of (snd an)) found
    /\ Forall (reported prefix t0) (List.concat outs).
Proof.
  induction found as [|[a nn] found IH]; intros t0 t V H.
  - exists [], t. split; [reflexivity|]. split; [exact V|]. split; [reflexivity|constructor].
  - destruct (H a nn (or_introl eq_refl)) as [Hn Hnamed].
    unfold isNamedNode in Hnamed. destruct (namedPart nn) as [np|] eqn:Hp; [|discriminate].
    assert (Hn' : node_at (_tree t) a = Some nn).
    { destruct V as (A & _). rewrite A. exact Hn. }
    destruct (@report_node_spec a nn np t Hn' Hp) as (out & t1 & E1 & V1 & K1 & R1).
    destruct (IH t0 t1) as (outs & t2 & E2 & V2 & K2 & R2).
    { eapply same_view_trans; eassumption. }
    { intros; apply H; right; assumption. }
    exists (out :: outs), t2. split; [|split; [exact V2|split]].
    + cbn [comprehension fst snd]. rewrite (bind_Ok _ _ _ E1), (bind_Ok _ _ _ E2). reflexivity.
    + cbn [List.concat flat_map snd]. rewrite map_app, K1, K2.
      unfold keys_of at 2. rewrite Hp. reflexivity.
    + cbn [List.concat]. apply Forall_app. split; [|exact R2].
      eapply Forall_impl; [|exact R1]. intros e He. exact (@reported_view t0 t e V He).
Qed.

End ReportFacts.

Lemma keys_of_found (cs : list (Z * Node)) :
  flat_map (fun an : Address * Node => keys_of (snd an))
    (flat_map (fun kc => map (fun an => (fst kc :: fst an, snd an)) (DFSNamed (snd kc))) cs)
  = flat_map (fun kc => iter_entrykeys (snd kc)) cs.
Proof.
  induction cs as [|kc cs IH]; [reflexivity|].
  cbn [flat_map]. rewrite flat_map_app. f_equal; [|exact IH].
  unfold iter_entrykeys. generalize (DFSNamed (snd kc)) as l.
  induction l as [|an l IHl]; [reflexivity|].
  cbn [map flat_map snd]. rewrite IHl. reflexivity.
Qed.

(** The report as a whole, with what it keeps of the tree. *)
Lemma FinalizeCDCNames_report (prefix : string) (t : Tree) :
  dict_ok (_tree t) = true ->
  exists out t',
    FinalizeCDCNames prefix t = (Ok out, t')
    /\ same_view t t'
    /\ map (fun e => fst (fst e)) out
       = flat_map (fun kc => iter_entrykeys (snd kc)) (_children (_tree t))
    /\ Forall (reported prefix t) out.
Proof.
  intros Hok.
  destruct (dict_ok_spec _ Hok) as [ND Hc].
  destruct (@report_all_spec prefix
              (flat_map (fun kc => map (fun an => (fst kc :: fst an, snd an))
                                       (DFSNamed (snd kc)))
                        (_children (_tree t))) t t (same_view_refl t))
    as (outs & t' & E & V & K & R).
  { intros a nn Hin. apply in_flat_map in Hin. destruct Hin as ([k c] & Hkc & Hin).
    apply in_map_iff in Hin. destruct Hin as ([rel nn'] & Ea & Hin).
    cbn [fst snd] in Ea, Hin. injection Ea as <- <-.
    destruct (@DFSNamed_sound (node_size c) c (le_n _) (Hc k c Hkc) rel nn' Hin) as [A B].
    split; [|exact B].
    cbn [node_at]. rewrite (dict_get_first _ _ _ ND Hkc). exact A. }
  exists (List.concat outs), t'. split; [|split; [exact V|split; [|exact R]]].
  - unfold FinalizeCDCNames. unfold bind at 1, get at 1.
    rewrite (bind_Ok _ _ _ E). reflexivity.
  - rewrite K. apply keys_of_found.
Qed.

(** X16. The report of the codes. On a tree whose children dicts hold no
    id twice, [FinalizeCDCNames] returns and leaves the nodes as they
    are; it reports the keys of the named nodes below the head node, in
    the order of [iter_entrykeys] child by child; and the code of a key
    is its name cut at the depth of the deepest node on its path, the
    head node apart, whose number of children and keys is other than one
    and whose id is greater than 0, so that a key alone in its branch has
    a code without digits. The flag is true exactly when that depth is
    [DEPTH]. *)
Theorem FinalizeCDCNames_cuts_codes (prefix : string) (t : Tree) :
  dict_ok (_tree t) = true ->
  exists out t',
    FinalizeCDCNames prefix t = (Ok out, t')
    /\ _tree t' = _tree t
    /\ map (fun e => fst (fst e)) out
       = flat_map (fun kc => iter_entrykeys (snd kc)) (_children (_tree t))
    /\ Forall (reported prefix t) out.
Proof.
  intros Hok.
  destruct (FinalizeCDCNames_report prefix t Hok) as (out & t' & E & V & K & R).
  exists out, t'. split; [exact E|]. split; [apply V|]. split; [exact K|exact R].
Qed.

Lemma FinalizeCDCNames_cuts_codes_witness :
  dict_ok (_tree reported_tree) = true
  /\ exists out t',
       FinalizeCDCNames "SALM" reported_tree = (Ok out, t')
       /\ _tree t' = _tree reported_tree
       /\ map (fun e => fst (fst e)) out
          = flat_map (fun kc => iter_entrykeys (snd kc)) (_children (_tree reported_tree))
       /\ Forall (reported "SALM" reported_tree) out.
Proof.
  split; [vm_compute; reflexivity|].
  apply (@FinalizeCDCNames_cuts_codes "SALM" reported_tree). vm_compute; reflexivity.
Defined.

(** ** The excluded codes *)

Lemma split_on_nonempty sep s : split_on sep s <> [].
Proof.
  destruct s as [|c s]; cbn [split_on]; [discriminate|].
  destruct (Ascii.eqb c sep); [discriminate|].
  destruct (split_on sep s); discriminate.
Qed.

Lemma join_cons sep p q qs :
  join sep (p :: q :: qs) = (p ++ sep ++ join sep (q :: qs))%string.
Proof. reflexivity. Qed.

Lemma join_split sep s : join (String sep EmptyString) (split_on sep s) = s.
Proof.
  induction s as [|c s IH]; [reflexivity|].
  cbn [split_on]. destruct (Ascii.eqb_spec c sep) as [->|N].
  - pose proof (split_on_nonempty sep s) as NE.
    destruct (split_on sep s) as [|w ws]; [contradiction|].
    rewrite join_cons, IH. reflexivity.
  - pose proof (split_on_nonempty sep s) as NE.
    destruct (split_on sep s) as [|w ws]; [contradiction|].
    rewrite <- IH. destruct ws as [|w' ws]; reflexivity.
Qed.

Lemma split_on_app sep a b :
  split_on sep (a ++ String sep b) = split_on sep a ++ split_on sep b.
Proof.
  induction a as [|c a IH]; cbn [String.append split_on].
  - rewrite Ascii.eqb_refl. reflexivity.
  - destruct (Ascii.eqb c sep).
    + rewrite IH. reflexivity.
    + rewrite IH. pose proof (split_on_nonempty sep a) as NE.
      destruct (split_on sep a) as [|w ws]; [contradiction|]. reflexivity.
Qed.

Lemma join_app sep l1 l2 :
  l1 <> [] -> l2 <> [] ->
  join sep (l1 ++ l2) = (join sep l1 ++ sep ++ join sep l2)%string.
Proof.
  intros N1 N2. induction l1 as [|p l1 IH]; [contradiction|].
  destruct l1 as [|q l1].
  - destruct l2 as [|r l2]; [contradiction|]. reflexivity.
  - change ((p :: q :: l1) ++ l2) with (p :: q :: (l1 ++ l2)).
    rewrite !join_cons. change (q :: l1 ++ l2) with ((q :: l1) ++ l2).
    rewrite IH by discriminate. rewrite !string_app_assoc. reflexivity.
Qed.

(** The test of the loop: the code has at least as many pieces as the
    excluded code, and its first pieces spell the excluded code. *)
Lemma xcode_test x code :
  (List.length (split_on "."%char code) <? List.length (split_on "."%char x))%nat = false
  /\ join "." (firstn (List.length (split_on "."%char x)) (split_on "."%char code)) = x
  <-> under_xcode x code.
Proof.
  split.
  - intros [L J]. apply Nat.ltb_ge in L.
    pose proof (join_split "."%char code) as C.
    rewrite <- (firstn_skipn (List.length (split_on "."%char x)) (split_on "."%char code)) in C.
    destruct (skipn (List.length (split_on "."%char x)) (split_on "."%char code))
      as [|r rs] eqn:S.
    + left. rewrite app_nil_r in C. rewrite <- C. exact J.
    + right. rewrite join_app in C.
      * rewrite J in C. eexists. rewrite <- C. reflexivity.
      * pose proof (split_on_nonempty "."%char x) as NX.
        pose proof (split_on_nonempty "."%char code) as NC.
        destruct (split_on "."%char x); [contradiction|].
        destruct (split_on "."%char code); [contradiction|]. discriminate.
      * discriminate.
  - intros [->|[rest ->]].
    + split; [apply Nat.ltb_irrefl|]. rewrite firstn_all. apply join_split.
    + rewrite split_on_app. split.
      * apply Nat.ltb_ge. rewrite length_app. lia.
      * rewrite firstn_app, firstn_all, Nat.sub_diag. cbn [firstn].
        rewrite app_nil_r. apply join_split.
Qed.

Lemma first_xcode_spec prefix name code : forall xCodes,
  (exists before x after,
      xCodes = before ++ x :: after
      /\ Forall (fun y => ~ under_xcode y code) before
      /\ under_xcode x code
      /\ first_xcode prefix name (split_on "."%char code) xCodes
         = (prefix ++ version ++ " - " ++ x ++ "x")%string)
  \/ (Forall (fun y => ~ under_xcode y code) xCodes
      /\ first_xcode prefix name (split_on "."%char code) xCodes = name).
Proof.
  induction xCodes as [|x xs IH].
  - right. split; [constructor|reflexivity].
  - cbn [first_xcode].
    destruct (List.length (split_on "."%char code) <? List.length (split_on "."%char x))%nat
      eqn:L;
      [|destruct (String.eqb_spec
                    (join "." (firstn (List.length (split_on "."%char x))
                                      (split_on "."%char code))) x) as [J|J]].
    + assert (N : ~ under_xcode x code).
      { intros U. apply xcode_test in U. destruct U as [U _]. congruence. }
      destruct IH as [(b & y & a & E & Hb & Hy & R)|[Hall R]].
      * left. exists (x :: b), y, a. split; [rewrite E; reflexivity|].
        split; [constructor; assumption|]. split; assumption.
      * right. split; [constructor; assumption|exact R].
    + left. exists [], x, xs. split; [reflexivity|]. split; [constructor|].
      split; [apply xcode_test; split; assumption|reflexivity].
    + assert (N : ~ under_xcode x code).
      { intros U. apply xcode_test in U. destruct U as [_ U]. contradiction. }
      destruct IH as [(b & y & a & E & Hb & Hy & R)|[Hall R]].
      * left. exists (x :: b), y, a. split; [rewrite E; reflexivity|].
        split; [constructor; assumption|]. split; assumption.
      * right. split; [constructor; assumption|exact R].
Qed.

(** X17. The excluded codes. [CheckXcodeList] looks at the name after
    its first [len(prefix) + len(version) + 3] characters. It returns
    the first excluded code of the list, in the order of the list, that
    this text is equal to or goes on after with a dot, written with the
    prefix and the version before it and an x after it; it returns the
    name as it is when there is no such excluded code. An excluded code
    that ends inside a number of the name, as 1.2 in 1.23, does not
    count. *)
Theorem CheckXcodeList_first_match (prefix : string) (xCodeList : list string)
    (name : string) :
  let code := str_drop (String.length prefix + String.length version + 3) name in
  (exists before x after,
      xCodeList = before ++ x :: after
      /\ Forall (fun y => ~ under_xcode y code) before
      /\ under_xcode x code
      /\ CheckXcodeList prefix xCodeList name
         = (prefix ++ version ++ " - " ++ x ++ "x")%string)
  \/ (Forall (fun y => ~ under_xcode y code) xCodeList
      /\ CheckXcodeList prefix xCodeList name = name).
Proof.
  intros code. unfold CheckXcodeList. fold code. apply first_xcode_spec.
Qed.

(** ** Recording a name: [Traverse] and [FinalizeName] *)

(** [Traverse] follows the ids as [node_at] does, when there is at least
    one id. *)
Lemma Traverse_node_at ids : forall n,
  Traverse n ids = match ids with [] => Raise IndexError | _ :: _ => Ok (node_at n ids) end.
Proof.
  induction ids as [|i ids IH]; intros n; [reflexivity|].
  cbn [Traverse node_at]. unfold GetChild.
  destruct ids as [|j ids].
  - destruct (dict_get Z.eqb i (_children n)); reflexivity.
  - destruct (dict_get Z.eqb i (_children n)) as [c|]; [|reflexivity].
    rewrite IH. reflexivity.
Qed.

(** X18. Recording a name. [FinalizeName(key, name)] returns exactly when
    the name has at least one id and leads to a [NamedNode] that holds
    the key; the key then has this name, [GetName] gives it back, and
    the nodes and the names of the other keys are as before. In every
    other case it raises and changes nothing: [IndexError] for the empty
    name, [AttributeError] when the name leads to no node or to a node
    that is not a [NamedNode], [AssertionError] when the [NamedNode] does
    not hold the key. *)
Theorem FinalizeName_records (key : Key) (name : list Z) (t : Tree) :
  (names_node_of t key name
   /\ exists t', TreeOps.FinalizeName key name t = (Ok tt, t')
        /\ TreeOps.GetName key t' = (Ok name, t')
        /\ _tree t' = _tree t
        /\ forall k, k <> key -> dict_get key_eqb k (_names t') = dict_get key_eqb k (_names t))
  \/ (~ names_node_of t key name
      /\ exists e, TreeOps.FinalizeName key name t = (Raise e, t)
           /\ (e = IndexError <-> name = [])
           /\ (e = AssertionError <->
               exists n np, node_at (_tree t) name = Some n /\ namedPart n = Some np
                            /\ name <> [])
           /\ (e = IndexError \/ e = AttributeError \/ e = AssertionError)).
Proof.
  unfold TreeOps.FinalizeName, names_node_of. rewrite Traverse_node_at.
  destruct name as [|i name].
  - right. split; [intros [N _]; apply N; reflexivity|].
    exists IndexError. split; [reflexivity|]. split; [tauto|].
    split; [|tauto]. split; [discriminate|]. intros (n & np & _ & _ & N); contradiction.
  - destruct (node_at (_tree t) (i :: name)) as [n|] eqn:A.
    2:{ right. split; [intros (_ & n & np & X & _); discriminate|].
        exists AttributeError. split; [reflexivity|]. split; [split; discriminate|].
        split; [|tauto]. split; [discriminate|]. intros (n & np & X & _); discriminate. }
    destruct (namedPart n) as [np|] eqn:P.
    2:{ right. split; [intros (_ & n' & np & X & Y & _); congruence|].
        exists AttributeError. split; [reflexivity|]. split; [split; discriminate|].
        split; [|tauto]. split; [discriminate|]. intros (n' & np & X & Y & _); congruence. }
    destruct (key_in key (_namedChildren np)) eqn:K.
    + left. split.
      { split; [discriminate|]. exists n, np. split; [reflexivity|]. split; [exact P|].
        apply key_in_In. exact K. }
      eexists. split; [reflexivity|].
      split.
      { unfold TreeOps.GetName, dict_setdefault. cbn [_names].
        rewrite (dict_get_set_same key_eqb_spec).
        reflexivity. }
      split; [reflexivity|].
      intros k Hk. cbn [_names]. apply (dict_get_set_other key_eqb_spec). exact Hk.
    + right. split.
      { intros (_ & n' & np' & X & Y & Z). assert (np' = np) by congruence. subst np'.
        apply key_in_In in Z. congruence. }
      exists AssertionError. split; [reflexivity|]. split; [split; discriminate|].
      split; [|tauto]. split; [|reflexivity].
      intros _. exists n, np. split; [reflexivity|]. split; [exact P|discriminate].
Qed.

(** ** The output file *)

(** X19. The output file. On a tree whose children dicts hold no id
    twice, [WriteResults] returns and the file holds the header line and
    then lines of two cells. Every such line is for a key of a named
    node of the tree: the key with its reported code, when the key is in
    [_newKeys] or [_changedKeys], or the key with FAILED QC and its
    reasons, when the key is in [_belowQC]. Every key of the tree that is
    new or changed has its code line, and every key of the tree that is
    in [_belowQC] its FAILED QC line. So a key that is in no named node,
    as a new profile that failed the check of the core and was not
    placed, has no line in the file. *)
Theorem WriteResults_lines (prefix output : string) (changedKeys_ : list Key)
    (outDelim : string) (c : Calculator) :
  dict_ok (_tree (tree (state c))) = true ->
  exists lines c',
    WriteResults prefix output changedKeys_ outDelim c = (Ok tt, c')
    /\ dict_get String.eqb output (disk (alleles (state c')))
       = Some (file_text outDelim (["Key"; "Allele_code"]%string :: lines))
    /\ Forall (result_line prefix changedKeys_ c) lines
    /\ (forall key, In key (tree_keys (tree (state c))) ->
          key_in key (_newKeys c) || key_in key changedKeys_ = true ->
          exists code complete,
            In [key; code] lines
            /\ reported prefix (tree (state c)) (key, code, complete))
    /\ (forall key reasons, In key (tree_keys (tree (state c))) ->
          dict_get key_eqb key (_belowQC c) = Some reasons ->
          In [key; ("FAILED QC: " ++ join ", " reasons)%string] lines).
Proof.
  intros Hok.
  destruct (FinalizeCDCNames_report prefix (tree (state c)) Hok)
    as (out & t' & E & V & K & R).
  unfold WriteResults, in_state, in_tree. rewrite E.
  eexists. eexists. split; [reflexivity|].
  split.
  { unfold CalculatorOps.with_disk. simpl.
    apply (dict_get_set_same key_eqb_spec). }
  simpl.
  assert (Hkeys : forall key, In key (tree_keys (tree (state c))) ->
                    exists code complete, In (key, code, complete) out).
  { intros key Hin. unfold tree_keys in Hin. rewrite <- K in Hin.
    apply in_map_iff in Hin. destruct Hin as ([[k code] complete] & Ek & Hin).
    cbn [fst] in Ek. subst k. exists code, complete. exact Hin. }
  split; [|split].
  - apply Forall_forall. intros line Hin.
    apply in_flat_map in Hin. destruct Hin as ([[key code] complete] & He & Hin).
    assert (Hk : In key (tree_keys (tree (state c)))).
    { unfold tree_keys. rewrite <- K. apply in_map_iff.
      exists (key, code, complete). split; [reflexivity|exact He]. }
    unfold result_lines in Hin. simpl in Hin. apply in_app_or in Hin.
    destruct Hin as [Hin|Hin].
    + destruct (key_in key (_newKeys c) || key_in key changedKeys_) eqn:N;
        [|destruct Hin].
      destruct Hin as [<-|[]]. exists key, code. split; [reflexivity|].
      split; [exact Hk|]. left. split; [exact N|]. exists complete.
      exact (proj1 (Forall_forall _ _) R _ He).
    + destruct (dict_get key_eqb key (_belowQC c)) as [reasons|] eqn:B; [|destruct Hin].
      destruct Hin as [<-|[]]. exists key, ("FAILED QC: " ++ join ", " reasons)%string.
      split; [reflexivity|]. split; [exact Hk|]. right. exists reasons. split; [exact B|reflexivity].
  - intros key Hk N. destruct (Hkeys key Hk) as (code & complete & He).
    exists code, complete. split.
    + apply in_flat_map. exists (key, code, complete). split; [exact He|].
      unfold result_lines. simpl. apply in_or_app. left. rewrite N. left; reflexivity.
    + exact (proj1 (Forall_forall _ _) R _ He).
  - intros key reasons Hk B. destruct (Hkeys key Hk) as (code & complete & He).
    apply in_flat_map. exists (key, code, complete). split; [exact He|].
    unfold result_lines. simpl. apply in_or_app. right. rewrite B. left; reflexivity.
Qed.

Lemma WriteResults_lines_witness :
  dict_ok (_tree (tree (state reported_calc))) = true
  /\ exists lines c',
       WriteResults "SALM" "out.csv" [] "," reported_calc = (Ok tt, c')
       /\ dict_get String.eqb "out.csv"%string (disk (alleles (state c')))
          = Some (file_text "," (["Key"; "Allele_code"]%string :: lines))
       /\ Forall (result_line "SALM" [] reported_calc) lines
       /\ (forall key, In key (tree_keys (tree (state reported_calc))) ->
             key_in key (_newKeys reported_calc) || key_in key [] = true ->
             exists code complete,
               In [key; code] lines
               /\ reported "SALM" (tree (state reported_calc)) (key, code, complete))
       /\ (forall key reasons, In key (tree_keys (tree (state reported_calc))) ->
             dict_get key_eqb key (_belowQC reported_calc) = Some reasons ->
             In [key; ("FAILED QC: " ++ join ", " reasons)%string] lines).
Proof.
  split; [vm_compute; reflexivity|].
  apply (@WriteResults_lines "SALM" "out.csv" [] "," reported_calc). vm_compute; reflexivity.
Defined.

(** ** The tree file *)

Lemma Node_rect_children (P : Node -> Prop) :
  (forall ID level children diameter preferred entryKeys np,
     Forall (fun kc => P (snd kc)) children ->
     P (mkNode ID level children diameter preferred entryKeys np)) ->
  forall n, P n.
Proof.
  intros H. fix IH 1. intros [ID level children d p e np]. apply H.
  induction children as [|[k c] cs IHcs]; constructor; [apply IH|exact IHcs].
Qed.

Lemma tuple_eqb_eq a : forall b, tuple_eqb a b = true -> a = b.
Proof.
  unfold tuple_eqb. induction a as [|x a IH]; intros [|y b] H;
    try reflexivity; try discriminate.
  cbn [List.length combine forallb fst snd] in H.
  apply andb_true_iff in H. destruct H as [L H].
  apply andb_true_iff in H. destruct H as [X H].
  apply Z.eqb_eq in X. subst y. f_equal. apply IH.
  apply andb_true_iff. split; [exact L|exact H].
Qed.

Lemma keys_dict_from acc keys :
  NoDup (acc ++ keys) ->
  fold_left (fun acc key => if key_in key acc then acc else acc ++ [key]) keys acc
  = acc ++ keys.
Proof.
  revert acc. induction keys as [|k keys IH]; intros acc ND; cbn [fold_left].
  - rewrite app_nil_r. reflexivity.
  - destruct (key_in k acc) eqn:K.
    + apply key_in_In in K. apply NoDup_remove_2 in ND.
      exfalso. apply ND. apply in_or_app. left; exact K.
    + rewrite IH; rewrite <- app_assoc; [reflexivity|exact ND].
Qed.

Lemma keys_dict_distinct keys : distinct_keys keys = true -> keys_dict keys = keys.
Proof.
  intros D. unfold keys_dict. rewrite keys_dict_from; [reflexivity|].
  apply distinct_keys_NoDup. exact D.
Qed.

Lemma dict_set_fresh (k : Z) (v : Node) d :
  ~ In k (dict_keys d) -> dict_set Z.eqb k v d = d ++ [(k, v)].
Proof.
  unfold dict_keys. induction d as [|[k0 v0] d IH]; intros N; cbn [dict_set app].
  - reflexivity.
  - destruct (Z.eqb_spec k k0) as [->|_]; [exfalso; apply N; left; reflexivity|].
    rewrite IH; [reflexivity|]. intros X. apply N. right. exact X.
Qed.

(** The children come back one by one, under their ids, in their order. *)
Lemma load_items_saved (load : Info -> Res Node) (key : Z -> IdKey)
    (save : Node -> Info) (back : Node -> Node) children :
  (forall i, int_of_key (key i) = Ok i) ->
  Forall (fun kc => load (save (snd kc)) = Ok (back (snd kc))) children ->
  forall acc,
    NoDup (dict_keys acc ++ map fst children) ->
    load_items load (map (fun kc => (key (fst kc), save (snd kc))) children) acc
    = Ok (acc ++ map (fun kc => (fst kc, back (snd kc))) children).
Proof.
  intros Hkey. induction 1 as [|[k c] cs Hc Hcs IH]; intros acc ND; cbn [map load_items].
  - rewrite app_nil_r. reflexivity.
  - cbn [fst snd] in *. rewrite Hc, Hkey.
    assert (F : ~ In k (dict_keys acc)).
    { apply NoDup_remove_2 in ND. intros X. apply ND. apply in_or_app. left; exact X. }
    rewrite (@dict_set_fresh k (back c) acc F). rewrite IH.
    + rewrite <- app_assoc. reflexivity.
    + unfold dict_keys in *. rewrite map_app. cbn [map fst]. rewrite <- app_assoc. exact ND.
Qed.

Lemma Load_saved (key : Z -> IdKey) (conv : Info -> Info) :
  (forall i, int_of_key (key i) = Ok i) ->
  (forall n, conv (Save n)
             = mkInfo (_ID n) (_level n) (_diameter n) (_preferred n)
                      (map (fun kc => (key (fst kc), conv (Save (snd kc)))) (_children n))
                      (match namedPart n with
                       | Some named => Some (_namedChildren named)
                       | None => None
                       end)) ->
  forall depth n parent,
    tree_shape parent depth n = true ->
    Load parent (conv (Save n)) depth = Ok (uncached n).
Proof.
  intros Hkey Hconv depth n.
  induction n as [ID level children d p e np IH] using Node_rect_children.
  intros parent Sh. rewrite Hconv. cbn [_ID _level _diameter _preferred _children namedPart].
  cbn [tree_shape] in Sh.
  apply andb_true_iff in Sh. destruct Sh as [Sh Hcs].
  apply andb_true_iff in Sh. destruct Sh as [Hnp Hids].
  cbn [Load].
  set (here := match parent with None => [] | Some above => above ++ [ID] end) in *.
  rewrite (@load_items_saved (fun childInfo => Load (Some here) childInfo depth) key
             (fun c => conv (Save c)) uncached children Hkey).
  - cbn [app uncached]. f_equal.
    assert (M : map (fun kc : Z * Node => (fst kc, uncached (snd kc))) children
                = map (fun kc => match kc with (k, c) => (k, uncached c) end) children).
    { apply map_ext. intros [k c]. reflexivity. }
    rewrite M. f_equal.
    destruct np as [named|].
    + apply andb_true_iff in Hnp. destruct Hnp as [Hnp Hk].
      apply andb_true_iff in Hnp. destruct Hnp as [Hl Hw].
      rewrite Hl. apply tuple_eqb_eq in Hw. rewrite <- Hw.
      rewrite (@keys_dict_distinct _ Hk). destruct named; reflexivity.
    + apply negb_true_iff in Hnp. rewrite Hnp. reflexivity.
  - rewrite forallb_forall in Hcs.
    apply Forall_forall. intros [k c] Hin. cbn [snd].
    pose proof (proj1 (Forall_forall _ _) IH (k, c) Hin) as IHc. cbn [snd] in IHc.
    apply IHc. exact (Hcs (k, c) Hin).
  - cbn [dict_keys map app]. apply distinct_ids_NoDup. exact Hids.
Qed.

Lemma Save_children n :
  Save n = mkInfo (_ID n) (_level n) (_diameter n) (_preferred n)
                  (map (fun kc => (KInt (fst kc), Save (snd kc))) (_children n))
                  (match namedPart n with
                   | Some named => Some (_namedChildren named)
                   | None => None
                   end).
Proof.
  destruct n as [ID level children d p e np]. cbn [Save _ID _level _diameter _preferred
    _children namedPart]. f_equal. apply map_ext. intros [k c]. reflexivity.
Qed.

Lemma text_ids_Save : forall n,
  text_ids (Save n)
  = mkInfo (_ID n) (_level n) (_diameter n) (_preferred n)
           (map (fun kc => (KStr (repr_int (fst kc)), text_ids (Save (snd kc)))) (_children n))
           (match namedPart n with
            | Some named => Some (_namedChildren named)
            | None => None
            end).
Proof.
  intros [ID level children d p e np]. cbn [Save text_ids _ID _level _diameter _preferred
    _children namedPart]. f_equal. rewrite map_map. apply map_ext. intros [k c]. reflexivity.
Qed.

(** X20. The tree file. For a subtree as the script builds it (the named
    nodes are the nodes at the level [depth], each with its path as its
    code and no key twice; no children dict with an id twice),
    [Node.Load] of what [Node.Save] returns is the subtree again, the
    cached entry keys apart, which are not saved; and it is so too when
    the ids of the children have become their decimal text, as in a tree
    file. *)
Theorem Load_Save_round_trip (parent : option (list Z)) (depth : Z) (n : Node) :
  tree_shape parent depth n = true ->
  Load parent (Save n) depth = Ok (uncached n)
  /\ Load parent (text_ids (Save n)) depth = Ok (uncached n).
Proof.
  intros Sh. split.
  - apply (@Load_saved KInt (fun i => i)); [reflexivity|apply Save_children|exact Sh].
  - apply (@Load_saved (fun i => KStr (repr_int i)) text_ids);
      [intros i; apply int_of_str_repr_int|apply text_ids_Save|exact Sh].
Qed.

Lemma Load_Save_round_trip_witness :
  tree_shape None 2 cached_tree = true
  /\ Load None (Save cached_tree) 2 = Ok (uncached cached_tree)
  /\ Load None (text_ids (Save cached_tree)) 2 = Ok (uncached cached_tree).
Proof.
  split; [vm_compute; reflexivity|].
  apply (@Load_Save_round_trip None 2 cached_tree). vm_compute; reflexivity.
Defined.

(** ** Merging at the last level *)

Lemma bind_lift_Ok {S A B} (a : A) (k : A -> Py S B) s : bind (lift (Ok a)) k s = k a s.
Proof. reflexivity. Qed.

Lemma bind_get {S B} (k : S -> Py S B) s : bind get k s = k s s.
Proof. reflexivity. Qed.

Lemma bind_the_node {B} a n (k : Node -> Py CalcState B) s :
  node_at (_tree (tree s)) a = Some n -> bind (the_node a) k s = k n s.
Proof. intros H. unfold bind, the_node. rewrite H. reflexivity. Qed.

Lemma dict_set_Z_keys {V} (k : Z) (v : V) d k' :
  In k' (dict_keys (dict_set Z.eqb k v d)) <-> k' = k \/ In k' (dict_keys d).
Proof.
  unfold dict_keys. induction d as [|[k0 v0] d IH]; cbn [dict_set map fst In].
  - split; [intros [H|[]]; left; congruence|intros [H|[]]; left; congruence].
  - destruct (Z.eqb_spec k k0) as [->|N]; cbn [map fst In].
    + split; [tauto|]. intros [H|H]; [left; congruence|exact H].
    + rewrite IH. split; [tauto|tauto].
Qed.

Lemma dict_set_Z_NoDup {V} (k : Z) (v : V) d :
  NoDup (dict_keys d) -> NoDup (dict_keys (dict_set Z.eqb k v d)).
Proof.
  unfold dict_keys. induction d as [|[k0 v0] d IH]; cbn [dict_set map fst]; intros H.
  - constructor; [intros []|constructor].
  - inversion H as [|? ? N H']; subst.
    destruct (Z.eqb_spec k k0) as [->|Ne]; cbn [map fst]; [constructor; assumption|].
    constructor; [|apply IH, H'].
    intros X. apply (dict_set_Z_keys k v d k0) in X. destruct X as [X|X]; [congruence|].
    apply N, X.
Qed.

Lemma filter_keys_In {V} (p : Z -> bool) (d : list (Z * V)) k :
  In k (dict_keys (filter (fun kv => p (fst kv)) d)) <-> p k = true /\ In k (dict_keys d).
Proof.
  unfold dict_keys. induction d as [|[k0 v0] d IH]; cbn [filter map fst In].
  - tauto.
  - destruct (p k0) eqn:P; cbn [map fst In]; rewrite IH; split.
    + intros [<-|[H1 H2]]; [split; [exact P|left; reflexivity]|split; [exact H1|right; exact H2]].
    + intros [H1 [H2|H2]]; [left; exact H2|right; split; assumption].
    + intros [H1 H2]. split; [exact H1|right; exact H2].
    + intros [H1 [H2|H2]]; [subst; congruence|split; assumption].
Qed.

Lemma filter_keys_NoDup {V} (p : Z -> bool) (d : list (Z * V)) :
  NoDup (dict_keys d) -> NoDup (dict_keys (filter (fun kv => p (fst kv)) d)).
Proof.
  unfold dict_keys. induction d as [|[k0 v0] d IH]; cbn [filter map fst]; intros H.
  - constructor.
  - inversion H as [|? ? N H']; subst.
    destruct (p k0); [|apply IH, H'].
    cbn [map fst]. constructor; [|apply IH, H'].
    intros X. apply (filter_keys_In p d k0) in X. apply N, X.
Qed.

Lemma dict_get_filter {V} (p : Z -> bool) (d : list (Z * V)) k :
  dict_get Z.eqb k (filter (fun kv => p (fst kv)) d)
  = if p k then dict_get Z.eqb k d else None.
Proof.
  induction d as [|[k0 v0] d IH]; cbn [filter dict_get fst].
  - destruct (p k); reflexivity.
  - destruct (p k0) eqn:P; cbn [dict_get].
    + destruct (Z.eqb_spec k k0) as [->|N]; [rewrite P; reflexivity|exact IH].
    + rewrite IH. destruct (Z.eqb_spec k k0) as [->|N]; [rewrite P; reflexivity|reflexivity].
Qed.

Lemma dict_in_keys_Z {V} (k : Z) (d : list (Z * V)) :
  dict_in Z.eqb k d = true <-> In k (dict_keys d).
Proof.
  unfold dict_in, dict_keys. induction d as [|[k0 v0] d IH]; cbn [dict_get map fst In].
  - split; [discriminate|intros []].
  - destruct (Z.eqb_spec k k0) as [->|N].
    + split; [left; reflexivity|reflexivity].
    + rewrite IH. split; [right; assumption|intros [H|H]; [congruence|exact H]].
Qed.

(** The first loop of [MergeNodes] runs when every id is the id of a
    child; [minObjs] then has the ids as its keys, each once. *)
Lemma collect_sizes_runs self nodes : forall acc,
  (forall i, In i nodes -> exists c, GetChild self i = Some c) ->
  exists minObjs,
    NodeOps.collect_sizes self nodes acc = Ok minObjs
    /\ (forall k, In k (dict_keys minObjs) <-> In k (dict_keys acc) \/ In k nodes)
    /\ (NoDup (dict_keys acc) -> NoDup (dict_keys minObjs)).
Proof.
  induction nodes as [|i nodes IH]; intros acc H.
  - exists acc. split; [reflexivity|]. split; [|tauto]. intros k. cbn [In]. tauto.
  - destruct (H i (or_introl eq_refl)) as (c & Hc).
    destruct (IH (dict_set Z.eqb i (NodeOps.named_size c) acc)) as (m & E & K & N).
    { intros j Hj. apply H. right. exact Hj. }
    exists m. split; [cbn [NodeOps.collect_sizes]; rewrite Hc; exact E|]. split.
    + intros k. rewrite K, dict_set_Z_keys. cbn [In]. split; [intros [[->|X]|X]; auto|].
      intros [X|[->|X]]; auto.
    + intros ND. apply N. apply dict_set_Z_NoDup. exact ND.
Qed.

Lemma max_by_size_runs (minObjs : dict Z Z) :
  minObjs <> [] ->
  exists k, NodeOps.max_by_size minObjs = Ok k /\ In k (dict_keys minObjs).
Proof.
  intros NE. destruct minObjs as [|[k0 v0] rest] eqn:M; [contradiction|].
  rewrite <- M. assert (E : exists k, NodeOps.max_by_size minObjs = Ok k).
  { rewrite M. eexists. reflexivity. }
  destruct E as (k & E). exists k. split; [exact E|].
  destruct (max_by_size_spec _ E) as (v & Hv & _).
  unfold dict_keys. apply (in_map fst) in Hv. exact Hv.
Qed.

Lemma all_ok_children (n : Node) ids :
  (forall i, In i ids -> exists c, GetChild n i = Some c) ->
  exists cs,
    all_ok (fun i => from_option AttributeError (GetChild n i)) ids = Ok cs
    /\ Forall2 (fun i c => GetChild n i = Some c) ids cs.
Proof.
  induction ids as [|i ids IH]; intros H.
  - exists []. split; [reflexivity|constructor].
  - destruct (H i (or_introl eq_refl)) as (c & Hc).
    destruct IH as (cs & E & F); [intros j Hj; apply H; right; exact Hj|].
    exists (c :: cs). split; [|constructor; assumption].
    cbn [all_ok]. rewrite Hc. cbn [from_option]. rewrite E. reflexivity.
Qed.

(** [AddNamedChild] key by key: the keys are added at the end, each
    once. *)
Lemma add_named_children_runs keys : forall (m : Node) np,
  namedPart m = Some np ->
  exists np',
    NodeOps.add_named_children m keys = Ok (with_named m (Some np'))
    /\ _wgst np' = _wgst np
    /\ (forall k, In k (_namedChildren np') <-> In k (_namedChildren np) \/ In k keys).
Proof.
  induction keys as [|key keys IH]; intros m np Hm.
  - exists np. split; [|split; [reflexivity|intros k; cbn [In]; tauto]].
    cbn [NodeOps.add_named_children]. destruct m; cbn in *. subst. reflexivity.
  - cbn [NodeOps.add_named_children]. unfold NodeOps.AddNamedChild. rewrite Hm.
    set (ks := if key_in key (_namedChildren np) then _namedChildren np
               else _namedChildren np ++ [key]).
    destruct (IH (with_named m (Some (mkNamed (_wgst np) ks))) (mkNamed (_wgst np) ks))
      as (np' & E & W & K); [reflexivity|].
    exists np'. split; [exact E|]. split; [exact W|].
    intros k. rewrite K. cbn [_namedChildren In]. subst ks.
    destruct (key_in key (_namedChildren np)) eqn:X.
    + apply key_in_In in X. split; [intros [?|?]; auto|].
      intros [?|[<-|?]]; auto.
    + rewrite in_app_iff. cbn [In]. split; [intros [[?|[?|[]]]|?]; auto|].
      intros [?|[?|?]]; auto.
Qed.

(** The loop of the merge at the last level: the keys of the absorbed
    nodes go to [maxObj], and the absorbed nodes leave the children
    dict. *)
Lemma absorb_named_runs absorbed : forall (children : list (Z * Node)) (maxObj : Node) np,
  namedPart maxObj = Some np ->
  Forall (fun a => isNamedNode a = true) absorbed ->
  NoDup (map _ID absorbed) ->
  (forall a, In a absorbed -> In (_ID a) (dict_keys children)) ->
  exists np',
    NodeOps.absorb_named absorbed (children, maxObj)
    = Ok (filter (fun kv => negb (existsb (Z.eqb (fst kv)) (map _ID absorbed))) children,
          with_named maxObj (Some np'))
    /\ _wgst np' = _wgst np
    /\ (forall k, In k (_namedChildren np')
                  <-> In k (_namedChildren np) \/ exists a, In a absorbed /\ In k (keys_of a)).
Proof.
  induction absorbed as [|a absorbed IH]; intros children maxObj np Hm Hn ND Hin.
  - exists np. split; [|split; [reflexivity|]].
    + cbn [NodeOps.absorb_named map existsb negb].
      rewrite filter_all by (intros; reflexivity).
      destruct maxObj; cbn in *. subst. reflexivity.
    + intros k. split; [auto|]. intros [?|(a & [] & _)]; assumption.
  - inversion Hn as [|? ? Ha Hn']; subst. inversion ND as [|? ? Nid ND']; subst.
    cbn [NodeOps.absorb_named]. unfold GetNamedChildren.
    unfold isNamedNode in Ha. destruct (namedPart a) as [npa|] eqn:Pa; [|discriminate].
    destruct (add_named_children_runs (_namedChildren npa) maxObj Hm) as (np1 & E1 & W1 & K1).
    rewrite E1. unfold dict_del.
    rewrite (proj2 (dict_in_keys_Z (_ID a) children)) by (apply Hin; left; reflexivity).
    destruct (IH (filter (fun kv => negb (Z.eqb (_ID a) (fst kv))) children)
                 (with_named maxObj (Some np1)) np1) as (np' & E & W & K);
      [reflexivity|exact Hn'|exact ND'| |].
    { intros b Hb. apply (filter_keys_In (fun k => negb (Z.eqb (_ID a) k))). split.
      - apply negb_true_iff. apply Z.eqb_neq. intros X. apply Nid. rewrite X.
        apply in_map. exact Hb.
      - apply Hin. right. exact Hb. }
    exists np'. split; [|split; [congruence|]].
    + refine (eq_trans E _). f_equal. f_equal. rewrite filter_both. apply filter_ext.
      intros [k v]. cbn [fst map existsb]. rewrite negb_orb, (Z.eqb_sym k (_ID a)).
      reflexivity.
    + intros k. rewrite K, K1. split.
      * intros [[?|X]|(b & Hb & X)]; [left; assumption| |].
        -- right. exists a. split; [left; reflexivity|]. unfold keys_of. rewrite Pa. exact X.
        -- right. exists b. split; [right; exact Hb|exact X].
      * intros [?|(b & [<-|Hb] & X)]; [left; left; assumption| |].
        -- left. right. unfold keys_of in X. rewrite Pa in X. exact X.
        -- right. exists b. split; assumption.
Qed.

Lemma overwrite_same_length path : forall wgst,
  List.length wgst = List.length path -> NodeOps.overwrite wgst path = Ok path.
Proof.
  induction path as [|v path IH]; intros [|w wgst] L; try discriminate; [reflexivity|].
  cbn [NodeOps.overwrite]. rewrite IH; [reflexivity|]. cbn [List.length] in L. lia.
Qed.

Lemma mutate_node_runs a f s :
  mutate_node a f s
  = (Ok tt, mkCalc (mkTree (update_at (_tree (tree s)) a f) (_names (tree s)) (DEPTH (tree s)))
                   (alleles s) (world s) (distances s)).
Proof. reflexivity. Qed.

(** [ValidateNames] on a [NamedNode] whose code is as long as its path
    and which is reached by the ids on its path: the code is the path. *)
Lemma ValidateNames_runs a c np s :
  node_at (_tree (tree s)) a = Some c ->
  namedPart c = Some np ->
  List.length (_wgst np) = List.length a ->
  RTraverse_rev (_tree (tree s)) a = a ->
  NodeOps.ValidateNames a s
  = (Ok a, mkCalc (mkTree (update_at (_tree (tree s)) a
                             (fun n => with_named n (Some (mkNamed a (_namedChildren np)))))
                          (_names (tree s)) (DEPTH (tree s)))
                  (alleles s) (world s) (distances s)).
Proof.
  intros Hc Hnp L R. unfold NodeOps.ValidateNames.
  rewrite (bind_the_node _ _ _ Hc). rewrite bind_get. rewrite Hnp.
  rewrite R. rewrite (overwrite_same_length _ _ L). rewrite bind_lift_Ok.
  unfold bind. rewrite mutate_node_runs. reflexivity.
Qed.

(** [FinalizeName] key by key, for keys of the [NamedNode] that the code
    leads to. *)
Lemma finalize_keys_runs wgst m np keys : forall s,
  wgst <> [] ->
  node_at (_tree (tree s)) wgst = Some m ->
  namedPart m = Some np ->
  (forall k, In k keys -> In k (_namedChildren np)) ->
  exists s',
    NodeOps.finalize_keys keys wgst s = (Ok tt, s')
    /\ _tree (tree s') = _tree (tree s)
    /\ (forall k, dict_get key_eqb k (_names (tree s'))
                  = if key_in k keys then Some wgst
                    else dict_get key_eqb k (_names (tree s))).
Proof.
  induction keys as [|key keys IH]; intros s NE Hm Hnp Hin.
  - exists s. split; [reflexivity|]. split; reflexivity.
  - set (s1 := mkCalc (mkTree (_tree (tree s)) (dict_set key_eqb key wgst (_names (tree s)))
                              (DEPTH (tree s)))
                      (alleles s) (world s) (distances s)).
    assert (E1 : in_tree (TreeOps.FinalizeName key wgst) s = (Ok tt, s1)).
    { unfold in_tree, TreeOps.FinalizeName. rewrite Traverse_node_at.
      destruct wgst as [|w wgst]; [contradiction|].
      rewrite Hm, Hnp.
      rewrite (proj2 (key_in_In key (_namedChildren np))) by (apply Hin; left; reflexivity).
      reflexivity. }
    destruct (IH s1) as (s' & E & T & N); [exact NE|exact Hm|exact Hnp| |].
    { intros k Hk. apply Hin. right. exact Hk. }
    exists s'. split; [|split].
    + cbn [NodeOps.finalize_keys]. rewrite (bind_Ok _ _ _ E1). exact E.
    + rewrite T. reflexivity.
    + intros k. rewrite N. unfold key_in. cbn [existsb].
      fold (key_in k keys). destruct (key_in k keys); [rewrite orb_true_r; reflexivity|].
      rewrite orb_false_r. subst s1. simpl.
      destruct (String.eqb_spec k key) as [->|Nk].
      * rewrite (dict_get_set_same key_eqb_spec). unfold key_eqb. rewrite String.eqb_refl.
        reflexivity.
      * rewrite (dict_get_set_other key_eqb_spec) by exact Nk.
        unfold key_eqb. rewrite (proj2 (String.eqb_neq k key) Nk). reflexivity.
Qed.

Lemma named_child_at_spec n len i :
  named_child_at n len i = true ->
  exists c np, GetChild n i = Some c /\ _ID c = i /\ namedPart c = Some np
               /\ List.length (_wgst np) = len.
Proof.
  unfold named_child_at. destruct (GetChild n i) as [c|]; [|discriminate].
  intros H. apply andb_true_iff in H. destruct H as [I H]. apply Z.eqb_eq in I.
  destruct (namedPart c) as [np|] eqn:P; [|discriminate]. apply Nat.eqb_eq in H.
  exists c, np. split; [reflexivity|]. split; [exact I|]. split; [exact P|exact H].
Qed.

(** X21. Merging at the last level. Let the node at [self] be at the
    level [DEPTH - 1] and be reached by the ids on its path, and let
    [nodes] be ids of children that are [NamedNode]s, each held under
    its own id and with a code of the right length. Then [MergeNodes]
    returns one of these children, the survivor. After it the survivor
    holds exactly the keys that the children in [nodes] held; every one
    of these keys has the survivor's path as its name, and the names of
    all other keys are as before; the other children in [nodes] are gone
    and the children not in [nodes] are as before. *)
Theorem MergeNodes_last_level (self : Address) (nodes : list Z) (s : CalcState)
    (n : Node) :
  node_at (_tree (tree s)) self = Some n ->
  _level n = DEPTH (tree s) - 1 ->
  RTraverse_rev (_tree (tree s)) self = self ->
  nodes <> [] ->
  forallb (named_child_at n (S (List.length self))) nodes = true ->
  exists maxKey m s',
    NodeOps.MergeNodes self nodes s = (Ok (self ++ [maxKey]), s')
    /\ In maxKey nodes
    /\ node_at (_tree (tree s')) (self ++ [maxKey]) = Some m
    /\ (forall key, In key (keys_of m)
                    <-> exists i c, In i nodes /\ GetChild n i = Some c /\ In key (keys_of c))
    /\ (forall key, dict_get key_eqb key (_names (tree s'))
                    = if key_in key (keys_of m) then Some (self ++ [maxKey])
                      else dict_get key_eqb key (_names (tree s)))
    /\ (forall i, i <> maxKey ->
          node_at (_tree (tree s')) (self ++ [i])
          = if existsb (Z.eqb i) nodes then None
            else node_at (_tree (tree s)) (self ++ [i])).
Proof.
  intros Hn Hlevel Hpath NE Hall.
  assert (Hch : forall i, In i nodes ->
            exists c np, GetChild n i = Some c /\ _ID c = i /\ namedPart c = Some np
                         /\ List.length (_wgst np) = S (List.length self)).
  { intros i Hi. apply named_child_at_spec. rewrite forallb_forall in Hall. apply Hall, Hi. }
  assert (Hch' : forall i, In i nodes -> exists c, GetChild n i = Some c).
  { intros i Hi. destruct (Hch i Hi) as (c & _ & Hc & _). exists c. exact Hc. }
  (* the sizes and the survivor *)
  destruct (collect_sizes_runs n nodes [] Hch') as (minObjs & Esizes & Ksizes & NDsizes).
  assert (NEm : minObjs <> []).
  { destruct nodes as [|i0 rest]; [contradiction|].
    intros X. assert (Hi : In i0 (dict_keys minObjs)) by (apply Ksizes; right; left; reflexivity).
    rewrite X in Hi. destruct Hi. }
  destruct (max_by_size_runs NEm) as (maxKey & Emax & Hmax).
  assert (HmaxIn : In maxKey nodes).
  { apply Ksizes in Hmax. destruct Hmax as [[]|X]. exact X. }
  destruct (Hch maxKey HmaxIn) as (maxObj & npm & HmaxObj & HmaxID & Hnpm & Lnpm).
  (* the absorbed nodes *)
  set (minObjs' := filter (fun kv : Z * Z => negb (Z.eqb maxKey (fst kv))) minObjs).
  assert (Edel : dict_del Z.eqb maxKey minObjs = Ok minObjs').
  { unfold dict_del. rewrite (proj2 (dict_in_keys_Z maxKey minObjs) Hmax). reflexivity. }
  assert (Kdel : forall k, In k (dict_keys minObjs') <-> k <> maxKey /\ In k nodes).
  { intros k. unfold minObjs'.
    rewrite (filter_keys_In (fun k => negb (Z.eqb maxKey k)) minObjs k).
    rewrite negb_true_iff, Z.eqb_neq, Ksizes. cbn [dict_keys map In].
    split; [intros [A [[]|B]]; split; [congruence|exact B]|].
    intros [A B]. split; [congruence|right; exact B]. }
  assert (NDdel : NoDup (dict_keys minObjs')).
  { apply (filter_keys_NoDup (fun k => negb (Z.eqb maxKey k))). apply NDsizes. constructor. }
  destruct (@all_ok_children n (dict_keys minObjs')) as (absorbed & Eabs & Fabs).
  { intros i Hi. apply Hch'. apply Kdel in Hi. apply Hi. }
  assert (Habs : map _ID absorbed = dict_keys minObjs'
                 /\ Forall (fun a => isNamedNode a = true) absorbed
                 /\ (forall a, In a absorbed -> In (_ID a) (dict_keys (_children n)))
                 /\ (forall a, In a absorbed -> GetChild n (_ID a) = Some a)).
  { assert (Hk : forall i, In i (dict_keys minObjs') -> In i nodes)
      by (intros i Hi; apply Kdel in Hi; apply Hi).
    clear Eabs Kdel NDdel. induction Fabs as [|i a ids cs Ha Hrest IH].
    - split; [reflexivity|]. split; [constructor|]. split; intros a [].
    - destruct (Hch i (Hk i (or_introl eq_refl))) as (c & np & Hc & Hid & Hnp & _).
      rewrite Hc in Ha. injection Ha as <-.
      destruct IH as (I1 & I2 & I3 & I4); [intros j Hj; apply Hk; right; exact Hj|].
      split; [cbn [map]; rewrite I1, Hid; reflexivity|].
      split; [constructor; [unfold isNamedNode; rewrite Hnp; reflexivity|exact I2]|].
      split.
      + intros a [<-|Ha]; [|apply I3, Ha]. rewrite Hid.
        apply (dict_get_keys Z_eqb_spec i c (_children n) Hc).
      + intros a [<-|Ha]; [|apply I4, Ha]. rewrite Hid. exact Hc. }
  destruct Habs as (Hids & Hnamed & Hpresent & Hheld).
  destruct (@absorb_named_runs absorbed (_children n) maxObj npm Hnpm Hnamed)
    as (np' & Eabsorb & Wnp' & Knp'); [rewrite Hids; exact NDdel|exact Hpresent|].
  set (children' := filter (fun kv : Z * Node =>
                              negb (existsb (Z.eqb (fst kv)) (map _ID absorbed)))
                           (_children n)) in *.
  set (maxObj' := with_named maxObj (Some np')) in *.
  assert (Hgone : forall i, existsb (Z.eqb i) (map _ID absorbed)
                            = negb (Z.eqb i maxKey) && existsb (Z.eqb i) nodes).
  { intros i. rewrite Hids. apply eq_true_iff_eq.
    rewrite andb_true_iff, negb_true_iff, Z.eqb_neq, !existsb_exists. split.
    - intros (x & Hx & E). apply Z.eqb_eq in E. subst x. apply Kdel in Hx.
      split; [apply Hx|]. exists i. split; [apply Hx|apply Z.eqb_refl].
    - intros (A & x & Hx & E). apply Z.eqb_eq in E. subst x.
      exists i. split; [apply Kdel; split; assumption|apply Z.eqb_refl]. }
  assert (Hin' : dict_in Z.eqb maxKey children' = true).
  { apply dict_in_keys_Z. unfold children'.
    apply (filter_keys_In (fun k => negb (existsb (Z.eqb k) (map _ID absorbed)))). split.
    - rewrite Hgone, Z.eqb_refl. reflexivity.
    - apply (dict_get_keys Z_eqb_spec maxKey maxObj (_children n) HmaxObj). }
  (* the tree after the children have changed *)
  set (f := fun n0 : Node => with_children n0 (dict_set Z.eqb maxKey maxObj' children')).
  set (s1 := mkCalc (mkTree (update_at (_tree (tree s)) self f) (_names (tree s))
                            (DEPTH (tree s)))
                    (alleles s) (world s) (distances s)).
  assert (Hat1 : forall i, node_at (_tree (tree s1)) (self ++ [i])
                           = dict_get Z.eqb i (dict_set Z.eqb maxKey maxObj' children')).
  { intros i. subst s1. simpl. rewrite node_at_child, node_at_update_same, Hn.
    reflexivity. }
  assert (Hsurv1 : node_at (_tree (tree s1)) (self ++ [maxKey]) = Some maxObj').
  { rewrite Hat1. apply (dict_get_set_same Z_eqb_spec). }
  assert (Hpath1 : RTraverse_rev (_tree (tree s1)) (self ++ [maxKey]) = self ++ [maxKey]).
  { rewrite (RTraverse_rev_snoc _ _ _ Hsurv1). subst s1. simpl.
    rewrite <- (app_nil_r self) at 1.
    rewrite RTraverse_rev_update_below by (intros; reflexivity).
    rewrite Hpath. subst maxObj'. cbn [with_named _ID]. rewrite HmaxID. reflexivity. }
  assert (Hval : NodeOps.ValidateNames (self ++ [maxKey]) s1
                 = (Ok (self ++ [maxKey]),
                    mkCalc (mkTree (update_at (_tree (tree s1)) (self ++ [maxKey])
                                      (fun n0 => with_named n0
                                         (Some (mkNamed (self ++ [maxKey])
                                                        (_namedChildren np')))))
                                   (_names (tree s1)) (DEPTH (tree s1)))
                           (alleles s1) (world s1) (distances s1))).
  { apply (@ValidateNames_runs (self ++ [maxKey]) maxObj' np' s1 Hsurv1);
      [reflexivity| |exact Hpath1].
    rewrite Wnp', Lnpm, length_app. cbn [List.length]. lia. }
  set (s2 := mkCalc (mkTree (update_at (_tree (tree s1)) (self ++ [maxKey])
                               (fun n0 => with_named n0
                                  (Some (mkNamed (self ++ [maxKey]) (_namedChildren np')))))
                            (_names (tree s1)) (DEPTH (tree s1)))
                    (alleles s1) (world s1) (distances s1)) in *.
  set (m := with_named maxObj' (Some (mkNamed (self ++ [maxKey]) (_namedChildren np')))).
  assert (Hsurv2 : node_at (_tree (tree s2)) (self ++ [maxKey]) = Some m).
  { subst s2. simpl. rewrite node_at_update_same.
    change (_tree (tree s1)) with (update_at (_tree (tree s)) self f).
    change (update_at (_tree (tree s)) self f) with (_tree (tree s1)).
    rewrite Hsurv1. reflexivity. }
  destruct (@finalize_keys_runs (self ++ [maxKey]) m
              (mkNamed (self ++ [maxKey]) (_namedChildren np')) (_namedChildren np') s2)
    as (s3 & Efin & T3 & N3);
    [destruct self; discriminate|exact Hsurv2|reflexivity|intros k Hk; exact Hk|].
  exists maxKey, m, s3. split; [|split; [exact HmaxIn|split; [|split; [|split]]]].
  - unfold NodeOps.MergeNodes.
    rewrite (bind_the_node _ _ _ Hn), bind_get. cbv beta.
    rewrite Esizes, bind_lift_Ok. cbv beta. rewrite Emax, bind_lift_Ok. cbv beta.
    rewrite HmaxObj. cbn [from_option]. rewrite bind_lift_Ok. cbv beta.
    rewrite Edel, bind_lift_Ok. cbv beta. rewrite Eabs, bind_lift_Ok. cbv beta.
    rewrite Hlevel, Z.eqb_refl, Eabsorb, bind_lift_Ok. cbv beta iota.
    rewrite Hin'.
    unfold bind at 1. rewrite mutate_node_runs. fold f. fold s1.
    assert (D : DFSNamed maxObj' = [([], maxObj')]) by (apply DFSNamed_named; reflexivity).
    rewrite D. cbn [map fst NodeOps.finalize_nodes]. rewrite app_nil_r.
    unfold bind at 1. unfold bind at 1. rewrite Hval. fold s2.
    rewrite (bind_the_node _ _ _ Hsurv2).
    unfold GetNamedChildren. cbn [m with_named namedPart _namedChildren].
    rewrite bind_lift_Ok. unfold bind at 1. rewrite Efin. reflexivity.
  - rewrite T3. exact Hsurv2.
  - intros key. unfold keys_of at 1. cbn [m with_named namedPart _namedChildren].
    rewrite Knp'. split.
    + intros [X|(a & Ha & X)].
      * exists maxKey, maxObj. split; [exact HmaxIn|]. split; [exact HmaxObj|].
        unfold keys_of. rewrite Hnpm. exact X.
      * exists (_ID a), a. split; [|split; [apply Hheld, Ha|exact X]].
        assert (Y : In (_ID a) (dict_keys minObjs')) by (rewrite <- Hids; apply in_map, Ha).
        apply Kdel in Y. apply Y.
    + intros (i & c & Hi & Hc & X).
      destruct (Z.eq_dec i maxKey) as [->|Ni].
      * left. rewrite HmaxObj in Hc. injection Hc as <-.
        unfold keys_of in X. rewrite Hnpm in X. exact X.
      * right. exists c. split; [|exact X].
        assert (Y : In i (map _ID absorbed)) by (rewrite Hids; apply Kdel; split; assumption).
        apply in_map_iff in Y. destruct Y as (a & Ea & Ha).
        pose proof (Hheld a Ha) as Hh. rewrite Ea, Hc in Hh. injection Hh as ->. exact Ha.
  - intros key. rewrite N3. reflexivity.
  - intros i Ni. rewrite T3. subst s2. simpl.
    rewrite node_at_update_sibling by congruence.
    change (update_at (_tree (tree s)) self f) with (_tree (tree s1)).
    rewrite Hat1. rewrite (dict_get_set_other Z_eqb_spec) by exact Ni.
    unfold children'. rewrite (dict_get_filter
      (fun k => negb (existsb (Z.eqb k) (map _ID absorbed))) (_children n) i).
    rewrite Hgone. rewrite (proj2 (Z.eqb_neq i maxKey) Ni). cbn [negb andb].
    rewrite node_at_child, Hn. unfold GetChild.
    destruct (existsb (Z.eqb i) nodes); reflexivity.
Qed.

Lemma MergeNodes_last_level_witness :
  node_at (_tree (tree (state placed_two))) [1] = Some cluster_of_two
  /\ _level cluster_of_two = DEPTH (tree (state placed_two)) - 1
  /\ RTraverse_rev (_tree (tree (state placed_two))) [1] = [1]
  /\ [1; 2] <> []
  /\ forallb (named_child_at cluster_of_two 2) [1; 2] = true
  /\ exists maxKey m s',
       NodeOps.MergeNodes [1] [1; 2] (state placed_two) = (Ok ([1] ++ [maxKey]), s')
       /\ In maxKey [1; 2]
       /\ node_at (_tree (tree s')) ([1] ++ [maxKey]) = Some m
       /\ (forall key, In key (keys_of m)
                       <-> exists i c, In i [1; 2] /\ GetChild cluster_of_two i = Some c
                                       /\ In key (keys_of c))
       /\ (forall key, dict_get key_eqb key (_names (tree s'))
                       = if key_in key (keys_of m) then Some ([1] ++ [maxKey])
                         else dict_get key_eqb key (_names (tree (state placed_two))))
       /\ (forall i, i <> maxKey ->
             node_at (_tree (tree s')) ([1] ++ [i])
             = if existsb (Z.eqb i) [1; 2] then None
               else node_at (_tree (tree (state placed_two))) ([1] ++ [i])).
Proof.
  split; [vm_compute; reflexivity|].
  split; [vm_compute; reflexivity|].
  split; [vm_compute; reflexivity|].
  split; [discriminate|].
  split; [vm_compute; reflexivity|].
  apply (@MergeNodes_last_level [1] [1; 2] (state placed_two) cluster_of_two).
  - vm_compute; reflexivity.
  - vm_compute; reflexivity.
  - vm_compute; reflexivity.
  - discriminate.
  - vm_compute; reflexivity.
Defined.

(** ** Merging above the last level *)

Lemma renumbered_length i nodes : List.length (renumbered i nodes) = List.length nodes.
Proof. revert i; induction nodes as [|c r IH]; intros i; cbn; [reflexivity|]. rewrite IH; reflexivity. Qed.

Lemma renumbered_app nodes1 : forall i nodes2,
  renumbered i (nodes1 ++ nodes2)
  = renumbered i nodes1 ++ renumbered (i + Z.of_nat (List.length nodes1)) nodes2.
Proof.
  induction nodes1 as [|c r IH]; intros i nodes2.
  - cbn [app renumbered List.length]. rewrite Z.add_0_r. reflexivity.
  - cbn [app renumbered List.length]. rewrite IH. do 3 f_equal. lia.
Qed.

(** The inner loop: the children get the ids from [i] on and are added at
    the end of the survivor's children; [AddChild] finds every id
    free. *)
Lemma adopt_children_runs children : forall i last (maxObj : Node),
  (forall k, In k (dict_keys (_children maxObj)) -> k < i) ->
  NodeOps.adopt_children children i last maxObj
  = Ok (match children with
        | [] => last
        | _ :: _ => Some (i + Z.of_nat (List.length children) - 1)
        end,
        match children with
        | [] => maxObj
        | _ :: _ => with_children maxObj (_children maxObj ++ renumbered i children)
        end).
Proof.
  induction children as [|c rest IH]; intros i last maxObj Hlt; [reflexivity|].
  cbn [NodeOps.adopt_children]. unfold NodeOps.AddChild.
  assert (F : ~ In i (dict_keys (_children maxObj))).
  { intros X. apply Hlt in X. lia. }
  rewrite (proj2 (dict_get_None_keys Z_eqb_spec i (_children maxObj)) F).
  rewrite (@dict_set_fresh i (with_ID c i) (_children maxObj) F).
  rewrite IH.
  - destruct rest as [|c' rest'].
    + cbn [List.length renumbered]. do 3 f_equal. lia.
    + cbn [with_children _children _ID _level _diameter _preferred _entryKeys namedPart].
      f_equal. f_equal; [f_equal; cbn [List.length]; lia|].
      unfold with_children. cbn [_children _ID _level _diameter _preferred _entryKeys namedPart].
      rewrite <- app_assoc. reflexivity.
  - intros k Hk. cbn [with_children _children] in Hk. unfold dict_keys in Hk.
    rewrite map_app in Hk. apply in_app_or in Hk. cbn [map fst In] in Hk.
    destruct Hk as [Hk|[<-|[]]]; [|lia].
    apply Hlt in Hk. lia.
Qed.

Lemma renumbered_keys_lt nodes : forall i k,
  In k (dict_keys (renumbered i nodes)) -> i <= k < i + Z.of_nat (List.length nodes).
Proof.
  induction nodes as [|c r IH]; intros i k H; [destruct H|].
  cbn [renumbered dict_keys map fst In List.length] in H |- *.
  destruct H as [<-|H]; [lia|]. apply IH in H. lia.
Qed.

Lemma renumbered_In nodes : forall i k c,
  In (k, c) (renumbered i nodes) -> i <= k /\ _ID c = k.
Proof.
  induction nodes as [|d r IH]; intros i k c H; [destruct H|].
  cbn [renumbered In] in H. destruct H as [E|H].
  - injection E as <- <-. split; [lia|reflexivity].
  - apply IH in H. split; [lia|apply H].
Qed.

(** The loop over the absorbed nodes. [last] is the loop variable [i] of
    the inner loop, which has no value before the first child has been
    adopted. *)
Lemma absorb_inner_runs absorbed : forall toStart last (children : list (Z * Node))
    (maxObj : Node),
  (forall k, In k (dict_keys (_children maxObj)) -> k < toStart) ->
  match last with
  | Some l => l + 1 = toStart
  | None => match absorbed with
            | a :: _ => _children a <> []
            | [] => True
            end
  end ->
  NoDup (map _ID absorbed) ->
  (forall a, In a absorbed -> In (_ID a) (dict_keys children)) ->
  NodeOps.absorb_inner absorbed toStart last (children, maxObj)
  = Ok (filter (fun kv => negb (existsb (Z.eqb (fst kv)) (map _ID absorbed))) children,
        match adopted absorbed with
        | [] => maxObj
        | _ :: _ => with_children maxObj
                      (_children maxObj ++ renumbered toStart (adopted absorbed))
        end).
Proof.
  induction absorbed as [|a absorbed IH]; intros toStart last children maxObj Hlt Hlast ND Hin.
  - cbn [NodeOps.absorb_inner adopted flat_map map existsb negb].
    rewrite filter_all by (intros; reflexivity). reflexivity.
  - inversion ND as [|? ? Nid ND']; subst.
    cbn [NodeOps.absorb_inner]. rewrite (@adopt_children_runs (dict_values (_children a)) toStart last maxObj Hlt).
    unfold dict_del.
    rewrite (proj2 (dict_in_keys_Z (_ID a) children)) by (apply Hin; left; reflexivity).
    assert (Hin' : forall b, In b absorbed ->
              In (_ID b) (dict_keys (filter (fun kv : Z * Node => negb (Z.eqb (_ID a) (fst kv)))
                                            children))).
    { intros b Hb. apply (filter_keys_In (fun k => negb (Z.eqb (_ID a) k))). split.
      - apply negb_true_iff. apply Z.eqb_neq. intros X. apply Nid. rewrite X.
        apply in_map. exact Hb.
      - apply Hin. right. exact Hb. }
    assert (Hfilter : forall l : list (Z * Node),
              filter (fun kv => negb (existsb (Z.eqb (fst kv)) (map _ID absorbed)))
                     (filter (fun kv => negb (Z.eqb (_ID a) (fst kv))) l)
              = filter (fun kv => negb (existsb (Z.eqb (fst kv)) (map _ID (a :: absorbed)))) l).
    { intros l. rewrite filter_both. apply filter_ext. intros [k v].
      cbn [fst map existsb]. rewrite negb_orb, (Z.eqb_sym k (_ID a)). reflexivity. }
    unfold adopted. cbn [flat_map]. fold (adopted absorbed).
    destruct (dict_values (_children a)) as [|c cs] eqn:Ca.
    + (* nothing to adopt: the ids go on where they were *)
      destruct last as [l|].
      * cbv beta iota in Hlast. subst toStart.
        rewrite IH; [|exact Hlt|reflexivity|exact ND'|exact Hin'].
        rewrite Hfilter. cbn [app]. reflexivity.
      * exfalso. apply Hlast. unfold dict_values in Ca.
        destruct (_children a); [reflexivity|discriminate].
    + set (len := Z.of_nat (List.length (c :: cs))).
      rewrite IH; [| |lia|exact ND'|exact Hin'].
      * rewrite Hfilter. f_equal. f_equal.
        replace (toStart + len - 1 + 1) with (toStart + len) by lia.
        destruct (adopted absorbed) as [|d ds] eqn:Ad.
        -- rewrite app_nil_r. reflexivity.
        -- unfold with_children.
           cbn [_children _ID _level _diameter _preferred _entryKeys namedPart].
           rewrite <- app_assoc. rewrite <- renumbered_app. reflexivity.
      * intros k Hk. cbn [with_children _children] in Hk. unfold dict_keys in Hk.
        rewrite map_app in Hk. apply in_app_or in Hk. destruct Hk as [Hk|Hk].
        -- apply Hlt in Hk. lia.
        -- apply (renumbered_keys_lt (c :: cs) toStart k) in Hk. fold len in Hk. lia.
Qed.

(** X22. Merging above the last level. The survivor has children, [m] is
    the greatest of their ids, and the absorbed nodes, each held under
    its own id, are taken in turn. When the first absorbed node has a
    child, the loop returns: the children of the absorbed nodes get the
    ids [m+1], [m+2], ... in the order of the merge, each is held by the
    survivor under its new id after the children the survivor had, which
    are as before, so [AddChild] never finds an id taken; and the
    absorbed nodes are gone from the children dict of [self]. When the
    first absorbed node has no child, the loop raises
    [UnboundLocalError]. *)
Theorem absorb_inner_renumbers (a : Node) (absorbed : list Node)
    (children : list (Z * Node)) (maxObj : Node) (m : Z) :
  max_Z (dict_keys (_children maxObj)) = Ok m ->
  NoDup (map _ID (a :: absorbed)) ->
  (forall b, In b (a :: absorbed) -> In (_ID b) (dict_keys children)) ->
  match _children a with
  | [] =>
      NodeOps.absorb_inner (a :: absorbed) (m + 1) None (children, maxObj)
      = Raise UnboundLocalError
  | _ :: _ =>
      exists maxObj',
        NodeOps.absorb_inner (a :: absorbed) (m + 1) None (children, maxObj)
        = Ok (filter (fun kv => negb (existsb (Z.eqb (fst kv)) (map _ID (a :: absorbed))))
                     children,
              maxObj')
        /\ maxObj' = with_children maxObj (_children maxObj')
        /\ _children maxObj'
           = _children maxObj ++ renumbered (m + 1) (adopted (a :: absorbed))
        /\ (forall k c, In (k, c) (renumbered (m + 1) (adopted (a :: absorbed))) ->
              m < k /\ _ID c = k)
  end.
Proof.
  intros Hm ND Hin.
  assert (Hlt : forall k, In k (dict_keys (_children maxObj)) -> k < m + 1).
  { intros k Hk. apply max_Z_spec in Hm. destruct Hm as [_ Hle]. apply Hle in Hk. lia. }
  destruct (_children a) as [|kc kcs] eqn:Ca.
  - cbn [NodeOps.absorb_inner]. rewrite Ca. reflexivity.
  - rewrite (@absorb_inner_runs (a :: absorbed) (m + 1) None children maxObj Hlt);
      [|rewrite Ca; discriminate|exact ND|exact Hin].
    assert (NE : adopted (a :: absorbed) <> []).
    { unfold adopted. cbn [flat_map]. rewrite Ca. destruct kc. discriminate. }
    destruct (adopted (a :: absorbed)) as [|d ds] eqn:Ad; [contradiction|].
    eexists. split; [reflexivity|]. split; [reflexivity|]. split; [reflexivity|].
    intros k c Hk. apply renumbered_In in Hk. split; [lia|apply Hk].
Qed.

Lemma absorb_inner_renumbers_witness :
  max_Z (dict_keys (_children survivor_example)) = Ok 4
  /\ NoDup (map _ID [absorbed_first; absorbed_second])
  /\ (forall b, In b [absorbed_first; absorbed_second] ->
         In (_ID b) (dict_keys children_example))
  /\ match _children absorbed_first with
     | [] =>
         NodeOps.absorb_inner [absorbed_first; absorbed_second] (4 + 1) None
           (children_example, survivor_example)
         = Raise UnboundLocalError
     | _ :: _ =>
         exists maxObj',
           NodeOps.absorb_inner [absorbed_first; absorbed_second] (4 + 1) None
             (children_example, survivor_example)
           = Ok (filter (fun kv => negb (existsb (Z.eqb (fst kv))
                                           (map _ID [absorbed_first; absorbed_second])))
                        children_example,
                 maxObj')
           /\ maxObj' = with_children survivor_example (_children maxObj')
           /\ _children maxObj'
              = _children survivor_example
                ++ renumbered (4 + 1) (adopted [absorbed_first; absorbed_second])
           /\ (forall k c,
                 In (k, c) (renumbered (4 + 1) (adopted [absorbed_first; absorbed_second])) ->
                 4 < k /\ _ID c = k)
     end.
Proof.
  assert (H1 : max_Z (dict_keys (_children survivor_example)) = Ok 4) by reflexivity.
  assert (H2 : NoDup (map _ID [absorbed_first; absorbed_second])).
  { constructor; [intros [X|[]]; discriminate X|]. constructor; [intros []|constructor]. }
  assert (H3 : forall b, In b [absorbed_first; absorbed_second] ->
                 In (_ID b) (dict_keys children_example)).
  { intros b [<-|[<-|[]]]; [right; left; reflexivity|right; right; left; reflexivity]. }
  split; [exact H1|]. split; [exact H2|]. split; [exact H3|].
  exact (@absorb_inner_renumbers absorbed_first [absorbed_second] children_example
           survivor_example 4 H1 H2 H3).
Defined.

(** ** The change log *)

Lemma split_on_no_sep sep s :
  Forall (fun p => Forall (fun c => Ascii.eqb c sep = false) (list_ascii_of_string p))
         (split_on sep s).
Proof.
  induction s as [|c s IH]; cbn [split_on].
  - constructor; [constructor|constructor].
  - destruct (Ascii.eqb c sep) eqn:E.
    + constructor; [constructor|exact IH].
    + destruct (split_on sep s) as [|w ws].
      * constructor; [|constructor]. cbn. constructor; [exact E|constructor].
      * inversion IH as [|? ? Hw Hws]; subst. constructor; [|exact Hws].
        cbn [list_ascii_of_string]. constructor; [exact E|exact Hw].
Qed.

Lemma join_inj sep l1 l2 :
  l1 <> [] -> l2 <> [] ->
  Forall (fun p => Forall (fun c => Ascii.eqb c sep = false) (list_ascii_of_string p)) l1 ->
  Forall (fun p => Forall (fun c => Ascii.eqb c sep = false) (list_ascii_of_string p)) l2 ->
  join (String sep EmptyString) l1 = join (String sep EmptyString) l2 -> l1 = l2.
Proof.
  intros N1 N2 F1 F2 E.
  rewrite <- (@split_on_join sep l1 N1 F1), <- (@split_on_join sep l2 N2 F2), E. reflexivity.
Qed.

Lemma Forall_firstn_of {A} (P : A -> Prop) k : forall l,
  Forall P l -> Forall P (firstn k l).
Proof.
  induction k as [|k IH]; intros l H; [constructor|].
  destruct H as [|x l Hx Hl]; [constructor|]. cbn [firstn]. constructor; [exact Hx|apply IH, Hl].
Qed.

Lemma firstn_nonempty {A} k (l : list A) : (0 < k)%nat -> l <> [] -> firstn k l <> [].
Proof. destruct k; [lia|]. destruct l; [contradiction|]. discriminate. Qed.

Lemma split_length_pos sep s : (0 < List.length (split_on sep s))%nat.
Proof.
  pose proof (split_on_nonempty sep s). destruct (split_on sep s); [contradiction|].
  cbn. lia.
Qed.

(** The test for a change, on the pieces: the new name is not changed
    when its pieces are the first pieces of the old name. *)
Lemma is_changed_pieces currName newName :
  is_changed currName newName = false
  <-> firstn (List.length (split_on "."%char newName)) (split_on "."%char currName)
      = split_on "."%char newName.
Proof.
  unfold is_changed. rewrite negb_false_iff, String.eqb_eq.
  pose proof (split_on_no_sep "."%char currName) as Fc.
  pose proof (split_on_no_sep "."%char newName) as Fn.
  pose proof (split_on_nonempty "."%char currName) as Nc.
  pose proof (split_on_nonempty "."%char newName) as Nn.
  pose proof (split_length_pos "."%char newName) as Ln.
  split.
  - intros E. rewrite <- (join_split "."%char newName) in E at 2.
    apply join_inj in E; [exact E|apply firstn_nonempty; assumption|exact Nn| |exact Fn].
    apply Forall_firstn_of. exact Fc.
  - intros E. rewrite E. apply join_split.
Qed.

Lemma firstn_prefix {A} (l1 l2 : list A) :
  firstn (List.length l1) l2 = l1 <-> exists rest, l2 = l1 ++ rest.
Proof.
  split.
  - intros E. exists (skipn (List.length l1) l2). rewrite <- E at 1. symmetry.
    apply firstn_skipn.
  - intros [rest ->]. rewrite firstn_app, firstn_all, Nat.sub_diag. cbn [firstn].
    apply app_nil_r.
Qed.

Lemma pieces_prefix x code :
  under_xcode x code <-> exists rest, split_on "."%char code = split_on "."%char x ++ rest.
Proof.
  rewrite <- xcode_test. rewrite <- firstn_prefix. split.
  - intros [L J].
    pose proof (split_on_no_sep "."%char code) as Fc.
    pose proof (split_on_no_sep "."%char x) as Fx.
    rewrite <- (join_split "."%char x) in J at 2.
    apply join_inj in J; [exact J| |apply split_on_nonempty| |exact Fx].
    + apply firstn_nonempty; [apply split_length_pos|apply split_on_nonempty].
    + apply Forall_firstn_of. exact Fc.
  - intros E. split.
    + apply Nat.ltb_ge. rewrite <- E at 1. rewrite length_firstn. lia.
    + rewrite E. apply join_split.
Qed.

Lemma nth_error_firstn_eq {A} k (a b : list A) :
  (k <= List.length a)%nat -> (k <= List.length b)%nat ->
  (forall j, (j < k)%nat -> nth_error a j = nth_error b j) ->
  firstn k a = firstn k b.
Proof.
  revert a b. induction k as [|k IH]; intros a b La Lb H; [reflexivity|].
  destruct a as [|x a]; [cbn in La; lia|]. destruct b as [|y b]; [cbn in Lb; lia|].
  cbn [firstn]. pose proof (H 0%nat ltac:(lia)) as H0. cbn in H0. injection H0 as ->.
  f_equal. apply IH; [cbn in La; lia|cbn in Lb; lia|].
  intros j Hj. apply (H (S j)). lia.
Qed.

Lemma min_nat_spec l :
  l <> [] -> exists m, min_nat l = Ok m /\ In m l /\ forall x, In x l -> (m <= x)%nat.
Proof.
  destruct l as [|x rest]; [contradiction|]. intros _.
  exists (fold_left Nat.min rest x). split; [reflexivity|].
  revert x. induction rest as [|y rest IH]; intros x; cbn [fold_left].
  - split; [left; reflexivity|]. intros z [<-|[]]. lia.
  - destruct (IH (Nat.min x y)) as [I M]. split.
    + destruct I as [I|I]; [|right; right; exact I].
      destruct (Nat.min_spec x y) as [[_ E]|[_ E]];
        [left|right; left]; exact (eq_trans (eq_sym E) I).
    + intros z [<-|[<-|Hz]].
      * specialize (M _ (or_introl eq_refl)). lia.
      * specialize (M _ (or_introl eq_refl)). lia.
      * apply M. right. exact Hz.
Qed.

(** The indices at which the pieces differ, as the first list
    comprehension collects them. *)
Lemma differing_enum_spec nName : forall cName i,
  (i + List.length cName <= List.length nName)%nat ->
  exists l, differing_enum i cName nName = Ok l
    /\ forall j, In j l <-> (i <= j < i + List.length cName)%nat
                           /\ nth_error cName (j - i) <> nth_error nName j.
Proof.
  induction cName as [|c rest IH]; intros i L.
  - exists []. split; [reflexivity|]. intros j. cbn [In List.length]. split; [tauto|lia].
  - cbn [List.length] in L. cbn [differing_enum].
    destruct (nth_error nName i) as [n|] eqn:N;
      [|apply nth_error_None in N; lia].
    destruct (IH (S i)) as (l & E & H); [lia|]. rewrite E.
    eexists. split; [reflexivity|]. intros j. cbn [List.length].
    assert (Hrest : forall j, (S i <= j)%nat ->
              nth_error (c :: rest) (j - i) = nth_error rest (j - S i)).
    { intros k Hk. replace (k - i)%nat with (S (k - S i)) by lia. reflexivity. }
    destruct (String.eqb_spec c n) as [->|Ne].
    + rewrite H. split.
      * intros [R D]. split; [lia|]. rewrite Hrest by lia. exact D.
      * intros [R D]. destruct (Nat.eq_dec j i) as [->|Nj].
        -- exfalso. apply D. rewrite Nat.sub_diag, N. reflexivity.
        -- split; [lia|]. rewrite <- Hrest by lia. exact D.
    + cbn [In]. rewrite H. split.
      * intros [<-|[R D]].
        -- split; [lia|]. rewrite Nat.sub_diag, N. cbn. congruence.
        -- split; [lia|]. rewrite Hrest by lia. exact D.
      * intros [R D]. destruct (Nat.eq_dec j i) as [->|Nj]; [left; reflexivity|].
        right. split; [lia|]. rewrite <- Hrest by lia. exact D.
Qed.

Lemma differing_range_spec cName nName : forall idx,
  (forall i, In i idx -> (i < List.length cName)%nat /\ (i < List.length nName)%nat) ->
  exists flags l,
    differ_flags cName nName idx = Ok flags
    /\ differing_range cName nName idx = Ok l
    /\ (existsb (fun b => b) flags = true <-> l <> [])
    /\ forall j, In j l <-> In j idx /\ nth_error cName j <> nth_error nName j.
Proof.
  induction idx as [|i idx IH]; intros H.
  - exists [], []. split; [reflexivity|]. split; [reflexivity|].
    split; [split; [discriminate|congruence]|]. intros j. cbn [In]. tauto.
  - destruct (H i (or_introl eq_refl)) as [Lc Ln].
    destruct (nth_error cName i) as [c|] eqn:C; [|apply nth_error_None in C; lia].
    destruct (nth_error nName i) as [n|] eqn:N; [|apply nth_error_None in N; lia].
    destruct IH as (flags & l & E1 & E2 & A & S); [intros j Hj; apply H; right; exact Hj|].
    cbn [differ_flags differing_range]. rewrite C, N, E1, E2.
    eexists. eexists. split; [reflexivity|]. split; [reflexivity|].
    destruct (String.eqb_spec c n) as [->|Ne]; cbn [negb existsb orb].
    + split; [exact A|]. intros j. rewrite S. cbn [In]. split; [tauto|].
      intros [[<-|Hj] D]; [exfalso; apply D; congruence|tauto].
    + split; [split; [discriminate|reflexivity]|]. intros j. cbn [In]. rewrite S. split.
      * intros [<-|[Hj D]]; [|tauto]. split; [left; reflexivity|congruence].
      * intros [[<-|Hj] D]; [left; reflexivity|right; tauto].
Qed.

Lemma merged_at_first cName nName found l :
  found = Ok l -> l <> [] ->
  (forall j, In j l <-> (j < Nat.min (List.length cName) (List.length nName))%nat
                        /\ nth_error cName j <> nth_error nName j) ->
  exists i, merged_at found = Ok ("Merged@" ++ repr_int (Z.of_nat i))%string
            /\ first_difference cName nName i.
Proof.
  intros -> NE H. destruct (min_nat_spec NE) as (m & E & I & M).
  exists m. unfold merged_at. rewrite E. split; [reflexivity|].
  apply H in I. destruct I as [R D]. split.
  - destruct (nth_error cName m) as [c|] eqn:C; [|apply nth_error_None in C; lia].
    destruct (nth_error nName m) as [n|] eqn:N; [|apply nth_error_None in N; lia].
    exists c, n. split; [reflexivity|]. split; [reflexivity|]. congruence.
  - intros j Hj.
    destruct (nth_error cName j) as [c|] eqn:C; [|apply nth_error_None in C; lia].
    destruct (nth_error nName j) as [n|] eqn:N; [|apply nth_error_None in N; lia].
    destruct (String.eqb_spec c n) as [->|Ne]; [reflexivity|].
    exfalso. assert (X : In j l) by (apply H; split; [lia|rewrite C, N; congruence]).
    apply M in X. lia.
Qed.

(** X23. The change log. [DoCalc] takes a code for changed exactly when
    the new name is neither the old name nor a beginning of it that ends
    before a dot: a code that only lost pieces at its end is not a
    change. For a code taken for changed the type is computed without
    an error, and it is X when the old or the new name ends in x;
    otherwise Extended when the old name is a beginning of the new name
    that ends before a dot; otherwise Merged@i with i the first piece,
    counted from 0 over the whole name, in which the two names differ.
    The type Other is never given. *)
Theorem ChangeType_of_change (currName newName : string) :
  (is_changed currName newName = false <-> under_xcode newName currName)
  /\ (is_changed currName newName = true ->
      exists t,
        ChangeType currName newName = Ok t
        /\ t <> "Other"%string
        /\ ((ends_with "x" currName || ends_with "x" newName = true /\ t = "X"%string)
            \/ (ends_with "x" currName || ends_with "x" newName = false
                /\ under_xcode currName newName /\ t = "Extended"%string)
            \/ (ends_with "x" currName || ends_with "x" newName = false
                /\ ~ under_xcode currName newName
                /\ exists i,
                     first_difference (split_on "."%char currName)
                                      (split_on "."%char newName) i
                     /\ t = ("Merged@" ++ repr_int (Z.of_nat i))%string))).
Proof.
  split.
  - rewrite is_changed_pieces, pieces_prefix, firstn_prefix. reflexivity.
  - intros Ch. unfold ChangeType.
    destruct (ends_with "x" currName || ends_with "x" newName) eqn:X.
    { exists "X"%string. split; [reflexivity|]. split; [discriminate|]. left. split; reflexivity. }
    set (cName := split_on "."%char currName) in *.
    set (nName := split_on "."%char newName) in *.
    assert (Hch : firstn (List.length nName) cName <> nName).
    { intros E. apply is_changed_pieces in E. congruence. }
    cbv zeta.
    destruct (List.length cName <? List.length nName)%nat eqn:L.
    + apply Nat.ltb_lt in L.
      destruct (String.eqb_spec currName (join "." (firstn (List.length cName) nName)))
        as [E|E].
      * exists "Extended"%string. split; [reflexivity|]. split; [discriminate|].
        right. left. split; [reflexivity|]. split; [|reflexivity].
        apply xcode_test. fold cName nName. split; [apply Nat.ltb_ge; lia|symmetry; exact E].
      * assert (NU : ~ under_xcode currName newName).
        { intros U. apply xcode_test in U. fold cName nName in U. destruct U as [_ U].
          apply E. symmetry. exact U. }
        destruct (@differing_enum_spec nName cName 0%nat) as (l & El & Hl); [lia|].
        assert (NE : l <> []).
        { intros ->. apply NU. apply pieces_prefix. fold cName nName.
          apply firstn_prefix. rewrite <- (firstn_all cName) at 2.
          symmetry. apply nth_error_firstn_eq; [lia|lia|].
          intros j Hj.
          destruct (nth_error cName j) as [c|] eqn:C; [|apply nth_error_None in C; lia].
          destruct (nth_error nName j) as [n|] eqn:N; [|apply nth_error_None in N; lia].
          destruct (String.eqb_spec c n) as [->|Ne]; [reflexivity|].
          exfalso. apply (proj2 (Hl j)). split; [lia|].
          rewrite Nat.sub_0_r, C, N. congruence. }
        destruct (@merged_at_first cName nName _ l El NE) as (i & Em & Fd).
        { intros j. rewrite Hl, Nat.sub_0_r. rewrite Nat.min_l by lia.
          split; [intros [R D]; split; [lia|exact D]|intros [R D]; split; [lia|exact D]]. }
        exists ("Merged@" ++ repr_int (Z.of_nat i))%string.
        split; [exact Em|]. split; [discriminate|]. right. right.
        split; [reflexivity|]. split; [exact NU|]. exists i. split; [exact Fd|reflexivity].
    + apply Nat.ltb_ge in L. rewrite (Nat.min_r _ _ L).
      destruct (@differing_range_spec cName nName (seq 0 (List.length nName)))
        as (flags & l & Ef & El & A & Hl).
      { intros i Hi. apply in_seq in Hi. lia. }
      rewrite Ef.
      assert (NE : l <> []).
      { intros ->. apply Hch. rewrite <- (firstn_all nName) at 2.
        apply nth_error_firstn_eq; [lia|lia|].
        intros j Hj.
        destruct (nth_error cName j) as [c|] eqn:C; [|apply nth_error_None in C; lia].
        destruct (nth_error nName j) as [n|] eqn:N; [|apply nth_error_None in N; lia].
        destruct (String.eqb_spec c n) as [->|Ne]; [reflexivity|].
        exfalso. apply (proj2 (Hl j)). split; [apply in_seq; lia|].
        rewrite C, N. congruence. }
      rewrite (proj2 A NE).
      assert (NU : ~ under_xcode currName newName).
      { intros U. apply pieces_prefix in U. fold cName nName in U.
        destruct U as [rest U]. apply Hch. rewrite U in L. rewrite length_app in L.
        assert (R : rest = []) by (destruct rest; [reflexivity|cbn in L; lia]).
        subst rest. rewrite app_nil_r in U. rewrite U. apply firstn_all. }
      destruct (@merged_at_first cName nName _ l El NE) as (i & Em & Fd).
      { intros j. rewrite Hl, in_seq. rewrite Nat.min_r by lia.
        split; [intros [R D]; split; [lia|exact D]|intros [R D]; split; [lia|exact D]]. }
      exists ("Merged@" ++ repr_int (Z.of_nat i))%string.
      split; [exact Em|]. split; [discriminate|]. right. right.
      split; [reflexivity|]. split; [exact NU|]. exists i. split; [exact Fd|reflexivity].
Qed.

(** ** The lock file over a whole run *)

Section Protocol.

Variable iter_set : list (list Z) -> list (list Z).
Variable load_state : Py Calculator unit.
Variable LoadProfilesFromFile : Py Calculator (dict Key (list Z)).
Variable save_and_report : Py Calculator unit.
Variable lockfile_path : string.
Variable Setup : Py Calculator unit.

(** X24. The lock file over a whole run. Started without a lock file,
    [Main] always returns. When [Setup] returns, no lock file is left at
    the end, whether [DoCalc] raised or returned, and also when the lock
    file was gone before [RunCalc] came to remove it, in which case
    [os.remove] raises and [DoRefresh] is not reached. When [Setup]
    raises, [Main] ends in the state that [Setup] left, and [Run] is not
    entered. *)
Theorem Main_ends_unlocked (c : Calculator) :
  CalculatorOps.lock_present lockfile_path c = false ->
  exists c',
    CalculatorOps.Main iter_set load_state LoadProfilesFromFile save_and_report
                       lockfile_path Setup c = (Ok tt, c')
    /\ match Setup (CalculatorOps.with_disk c
                      (dict_set String.eqb lockfile_path EmptyString
                                (disk (alleles (state c))))) with
       | (Ok _, _) => CalculatorOps.lock_present lockfile_path c' = false
       | (Raise _, c1) => c' = c1
       end.
Proof.
  intros Hfree. unfold CalculatorOps.Main.
  unfold bind at 1. rewrite Hfree.
  unfold bind at 1.
  destruct (Setup (CalculatorOps.with_disk c
                     (dict_set String.eqb lockfile_path EmptyString
                               (disk (alleles (state c)))))) as [[u|e] c1].
  2:{ exists c1. split; reflexivity. }
  unfold CalculatorOps.Run, bind. unfold CalculatorOps.RunCalc at 1.
  destruct (CalculatorOps.DoCalc iter_set load_state LoadProfilesFromFile save_and_report c1)
    as [[v|e] c2].
  - unfold CalculatorOps.remove_lock at 1, dict_del.
    destruct (dict_in String.eqb lockfile_path (disk (alleles (state c2)))) eqn:L.
    + match goal with
      | |- context [CalculatorOps.DoRefresh lockfile_path ?s] =>
          destruct (DoRefresh_unlocks lockfile_path s) as (c3 & R & U)
      end.
      rewrite R. exists c3. split; [reflexivity|exact U].
    + exists c2. split; [reflexivity|exact L].
  - destruct (DoRefresh_unlocks lockfile_path c2) as (c3 & R & U).
    rewrite R. exists c3. split; [reflexivity|exact U].
Qed.

End Protocol.

Lemma Main_ends_unlocked_witness :
  CalculatorOps.lock_present "data/nomenclature.lock" calc_named = false
  /\ exists c',
       CalculatorOps.Main cpython36_iter_set (ret tt) (ret []) (ret tt)
                          "data/nomenclature.lock"%string (ret tt) calc_named = (Ok tt, c')
       /\ match (ret tt : Py Calculator unit)
                  (CalculatorOps.with_disk calc_named
                     (dict_set String.eqb "data/nomenclature.lock"%string EmptyString
                               (disk (alleles (state calc_named))))) with
          | (Ok _, _) => CalculatorOps.lock_present "data/nomenclature.lock" c' = false
          | (Raise _, c1) => c' = c1
          end.
Proof.
  split; [reflexivity|].
  apply (@Main_ends_unlocked cpython36_iter_set (ret tt) (ret []) (ret tt)
           "data/nomenclature.lock"%string (ret tt) calc_named).
  reflexivity.
Defined.

(** ** Renaming a key *)

Lemma node_at_update_below root a f : forall rel n,
  node_at root a = Some n ->
  node_at (update_at root a f) (a ++ rel) = node_at (f n) rel.
Proof.
  intros rel n H. rewrite node_at_app, node_at_update_same, H. reflexivity.
Qed.

Lemma node_at_with_preferred n p rel :
  option_map namedPart (node_at (with_preferred n p) rel) = option_map namedPart (node_at n rel).
Proof.
  destruct rel as [|k rel]; [reflexivity|]. reflexivity.
Qed.

(** The loop down the location reaches every node of it, raises nothing,
    and leaves the keys of the node at its end as they are. *)
Lemma replace_preferred_runs key newKey : forall rest root above,
  node_at root (above ++ rest) <> None ->
  exists root',
    replace_preferred key newKey root above rest = (Ok tt, root')
    /\ option_map namedPart (node_at root' (above ++ rest))
       = option_map namedPart (node_at root (above ++ rest)).
Proof.
  induction rest as [|ID rest IH]; intros root above H.
  - exists root. split; reflexivity.
  - cbn [replace_preferred].
    assert (Hc : exists child, node_at root (above ++ [ID]) = Some child).
    { replace (above ++ ID :: rest) with ((above ++ [ID]) ++ rest) in H
        by (rewrite <- app_assoc; reflexivity).
      rewrite node_at_app in H.
      destruct (node_at root (above ++ [ID])) as [c|]; [exists c; reflexivity|contradiction]. }
    destruct Hc as (child & Hc). rewrite Hc.
    set (root1 := match _preferred child with
                  | Some p => if key_eqb p key
                              then update_at root (above ++ [ID])
                                     (fun n => with_preferred n (Some newKey))
                              else root
                  | None => root
                  end).
    assert (Same : option_map namedPart (node_at root1 ((above ++ [ID]) ++ rest))
                   = option_map namedPart (node_at root ((above ++ [ID]) ++ rest))).
    { subst root1. destruct (_preferred child) as [p|]; [|reflexivity].
      destruct (key_eqb p key); [|reflexivity].
      rewrite (node_at_update_below _ _ _ rest Hc).
      rewrite node_at_with_preferred. rewrite node_at_app, Hc. reflexivity. }
    destruct (IH root1 (above ++ [ID])) as (root' & E & K).
    { intros X. rewrite X in Same. cbn in Same.
      replace (above ++ ID :: rest) with ((above ++ [ID]) ++ rest) in H
        by (rewrite <- app_assoc; reflexivity).
      destruct (node_at root ((above ++ [ID]) ++ rest)); [discriminate|contradiction]. }
    exists root'. split; [exact E|].
    replace (above ++ ID :: rest) with ((above ++ [ID]) ++ rest)
      by (rewrite <- app_assoc; reflexivity).
    rewrite K. exact Same.
Qed.

Lemma dict_get_del_same (k : Key) (d : dict Key (list Z)) :
  dict_get key_eqb k (filter (fun kv => negb (key_eqb k (fst kv))) d) = None.
Proof.
  induction d as [|[k0 v0] d IH]; [reflexivity|]. cbn [filter fst].
  destruct (key_eqb k k0) eqn:E; cbn [negb]; [exact IH|].
  cbn [dict_get]. rewrite E. exact IH.
Qed.

Lemma dict_get_del_other (k k' : Key) (d : dict Key (list Z)) :
  k' <> k ->
  dict_get key_eqb k' (filter (fun kv => negb (key_eqb k (fst kv))) d)
  = dict_get key_eqb k' d.
Proof.
  intros N. induction d as [|[k0 v0] d IH]; [reflexivity|]. cbn [filter fst].
  destruct (key_eqb k k0) eqn:E; cbn [negb dict_get].
  - apply key_eqb_spec in E. subst k0.
    rewrite (@eqb_neq Key key_eqb key_eqb_spec k' k N). exact IH.
  - destruct (key_eqb k' k0); [reflexivity|exact IH].
Qed.

(** X25. Renaming a key. For a key whose name leads to the [NamedNode]
    that holds it, [UpdateNamed(key, newKey)] returns; afterwards the key
    has no name, the new key, when it is another key, has the name the
    key had, and no other name has changed; in a tree that has been
    loaded the node holds the new key and not the key, and its other
    keys as before, and in a tree that has not been loaded the nodes are
    as before. Renaming a key to itself is not the identity: the key
    loses its name and its place in the node. *)
Theorem UpdateNamed_renames (treeHasBeenBuilt : bool) (key newKey : Key) (t : Tree)
    (location : list Z) :
  dict_get key_eqb key (_names t) = Some location ->
  names_node_of t key location ->
  exists t',
    UpdateNamed treeHasBeenBuilt key newKey t = (Ok tt, t')
    /\ dict_get key_eqb key (_names t') = None
    /\ (newKey <> key -> dict_get key_eqb newKey (_names t') = Some location)
    /\ (forall k, k <> key -> k <> newKey ->
          dict_get key_eqb k (_names t') = dict_get key_eqb k (_names t))
    /\ (treeHasBeenBuilt = false -> _tree t' = _tree t)
    /\ (treeHasBeenBuilt = true ->
          exists n' np',
            node_at (_tree t') location = Some n'
            /\ namedPart n' = Some np'
            /\ ~ In key (_namedChildren np')
            /\ (newKey <> key -> In newKey (_namedChildren np'))
            /\ forall k np, k <> key -> k <> newKey ->
                 option_map namedPart (node_at (_tree t) location) = Some (Some np) ->
                 (In k (_namedChildren np') <-> In k (_namedChildren np))).
Proof.
  intros G. unfold UpdateNamed. rewrite G.
  intros (NE & n & np & Hn & Hnp & Hkey).
  assert (Hdel : dict_del key_eqb key (dict_set key_eqb newKey location (_names t))
                 = Ok (filter (fun kv => negb (key_eqb key (fst kv)))
                              (dict_set key_eqb newKey location (_names t)))).
  { unfold dict_del.
    assert (X : dict_in key_eqb key (dict_set key_eqb newKey location (_names t)) = true).
    { unfold dict_in. destruct (String.eqb_spec key newKey) as [->|N].
      - rewrite (dict_get_set_same key_eqb_spec). reflexivity.
      - rewrite (dict_get_set_other key_eqb_spec) by exact N. rewrite G. reflexivity. }
    rewrite X. reflexivity. }
  assert (Hnames : forall root,
            let t' := mkTree root (filter (fun kv => negb (key_eqb key (fst kv)))
                                          (dict_set key_eqb newKey location (_names t)))
                             (DEPTH t) in
            dict_get key_eqb key (_names t') = None
            /\ (newKey <> key -> dict_get key_eqb newKey (_names t') = Some location)
            /\ (forall k, k <> key -> k <> newKey ->
                  dict_get key_eqb k (_names t') = dict_get key_eqb k (_names t))).
  { intros root. cbn [_names]. split; [apply dict_get_del_same|]. split.
    - intros N. rewrite dict_get_del_other by exact N.
      apply (dict_get_set_same key_eqb_spec).
    - intros k N1 N2. rewrite dict_get_del_other by exact N1.
      apply (dict_get_set_other key_eqb_spec). exact N2. }
  destruct treeHasBeenBuilt.
  - rewrite Traverse_node_at. destruct location as [|i location]; [contradiction|].
    rewrite Hn, Hnp. unfold rename_named.
    rewrite (proj2 (key_in_In key (_namedChildren np)) Hkey).
    set (keys' := filter (fun k => negb (key_eqb key k))
                         (if key_in newKey (_namedChildren np) then _namedChildren np
                          else _namedChildren np ++ [newKey])).
    set (root1 := update_at (_tree t) (i :: location)
                    (fun n0 => with_named n0 (Some (mkNamed (_wgst np) keys')))).
    assert (H1 : node_at root1 (i :: location)
                 = Some (with_named n (Some (mkNamed (_wgst np) keys')))).
    { subst root1. rewrite node_at_update_same, Hn. reflexivity. }
    destruct (@replace_preferred_runs key newKey (i :: location) root1 [])
      as (root' & E & K); [cbn [app]; rewrite H1; discriminate|].
    rewrite E. rewrite Hdel.
    eexists. split; [reflexivity|].
    destruct (Hnames root') as (A & B & C).
    split; [exact A|]. split; [exact B|]. split; [exact C|].
    split; [discriminate|]. intros _. cbn [_tree].
    cbn [app] in K. rewrite H1 in K. cbn [option_map with_named namedPart] in K.
    destruct (node_at root' (i :: location)) as [n'|]; [|discriminate].
    cbn [option_map] in K. injection K as K.
    exists n', (mkNamed (_wgst np) keys'). split; [reflexivity|]. split; [exact K|].
    cbn [_namedChildren]. subst keys'. split; [|split].
    + intros X. apply filter_In in X. destruct X as [_ X].
      unfold key_eqb in X. rewrite String.eqb_refl in X. discriminate.
    + intros N. apply filter_In. split.
      * destruct (key_in newKey (_namedChildren np)) eqn:X;
          [apply key_in_In; exact X|apply in_or_app; right; left; reflexivity].
      * apply negb_true_iff. apply (proj2 (String.eqb_neq key newKey)). congruence.
    + intros k np0 N1 N2 Hnp0. cbn [option_map] in Hnp0. rewrite Hnp in Hnp0.
      injection Hnp0 as <-. rewrite filter_In.
      assert (Nk : negb (key_eqb key k) = true).
      { apply negb_true_iff. apply (proj2 (String.eqb_neq key k)). congruence. }
      rewrite Nk. destruct (key_in newKey (_namedChildren np)).
      * tauto.
      * rewrite in_app_iff. cbn [In]. split; [intros [[X|[X|[]]] _]; [exact X|congruence]|tauto].
  - rewrite Hdel. eexists. split; [reflexivity|].
    destruct (Hnames (_tree t)) as (A & B & C).
    split; [exact A|]. split; [exact B|]. split; [exact C|].
    split; [reflexivity|discriminate].
Qed.

Lemma UpdateNamed_renames_witness :
  dict_get key_eqb "K1"%string (_names reported_tree) = Some [1; 1]
  /\ names_node_of reported_tree "K1"%string [1; 1]
  /\ exists t',
       UpdateNamed true "K1"%string "K1"%string reported_tree = (Ok tt, t')
       /\ dict_get key_eqb "K1"%string (_names t') = None
       /\ ("K1"%string <> "K1"%string ->
           dict_get key_eqb "K1"%string (_names t') = Some [1; 1])
       /\ (forall k, k <> "K1"%string -> k <> "K1"%string ->
             dict_get key_eqb k (_names t') = dict_get key_eqb k (_names reported_tree))
       /\ (true = false -> _tree t' = _tree reported_tree)
       /\ (true = true ->
             exists n' np',
               node_at (_tree t') [1; 1] = Some n'
               /\ namedPart n' = Some np'
               /\ ~ In "K1"%string (_namedChildren np')
               /\ ("K1"%string <> "K1"%string -> In "K1"%string (_namedChildren np'))
               /\ forall k np, k <> "K1"%string -> k <> "K1"%string ->
                    option_map namedPart (node_at (_tree reported_tree) [1; 1])
                    = Some (Some np) ->
                    (In k (_namedChildren np') <-> In k (_namedChildren np))).
Proof.
  assert (H1 : dict_get key_eqb "K1"%string (_names reported_tree) = Some [1; 1])
    by reflexivity.
  assert (H2 : names_node_of reported_tree "K1"%string [1; 1]).
  { split; [discriminate|]. eexists. eexists. split; [reflexivity|].
    split; [reflexivity|]. left. reflexivity. }
  split; [exact H1|]. split; [exact H2|].
  exact (@UpdateNamed_renames true "K1"%string "K1"%string reported_tree [1; 1] H1 H2).
Defined.

